(** * Row numbers, column iterators and composite iterators of pkg/parquetquery

    A shallow embedding of [pkg/parquetquery/iters.go] (row-number algebra,
    [SyncIterator], [JoinIterator], [LeftJoinIterator], [UnionIterator],
    [KeyValueGroupPredicate]) and of the replication accounting exercised by
    [TestDiscardCountReplicationFactor], with the properties the
    specification states about them.

    Conventions.
    - A Go [int32] is a [Z]; arithmetic that can overflow is wrapped with
      [wrap32].  A Go [int64] row count is a [Z].
    - Repetition levels, definition levels and array indices are [nat].
    - A Go run-time panic (index out of range, nil dereference, explicit
      [panic]) is the outcome [Panic] (or [None] for the pure row-number
      functions); an [error] value returned by the code is [Err].
    - Loops whose bound is not structural take a fuel argument; running out
      of fuel is [None] and is kept apart from the outcomes of the program. *)

From Stdlib Require Import ZArith List Bool Lia Strings.String Strings.Ascii Strings.Byte.
From Stdlib Require Import Sorted Permutation Arith PeanoNat.
Import ListNotations.
Local Open Scope Z_scope.

(* ------------------------------------------------------------------ *)
(** ** Machine integers *)

Definition MaxInt32 : Z := 2147483647.
Definition MinInt32 : Z := -2147483648.

(** Two's complement wrap-around of a 32-bit signed integer. *)
Definition wrap32 (z : Z) : Z := (z + 2147483648) mod 4294967296 - 2147483648.

Definition int32 (z : Z) : Prop := MinInt32 <= z <= MaxInt32.

(* ------------------------------------------------------------------ *)
(** ** RowNumber: [type RowNumber [8]int32] *)

Record RowNumber : Type := mkRN
  { rn0 : Z; rn1 : Z; rn2 : Z; rn3 : Z; rn4 : Z; rn5 : Z; rn6 : Z; rn7 : Z }.

Definition MaxDefinitionLevel : nat := 7.

(** [t[i]]; [None] is the index-out-of-range panic. *)
Definition rn_get (t : RowNumber) (i : nat) : option Z :=
  match i with
  | 0%nat => Some (rn0 t) | 1%nat => Some (rn1 t) | 2%nat => Some (rn2 t)
  | 3%nat => Some (rn3 t) | 4%nat => Some (rn4 t) | 5%nat => Some (rn5 t)
  | 6%nat => Some (rn6 t) | 7%nat => Some (rn7 t)
  | _ => None
  end.

(** [t[i] = v]; [None] is the index-out-of-range panic. *)
Definition rn_set (t : RowNumber) (i : nat) (v : Z) : option RowNumber :=
  let '(mkRN a0 a1 a2 a3 a4 a5 a6 a7) := t in
  match i with
  | 0%nat => Some (mkRN v a1 a2 a3 a4 a5 a6 a7)
  | 1%nat => Some (mkRN a0 v a2 a3 a4 a5 a6 a7)
  | 2%nat => Some (mkRN a0 a1 v a3 a4 a5 a6 a7)
  | 3%nat => Some (mkRN a0 a1 a2 v a4 a5 a6 a7)
  | 4%nat => Some (mkRN a0 a1 a2 a3 v a5 a6 a7)
  | 5%nat => Some (mkRN a0 a1 a2 a3 a4 v a6 a7)
  | 6%nat => Some (mkRN a0 a1 a2 a3 a4 a5 v a7)
  | 7%nat => Some (mkRN a0 a1 a2 a3 a4 a5 a6 v)
  | _ => None
  end.

Definition rn_list (t : RowNumber) : list Z :=
  [rn0 t; rn1 t; rn2 t; rn3 t; rn4 t; rn5 t; rn6 t; rn7 t].

Definition rn_int32 (t : RowNumber) : Prop := Forall int32 (rn_list t).

Definition RowNumber_eqb (a b : RowNumber) : bool :=
  forallb (fun p => fst p =? snd p) (combine (rn_list a) (rn_list b)).

Definition EmptyRowNumber : RowNumber := mkRN (-1) (-1) (-1) (-1) (-1) (-1) (-1) (-1).

(** [RowNumber{math.MaxInt32}]: the remaining seven positions are Go's zero
    value. *)
Definition MaxRowNumber : RowNumber := mkRN MaxInt32 0 0 0 0 0 0 0.

(** The body of [for i := i0; ...; i++] in [CompareRowNumbers], run [n]
    times from index [i]. *)
Fixpoint compare_loop (n i : nat) (a b : RowNumber) : option Z :=
  match n with
  | O => Some 0
  | S n' =>
      match rn_get a i, rn_get b i with
      | Some x, Some y =>
          if x <? y then Some (-1)
          else if x >? y then Some 1
          else compare_loop n' (S i) a b
      | _, _ => None
      end
  end.

Definition CompareRowNumbers (upToDefinitionLevel : nat) (a b : RowNumber) : option Z :=
  compare_loop (S upToDefinitionLevel) 0 a b.

Fixpoint equal_loop (n i : nat) (a b : RowNumber) : option bool :=
  match n with
  | O => Some true
  | S n' =>
      match rn_get a i, rn_get b i with
      | Some x, Some y =>
          if negb (x =? y) then Some false else equal_loop n' (S i) a b
      | _, _ => None
      end
  end.

Definition EqualRowNumber (upToDefinitionLevel : nat) (a b : RowNumber) : option bool :=
  equal_loop (S upToDefinitionLevel) 0 a b.

Fixpoint truncate_loop (n i : nat) (t acc : RowNumber) : option RowNumber :=
  match n with
  | O => Some acc
  | S n' =>
      match rn_get t i with
      | Some x =>
          match rn_set acc i x with
          | Some acc' => truncate_loop n' (S i) t acc'
          | None => None
          end
      | None => None
      end
  end.

Definition truncateRowNumberSlow (definitionLevelToKeep : nat) (t : RowNumber) : option RowNumber :=
  truncate_loop (S definitionLevelToKeep) 0 t EmptyRowNumber.

(** The [switch] of the source, case by case; the [default] case panics. *)
Definition TruncateRowNumber (definitionLevelToKeep : nat) (t : RowNumber) : option RowNumber :=
  let '(mkRN t0 t1 t2 t3 t4 t5 t6 t7) := t in
  match definitionLevelToKeep with
  | 0%nat => Some (mkRN t0 (-1) (-1) (-1) (-1) (-1) (-1) (-1))
  | 1%nat => Some (mkRN t0 t1 (-1) (-1) (-1) (-1) (-1) (-1))
  | 2%nat => Some (mkRN t0 t1 t2 (-1) (-1) (-1) (-1) (-1))
  | 3%nat => Some (mkRN t0 t1 t2 t3 (-1) (-1) (-1) (-1))
  | 4%nat => Some (mkRN t0 t1 t2 t3 t4 (-1) (-1) (-1))
  | 5%nat => Some (mkRN t0 t1 t2 t3 t4 t5 (-1) (-1))
  | 6%nat => Some (mkRN t0 t1 t2 t3 t4 t5 t6 (-1))
  | 7%nat => Some (mkRN t0 t1 t2 t3 t4 t5 t6 t7)
  | _ => None
  end.

Definition Valid (t : RowNumber) : bool := rn0 t >=? 0.

(** [for i := i0; ...; i++ { t[i] = v }], run [n] times from index [i]. *)
Fixpoint fill_loop (n i : nat) (v : Z) (t : RowNumber) : option RowNumber :=
  match n with
  | O => Some t
  | S n' =>
      match rn_set t i v with
      | Some t' => fill_loop n' (S i) v t'
      | None => None
      end
  end.

(** [func (t *RowNumber) Next(repetitionLevel, definitionLevel, maxDefinitionLevel int)].
    The first loop runs for [i] in [repetitionLevel+1 .. definitionLevel];
    the second for [i] from [definitionLevel+1] while [i < len(t)] and
    [i <= maxDefinitionLevel]. *)
Definition RowNumber_Next (t : RowNumber) (repetitionLevel definitionLevel maxDefinitionLevel : nat)
  : option RowNumber :=
  match rn_get t repetitionLevel with
  | None => None
  | Some x =>
      match rn_set t repetitionLevel (wrap32 (x + 1)) with
      | None => None
      | Some t1 =>
          match fill_loop (definitionLevel - repetitionLevel) (S repetitionLevel) 0 t1 with
          | None => None
          | Some t2 =>
              fill_loop (Nat.min 8 (S maxDefinitionLevel) - S definitionLevel)
                        (S definitionLevel) (-1) t2
          end
      end
  end.

(** [func (t *RowNumber) Skip(numRows int64)]: [t[0] += int32(numRows)] and
    every lower position becomes -1. *)
Definition RowNumber_Skip (t : RowNumber) (numRows : Z) : RowNumber :=
  mkRN (wrap32 (rn0 t + wrap32 numRows)) (-1) (-1) (-1) (-1) (-1) (-1) (-1).

(** The loop of [Preceding]: [n] is [i+1], so the loop runs for
    [i = n-1] down to [0]. *)
Fixpoint preceding_loop (n : nat) (t : RowNumber) : option RowNumber :=
  match n with
  | O => Some t
  | S i =>
      match rn_get t i with
      | None => None
      | Some x =>
          if x =? -1 then preceding_loop i t
          else if x =? 0 then
                 match rn_set t i MaxInt32 with
                 | Some t' => preceding_loop i t'
                 | None => None
                 end
          else rn_set t i (wrap32 (x - 1))
      end
  end.

(** [func (t RowNumber) Preceding() RowNumber]; the indices stay below
    [len(t) = 8], so the loop cannot panic (see [Preceding_total]). *)
Definition RowNumber_Preceding (t : RowNumber) : RowNumber :=
  match preceding_loop 8 t with
  | Some t' => t'
  | None => t
  end.

(* ------------------------------------------------------------------ *)
(** ** Outcomes *)

(** A Go [error] value; only its identity matters. *)
Definition error : Type := string.

(** What a call can end with: a value, an [error] returned to the caller,
    or a run-time panic. *)
Inductive Res (A : Type) : Type :=
| Ok (a : A)
| Err (e : error)
| Panic.
Arguments Ok {A} a.
Arguments Err {A} e.
Arguments Panic {A}.

(* ------------------------------------------------------------------ *)
(** ** The part of parquet-go the iterators use

    [pq.Value], [pq.Page], [pq.ValueReader], [pq.RowGroup] and the
    repository's [ColumnChunkHelper] and [Predicate] are declared outside
    [iters.go]; they are taken here as the data they expose through the
    methods [iters.go] calls. *)

(** [pq.Value]: repetition level, definition level and the bytes returned
    by [ByteArray()].  [Clone] is the identity on this data. *)
Record Value : Type := mkValue
  { RepetitionLevel : nat; DefinitionLevel : nat; ByteArray : list byte }.

(** The zero [pq.Value{}]. *)
Definition zeroValue : Value := mkValue 0 0 [].

(** [pq.Page]: [NumRows()] and the values behind [Values()];
    [page_err] is an I/O error the page's value reader reports once its
    values are used up. *)
Record Page : Type := mkPage
  { page_NumRows : Z; page_values : list Value; page_err : option error }.

(** [pq.ValueReader] over the values still to be read. *)
Record ValueReader : Type := mkReader
  { reader_values : list Value; reader_err : option error }.

Definition Page_Values (p : Page) : ValueReader :=
  mkReader (page_values p) (page_err p).

(** [ReadValues(buf)] with [n = cap(buf)]: the values read, an error other
    than [io.EOF] if any, and the reader afterwards.  [io.EOF] and [nil]
    are not told apart: the callers treat them alike. *)
Definition ReadValues (n : nat) (r : ValueReader) : list Value * option error * ValueReader :=
  match reader_values r with
  | [] => ([], reader_err r, r)
  | _ => (firstn n (reader_values r), None,
          mkReader (skipn n (reader_values r)) (reader_err r))
  end.

(** [RepetitionLevels()]: the repetition level of every value of the page. *)
Definition Page_RepetitionLevels (p : Page) : list nat :=
  map RepetitionLevel (page_values p).

(** The values after the current row: up to the next value that starts a
    row (repetition level 0). *)
Fixpoint row_tail (vs : list Value) : list Value :=
  match vs with
  | [] => []
  | v :: vs' => if Nat.eqb (RepetitionLevel v) 0 then vs else row_tail vs'
  end.

(** The values with their first [n] rows removed. *)
Fixpoint skip_rows (n : nat) (vs : list Value) : list Value :=
  match n with
  | O => vs
  | S n' =>
      match vs with
      | [] => []
      | _ :: vs' => skip_rows n' (row_tail vs')
      end
  end.

(** The values of the current row: up to the next value that starts a row. *)
Fixpoint row_head (vs : list Value) : list Value :=
  match vs with
  | [] => []
  | v :: vs' => if Nat.eqb (RepetitionLevel v) 0 then [] else v :: row_head vs'
  end.

(** The values of the first [n] rows. *)
Fixpoint take_rows (n : nat) (vs : list Value) : list Value :=
  match n with
  | O => []
  | S n' =>
      match vs with
      | [] => []
      | v :: vs' => v :: row_head vs' ++ take_rows n' (row_tail vs')
      end
  end.

(** [Page.Slice(i, j)]: the rows [i] (inclusive) to [j] (exclusive). *)
Definition Page_Slice (p : Page) (i j : Z) : Page :=
  mkPage (j - i)
         (take_rows (Z.to_nat (j - i)) (skip_rows (Z.to_nat i) (page_values p)))
         (page_err p).

(** What [NextPage()] can deliver next: a page or an I/O error. *)
Inductive PageRead : Type :=
| ReadPage (p : Page)
| ReadErr (e : error).

(** Modelled from the spec: [ColumnChunkHelper] (declared outside
    [iters.go]) as the column chunk of section 6, [next_page() ->
    Option<Page> | error]: the reads still to come. *)
Definition ColumnChunk : Type := list PageRead.

(** [NextPage()]: the page or [nil], an error other than [io.EOF] if any,
    and the chunk afterwards. *)
Definition NextPage (cc : ColumnChunk) : option Page * option error * ColumnChunk :=
  match cc with
  | [] => (None, None, [])
  | ReadPage p :: rest => (Some p, None, rest)
  | ReadErr e :: rest => (None, Some e, rest)
  end.

(** [pq.RowGroup]: [NumRows()] and [ColumnChunks()]. *)
Record RowGroup : Type := mkRowGroup
  { rg_NumRows : Z; rg_ColumnChunks : list ColumnChunk }.

(** Modelled from the spec: the [Predicate] interface (declared outside
    [iters.go]) with the three capabilities of section 4.1.1; predicates
    are pure. *)
Record Predicate : Type := mkPredicate
  { KeepColumnChunk : ColumnChunk -> bool;
    KeepPage : Page -> bool;
    KeepValue : Value -> bool }.

(* ------------------------------------------------------------------ *)
(** ** IteratorResult *)

(** The [interface{}] values of [OtherEntries]: opaque references. *)
Inductive AnyValue : Type := AnyRef (id : nat).

Record IteratorResult : Type := mkResult
  { ir_RowNumber : RowNumber;
    Entries : list (string * Value);
    OtherEntries : list (string * AnyValue) }.

Definition emptyResult : IteratorResult := mkResult (mkRN 0 0 0 0 0 0 0 0) [] [].

Definition IteratorResult_Reset (r : IteratorResult) : IteratorResult :=
  mkResult (ir_RowNumber r) [] [].

Definition IteratorResult_Append (r rr : IteratorResult) : IteratorResult :=
  mkResult (ir_RowNumber r)
           (if (0 <? List.length (Entries rr))%nat then Entries r ++ Entries rr else Entries r)
           (if (0 <? List.length (OtherEntries rr))%nat
            then OtherEntries r ++ OtherEntries rr else OtherEntries r).

Definition IteratorResult_AppendValue (r : IteratorResult) (k : string) (v : Value) : IteratorResult :=
  mkResult (ir_RowNumber r) (Entries r ++ [(k, v)]) (OtherEntries r).

Definition with_RowNumber (r : IteratorResult) (t : RowNumber) : IteratorResult :=
  mkResult t (Entries r) (OtherEntries r).

(** One pass of the inner loop of [Columns]: the entry goes to the buffer
    of the first name equal to its key. *)
Fixpoint columns_add (names : list string) (buffer : list (list Value))
         (e : string * Value) : list (list Value) :=
  match names, buffer with
  | n :: names', b :: buffer' =>
      if String.eqb (fst e) n then (b ++ [snd e]) :: buffer'
      else b :: columns_add names' buffer' e
  | _, _ => buffer
  end.

(** [func (r *IteratorResult) Columns(buffer, names...)]: the buffers are
    emptied first, so the result does not depend on the buffer passed. *)
Definition Columns (r : IteratorResult) (names : list string) : list (list Value) :=
  fold_left (columns_add names) (Entries r) (map (fun _ => []) names).

(* ------------------------------------------------------------------ *)
(** ** KeyValueGroupPredicate *)

Record KeyValueGroupPredicate : Type := mkKV
  { kv_keys : list (list byte); kv_vals : list (list byte) }.

Definition NewKeyValueGroupPredicate (keys values : list string) : KeyValueGroupPredicate :=
  mkKV (map list_byte_of_string keys) (map list_byte_of_string values).

(** [bytes.Equal]. *)
Fixpoint bytes_Equal (a b : list byte) : bool :=
  match a, b with
  | [], [] => true
  | x :: a', y :: b' => Byte.eqb x y && bytes_Equal a' b'
  | _, _ => false
  end.

(** The inner [for j] loop of [KeepGroup]: is the pair found at some [j]
    below both lengths? *)
Fixpoint kv_found (k v : list byte) (keys vals : list Value) : bool :=
  match keys, vals with
  | key :: keys', val :: vals' =>
      if bytes_Equal k (ByteArray key) && bytes_Equal v (ByteArray val) then true
      else kv_found k v keys' vals'
  | _, _ => false
  end.

(** The outer [for i] loop of [KeepGroup], from index [i], [n] times;
    [a.vals[i]] panics when [a.vals] is shorter than [a.keys]. *)
Fixpoint kv_all (n i : nat) (a : KeyValueGroupPredicate) (keys vals : list Value) : option bool :=
  match n with
  | O => Some true
  | S n' =>
      match nth_error (kv_keys a) i, nth_error (kv_vals a) i with
      | Some k, Some v =>
          if kv_found k v keys vals then kv_all n' (S i) a keys vals else Some false
      | _, _ => None
      end
  end.

(** [func (a *KeyValueGroupPredicate) KeepGroup(group)]; [None] is the
    index-out-of-range panic. *)
Definition KeepGroup (a : KeyValueGroupPredicate) (group : IteratorResult) : option bool :=
  match Columns group ["keys"; "values"]%string with
  | [keys; vals] =>
      if (List.length keys <? List.length (kv_keys a))%nat || negb (List.length keys =? List.length vals)%nat
      then Some false
      else kv_all (List.length (kv_keys a)) 0 a keys vals
  | _ => None
  end.

(** The entries of [r] stored under [name], in order. *)
Definition column_of (r : IteratorResult) (name : string) : list Value :=
  map snd (List.filter (fun e => String.eqb (fst e) name) (Entries r)).

(* ------------------------------------------------------------------ *)
(** ** SyncIterator *)

Module Sync.

(** [type SyncIterator struct]; [span] and [interner] (tracing and string
    interning) carry no data of the results and are left out; [at_] is the
    field [at]. *)
Record SyncIterator : Type := mkSync
  { column : nat;
    columnName : string;
    selectAs : string;
    rgs : list RowGroup;
    rgsMin : list RowNumber;
    rgsMax : list RowNumber;
    readSize : nat;
    filter : option Predicate;
    curr : RowNumber;
    currRowGroup : option RowGroup;
    currRowGroupMin : RowNumber;
    currRowGroupMax : RowNumber;
    currChunk : option ColumnChunk;
    currPage : option Page;
    currPageMin : RowNumber;
    currPageMax : RowNumber;
    currValues : option ValueReader;
    currBuf : option (list Value);
    currBufN : nat;
    currPageN : nat;
    at_ : IteratorResult;
    maxDefinitionLevel : nat;
    intern : bool }.

Definition set_columnName (c : SyncIterator) (v : string) : SyncIterator :=
  mkSync (column c) v (selectAs c) (rgs c) (rgsMin c) (rgsMax c) (readSize c) (filter c) (curr c) (currRowGroup c) (currRowGroupMin c) (currRowGroupMax c) (currChunk c) (currPage c) (currPageMin c) (currPageMax c) (currValues c) (currBuf c) (currBufN c) (currPageN c) (at_ c) (maxDefinitionLevel c) (intern c).
Definition set_selectAs (c : SyncIterator) (v : string) : SyncIterator :=
  mkSync (column c) (columnName c) v (rgs c) (rgsMin c) (rgsMax c) (readSize c) (filter c) (curr c) (currRowGroup c) (currRowGroupMin c) (currRowGroupMax c) (currChunk c) (currPage c) (currPageMin c) (currPageMax c) (currValues c) (currBuf c) (currBufN c) (currPageN c) (at_ c) (maxDefinitionLevel c) (intern c).
Definition set_rgs (c : SyncIterator) (v : list RowGroup) : SyncIterator :=
  mkSync (column c) (columnName c) (selectAs c) v (rgsMin c) (rgsMax c) (readSize c) (filter c) (curr c) (currRowGroup c) (currRowGroupMin c) (currRowGroupMax c) (currChunk c) (currPage c) (currPageMin c) (currPageMax c) (currValues c) (currBuf c) (currBufN c) (currPageN c) (at_ c) (maxDefinitionLevel c) (intern c).
Definition set_rgsMin (c : SyncIterator) (v : list RowNumber) : SyncIterator :=
  mkSync (column c) (columnName c) (selectAs c) (rgs c) v (rgsMax c) (readSize c) (filter c) (curr c) (currRowGroup c) (currRowGroupMin c) (currRowGroupMax c) (currChunk c) (currPage c) (currPageMin c) (currPageMax c) (currValues c) (currBuf c) (currBufN c) (currPageN c) (at_ c) (maxDefinitionLevel c) (intern c).
Definition set_rgsMax (c : SyncIterator) (v : list RowNumber) : SyncIterator :=
  mkSync (column c) (columnName c) (selectAs c) (rgs c) (rgsMin c) v (readSize c) (filter c) (curr c) (currRowGroup c) (currRowGroupMin c) (currRowGroupMax c) (currChunk c) (currPage c) (currPageMin c) (currPageMax c) (currValues c) (currBuf c) (currBufN c) (currPageN c) (at_ c) (maxDefinitionLevel c) (intern c).
Definition set_readSize (c : SyncIterator) (v : nat) : SyncIterator :=
  mkSync (column c) (columnName c) (selectAs c) (rgs c) (rgsMin c) (rgsMax c) v (filter c) (curr c) (currRowGroup c) (currRowGroupMin c) (currRowGroupMax c) (currChunk c) (currPage c) (currPageMin c) (currPageMax c) (currValues c) (currBuf c) (currBufN c) (currPageN c) (at_ c) (maxDefinitionLevel c) (intern c).
Definition set_filter (c : SyncIterator) (v : option Predicate) : SyncIterator :=
  mkSync (column c) (columnName c) (selectAs c) (rgs c) (rgsMin c) (rgsMax c) (readSize c) v (curr c) (currRowGroup c) (currRowGroupMin c) (currRowGroupMax c) (currChunk c) (currPage c) (currPageMin c) (currPageMax c) (currValues c) (currBuf c) (currBufN c) (currPageN c) (at_ c) (maxDefinitionLevel c) (intern c).
Definition set_curr (c : SyncIterator) (v : RowNumber) : SyncIterator :=
  mkSync (column c) (columnName c) (selectAs c) (rgs c) (rgsMin c) (rgsMax c) (readSize c) (filter c) v (currRowGroup c) (currRowGroupMin c) (currRowGroupMax c) (currChunk c) (currPage c) (currPageMin c) (currPageMax c) (currValues c) (currBuf c) (currBufN c) (currPageN c) (at_ c) (maxDefinitionLevel c) (intern c).
Definition set_currRowGroup (c : SyncIterator) (v : option RowGroup) : SyncIterator :=
  mkSync (column c) (columnName c) (selectAs c) (rgs c) (rgsMin c) (rgsMax c) (readSize c) (filter c) (curr c) v (currRowGroupMin c) (currRowGroupMax c) (currChunk c) (currPage c) (currPageMin c) (currPageMax c) (currValues c) (currBuf c) (currBufN c) (currPageN c) (at_ c) (maxDefinitionLevel c) (intern c).
Definition set_currRowGroupMin (c : SyncIterator) (v : RowNumber) : SyncIterator :=
  mkSync (column c) (columnName c) (selectAs c) (rgs c) (rgsMin c) (rgsMax c) (readSize c) (filter c) (curr c) (currRowGroup c) v (currRowGroupMax c) (currChunk c) (currPage c) (currPageMin c) (currPageMax c) (currValues c) (currBuf c) (currBufN c) (currPageN c) (at_ c) (maxDefinitionLevel c) (intern c).
Definition set_currRowGroupMax (c : SyncIterator) (v : RowNumber) : SyncIterator :=
  mkSync (column c) (columnName c) (selectAs c) (rgs c) (rgsMin c) (rgsMax c) (readSize c) (filter c) (curr c) (currRowGroup c) (currRowGroupMin c) v (currChunk c) (currPage c) (currPageMin c) (currPageMax c) (currValues c) (currBuf c) (currBufN c) (currPageN c) (at_ c) (maxDefinitionLevel c) (intern c).
Definition set_currChunk (c : SyncIterator) (v : option ColumnChunk) : SyncIterator :=
  mkSync (column c) (columnName c) (selectAs c) (rgs c) (rgsMin c) (rgsMax c) (readSize c) (filter c) (curr c) (currRowGroup c) (currRowGroupMin c) (currRowGroupMax c) v (currPage c) (currPageMin c) (currPageMax c) (currValues c) (currBuf c) (currBufN c) (currPageN c) (at_ c) (maxDefinitionLevel c) (intern c).
Definition set_currPage (c : SyncIterator) (v : option Page) : SyncIterator :=
  mkSync (column c) (columnName c) (selectAs c) (rgs c) (rgsMin c) (rgsMax c) (readSize c) (filter c) (curr c) (currRowGroup c) (currRowGroupMin c) (currRowGroupMax c) (currChunk c) v (currPageMin c) (currPageMax c) (currValues c) (currBuf c) (currBufN c) (currPageN c) (at_ c) (maxDefinitionLevel c) (intern c).
Definition set_currPageMin (c : SyncIterator) (v : RowNumber) : SyncIterator :=
  mkSync (column c) (columnName c) (selectAs c) (rgs c) (rgsMin c) (rgsMax c) (readSize c) (filter c) (curr c) (currRowGroup c) (currRowGroupMin c) (currRowGroupMax c) (currChunk c) (currPage c) v (currPageMax c) (currValues c) (currBuf c) (currBufN c) (currPageN c) (at_ c) (maxDefinitionLevel c) (intern c).
Definition set_currPageMax (c : SyncIterator) (v : RowNumber) : SyncIterator :=
  mkSync (column c) (columnName c) (selectAs c) (rgs c) (rgsMin c) (rgsMax c) (readSize c) (filter c) (curr c) (currRowGroup c) (currRowGroupMin c) (currRowGroupMax c) (currChunk c) (currPage c) (currPageMin c) v (currValues c) (currBuf c) (currBufN c) (currPageN c) (at_ c) (maxDefinitionLevel c) (intern c).
Definition set_currValues (c : SyncIterator) (v : option ValueReader) : SyncIterator :=
  mkSync (column c) (columnName c) (selectAs c) (rgs c) (rgsMin c) (rgsMax c) (readSize c) (filter c) (curr c) (currRowGroup c) (currRowGroupMin c) (currRowGroupMax c) (currChunk c) (currPage c) (currPageMin c) (currPageMax c) v (currBuf c) (currBufN c) (currPageN c) (at_ c) (maxDefinitionLevel c) (intern c).
Definition set_currBuf (c : SyncIterator) (v : option (list Value)) : SyncIterator :=
  mkSync (column c) (columnName c) (selectAs c) (rgs c) (rgsMin c) (rgsMax c) (readSize c) (filter c) (curr c) (currRowGroup c) (currRowGroupMin c) (currRowGroupMax c) (currChunk c) (currPage c) (currPageMin c) (currPageMax c) (currValues c) v (currBufN c) (currPageN c) (at_ c) (maxDefinitionLevel c) (intern c).
Definition set_currBufN (c : SyncIterator) (v : nat) : SyncIterator :=
  mkSync (column c) (columnName c) (selectAs c) (rgs c) (rgsMin c) (rgsMax c) (readSize c) (filter c) (curr c) (currRowGroup c) (currRowGroupMin c) (currRowGroupMax c) (currChunk c) (currPage c) (currPageMin c) (currPageMax c) (currValues c) (currBuf c) v (currPageN c) (at_ c) (maxDefinitionLevel c) (intern c).
Definition set_currPageN (c : SyncIterator) (v : nat) : SyncIterator :=
  mkSync (column c) (columnName c) (selectAs c) (rgs c) (rgsMin c) (rgsMax c) (readSize c) (filter c) (curr c) (currRowGroup c) (currRowGroupMin c) (currRowGroupMax c) (currChunk c) (currPage c) (currPageMin c) (currPageMax c) (currValues c) (currBuf c) (currBufN c) v (at_ c) (maxDefinitionLevel c) (intern c).
Definition set_at_ (c : SyncIterator) (v : IteratorResult) : SyncIterator :=
  mkSync (column c) (columnName c) (selectAs c) (rgs c) (rgsMin c) (rgsMax c) (readSize c) (filter c) (curr c) (currRowGroup c) (currRowGroupMin c) (currRowGroupMax c) (currChunk c) (currPage c) (currPageMin c) (currPageMax c) (currValues c) (currBuf c) (currBufN c) (currPageN c) v (maxDefinitionLevel c) (intern c).
Definition set_maxDefinitionLevel (c : SyncIterator) (v : nat) : SyncIterator :=
  mkSync (column c) (columnName c) (selectAs c) (rgs c) (rgsMin c) (rgsMax c) (readSize c) (filter c) (curr c) (currRowGroup c) (currRowGroupMin c) (currRowGroupMax c) (currChunk c) (currPage c) (currPageMin c) (currPageMax c) (currValues c) (currBuf c) (currBufN c) (currPageN c) (at_ c) v (intern c).
Definition set_intern (c : SyncIterator) (v : bool) : SyncIterator :=
  mkSync (column c) (columnName c) (selectAs c) (rgs c) (rgsMin c) (rgsMax c) (readSize c) (filter c) (curr c) (currRowGroup c) (currRowGroupMin c) (currRowGroupMax c) (currChunk c) (currPage c) (currPageMin c) (currPageMax c) (currValues c) (currBuf c) (currBufN c) (currPageN c) (at_ c) (maxDefinitionLevel c) v.

(** Loop control inside [next], [seekRowGroup] and [seekPages]:
    [Continue] goes round the loop again, [Return] leaves the function. *)
Inductive Flow (A : Type) : Type :=
| Continue (c : SyncIterator)
| Return (c : SyncIterator) (r : A).
Arguments Continue {A} c.
Arguments Return {A} c r.

(** [c.filter != nil && !c.filter.KeepColumnChunk(cc)] and the like. *)
Definition rejectsChunk (c : SyncIterator) (cc : ColumnChunk) : bool :=
  match filter c with Some p => negb (KeepColumnChunk p cc) | None => false end.
Definition rejectsPage (c : SyncIterator) (pg : Page) : bool :=
  match filter c with Some p => negb (KeepPage p pg) | None => false end.
Definition rejectsValue (c : SyncIterator) (v : Value) : bool :=
  match filter c with Some p => negb (KeepValue p v) | None => false end.

(** Options of [NewSyncIterator]. *)
Definition SyncIteratorOpt : Type := SyncIterator -> SyncIterator.
Definition SyncIteratorOptIntern : SyncIteratorOpt := fun i => set_intern i true.
Definition SyncIteratorOptPredicate (p : option Predicate) : SyncIteratorOpt :=
  fun i => set_filter i p.
Definition SyncIteratorOptColumnName (columnName : string) : SyncIteratorOpt :=
  fun i => set_columnName i columnName.
Definition SyncIteratorOptSelectAs (selectAs : string) : SyncIteratorOpt :=
  fun i => set_selectAs i selectAs.
Definition SyncIteratorOptBufferSize (bufferSize : nat) : SyncIteratorOpt :=
  fun i => set_readSize i bufferSize.
Definition SyncIteratorOptMaxDefinitionLevel (maxDefinitionLevel : nat) : SyncIteratorOpt :=
  fun i => set_maxDefinitionLevel i maxDefinitionLevel.

(** The loop of [NewSyncIterator] that assigns the row group bounds:
    [rgsMin[i] = rn; rgsMax[i] = rn; rgsMax[i].Skip(rg.NumRows() + 1);
    rn.Skip(rg.NumRows())]. *)
Fixpoint rowGroupBounds (rn : RowNumber) (rgs : list RowGroup)
  : list RowNumber * list RowNumber :=
  match rgs with
  | [] => ([], [])
  | rg :: rgs' =>
      let '(mins, maxs) := rowGroupBounds (RowNumber_Skip rn (rg_NumRows rg)) rgs' in
      (rn :: mins, RowNumber_Skip rn (rg_NumRows rg + 1) :: maxs)
  end.

Definition NewSyncIterator (rgs : list RowGroup) (column : nat) (opts : list SyncIteratorOpt)
  : SyncIterator :=
  let '(rgsMin, rgsMax) := rowGroupBounds EmptyRowNumber rgs in
  let i := mkSync column EmptyString EmptyString rgs rgsMin rgsMax
                  1000 None
                  EmptyRowNumber None EmptyRowNumber EmptyRowNumber
                  None None EmptyRowNumber EmptyRowNumber None None 0 0
                  (mkResult (mkRN 0 0 0 0 0 0 0 0) [] [])
                  MaxDefinitionLevel false in
  let i := fold_left (fun i opt => opt i) opts i in
  if String.eqb (selectAs i) EmptyString then i
  else set_at_ i (mkResult (ir_RowNumber (at_ i)) [(selectAs i, zeroValue)] (OtherEntries (at_ i))).

(** [popRowGroup]; the three slices are advanced together, and a shorter
    [rgsMin] or [rgsMax] is the index-out-of-range panic. *)
Definition popRowGroup (c : SyncIterator)
  : Res (SyncIterator * option (RowGroup * RowNumber * RowNumber)) :=
  match rgs c with
  | [] => Ok (c, None)
  | rg :: rgs' =>
      match rgsMin c, rgsMax c with
      | mn :: mins', mx :: maxs' =>
          Ok (set_rgsMax (set_rgsMin (set_rgs c rgs') mins') maxs', Some (rg, mn, mx))
      | _, _ => Panic
      end
  end.

Definition setPage (c : SyncIterator) (pg : option Page) : SyncIterator :=
  (* Handle an outgoing page *)
  let c := match currPage c with
           | Some _ => set_currPage (set_curr c (RowNumber_Preceding (currPageMax c))) None
           | None => c
           end in
  (* Reset value buffers *)
  let c := set_currValues c None in
  let c := set_currPageMax c EmptyRowNumber in
  let c := set_currPageMin c EmptyRowNumber in
  let c := set_currBufN c 0%nat in
  let c := set_currPageN c 0%nat in
  match pg with
  | None => set_currBuf c None
  | Some p =>
      let rn := RowNumber_Skip (curr c) (page_NumRows p + 1) in
      let c := set_currPage c (Some p) in
      let c := set_currPageMin c (curr c) in
      let c := set_currPageMax c rn in
      set_currValues c (Some (Page_Values p))
  end.

Definition closeCurrRowGroup (c : SyncIterator) : SyncIterator :=
  let c := set_currRowGroup c None in
  let c := set_currRowGroupMin c EmptyRowNumber in
  let c := set_currRowGroupMax c EmptyRowNumber in
  let c := set_currChunk c None in
  setPage c None.

Definition setRowGroup (c : SyncIterator) (rg : RowGroup) (min max : RowNumber)
           (cc : ColumnChunk) : SyncIterator :=
  let c := closeCurrRowGroup c in
  let c := set_curr c min in
  let c := set_currRowGroup c (Some rg) in
  let c := set_currRowGroupMin c min in
  let c := set_currRowGroupMax c max in
  set_currChunk c (Some cc).

(** [makeResult(t, v)]: the result is the iterator's own [at], returned by
    reference in the source and by value here. *)
Definition makeResult (c : SyncIterator) (t : RowNumber) (v : option Value)
  : SyncIterator * Res (option IteratorResult) :=
  let a := with_RowNumber (at_ c) t in
  match Entries a with
  | [(k, _)] =>
      match v with
      | Some v' =>
          let a' := mkResult t [(k, v')] (OtherEntries a) in
          (set_at_ c a', Ok (Some a'))
      | None => (set_at_ c a, Panic)
      end
  | _ => (set_at_ c a, Ok (Some a))
  end.

(** The first part of the loop of [next]: make sure there is a row group. *)
Definition next_rowGroup {A} (c : SyncIterator)
           (done : SyncIterator -> Res A) (k : SyncIterator -> Flow (Res A)) : Flow (Res A) :=
  match currRowGroup c with
  | Some _ => k c
  | None =>
      match popRowGroup c with
      | Panic => Return c Panic
      | Err e => Return c (Err e)
      | Ok (c, None) => Return c (done c)
      | Ok (c, Some (rg, min, max)) =>
          match nth_error (rg_ColumnChunks rg) (column c) with
          | None => Return c Panic
          | Some cc =>
              if rejectsChunk c cc then Continue c
              else k (setRowGroup c rg min max cc)
          end
      end
  end.

(** The second part: make sure there is a page. *)
Definition next_page {A} (c : SyncIterator) (k : SyncIterator -> Flow (Res A)) : Flow (Res A) :=
  match currPage c with
  | Some _ => k c
  | None =>
      match currChunk c with
      | None => Return c Panic
      | Some cc =>
          let '(pg, err, cc') := NextPage cc in
          let c := set_currChunk c (Some cc') in
          match err, pg with
          | Some e, _ => Return c (Err e)
          | None, None => Continue (closeCurrRowGroup c)
          | None, Some p =>
              if rejectsPage c p
              then Continue (set_curr c (RowNumber_Skip (curr c) (page_NumRows p)))
              else k (setPage c (Some p))
          end
      end
  end.

(** The third part: read the next batch of values if needed.  The buffer
    handed out by the pool is taken to have capacity [readSize]. *)
Definition next_buffer {A} (c : SyncIterator) (k : SyncIterator -> Flow (Res A)) : Flow (Res A) :=
  let c := match currBuf c with
           | None => set_currBuf c (Some [])
           | Some _ => c
           end in
  let buf := match currBuf c with Some b => b | None => [] end in
  if (List.length buf <=? currBufN c)%nat || (List.length buf =? 0)%nat then
    match currValues c with
    | None => Return c Panic
    | Some r =>
        let '(vs, err, r') := ReadValues (readSize c) r in
        let c := set_currValues c (Some r') in
        match err with
        | Some e => Return c (Err e)
        | None =>
            let c := set_currBufN (set_currBuf c (Some vs)) 0%nat in
            match vs with
            | [] => Continue (setPage c None)
            | _ => k c
            end
        end
    end
  else k c.

(** The inner loop of [next] over the unread part [vs] of the buffer. *)
Fixpoint next_consume (vs : list Value) (c : SyncIterator)
  : Flow (Res (RowNumber * option Value)) :=
  match vs with
  | [] => Continue c
  | v :: vs' =>
      match RowNumber_Next (curr c) (RepetitionLevel v) (DefinitionLevel v)
                           (maxDefinitionLevel c) with
      | None => Return c Panic
      | Some rn =>
          let c := set_curr c rn in
          let c := set_currBufN c (S (currBufN c)) in
          let c := set_currPageN c (S (currPageN c)) in
          if rejectsValue c v then next_consume vs' c
          else Return c (Ok (curr c, Some v))
      end
  end.

(** One round of the [for] loop of [next]. *)
Definition next_body (c : SyncIterator) : Flow (Res (RowNumber * option Value)) :=
  next_rowGroup c (fun _ => Ok (EmptyRowNumber, None)) (fun c =>
  next_page c (fun c =>
  next_buffer c (fun c =>
  next_consume (skipn (currBufN c) (match currBuf c with Some b => b | None => [] end)) c))).

Fixpoint next_fuel (fuel : nat) (c : SyncIterator)
  : option (SyncIterator * Res (RowNumber * option Value)) :=
  match fuel with
  | O => None
  | S fuel' =>
      match next_body c with
      | Continue c' => next_fuel fuel' c'
      | Return c' r => Some (c', r)
      end
  end.

(** What is left to read: a bound on the rounds of the loops. *)
Definition readWeight (rd : PageRead) : nat :=
  match rd with
  | ReadPage p => 2 + List.length (page_values p)
  | ReadErr _ => 1
  end.
Definition chunkWeight (cc : ColumnChunk) : nat :=
  fold_right (fun rd n => readWeight rd + n)%nat 0%nat cc.
Definition rowGroupWeight (column : nat) (rg : RowGroup) : nat :=
  3 + match nth_error (rg_ColumnChunks rg) column with
      | Some cc => chunkWeight cc
      | None => 0
      end.
Definition weight (c : SyncIterator) : nat :=
  (fold_right (fun rg n => rowGroupWeight (column c) rg + n) 0 (rgs c)
   + match currChunk c with Some cc => 1 + chunkWeight cc | None => 0 end
   + match currPage c with
     | Some _ =>
         1 + match currValues c with Some r => List.length (reader_values r) | None => 0 end
           + match currBuf c with Some b => List.length b - currBufN c | None => 0 end
     | None => match currBuf c with Some b => List.length b | None => 0 end
     end)%nat.

(** [next]: the loop is run with as much fuel as there is left to read;
    the fuel is never used up ([next_fuel_enough]), so the last case does
    not occur. *)
Definition next (c : SyncIterator) : SyncIterator * Res (RowNumber * option Value) :=
  match next_fuel (S (weight c)) c with
  | Some r => r
  | None => (c, Panic)
  end.

Definition Next (c : SyncIterator) : SyncIterator * Res (option IteratorResult) :=
  match next c with
  | (c, Err e) => (c, Err e)
  | (c, Panic) => (c, Panic)
  | (c, Ok (rn, v)) =>
      if negb (Valid rn) then (c, Ok None) else makeResult c rn v
  end.

(** [CompareRowNumbers(d, a, b) >= 0], [== -1] and so on, with the panic. *)
Definition compareIs (test : Z -> bool) (d : nat) (a b : RowNumber) : Res bool :=
  match CompareRowNumbers d a b with
  | Some x => Ok (test x)
  | None => Panic
  end.

(** The [for c.currRowGroup == nil] loop of [seekRowGroup]; every round
    pops a row group, so [fuel] beyond the number of row groups is enough. *)
Fixpoint seekRowGroup_loop (fuel : nat) (seekTo : RowNumber) (definitionLevel : nat)
         (c : SyncIterator) : option (SyncIterator * Res bool) :=
  match currRowGroup c with
  | Some _ => Some (c, Ok false)
  | None =>
      match fuel with
      | O => None
      | S fuel' =>
          match popRowGroup c with
          | Panic => Some (c, Panic)
          | Err e => Some (c, Err e)
          | Ok (c, None) => Some (c, Ok true)
          | Ok (c, Some (rg, min, max)) =>
              match compareIs (fun x => negb (x =? -1)) definitionLevel seekTo max with
              | Panic => Some (c, Panic)
              | Err e => Some (c, Err e)
              | Ok true => seekRowGroup_loop fuel' seekTo definitionLevel c
              | Ok false =>
                  match nth_error (rg_ColumnChunks rg) (column c) with
                  | None => Some (c, Panic)
                  | Some cc =>
                      if rejectsChunk c cc
                      then seekRowGroup_loop fuel' seekTo definitionLevel c
                      else seekRowGroup_loop fuel' seekTo definitionLevel
                                             (setRowGroup c rg min max cc)
                  end
              end
          end
      end
  end.

Definition seekRowGroup (seekTo : RowNumber) (definitionLevel : nat) (c : SyncIterator)
  : option (SyncIterator * Res bool) :=
  let start (c : SyncIterator) :=
    seekRowGroup_loop (S (List.length (rgs c))) seekTo definitionLevel c in
  match currRowGroup c with
  | None => start c
  | Some _ =>
      match compareIs (fun x => x >=? 0) definitionLevel seekTo (currRowGroupMax c) with
      | Panic => Some (c, Panic)
      | Err e => Some (c, Err e)
      | Ok true => start (closeCurrRowGroup c)
      | Ok false => start c
      end
  end.

(** The [for c.currPage == nil] loop of [seekPages]. *)
Fixpoint seekPages_loop (fuel : nat) (seekTo : RowNumber) (definitionLevel : nat)
         (c : SyncIterator) : option (SyncIterator * Res bool) :=
  match currPage c with
  | Some _ => Some (c, Ok false)
  | None =>
      match fuel with
      | O => None
      | S fuel' =>
          match currChunk c with
          | None => Some (c, Panic)
          | Some cc =>
              let '(pg, err, cc') := NextPage cc in
              let c := set_currChunk c (Some cc') in
              match pg, err with
              | Some p, None =>
                  let newRN := RowNumber_Skip (curr c) (page_NumRows p + 1) in
                  match compareIs (fun x => x >=? 0) definitionLevel seekTo newRN with
                  | Panic => Some (c, Panic)
                  | Err e => Some (c, Err e)
                  | Ok true =>
                      seekPages_loop fuel' seekTo definitionLevel
                        (set_curr c (RowNumber_Skip (curr c) (page_NumRows p)))
                  | Ok false =>
                      if rejectsPage c p
                      then seekPages_loop fuel' seekTo definitionLevel
                             (set_curr c (RowNumber_Skip (curr c) (page_NumRows p)))
                      else seekPages_loop fuel' seekTo definitionLevel (setPage c (Some p))
                  end
              | _, Some e => Some (closeCurrRowGroup c, Err e)
              | None, None => Some (closeCurrRowGroup c, Ok true)
              end
          end
      end
  end.

Definition seekPages (seekTo : RowNumber) (definitionLevel : nat) (c : SyncIterator)
  : option (SyncIterator * Res bool) :=
  let start (c : SyncIterator) :=
    seekPages_loop (S (match currChunk c with Some cc => List.length cc | None => 0 end))
                   seekTo definitionLevel c in
  match currPage c with
  | None => start c
  | Some _ =>
      match compareIs (fun x => x >=? 0) definitionLevel seekTo (currPageMax c) with
      | Panic => Some (c, Panic)
      | Err e => Some (c, Err e)
      | Ok true => start (setPage c None)
      | Ok false => start c
      end
  end.

Definition magicThreshold : Z := 1000.

(** The loop of [seekWithinPage] over the repetition levels from
    [c.currPageN] on: does the count of [Next()]s exceed the threshold
    before the rows to skip are used up? *)
Fixpoint countNexts (replvls : list nat) (nextsRequired rowSkipRelative : Z) : bool :=
  match replvls with
  | [] => false
  | lvl :: rest =>
      let nextsRequired := nextsRequired + 1 in
      if nextsRequired >? magicThreshold then true
      else if Nat.eqb lvl 0 then
             let rowSkipRelative := rowSkipRelative - 1 in
             if rowSkipRelative <=? 0 then false
             else countNexts rest nextsRequired rowSkipRelative
           else countNexts rest nextsRequired rowSkipRelative
  end.

Definition seekWithinPage (to : RowNumber) (definitionLevel : nat) (c : SyncIterator)
  : SyncIterator * Res unit :=
  let rowSkipRelative := wrap32 (rn0 to - rn0 (curr c)) in
  if rowSkipRelative =? 0 then (c, Ok tt)
  else
    match currPage c with
    | None =>
        (* [c.currPage.RepetitionLevels()] and [c.currPage.NumRows()] panic
           on a nil page *)
        if Nat.eqb definitionLevel 0 then
          if negb (rowSkipRelative >? magicThreshold) then (c, Ok tt)
          else if wrap32 (rn0 to - rn0 (currPageMin c)) <? 1 then (c, Ok tt)
               else (c, Panic)
        else (c, Panic)
    | Some pg =>
        let shouldSkip :=
          if Nat.eqb definitionLevel 0 then rowSkipRelative >? magicThreshold
          else countNexts (skipn (currPageN c) (Page_RepetitionLevels pg)) 0 rowSkipRelative in
        if negb shouldSkip then (c, Ok tt)
        else
          let rowSkip := wrap32 (rn0 to - rn0 (currPageMin c)) in
          if rowSkip <? 1 then (c, Ok tt)
          else if rowSkip >? wrap32 (page_NumRows pg) then (c, Ok tt)
          else
            let pg' := Page_Slice pg (rowSkip - 1) (page_NumRows pg) in
            match TruncateRowNumber 0 to with
            | None => (c, Panic)
            | Some t0 =>
                let c := set_curr c (RowNumber_Preceding t0) in
                let c := set_currPage c (Some pg') in
                let c := set_currPageMin c (curr c) in
                let c := set_currValues c (Some (Page_Values pg')) in
                let c := set_currPageN c 0%nat in
                (set_currBuf c None, Ok tt)
            end
    end.

(** The closing [for] loop of [SeekTo]: call [next] until the row number
    reaches [to]. *)
Fixpoint seekTo_loop (fuel : nat) (to : RowNumber) (definitionLevel : nat)
         (c : SyncIterator) : option (SyncIterator * Res (option IteratorResult)) :=
  match fuel with
  | O => None
  | S fuel' =>
      match next c with
      | (c, Err e) => Some (c, Err e)
      | (c, Panic) => Some (c, Panic)
      | (c, Ok (rn, v)) =>
          if negb (Valid rn) then Some (c, Ok None)
          else
            match compareIs (fun x => x >=? 0) definitionLevel rn to with
            | Panic => Some (c, Panic)
            | Err e => Some (c, Err e)
            | Ok true => Some (makeResult c rn v)
            | Ok false => seekTo_loop fuel' to definitionLevel c
            end
      end
  end.

Definition SeekTo_fuel (to : RowNumber) (definitionLevel : nat) (c : SyncIterator)
  : option (SyncIterator * Res (option IteratorResult)) :=
  match seekRowGroup to definitionLevel c with
  | None => None
  | Some (c, Panic) => Some (c, Panic)
  | Some (c, Err e) => Some (c, Err e)
  | Some (c, Ok true) => Some (c, Ok None)
  | Some (c, Ok false) =>
      match seekPages to definitionLevel c with
      | None => None
      | Some (c, Panic) => Some (c, Panic)
      | Some (c, Err e) => Some (c, Err e)
      | Some (c, Ok true) => Some (c, Ok None)
      | Some (c, Ok false) =>
          match seekWithinPage to definitionLevel c with
          | (c, Panic) => Some (c, Panic)
          | (c, Err e) => Some (c, Err e)
          | (c, Ok _) => seekTo_loop (S (weight c)) to definitionLevel c
          end
      end
  end.

(** [SeekTo]; as for [next], the fuel of the loops is enough
    ([SeekTo_fuel_enough]) and the last case does not occur. *)
Definition SeekTo (to : RowNumber) (definitionLevel : nat) (c : SyncIterator)
  : SyncIterator * Res (option IteratorResult) :=
  match SeekTo_fuel to definitionLevel c with
  | Some r => r
  | None => (c, Panic)
  end.

End Sync.

(* ------------------------------------------------------------------ *)
(** ** The Iterator interface *)

(** [type Iterator interface]: [Next] and [SeekTo] return the iterator
    after the call and its outcome; [Ok None] is the [nil, nil] of an
    exhausted iterator.  [Close] and [String] release resources and print;
    they are not part of the embedding. *)
Class Iterator (S : Type) : Type :=
  { Iterator_Next : S -> S * Res (option IteratorResult);
    Iterator_SeekTo : RowNumber -> nat -> S -> S * Res (option IteratorResult) }.

#[export] Instance SyncIterator_Iterator : Iterator Sync.SyncIterator :=
  {| Iterator_Next := Sync.Next; Iterator_SeekTo := Sync.SeekTo |}.

(** [type GroupPredicate interface]: [KeepGroup]. *)
Definition GroupPredicate : Type := IteratorResult -> bool.

(** [pred == nil || pred.KeepGroup(result)]. *)
Definition keepsGroup (pred : option GroupPredicate) (result : IteratorResult) : bool :=
  match pred with
  | None => true
  | Some p => p result
  end.

(** Modelled from the spec: [ResultPool] (declared outside [iters.go]), the
    freelist of [IteratorResult] objects of section 2; [Get] hands out a
    result without entries. *)
Inductive ResultPool : Type := Pool (id : nat).
Definition DefaultPool : ResultPool := Pool 0.
Definition ResultPool_Get (_ : ResultPool) : IteratorResult := emptyResult.

(** [fmt.Errorf("msg: %w", err)]. *)
Definition wrapError (msg : string) (e : error) : error := (msg ++ ": " ++ e)%string.

(** [l[i] = v] for [i] within [l]. *)
Fixpoint list_set {A} (l : list A) (i : nat) (v : A) : list A :=
  match l, i with
  | [], _ => []
  | _ :: tl, O => v :: tl
  | x :: tl, S i' => x :: list_set tl i' v
  end.

(** The operations the three composite iterators share: each keeps a slice
    of child iterators and the slice of their peeked results. *)
Section Children.
Context {It : Type} `{Iterator It}.

(** A slice of children with the slice of their peeks. *)
Definition Children : Type := (list It * list (option IteratorResult))%type.

(** [peeks[i], err = iters[i].Next()] and [... SeekTo(t, d)]. *)
Definition advance (call : It -> It * Res (option IteratorResult)) (i : nat) (ch : Children)
  : Children * Res (option IteratorResult) :=
  let '(its, pks) := ch in
  match nth_error its i, nth_error pks i with
  | Some it, Some _ =>
      let '(it', res) := call it in
      match res with
      | Ok r => ((list_set its i it', list_set pks i r), Ok r)
      | Err e => ((list_set its i it', list_set pks i None), Err e)
      | Panic => ((list_set its i it', pks), Panic)
      end
  | _, _ => (ch, Panic)
  end.

(** [peek(iterNum)] of the three iterators: fill the peek if it is nil. *)
Definition peek (iterNum : nat) (ch : Children) : Children * Res (option IteratorResult) :=
  match nth_error (snd ch) iterNum with
  | None => (ch, Panic)
  | Some (Some r) => (ch, Ok (Some r))
  | Some None => advance Iterator_Next iterNum ch
  end.

(** [if peeks[i] == nil || CompareRowNumbers(d, peeks[i].RowNumber, t) == -1
    { peeks[i], err = iters[i].SeekTo(t, d) }]. *)
Definition seekIfBehind (iterNum : nat) (t : RowNumber) (d : nat) (ch : Children)
  : Children * Res (option IteratorResult) :=
  match nth_error (snd ch) iterNum with
  | None => (ch, Panic)
  | Some None => advance (Iterator_SeekTo t d) iterNum ch
  | Some (Some p) =>
      match CompareRowNumbers d (ir_RowNumber p) t with
      | None => (ch, Panic)
      | Some c =>
          if c =? -1 then advance (Iterator_SeekTo t d) iterNum ch
          else (ch, Ok (Some p))
      end
  end.

(** [for peeks[i] != nil && EqualRowNumber(d, peeks[i].RowNumber, rowNumber)
    { result.Append(peeks[i]); peeks[i], err = iters[i].Next() }]. *)
Fixpoint collectFrom (fuel : nat) (d : nat) (rowNumber : RowNumber) (i : nat)
         (result : IteratorResult) (ch : Children)
  : option (Children * IteratorResult * Res unit) :=
  match fuel with
  | O => None
  | S fuel' =>
      match nth_error (snd ch) i with
      | None => Some (ch, result, Panic)
      | Some None => Some (ch, result, Ok tt)
      | Some (Some p) =>
          match EqualRowNumber d (ir_RowNumber p) rowNumber with
          | None => Some (ch, result, Panic)
          | Some false => Some (ch, result, Ok tt)
          | Some true =>
              let result := IteratorResult_Append result p in
              match advance Iterator_Next i ch with
              | (ch, Ok _) => collectFrom fuel' d rowNumber i result ch
              | (ch, Err e) => Some (ch, result, Err e)
              | (ch, Panic) => Some (ch, result, Panic)
              end
          end
      end
  end.

(** [for _, i := range iterNums { ... }] around [collectFrom]. *)
Fixpoint collectEach (fuel : nat) (d : nat) (rowNumber : RowNumber) (iterNums : list nat)
         (result : IteratorResult) (ch : Children)
  : option (Children * IteratorResult * Res unit) :=
  match iterNums with
  | [] => Some (ch, result, Ok tt)
  | i :: rest =>
      match collectFrom fuel d rowNumber i result ch with
      | None => None
      | Some (ch, result, Ok _) => collectEach fuel d rowNumber rest result ch
      | Some (ch, result, r) => Some (ch, result, r)
      end
  end.

(** [for i := range iters { res, err := peek(i); if err != nil { return
    nil, err }; if res == nil { return nil, nil } }], from index [i],
    [n] times: [Ok true] when every child has a result. *)
Fixpoint peekAll (n i : nat) (ch : Children) : Children * Res bool :=
  match n with
  | O => (ch, Ok true)
  | S n' =>
      match peek i ch with
      | (ch, Err e) => (ch, Err e)
      | (ch, Panic) => (ch, Panic)
      | (ch, Ok None) => (ch, Ok false)
      | (ch, Ok (Some _)) => peekAll n' (S i) ch
      end
  end.

(** What the seek loop of [Next] of the two joins ends with. *)
Inductive SeekOutcome : Type :=
| Matched                                   (* all children point at the same row *)
| Swapped                                   (* [continue outer] *)
| Finished (r : Res (option IteratorResult)). (* [return] *)

Definition swap {A} (l : list A) (i : nat) : list A :=
  match nth_error l 0, nth_error l i with
  | Some x0, Some xi => list_set (list_set l 0 xi) i x0
  | _, _ => l
  end.

(** [for iterNum := 1; iterNum < len(iters); iterNum++ { ... }] of
    [Next] of the two joins, from [iterNum], [n] times.  [seek] is the
    iterator's own [seek]. *)
Fixpoint seekLoop (seek : nat -> RowNumber -> nat -> Children -> Children * Res (option IteratorResult))
         (d : nat) (n iterNum : nat) (ch : Children) : Children * Res SeekOutcome :=
  match n with
  | O => (ch, Ok Matched)
  | S n' =>
      match nth_error (snd ch) 0 with
      | Some (Some p0) =>
          match seek iterNum (ir_RowNumber p0) d ch with
          | (ch, Err e) => (ch, Err e)
          | (ch, Panic) => (ch, Panic)
          | (ch, Ok None) => (ch, Ok (Finished (Ok None)))
          | (ch, Ok (Some p)) =>
              match nth_error (snd ch) 0 with
              | Some (Some p0) =>
                  match CompareRowNumbers d (ir_RowNumber p) (ir_RowNumber p0) with
                  | None => (ch, Panic)
                  | Some c =>
                      if c =? 1
                      then ((swap (fst ch) iterNum, swap (snd ch) iterNum), Ok Swapped)
                      else seekLoop seek d n' (S iterNum) ch
                  end
              | _ => (ch, Panic)
              end
          end
      | _ => (ch, Panic)
      end
  end.

(** The part of [Next] the two joins have in common, up to [collect]:
    [if peeks[0] == nil { for i := range ... { peek(i) } }] over [nPeek]
    children, then the seek loop over the children [1 .. n-1]. *)
Definition alignChildren
           (seek : nat -> RowNumber -> nat -> Children -> Children * Res (option IteratorResult))
           (d : nat) (nPeek n : nat) (ch : Children) : Children * Res SeekOutcome :=
match nth_error (snd ch) 0 with
| None => (ch, Panic)
| Some p0 =>
    let '(ch, r) := match p0 with
                    | None => peekAll nPeek 0 ch
                    | Some _ => (ch, Ok true)
                    end in
    match r with
    | Err e => (ch, Err e)
    | Panic => (ch, Panic)
    | Ok false => (ch, Ok (Finished (Ok None)))
    | Ok true => seekLoop seek d (n - 1) 1 ch
    end
end.
End Children.

(* ------------------------------------------------------------------ *)
(** ** JoinIterator *)

Module Join.
Section Join.
Context {It : Type} `{Iterator It}.

Record JoinIterator : Type := mkJoin
  { definitionLevel : nat;
    iters : list It;
    peeks : list (option IteratorResult);
    pred : option GroupPredicate;
    pool : ResultPool;
    at_ : IteratorResult }.

Definition children (j : JoinIterator) : Children := (iters j, peeks j).
Definition set_children (j : JoinIterator) (ch : Children) : JoinIterator :=
  mkJoin (definitionLevel j) (fst ch) (snd ch) (pred j) (pool j) (at_ j).
Definition set_at_ (j : JoinIterator) (r : IteratorResult) : JoinIterator :=
  mkJoin (definitionLevel j) (iters j) (peeks j) (pred j) (pool j) r.
Definition set_pool (j : JoinIterator) (p : ResultPool) : JoinIterator :=
  mkJoin (definitionLevel j) (iters j) (peeks j) (pred j) p (at_ j).

(** [JoinIteratorOption]: [applyToJoinIterator]. *)
Definition JoinIteratorOption : Type := JoinIterator -> JoinIterator.
Definition WithPool (p : ResultPool) : JoinIteratorOption := fun j => set_pool j p.

Definition NewJoinIterator (definitionLevel : nat) (iters : list It)
           (pred : option GroupPredicate) (opts : list JoinIteratorOption) : JoinIterator :=
  let j := mkJoin definitionLevel iters (map (fun _ => None) iters) pred DefaultPool
                  emptyResult in
  let j := fold_left (fun j opt => opt j) opts j in
  set_at_ j (ResultPool_Get (pool j)).

(** [seek(iterNum, t, d)]: the target is truncated to [d] first. *)
Definition seek (iterNum : nat) (t : RowNumber) (d : nat) (ch : Children)
  : Children * Res (option IteratorResult) :=
  match TruncateRowNumber d t with
  | None => (ch, Panic)
  | Some t => seekIfBehind iterNum t d ch
  end.

(** [seekAll(t, d)], from index [iterNum], [n] times; it stops at the
    first child that is exhausted. *)
Fixpoint seekAll_loop (n iterNum : nat) (t : RowNumber) (d : nat) (ch : Children)
  : Children * Res unit :=
  match n with
  | O => (ch, Ok tt)
  | S n' =>
      match seekIfBehind iterNum t d ch with
      | (ch, Err e) => (ch, Err e)
      | (ch, Panic) => (ch, Panic)
      | (ch, Ok None) => (ch, Ok tt)
      | (ch, Ok (Some _)) => seekAll_loop n' (S iterNum) t d ch
      end
  end.

Definition seekAll (t : RowNumber) (d : nat) (j : JoinIterator) : JoinIterator * Res unit :=
  match TruncateRowNumber d t with
  | None => (j, Panic)
  | Some t =>
      let '(ch, r) := seekAll_loop (List.length (iters j)) 0 t d (children j) in
      (set_children j ch, r)
  end.

(** [collect(rowNumber)]: the result is the iterator's own [at]. *)
Definition collect (fuel : nat) (rowNumber : RowNumber) (j : JoinIterator)
  : option (JoinIterator * Res IteratorResult) :=
  let result := with_RowNumber (IteratorResult_Reset (at_ j)) rowNumber in
  match collectEach fuel (definitionLevel j) rowNumber (seq 0 (List.length (iters j)))
                    result (children j) with
  | None => None
  | Some (ch, result, r) =>
      let j := set_at_ (set_children j ch) result in
      Some (j, match r with
               | Ok _ => Ok result
               | Err e => Err e
               | Panic => Panic
               end)
  end.

(** [Next]: [fuel] bounds the rounds of the [outer] loop and of each
    loop of [collect]; [None] is fuel used up. *)
Fixpoint Next (fuel : nat) (j : JoinIterator)
  : option (JoinIterator * Res (option IteratorResult)) :=
match fuel with
| O => None
| S fuel' =>
    let '(ch, r) := alignChildren seek (definitionLevel j) (List.length (iters j))
                                  (List.length (iters j)) (children j) in
    let j := set_children j ch in
    match r with
    | Err e => Some (j, Err e)
    | Panic => Some (j, Panic)
    | Ok (Finished r) => Some (j, r)
    | Ok Swapped => Next fuel' j
    | Ok Matched =>
        match nth_error (peeks j) 0 with
        | Some (Some p0) =>
            match collect fuel' (ir_RowNumber p0) j with
            | None => None
            | Some (j, Err e) =>
                Some (j, Err (wrapError "join iterator collect failed" e))
            | Some (j, Panic) => Some (j, Panic)
            | Some (j, Ok result) =>
                if keepsGroup (pred j) result then Some (j, Ok (Some result))
                else Next fuel' j
            end
        | _ => Some (j, Panic)
        end
    end
end.

Definition SeekTo (fuel : nat) (t : RowNumber) (d : nat) (j : JoinIterator)
  : option (JoinIterator * Res (option IteratorResult)) :=
  match seekAll t d j with
  | (j, Err e) => Some (j, Err (wrapError "join iterator seekAll failed" e))
  | (j, Panic) => Some (j, Panic)
  | (j, Ok _) => Next fuel j
  end.
End Join.
End Join.

(* ------------------------------------------------------------------ *)
(** ** LeftJoinIterator *)

Module LeftJoin.
Section LeftJoin.
Context {It : Type} `{Iterator It}.

Record LeftJoinIterator : Type := mkLeftJoin
  { definitionLevel : nat;
    required : list It;
    optional : list It;
    peeksRequired : list (option IteratorResult);
    peeksOptional : list (option IteratorResult);
    pred : option GroupPredicate;
    pool : ResultPool;
    at_ : IteratorResult }.

Definition childrenRequired (j : LeftJoinIterator) : Children := (required j, peeksRequired j).
Definition childrenOptional (j : LeftJoinIterator) : Children := (optional j, peeksOptional j).
Definition set_childrenRequired (j : LeftJoinIterator) (ch : Children) : LeftJoinIterator :=
  mkLeftJoin (definitionLevel j) (fst ch) (optional j) (snd ch) (peeksOptional j)
             (pred j) (pool j) (at_ j).
Definition set_childrenOptional (j : LeftJoinIterator) (ch : Children) : LeftJoinIterator :=
  mkLeftJoin (definitionLevel j) (required j) (fst ch) (peeksRequired j) (snd ch)
             (pred j) (pool j) (at_ j).
Definition set_at_ (j : LeftJoinIterator) (r : IteratorResult) : LeftJoinIterator :=
  mkLeftJoin (definitionLevel j) (required j) (optional j) (peeksRequired j)
             (peeksOptional j) (pred j) (pool j) r.
Definition set_pool (j : LeftJoinIterator) (p : ResultPool) : LeftJoinIterator :=
  mkLeftJoin (definitionLevel j) (required j) (optional j) (peeksRequired j)
             (peeksOptional j) (pred j) p (at_ j).

(** [LeftJoinIteratorOption]: [applyToLeftJoinIterator]. *)
Definition LeftJoinIteratorOption : Type := LeftJoinIterator -> LeftJoinIterator.
Definition WithPool (p : ResultPool) : LeftJoinIteratorOption := fun j => set_pool j p.

(** [NewLeftJoinIterator]: the pair [(iterator, error)] of the source is
    the sum of an iterator and an error. *)
Definition NewLeftJoinIterator (definitionLevel : nat) (required optional : list It)
           (pred : option GroupPredicate) (opts : list LeftJoinIteratorOption)
  : LeftJoinIterator + error :=
  if (List.length required =? 0)%nat
  then inr "left join iterator requires at least one required iterator"%string
  else
    let j := mkLeftJoin definitionLevel required optional
                        (map (fun _ => None) required) (map (fun _ => None) optional)
                        pred DefaultPool emptyResult in
    let j := fold_left (fun j opt => opt j) opts j in
    inl (set_at_ j (ResultPool_Get (pool j))).

(** [seek(iterNum, t, d)]: unlike [JoinIterator.seek], the target is
    passed on as it is. *)
Definition seek (iterNum : nat) (t : RowNumber) (d : nat) (ch : Children)
  : Children * Res (option IteratorResult) :=
  seekIfBehind iterNum t d ch.

(** [seekAllRequired(t, d)], from index [iterNum], [n] times: [Ok true]
    when a required child is exhausted. *)
Fixpoint seekAllRequired_loop (n iterNum : nat) (t : RowNumber) (d : nat) (ch : Children)
  : Children * Res bool :=
  match n with
  | O => (ch, Ok false)
  | S n' =>
      match seekIfBehind iterNum t d ch with
      | (ch, Err e) => (ch, Err e)
      | (ch, Panic) => (ch, Panic)
      | (ch, Ok None) => (ch, Ok true)
      | (ch, Ok (Some _)) => seekAllRequired_loop n' (S iterNum) t d ch
      end
  end.

Definition seekAllRequired (t : RowNumber) (d : nat) (j : LeftJoinIterator)
  : LeftJoinIterator * Res bool :=
  let '(ch, r) := seekAllRequired_loop (List.length (required j)) 0 t d (childrenRequired j) in
  (set_childrenRequired j ch, r).

(** [seekAllOptional(t, d)], from index [iterNum], [n] times. *)
Fixpoint seekAllOptional_loop (n iterNum : nat) (t : RowNumber) (d : nat) (ch : Children)
  : Children * Res unit :=
  match n with
  | O => (ch, Ok tt)
  | S n' =>
      match seekIfBehind iterNum t d ch with
      | (ch, Err e) => (ch, Err e)
      | (ch, Panic) => (ch, Panic)
      | (ch, Ok _) => seekAllOptional_loop n' (S iterNum) t d ch
      end
  end.

Definition seekAllOptional (t : RowNumber) (d : nat) (j : LeftJoinIterator)
  : LeftJoinIterator * Res unit :=
  let '(ch, r) := seekAllOptional_loop (List.length (optional j)) 0 t d (childrenOptional j) in
  (set_childrenOptional j ch, r).

(** [collect(rowNumber)]: seek the optional children, then collect the
    required and the optional ones into the iterator's own [at]. *)
Definition collect (fuel : nat) (rowNumber : RowNumber) (j : LeftJoinIterator)
  : option (LeftJoinIterator * Res IteratorResult) :=
  let result := with_RowNumber (IteratorResult_Reset (at_ j)) rowNumber in
  let j := set_at_ j result in
  match seekAllOptional rowNumber (definitionLevel j) j with
  | (j, Err e) => Some (j, Err e)
  | (j, Panic) => Some (j, Panic)
  | (j, Ok _) =>
      match collectEach fuel (definitionLevel j) rowNumber
                        (seq 0 (List.length (required j))) result (childrenRequired j) with
      | None => None
      | Some (ch, result, Err e) => Some (set_at_ (set_childrenRequired j ch) result, Err e)
      | Some (ch, result, Panic) => Some (set_at_ (set_childrenRequired j ch) result, Panic)
      | Some (ch, result, Ok _) =>
          let j := set_at_ (set_childrenRequired j ch) result in
          match collectEach fuel (definitionLevel j) rowNumber
                            (seq 0 (List.length (optional j))) result (childrenOptional j) with
          | None => None
          | Some (ch, result, r) =>
              let j := set_at_ (set_childrenOptional j ch) result in
              Some (j, match r with
                       | Ok _ => Ok result
                       | Err e => Err e
                       | Panic => Panic
                       end)
          end
      end
  end.

(** [Next]: [fuel] bounds the rounds of the [outer] loop and of each
    loop of [collect]; [None] is fuel used up. *)
Fixpoint Next (fuel : nat) (j : LeftJoinIterator)
  : option (LeftJoinIterator * Res (option IteratorResult)) :=
match fuel with
| O => None
| S fuel' =>
    let '(ch, r) := alignChildren seek (definitionLevel j) (List.length (peeksRequired j))
                                  (List.length (required j)) (childrenRequired j) in
    let j := set_childrenRequired j ch in
    match r with
    | Err e => Some (j, Err e)
    | Panic => Some (j, Panic)
    | Ok (Finished r) => Some (j, r)
    | Ok Swapped => Next fuel' j
    | Ok Matched =>
        match nth_error (peeksRequired j) 0 with
        | Some (Some p0) =>
            match collect fuel' (ir_RowNumber p0) j with
            | None => None
            | Some (j, Err e) => Some (j, Err e)
            | Some (j, Panic) => Some (j, Panic)
            | Some (j, Ok result) =>
                if keepsGroup (pred j) result then Some (j, Ok (Some result))
                else Next fuel' j
            end
        | _ => Some (j, Panic)
        end
    end
end.

Definition SeekTo (fuel : nat) (t : RowNumber) (d : nat) (j : LeftJoinIterator)
  : option (LeftJoinIterator * Res (option IteratorResult)) :=
  match seekAllRequired t d j with
  | (j, Err e) => Some (j, Err e)
  | (j, Panic) => Some (j, Panic)
  | (j, Ok true) => Some (j, Ok None)
  | (j, Ok false) =>
      match seekAllOptional t d j with
      | (j, Err e) => Some (j, Err e)
      | (j, Panic) => Some (j, Panic)
      | (j, Ok _) => Next fuel j
      end
  end.
End LeftJoin.
End LeftJoin.

(* ------------------------------------------------------------------ *)
(** ** UnionIterator *)

Module Union.
Section Union.
Context {It : Type} `{Iterator It}.

Record UnionIterator : Type := mkUnion
  { definitionLevel : nat;
    iters : list It;
    lowestIters : list nat;
    peeks : list (option IteratorResult);
    pred : option GroupPredicate;
    at_ : IteratorResult }.

Definition children (u : UnionIterator) : Children := (iters u, peeks u).
Definition set_children (u : UnionIterator) (ch : Children) : UnionIterator :=
  mkUnion (definitionLevel u) (fst ch) (lowestIters u) (snd ch) (pred u) (at_ u).
Definition set_lowestIters (u : UnionIterator) (l : list nat) : UnionIterator :=
  mkUnion (definitionLevel u) (iters u) l (peeks u) (pred u) (at_ u).
Definition set_at_ (u : UnionIterator) (r : IteratorResult) : UnionIterator :=
  mkUnion (definitionLevel u) (iters u) (lowestIters u) (peeks u) (pred u) r.

(** [NewUnionIterator]: [lowestIters] is allocated with one slot per
    child and emptied at the start of every pass of [Next]; [at] is the
    zero result. *)
Definition NewUnionIterator (definitionLevel : nat) (iters : list It)
           (pred : option GroupPredicate) : UnionIterator :=
  mkUnion definitionLevel iters (map (fun _ => 0%nat) iters)
          (map (fun _ => None) iters) pred emptyResult.

(** The [for iterNum := range u.iters] loop of [Next], from [iterNum],
    [n] times: the lowest row number so far and the children at it. *)
Fixpoint findLowest (d : nat) (n iterNum : nat) (lowestRowNumber : RowNumber)
         (lowestIters : list nat) (ch : Children)
  : Children * Res (RowNumber * list nat) :=
  match n with
  | O => (ch, Ok (lowestRowNumber, lowestIters))
  | S n' =>
      match peek iterNum ch with
      | (ch, Err e) => (ch, Err (wrapError "union iterator peek failed" e))
      | (ch, Panic) => (ch, Panic)
      | (ch, Ok None) => findLowest d n' (S iterNum) lowestRowNumber lowestIters ch
      | (ch, Ok (Some rn)) =>
          match CompareRowNumbers d (ir_RowNumber rn) lowestRowNumber with
          | None => (ch, Panic)
          | Some c =>
              if c =? -1
              then findLowest d n' (S iterNum) (ir_RowNumber rn) [iterNum] ch
              else if c =? 0
                   then findLowest d n' (S iterNum) lowestRowNumber
                                   (lowestIters ++ [iterNum]) ch
                   else findLowest d n' (S iterNum) lowestRowNumber lowestIters ch
          end
      end
  end.

(** [collect(iterNums, rowNumber)]: the result is the iterator's own [at]. *)
Definition collect (fuel : nat) (iterNums : list nat) (rowNumber : RowNumber)
           (u : UnionIterator) : option (UnionIterator * Res IteratorResult) :=
  let result := with_RowNumber (IteratorResult_Reset (at_ u)) rowNumber in
  match collectEach fuel (definitionLevel u) rowNumber iterNums result (children u) with
  | None => None
  | Some (ch, result, r) =>
      let u := set_at_ (set_children u ch) result in
      Some (u, match r with
               | Ok _ => Ok result
               | Err e => Err e
               | Panic => Panic
               end)
  end.

(** [Next]: [fuel] bounds the rounds of the [for] loop and of each loop
    of [collect]; [None] is fuel used up. *)
Fixpoint Next (fuel : nat) (u : UnionIterator)
  : option (UnionIterator * Res (option IteratorResult)) :=
  match fuel with
  | O => None
  | S fuel' =>
      let '(ch, r) := findLowest (definitionLevel u) (List.length (iters u)) 0
                                 MaxRowNumber [] (children u) in
      let u := set_children u ch in
      match r with
      | Err e => Some (u, Err e)
      | Panic => Some (u, Panic)
      | Ok (lowestRowNumber, lowest) =>
          let u := set_lowestIters u lowest in
          match collect fuel' lowest lowestRowNumber u with
          | None => None
          | Some (u, Err e) => Some (u, Err (wrapError "union iterator collect failed" e))
          | Some (u, Panic) => Some (u, Panic)
          | Some (u, Ok result) =>
              if (0 <? List.length lowest)%nat then
                if negb (keepsGroup (pred u) result) then Next fuel' u
                else Some (u, Ok (Some result))
              else Some (u, Ok None)
          end
      end
  end.

(** The loop of [SeekTo], from index [iterNum], [n] times. *)
Fixpoint seekEach (n iterNum : nat) (t : RowNumber) (d : nat) (ch : Children)
  : Children * Res unit :=
  match n with
  | O => (ch, Ok tt)
  | S n' =>
      match seekIfBehind iterNum t d ch with
      | (ch, Err e) => (ch, Err (wrapError "union iterator seek to failed" e))
      | (ch, Panic) => (ch, Panic)
      | (ch, Ok _) => seekEach n' (S iterNum) t d ch
      end
  end.

Definition SeekTo (fuel : nat) (t : RowNumber) (d : nat) (u : UnionIterator)
  : option (UnionIterator * Res (option IteratorResult)) :=
  match TruncateRowNumber d t with
  | None => Some (u, Panic)
  | Some t =>
      match seekEach (List.length (iters u)) 0 t d (children u) with
      | (ch, Err e) => Some (set_children u ch, Err e)
      | (ch, Panic) => Some (set_children u ch, Panic)
      | (ch, Ok _) => Next fuel (set_children u ch)
      end
  end.
End Union.
End Union.

(* ------------------------------------------------------------------ *)
(** ** Replication accounting of the distributor

    [countDiscardedSpans] is called by [TestDiscardCountReplicationFactor]
    but declared outside the sources at hand; the test, its table and the
    aggregation loop it runs are embedded from the test file. *)

Module Distributor.

















Definition keys : list nat := [0; 2; 1]%nat.


End Distributor.

(* ================================================================== *)
(** * Vocabulary of the properties *)

(** Lexicographic comparison of two lists of integers, with the results
    -1, 0, 1 of [CompareRowNumbers]. *)
Fixpoint lex (a b : list Z) : Z :=
  match a, b with
  | x :: a', y :: b' =>
      if x <? y then -1 else if x >? y then 1 else lex a' b'
  | _, _ => 0
  end.

(** The positions a comparison at level [d] reads. *)
Definition key (d : nat) (t : RowNumber) : list Z := firstn (S d) (rn_list t).

(** [CompareRowNumbers] without the panic. *)
Definition cmp (d : nat) (a b : RowNumber) : Z := lex (key d a) (key d b).

(** [a < b], [a = b] and [a <= b] at level [d]. *)
Definition rn_lt (d : nat) (a b : RowNumber) : Prop := cmp d a b = -1.
Definition rn_eq (d : nat) (a b : RowNumber) : Prop := cmp d a b = 0.
Definition rn_le (d : nat) (a b : RowNumber) : Prop := cmp d a b <> 1.

(** The loop of [Preceding] on the list of positions, last position first:
    the positions afterwards, and whether a position was decremented. *)
Fixpoint prec_list (l : list Z) : list Z * bool :=
  match l with
  | [] => ([], false)
  | x :: xs =>
      let '(xs', done) := prec_list xs in
      if done then (x :: xs', true)
      else if x =? -1 then (x :: xs', false)
      else if x =? 0 then (MaxInt32 :: xs', false)
      else (wrap32 (x - 1) :: xs', true)
  end.

(** Every position is -1 (undefined) or an ordinal that fits an [int32]. *)
Definition rn_ordinals (t : RowNumber) : Prop :=
  Forall (fun x => -1 <= x <= MaxInt32) (rn_list t).

(** [a] and [b] are defined at the same positions. *)
Definition sameLevels (a b : RowNumber) : Prop :=
  Forall2 (fun x y => x = -1 <-> y = -1) (rn_list a) (rn_list b).

(** The row number [n.-1.-1.-1.-1.-1.-1.-1] of a top-level row. *)
Definition rowAt (n : Z) : RowNumber := mkRN n (-1) (-1) (-1) (-1) (-1) (-1) (-1).

(** The number of rows of a list of row groups. *)
Definition sumRows (rgs : list RowGroup) : Z :=
  fold_right (fun rg n => rg_NumRows rg + n) 0 rgs.

(** The options [iters.go] declares for [NewSyncIterator]. *)
Inductive declaredOpt : Sync.SyncIteratorOpt -> Prop :=
| declared_Intern : declaredOpt Sync.SyncIteratorOptIntern
| declared_Predicate p : declaredOpt (Sync.SyncIteratorOptPredicate p)
| declared_ColumnName s : declaredOpt (Sync.SyncIteratorOptColumnName s)
| declared_SelectAs s : declaredOpt (Sync.SyncIteratorOptSelectAs s)
| declared_BufferSize n : declaredOpt (Sync.SyncIteratorOptBufferSize n)
| declared_MaxDefinitionLevel n : declaredOpt (Sync.SyncIteratorOptMaxDefinitionLevel n).

(** The pair [(k, v)] occurs in the paired columns [keys], [vals] at a
    common index, byte for byte. *)
Definition pairAt (k v : list byte) (keys vals : list Value) : Prop :=
  exists j key val,
    nth_error keys j = Some key /\ nth_error vals j = Some val
    /\ ByteArray key = k /\ ByteArray val = v.

(** A byte-array value of a flat column. *)
Definition bytesValue (s : string) : Value := mkValue 0 0 (list_byte_of_string s).

(** A group with one "keys" entry [a] and one "values" entry [1]. *)
Definition groupA1 : IteratorResult :=
  mkResult (rowAt 0) [("keys", bytesValue "a"); ("values", bytesValue "1")]%string [].

(** A page predicate of the kind the repository builds from page
    statistics or dictionaries: a page is kept when one of its values is
    [s], and so is a value. *)
Definition equalsPredicate (s : string) : Predicate :=
  mkPredicate (fun _ => true)
              (fun p => existsb (fun v => bytes_Equal (ByteArray v) (list_byte_of_string s))
                                (page_values p))
              (fun v => bytes_Equal (ByteArray v) (list_byte_of_string s)).

(** Two row groups of one page each: rows 0 and 1 hold [a] and [b], row 2
    holds [c]. *)
Definition twoRowGroups : list RowGroup :=
  [ mkRowGroup 2 [[ReadPage (mkPage 2 [bytesValue "a"; bytesValue "b"] None)]];
    mkRowGroup 1 [[ReadPage (mkPage 1 [bytesValue "c"] None)]] ]%string.

(** An iterator over them that looks for [c]. *)
Definition seekC : Sync.SyncIterator :=
  Sync.NewSyncIterator twoRowGroups 0 [Sync.SyncIteratorOptPredicate (Some (equalsPredicate "c"))].

(* ------------------------------------------------------------------ *)
(** ** The contract of the Iterator interface *)

(** The longest suffix of [l] whose first element does not satisfy [f]. *)
Fixpoint dropWhile {A} (f : A -> bool) (l : list A) : list A :=
  match l with
  | [] => []
  | x :: l' => if f x then dropWhile f l' else l
  end.

(** [r] is below [t], and in the group of [t], at level [d]. *)
Definition belowAt (d : nat) (t : RowNumber) (r : IteratorResult) : bool :=
  cmp d (ir_RowNumber r) t =? -1.
Definition groupAt (d : nat) (t : RowNumber) (r : IteratorResult) : bool :=
  cmp d (ir_RowNumber r) t =? 0.

(** What the interface promises of an iterator ("Next returns nil when
    done", "Like Next but skips over results until reading >= the given
    location"): it stands for the list [view] of the results it still has
    to give; [Next] gives the first of them, [SeekTo(t, d)] the first that
    is not below [t] at level [d], and neither fails. *)
Class IteratorContract (It : Type) `{Iterator It} : Type :=
  { view : It -> list IteratorResult;
    contract_Next : forall s,
      snd (Iterator_Next s) = Ok (hd_error (view s))
      /\ view (fst (Iterator_Next s)) = tl (view s);
    contract_SeekTo : forall t d s,
      (d <= 7)%nat ->
      snd (Iterator_SeekTo t d s) = Ok (hd_error (dropWhile (belowAt d t) (view s)))
      /\ view (fst (Iterator_SeekTo t d s)) = tl (dropWhile (belowAt d t) (view s)) }.

(** Results in strictly increasing row number order under
    [CompareRowNumbers(7, ., .)]. *)
Definition ascending (l : list IteratorResult) : Prop :=
  StronglySorted (fun a b => cmp 7 (ir_RowNumber a) (ir_RowNumber b) = -1) l.

(** Results in strictly increasing order at level [d]. *)
Definition ascendingAt (d : nat) (l : list IteratorResult) : Prop :=
  StronglySorted (fun a b => cmp d (ir_RowNumber a) (ir_RowNumber b) = -1) l.

(** [l] has a result in the group of [r] at level [d]. *)
Definition hasGroup (d : nat) (r : RowNumber) (l : list IteratorResult) : Prop :=
  Exists (fun x => cmp d (ir_RowNumber x) r = 0) l.

(** A list-backed iterator, in the manner of the mock iterators of the
    package's tests: [SeekTo] calls [Next] until the row number reaches
    the target. *)
Record SliceIterator : Type := mkSlice { slice_results : list IteratorResult }.

Fixpoint slice_seek (t : RowNumber) (d : nat) (l : list IteratorResult)
  : SliceIterator * Res (option IteratorResult) :=
  match l with
  | [] => (mkSlice [], Ok None)
  | r :: l' =>
      match CompareRowNumbers d (ir_RowNumber r) t with
      | None => (mkSlice l', Panic)
      | Some c => if c >=? 0 then (mkSlice l', Ok (Some r)) else slice_seek t d l'
      end
  end.

#[export] Instance SliceIterator_Iterator : Iterator SliceIterator :=
  {| Iterator_Next := fun s => (mkSlice (tl (slice_results s)), Ok (hd_error (slice_results s)));
     Iterator_SeekTo := fun t d s => slice_seek t d (slice_results s) |}.

(** The results of successive calls of [next], up to [n] calls: [Some l]
    when the iterator reports exhaustion after the results [l]; [None]
    when a call fails, runs out of fuel, or [n] calls do not suffice. *)
Fixpoint drain {J : Type} (next : J -> option (J * Res (option IteratorResult)))
         (n : nat) (j : J) : option (list IteratorResult) :=
  match n with
  | O => None
  | S n' =>
      match next j with
      | Some (j', Ok (Some r)) =>
          match drain next n' j' with
          | Some l => Some (r :: l)
          | None => None
          end
      | Some (_, Ok None) => Some []
      | _ => None
      end
  end.

(** The results a child and its peek stand for. *)
Definition streamOf {It : Type} `{IteratorContract It} (c : It * option IteratorResult)
  : list IteratorResult :=
  match snd c with
  | Some p => p :: view (fst c)
  | None => view (fst c)
  end.

Definition streams {It : Type} `{IteratorContract It} (ch : Children)
  : list (list IteratorResult) :=
  map streamOf (combine (fst ch) (snd ch)).

(** The initial children of a composite iterator: nothing peeked. *)
Definition unpeeked {It : Type} (its : list It) : Children :=
  (its, map (fun _ => None) its).

(** The longest prefix of [l] whose elements satisfy [f]. *)
Fixpoint takeWhile {A} (f : A -> bool) (l : list A) : list A :=
  match l with
  | [] => []
  | x :: l' => if f x then x :: takeWhile f l' else []
  end.

(** The children are the two slices of one length. *)
Definition wfChildren {It : Type} (ch : @Children It) : Prop :=
  List.length (fst ch) = List.length (snd ch).

(** [l'] is [l] with, in every stream, a prefix of results that satisfy
    [P] removed. *)
Definition trimmedBy (P : IteratorResult -> Prop) (l l' : list (list IteratorResult)) : Prop :=
  Forall2 (fun S S' => exists pre, S = pre ++ S' /\ Forall P pre) l l'.

(** Every stream has a result in the group of [r]; some stream has. *)
Definition commonGroup (d : nat) (r : RowNumber) (l : list (list IteratorResult)) : Prop :=
  Forall (hasGroup d r) l.
Definition someGroup (d : nat) (r : RowNumber) (l : list (list IteratorResult)) : Prop :=
  Exists (hasGroup d r) l.

(** Results in non-decreasing order at level [d]. *)
Definition nondecreasingAt (d : nat) (l : list IteratorResult) : Prop :=
  StronglySorted (fun a b => cmp d (ir_RowNumber a) (ir_RowNumber b) <> 1) l.

(** The number of results of all streams, and of those above [t] at level
    [d]. *)
Definition total (l : list (list IteratorResult)) : nat := List.length (List.concat l).
Definition countAbove (d : nat) (t : RowNumber) (l : list (list IteratorResult)) : nat :=
  List.length (List.filter (fun y => cmp d (ir_RowNumber y) t =? 1) (List.concat l)).

(** A bound on the rounds of [Next] of the two joins: every round that
    does not return consumes a result or moves a later result to the
    first child. *)
Definition joinMeasure (d : nat) (l : list (list IteratorResult)) : nat :=
  (total l + match l with
             | (x :: _) :: _ => countAbove d (ir_RowNumber x) l
             | _ => 0
             end)%nat.

(** [j] is one of [idxs]. *)
Definition among (idxs : list nat) (j : nat) : bool := existsb (Nat.eqb j) idxs.

(** All the results of [l] are above [e] at level [d]. *)
Definition allAbove (d : nat) (e : RowNumber) (l : list (list IteratorResult)) : Prop :=
  Forall (Forall (fun x => cmp d e (ir_RowNumber x) = -1)) l.

(** What [seek] of either join does to child [i], under the contract. *)
Definition seekSpec {It : Type} `{IteratorContract It} (d : nat)
           (seek : nat -> RowNumber -> nat -> @Children It
                   -> @Children It * Res (option IteratorResult))
  : Prop :=
  forall i t (ch : Children) L,
    wfChildren ch -> nth_error (streams ch) i = Some L ->
    exists ch',
      seek i t d ch = (ch', Ok (hd_error (dropWhile (belowAt d t) L)))
      /\ wfChildren ch'
      /\ List.length (fst ch') = List.length (fst ch)
      /\ streams ch' = list_set (streams ch) i (dropWhile (belowAt d t) L)
      /\ nth_error (snd ch') i = Some (hd_error (dropWhile (belowAt d t) L))
      /\ (forall j, j <> i -> nth_error (snd ch') j = nth_error (snd ch) j).

(** The children of a join that [Next] can work on: as many peeks as
    iterators, at least one child, every stream in non-decreasing order at
    level [d]. *)
Definition joinInv {It : Type} `{IteratorContract It} (d : nat) (ch : Children) : Prop :=
  wfChildren ch /\ (1 <= List.length (fst ch))%nat
  /\ Forall (nondecreasingAt d) (streams ch).

(** A result of a column [name] at row [trace], [span] of a two-level
    schema; two list-backed children over such results. *)
Definition spanResult (trace span : Z) (name : string) : IteratorResult :=
  mkResult (mkRN trace span (-1) (-1) (-1) (-1) (-1) (-1)) [(name, bytesValue name)] [].

Definition sliceA : SliceIterator :=
  mkSlice [spanResult 0 0 "a"; spanResult 0 1 "a"; spanResult 2 0 "a"; spanResult 4 0 "a"]%string.
Definition sliceB : SliceIterator :=
  mkSlice [spanResult 1 0 "b"; spanResult 2 1 "b"; spanResult 3 0 "b"; spanResult 4 2 "b"]%string.

(** An optional child, and a left join of [sliceA] and [sliceB] with it,
    as [NewLeftJoinIterator] builds it. *)
Definition sliceC : SliceIterator :=
  mkSlice [spanResult 2 5 "c"; spanResult 3 0 "c"]%string.

Definition leftJoinAB : LeftJoin.LeftJoinIterator :=
  LeftJoin.mkLeftJoin 0 [sliceA; sliceB] [sliceC] [None; None] [None] None
                      DefaultPool (ResultPool_Get DefaultPool).

(** [x] is not above the sentinel [MaxRowNumber] of the minimum search of
    [UnionIterator.Next] at level [d]. *)
Definition belowSentinel (d : nat) (x : IteratorResult) : Prop :=
  cmp d (ir_RowNumber x) MaxRowNumber <> 1.

(** The children of a union that [Next] can work on: as many peeks as
    iterators, every stream in non-decreasing order at level [d]. *)
Definition unionInv {It : Type} `{IteratorContract It} (d : nat) (ch : Children) : Prop :=
  wfChildren ch /\ Forall (nondecreasingAt d) (streams ch).

(** No result of the streams is above the sentinel. *)
Definition allBelowSentinel (d : nat) (l : list (list IteratorResult)) : Prop :=
  Forall (belowSentinel d) (List.concat l).

(** The entries of the results of the group of [g], child by child. *)
Definition groupEntries (d : nat) (g : RowNumber) (l : list (list IteratorResult))
  : list (string * Value) :=
  List.concat (map (fun L => List.concat (map Entries (filter (groupAt d g) L))) l).

(** Child [j] is peeked at a result of the group of [L]. *)
Definition tied (d : nat) (L : RowNumber) (pks : list (option IteratorResult)) (j : nat) : bool :=
  match nth_error pks j with
  | Some (Some p) => cmp d (ir_RowNumber p) L =? 0
  | _ => false
  end.

(** The first result of a stream, if any, is not below [L]. *)
Definition headNotBelow (d : nat) (L : RowNumber) (S : list IteratorResult) : Prop :=
  match S with
  | x :: _ => cmp d (ir_RowNumber x) L <> -1
  | [] => True
  end.

(** A union of [sliceA] and [sliceB] at the level of the trace; a result
    above the sentinel at the level of the span, and a union over it. *)
Definition unionAB : Union.UnionIterator := Union.NewUnionIterator 0 [sliceA; sliceB] None.



(* ------------------------------------------------------------------ *)
(** ** Well-formed column data *)

(** The levels of a value: the repetition level is at most the
    definition level, which is at most 7. *)
Definition valueOK (v : Value) : Prop :=
  (RepetitionLevel v <= DefinitionLevel v)%nat /\ (DefinitionLevel v <= 7)%nat.

(** The first of the values, if any, starts a row. *)
Definition startsRow (vs : list Value) : Prop :=
  match vs with
  | v :: _ => RepetitionLevel v = 0%nat
  | [] => True
  end.

(** The number of values that start a row. *)
Fixpoint rowsOf (vs : list Value) : Z :=
  match vs with
  | [] => 0
  | v :: vs' => (if Nat.eqb (RepetitionLevel v) 0 then 1 else 0) + rowsOf vs'
  end.

(** A page holds at least one row, starts with a row, declares at least
    as many rows as its values start, and has fewer than [MaxInt32]
    values. *)
Definition pageOK (p : Page) : Prop :=
  Forall valueOK (page_values p)
  /\ startsRow (page_values p)
  /\ rowsOf (page_values p) <= page_NumRows p
  /\ 1 <= page_NumRows p
  /\ Z.of_nat (List.length (page_values p)) < MaxInt32.

Definition readOK (rd : PageRead) : Prop :=
  match rd with
  | ReadPage p => pageOK p
  | ReadErr _ => True
  end.

Definition chunkOK (cc : ColumnChunk) : Prop := Forall readOK cc.

(** The rows the pages of a column chunk declare. *)
Fixpoint chunkRows (cc : ColumnChunk) : Z :=
  match cc with
  | [] => 0
  | ReadPage p :: rest => page_NumRows p + chunkRows rest
  | ReadErr _ :: rest => chunkRows rest
  end.

(** A row group declares at least as many rows as the pages of its column
    chunk. *)
Definition rowGroupOK (column : nat) (rg : RowGroup) : Prop :=
  0 <= rg_NumRows rg
  /\ match nth_error (rg_ColumnChunks rg) column with
     | Some cc => chunkOK cc /\ chunkRows cc <= rg_NumRows rg
     | None => True
     end.

Definition wellFormed (column : nat) (rgs : list RowGroup) : Prop :=
  Forall (rowGroupOK column) rgs /\ sumRows rgs <= MaxInt32.

(** The row groups still to come start at row [b + 1], their [min] bounds
    are the rows before their first rows, and the last row is below
    [MaxInt32]. *)
Fixpoint chain (column : nat) (b : Z) (rgs : list RowGroup) (mins : list RowNumber) : Prop :=
  match rgs, mins with
  | [], _ => b < MaxInt32
  | rg :: rgs', mn :: mins' =>
      mn = rowAt b /\ rowGroupOK column rg /\ chain column (b + rg_NumRows rg) rgs' mins'
  | _ :: _, [] => False
  end.

(** The values of the current page still to be looked at: the unread part
    of the buffer and what the reader still holds. *)
Definition unread (c : Sync.SyncIterator) : list Value :=
  skipn (Sync.currBufN c) (match Sync.currBuf c with Some b => b | None => [] end).
Definition pending (c : Sync.SyncIterator) : list Value :=
  unread c ++ match Sync.currValues c with Some r => reader_values r | None => [] end.

(** The positions below the row of [t] are at least -1 and leave room for
    [n] increments. *)
Definition levelsOK (t : RowNumber) (n : nat) : Prop :=
  forall j z, (1 <= j)%nat -> rn_get t j = Some z -> -1 <= z /\ z + Z.of_nat n < MaxInt32.

(** The state of a [SyncIterator] inside a page, with respect to the row
    number [last] of the last result: the page ends at row [e], the row
    group at row [b]. *)
Definition pageInv (last : RowNumber) (c : Sync.SyncIterator) (b e : Z) : Prop :=
  Sync.currRowGroup c <> None
  /\ (exists cc, Sync.currChunk c = Some cc /\ chunkOK cc /\ e + chunkRows cc <= b)
  /\ Sync.currPage c <> None
  /\ Sync.currValues c <> None
  /\ Sync.currPageMax c = rowAt (e + 1)
  /\ 0 <= e
  /\ Forall valueOK (pending c)
  /\ -1 <= rn0 (Sync.curr c)
  /\ rn0 (Sync.curr c) + rowsOf (pending c) <= e
  /\ levelsOK (Sync.curr c) (List.length (pending c))
  /\ rn0 last <= rn0 (Sync.curr c)
  /\ (cmp 7 last (Sync.curr c) <> 1 \/ startsRow (pending c))
  /\ chain (Sync.column c) b (Sync.rgs c) (Sync.rgsMin c).

(** Between two pages of a row group, at row [x]. *)
Definition chunkInv (last : RowNumber) (c : Sync.SyncIterator) (b x : Z) : Prop :=
  Sync.currRowGroup c <> None
  /\ (exists cc, Sync.currChunk c = Some cc /\ chunkOK cc /\ x + chunkRows cc <= b)
  /\ Sync.currPage c = None
  /\ Sync.currBuf c = None
  /\ Sync.curr c = rowAt x
  /\ -1 <= x
  /\ rn0 last <= x
  /\ chain (Sync.column c) b (Sync.rgs c) (Sync.rgsMin c).

(** Between two row groups. *)
Definition closedInv (last : RowNumber) (c : Sync.SyncIterator) (b : Z) : Prop :=
  Sync.currRowGroup c = None
  /\ -1 <= b
  /\ rn0 last <= b
  /\ chain (Sync.column c) b (Sync.rgs c) (Sync.rgsMin c).

(** The states [next] goes through: every row number still to come is
    above [last]. *)
Inductive syncInv (last : RowNumber) (c : Sync.SyncIterator) : Prop :=
| inv_closed b : closedInv last c b -> syncInv last c
| inv_chunk b x : chunkInv last c b x -> syncInv last c
| inv_page b e : pageInv last c b e -> syncInv last c.

(** What a round of the loop of [next] ends with. *)
Definition nextPost (last : RowNumber) (f : Sync.Flow (Res (RowNumber * option Value))) : Prop :=
  match f with
  | Sync.Continue c' => syncInv last c'
  | Sync.Return c' (Ok (rn, _)) => Valid rn = true -> cmp 7 last rn = -1 /\ syncInv rn c'
  | Sync.Return _ _ => True
  end.

(** The results of up to [n] calls of [next], until the first call that
    gives none. *)
Fixpoint results {J : Type} (next : J -> J * Res (option IteratorResult))
         (n : nat) (j : J) : list IteratorResult :=
  match n with
  | O => []
  | S n' =>
      match next j with
      | (j', Ok (Some r)) => r :: results next n' j'
      | _ => []
      end
  end.

(** A round of the loop of [next] that goes on, or gives a value, has
    used up some of what was left to read; without a value the row number
    is the empty one. *)
Definition weightPost (n : nat) (f : Sync.Flow (Res (RowNumber * option Value))) : Prop :=
  match f with
  | Sync.Continue c' => (Sync.weight c' < n)%nat
  | Sync.Return c' (Ok (rn, Some _)) => (Sync.weight c' < n)%nat
  | Sync.Return c' (Ok (rn, None)) => rn = EmptyRowNumber
  | Sync.Return _ _ => True
  end.

(* ------------------------------------------------------------------ *)
(** ** IteratorResult: the other entries and the map of columns *)

(** [func (r *IteratorResult) AppendOtherValue(k string, v interface{})]. *)
Definition IteratorResult_AppendOtherValue (r : IteratorResult) (k : string) (v : AnyValue)
  : IteratorResult :=
  mkResult (ir_RowNumber r) (Entries r) (OtherEntries r ++ [(k, v)]).

(** The loop of [OtherValueFromKey] over [r.OtherEntries]; [None] is the
    [nil] returned when no entry has the key. *)
Fixpoint otherValue_loop (es : list (string * AnyValue)) (k : string) : option AnyValue :=
  match es with
  | [] => None
  | e :: es' => if String.eqb (fst e) k then Some (snd e) else otherValue_loop es' k
  end.

(** [func (r *IteratorResult) OtherValueFromKey(k string) interface{}]. *)
Definition IteratorResult_OtherValueFromKey (r : IteratorResult) (k : string) : option AnyValue :=
  otherValue_loop (OtherEntries r) k.

(** [map[string][]pq.Value]: the keys that are present, with their
    values. *)
Definition ColumnMap : Type := string -> option (list Value).

(** [m[k]]: the nil slice for a key that is not present. *)
Definition map_get (m : ColumnMap) (k : string) : list Value :=
  match m k with
  | Some l => l
  | None => []
  end.

(** [m[k] = l]. *)
Definition map_set (m : ColumnMap) (k : string) (l : list Value) : ColumnMap :=
  fun k' => if String.eqb k' k then Some l else m k'.

(** [func (r *IteratorResult) ToMap() map[string][]pq.Value]:
    [m[e.Key] = append(m[e.Key], e.Value)] for every entry in turn. *)
Definition ToMap (r : IteratorResult) : ColumnMap :=
  fold_left (fun m e => map_set m (fst e) (map_get m (fst e) ++ [snd e]))
            (Entries r) (fun _ => None).

(* ------------------------------------------------------------------ *)
(** ** Vocabulary of the SeekTo properties *)

(** What the seek loops of the composite iterators do to the children:
    every stream loses a prefix of results below [t] at level [d], nothing
    else changes. *)
Definition sweepPost {It : Type} `{IteratorContract It} (d : nat) (t : RowNumber)
           (ch ch' : Children) : Prop :=
  wfChildren ch'
  /\ List.length (fst ch') = List.length (fst ch)
  /\ trimmedBy (fun x => belowAt d t x = true) (streams ch) (streams ch').

(** The first [upTo] children have been sought to [t] at level [d]: their
    streams do not start below [t]. *)
Definition sought {It : Type} `{IteratorContract It} (d : nat) (t : RowNumber) (upTo : nat)
           (ch' : Children) : Prop :=
  forall j S, (j < upTo)%nat -> nth_error (streams ch') j = Some S -> headNotBelow d t S.

(* ------------------------------------------------------------------ *)
(** ** The values a SyncIterator has to give *)

(** [filter == nil || filter.KeepValue(v)] and the like. *)
Definition keepsValue (f : option Predicate) (v : Value) : bool :=
  match f with Some p => KeepValue p v | None => true end.
Definition keepsPage (f : option Predicate) (pg : Page) : bool :=
  match f with Some p => KeepPage p pg | None => true end.
Definition keepsChunk (f : option Predicate) (cc : ColumnChunk) : bool :=
  match f with Some p => KeepColumnChunk p cc | None => true end.

(** The values of a page, a column chunk, a row group and a list of row
    groups that the filter lets through: the values kept of the pages kept
    of the column chunks kept, in order. *)
Definition pageKept (f : option Predicate) (p : Page) : list Value :=
  if keepsPage f p then List.filter (keepsValue f) (page_values p) else [].

Fixpoint chunkKept (f : option Predicate) (cc : ColumnChunk) : list Value :=
  match cc with
  | [] => []
  | ReadPage p :: rest => pageKept f p ++ chunkKept f rest
  | ReadErr _ :: rest => chunkKept f rest
  end.

Definition rowGroupKept (f : option Predicate) (column : nat) (rg : RowGroup) : list Value :=
  match nth_error (rg_ColumnChunks rg) column with
  | Some cc => if keepsChunk f cc then chunkKept f cc else []
  | None => []
  end.

Definition columnKept (f : option Predicate) (column : nat) (rgs : list RowGroup)
  : list Value :=
  List.concat (map (rowGroupKept f column) rgs).

(** The values a [SyncIterator] in state [c] still has to give. *)
Definition restKept (c : Sync.SyncIterator) : list Value :=
  match Sync.currRowGroup c with
  | None => columnKept (Sync.filter c) (Sync.column c) (Sync.rgs c)
  | Some _ =>
      match Sync.currPage c with
      | Some _ => List.filter (keepsValue (Sync.filter c)) (pending c)
      | None => []
      end
      ++ match Sync.currChunk c with
         | Some cc => chunkKept (Sync.filter c) cc
         | None => []
         end
      ++ columnKept (Sync.filter c) (Sync.column c) (Sync.rgs c)
  end.

(** A column chunk whose pages are all read without an I/O error, and row
    groups that have such a chunk for the column. *)
Definition chunkClean (cc : ColumnChunk) : Prop :=
  Forall (fun rd => match rd with
                    | ReadPage p => page_err p = None
                    | ReadErr _ => False
                    end) cc.

Definition readable (column : nat) (rgs : list RowGroup) : Prop :=
  Forall (fun rg => exists cc, nth_error (rg_ColumnChunks rg) column = Some cc
                               /\ chunkClean cc) rgs.

(** The entries of a result for the value [v]: one entry under the name
    given with [SyncIteratorOptSelectAs], none without it. *)
Definition entriesFor (selectAs : string) (v : Value) : list (string * Value) :=
  if String.eqb selectAs EmptyString then [] else [(selectAs, v)].

(** What [next] needs, besides [syncInv], to give every value: inside a
    page the row is known or the next value starts one; nothing that is
    still to be read fails; there are as many row group bounds as row
    groups; the read buffer is not empty; the result [at] has the entry
    for the selected name. *)
Definition readyInv (c : Sync.SyncIterator) : Prop :=
  (Sync.currPage c <> None -> 0 <= rn0 (Sync.curr c) \/ startsRow (pending c))
  /\ match Sync.currValues c with Some r => reader_err r = None | None => True end
  /\ match Sync.currChunk c with Some cc => chunkClean cc | None => True end
  /\ readable (Sync.column c) (Sync.rgs c)
  /\ List.length (Sync.rgsMax c) = List.length (Sync.rgs c)
  /\ (0 < Sync.readSize c)%nat
  /\ exists w, Entries (Sync.at_ c) = entriesFor (Sync.selectAs c) w.

(** What a round of the loop of [next] ends with, when [vs] are the
    values still to give and [s] the selected name. *)
Definition valuesPost (vs : list Value) (s : string)
           (f : Sync.Flow (Res (RowNumber * option Value))) : Prop :=
  match f with
  | Sync.Continue c' => readyInv c' /\ restKept c' = vs /\ Sync.selectAs c' = s
  | Sync.Return c' (Ok (rn, Some v)) =>
      Valid rn = true /\ readyInv c' /\ vs = v :: restKept c' /\ Sync.selectAs c' = s
  | Sync.Return c' (Ok (rn, None)) =>
      vs = [] /\ Sync.rgs c' = [] /\ Sync.currRowGroup c' = None
  | Sync.Return _ _ => False
  end.

(** The state after up to [n] calls of [next] that give a result. *)
Fixpoint stateAfter {J : Type} (next : J -> J * Res (option IteratorResult))
         (n : nat) (j : J) : J :=
  match n with
  | O => j
  | S n' =>
      match next j with
      | (j', Ok (Some _)) => stateAfter next n' j'
      | _ => j
      end
  end.

(* ------------------------------------------------------------------ *)
(** ** The row numbers a SyncIterator has to give *)

(** The values [vs] with their row numbers, counted on from [t] with
    [RowNumber.Next]. *)
Fixpoint numberFrom (m : nat) (t : RowNumber) (vs : list Value) : list (RowNumber * Value) :=
  match vs with
  | [] => []
  | v :: vs' =>
      match RowNumber_Next t (RepetitionLevel v) (DefinitionLevel v) m with
      | Some t' => (t', v) :: numberFrom m t' vs'
      | None => []
      end
  end.

(** The numbered values the filter keeps. *)
Definition keptNumbered (f : option Predicate) (l : list (RowNumber * Value))
  : list (RowNumber * Value) :=
  List.filter (fun tv => keepsValue f (snd tv)) l.

(** The numbered values of a page that comes after row [row], of a column
    chunk and of a list of row groups: a page is counted on from the row
    before it, the next page starts after the rows the page declares, the
    next row group after the rows the row group declares; pages and
    column chunks the filter turns down are passed over. *)
Definition pageNumbered (f : option Predicate) (m : nat) (row : Z) (p : Page)
  : list (RowNumber * Value) :=
  if keepsPage f p
  then keptNumbered f (numberFrom m (mkRN row (-1) (-1) (-1) (-1) (-1) (-1) (-1)) (page_values p))
  else [].

Fixpoint chunkNumbered (f : option Predicate) (m : nat) (row : Z) (cc : ColumnChunk)
  : list (RowNumber * Value) :=
  match cc with
  | [] => []
  | ReadPage p :: rest => pageNumbered f m row p ++ chunkNumbered f m (row + page_NumRows p) rest
  | ReadErr _ :: rest => chunkNumbered f m row rest
  end.

Fixpoint columnNumbered (f : option Predicate) (m : nat) (column : nat) (row : Z)
         (rgs : list RowGroup) : list (RowNumber * Value) :=
  match rgs with
  | [] => []
  | rg :: rest =>
      match nth_error (rg_ColumnChunks rg) column with
      | Some cc => if keepsChunk f cc then chunkNumbered f m row cc else []
      | None => []
      end
      ++ columnNumbered f m column (row + rg_NumRows rg) rest
  end.

(** The row before the next row group, as the bounds have it. *)
Definition nextStart (c : Sync.SyncIterator) : Z :=
  match Sync.rgsMin c with
  | mn :: _ => rn0 mn
  | [] => 0
  end.

(** The numbered values a [SyncIterator] in state [c] still has to give. *)
Definition restNumbered (c : Sync.SyncIterator) : list (RowNumber * Value) :=
  match Sync.currRowGroup c with
  | None =>
      columnNumbered (Sync.filter c) (Sync.maxDefinitionLevel c) (Sync.column c)
                     (nextStart c) (Sync.rgs c)
  | Some _ =>
      match Sync.currPage c with
      | Some _ =>
          keptNumbered (Sync.filter c)
                       (numberFrom (Sync.maxDefinitionLevel c) (Sync.curr c) (pending c))
          ++ match Sync.currChunk c with
             | Some cc => chunkNumbered (Sync.filter c) (Sync.maxDefinitionLevel c)
                                        (rn0 (Sync.currPageMax c) - 1) cc
             | None => []
             end
      | None =>
          match Sync.currChunk c with
          | Some cc => chunkNumbered (Sync.filter c) (Sync.maxDefinitionLevel c)
                                     (rn0 (Sync.curr c)) cc
          | None => []
          end
      end
      ++ columnNumbered (Sync.filter c) (Sync.maxDefinitionLevel c) (Sync.column c)
                        (nextStart c) (Sync.rgs c)
  end.

(** What a round of the loop of [next] ends with, when [vs] are the
    numbered values still to give. *)
Definition rowsPost (vs : list (RowNumber * Value))
           (f : Sync.Flow (Res (RowNumber * option Value))) : Prop :=
  match f with
  | Sync.Continue c' => restNumbered c' = vs
  | Sync.Return c' (Ok (rn, Some v)) => vs = (rn, v) :: restNumbered c'
  | Sync.Return c' (Ok (rn, None)) => vs = []
  | Sync.Return _ _ => True
  end.

(** A result as its row number and its entries, and the result to give
    for a numbered value under the selected name [s]. *)
Definition numbered (r : IteratorResult) : RowNumber * list (string * Value) :=
  (ir_RowNumber r, Entries r).
Definition numberedFor (s : string) (tv : RowNumber * Value)
  : RowNumber * list (string * Value) :=
  (fst tv, entriesFor s (snd tv)).

(** [l1] is [l2] with some elements left out. *)
Inductive subseq {A : Type} : list A -> list A -> Prop :=
| subseq_nil : subseq [] []
| subseq_keep x l1 l2 : subseq l1 l2 -> subseq (x :: l1) (x :: l2)
| subseq_drop x l1 l2 : subseq l1 l2 -> subseq l1 (x :: l2).

(* ================================================================== *)
(** * Properties *)

(** ** Machine integers *)

Lemma wrap32_id z : int32 z -> wrap32 z = z.
Proof.
  unfold int32, wrap32, MinInt32, MaxInt32. intros H.
  rewrite Z.mod_small by lia. lia.
Qed.

Lemma wrap32_range z : int32 (wrap32 z).
Proof.
  unfold int32, wrap32, MinInt32, MaxInt32.
  pose proof (Z.mod_pos_bound (z + 2147483648) 4294967296 ltac:(lia)). lia.
Qed.

Lemma wrap32_add_l a b : wrap32 (a + wrap32 b) = wrap32 (a + b).
Proof.
  unfold wrap32.
  replace (a + ((b + 2147483648) mod 4294967296 - 2147483648) + 2147483648)
    with (a + (b + 2147483648) mod 4294967296) by lia.
  rewrite Zplus_mod_idemp_r. f_equal. f_equal. lia.
Qed.


(* ------------------------------------------------------------------ *)
(** ** Row numbers as lists and the lexicographic order *)

Lemma rn_list_length t : List.length (rn_list t) = 8%nat.
Proof. reflexivity. Qed.

Lemma rn_list_inj a b : rn_list a = rn_list b -> a = b.
Proof. destruct a, b; cbn; intros E; injection E; intros; subst; reflexivity. Qed.

Lemma rn_get_nth t i : rn_get t i = nth_error (rn_list t) i.
Proof. do 9 (destruct i as [|i]; [reflexivity|]). destruct i; reflexivity. Qed.

Lemma key_length d t : (d <= 7)%nat -> List.length (key d t) = S d.
Proof. intros Hd. unfold key. rewrite length_firstn, rn_list_length. lia. Qed.

Lemma level_cases_7 (d : nat) :
  (d <= 7)%nat ->
  d = 0%nat \/ d = 1%nat \/ d = 2%nat \/ d = 3%nat \/ d = 4%nat \/ d = 5%nat
  \/ d = 6%nat \/ d = 7%nat.
Proof. lia. Qed.

Ltac level_cases H :=
  apply level_cases_7 in H;
  destruct H as [->|[->|[->|[->|[->|[->|[->| ->]]]]]]].

Lemma skipn_nth_cons {A} (l : list A) (i : nat) :
  (i < List.length l)%nat ->
  exists x, nth_error l i = Some x /\ skipn i l = x :: skipn (S i) l.
Proof.
  revert i; induction l as [|y l IH]; intros i Hi; cbn in Hi; [lia|].
  destruct i as [|i]; [exists y; auto|].
  destruct (IH i ltac:(lia)) as [x [E1 E2]]. exists x. cbn. auto.
Qed.

Lemma compare_loop_lex n i a b :
  (i + n <= 8)%nat ->
  compare_loop n i a b
  = Some (lex (firstn n (skipn i (rn_list a))) (firstn n (skipn i (rn_list b)))).
Proof.
  revert i; induction n as [|n IH]; intros i Hi; [reflexivity|].
  cbn [compare_loop]. rewrite !rn_get_nth.
  destruct (skipn_nth_cons (rn_list a) i) as [x [Ex Sx]]; [rewrite rn_list_length; lia|].
  destruct (skipn_nth_cons (rn_list b) i) as [y [Ey Sy]]; [rewrite rn_list_length; lia|].
  rewrite Ex, Ey, Sx, Sy. cbn [firstn lex].
  destruct (x <? y); [reflexivity|]. destruct (x >? y); [reflexivity|].
  apply IH. lia.
Qed.

Lemma CompareRowNumbers_cmp d a b :
  (d <= 7)%nat -> CompareRowNumbers d a b = Some (cmp d a b).
Proof.
  intros Hd. unfold CompareRowNumbers, cmp, key.
  rewrite compare_loop_lex by lia. reflexivity.
Qed.

Lemma equal_loop_lex n i a b :
  (i + n <= 8)%nat ->
  equal_loop n i a b
  = Some (lex (firstn n (skipn i (rn_list a))) (firstn n (skipn i (rn_list b))) =? 0).
Proof.
  revert i; induction n as [|n IH]; intros i Hi; [reflexivity|].
  cbn [equal_loop]. rewrite !rn_get_nth.
  destruct (skipn_nth_cons (rn_list a) i) as [x [Ex Sx]]; [rewrite rn_list_length; lia|].
  destruct (skipn_nth_cons (rn_list b) i) as [y [Ey Sy]]; [rewrite rn_list_length; lia|].
  rewrite Ex, Ey, Sx, Sy. cbn [firstn lex]. rewrite Z.gtb_ltb.
  destruct (Z.eqb_spec x y) as [->|Hne]; cbn [negb].
  - rewrite Z.ltb_irrefl. apply IH. lia.
  - destruct (Z.ltb_spec x y); [reflexivity|].
    destruct (Z.ltb_spec y x); [reflexivity|lia].
Qed.

Lemma lex_range a b : lex a b = -1 \/ lex a b = 0 \/ lex a b = 1.
Proof.
  revert b; induction a as [|x a IH]; intros [|y b]; cbn; auto.
  destruct (x <? y); auto. destruct (x >? y); auto.
Qed.

Lemma lex_refl a : lex a a = 0.
Proof.
  induction a as [|x a IH]; cbn; auto.
  rewrite Z.gtb_ltb, Z.ltb_irrefl. exact IH.
Qed.

Lemma lex_cons x y a b :
  lex (x :: a) (y :: b) = if x <? y then -1 else if x >? y then 1 else lex a b.
Proof. reflexivity. Qed.

Lemma lex_cons_lt x y a b :
  lex (x :: a) (y :: b) = -1 <-> x < y \/ (x = y /\ lex a b = -1).
Proof.
  rewrite lex_cons. rewrite Z.gtb_ltb.
  destruct (Z.ltb_spec x y); [intuition lia|].
  destruct (Z.ltb_spec y x); [intuition lia|].
  intuition lia.
Qed.

Lemma lex_cons_gt x y a b :
  lex (x :: a) (y :: b) = 1 <-> y < x \/ (x = y /\ lex a b = 1).
Proof.
  rewrite lex_cons. rewrite Z.gtb_ltb.
  destruct (Z.ltb_spec x y); [intuition lia|].
  destruct (Z.ltb_spec y x); [intuition lia|].
  intuition lia.
Qed.

Lemma lex_cons_eq x y a b :
  lex (x :: a) (y :: b) = 0 <-> x = y /\ lex a b = 0.
Proof.
  rewrite lex_cons. rewrite Z.gtb_ltb.
  destruct (Z.ltb_spec x y); [intuition lia|].
  destruct (Z.ltb_spec y x); [intuition lia|].
  intuition lia.
Qed.

Lemma lex_antisym a b : lex a b = -1 <-> lex b a = 1.
Proof.
  revert b; induction a as [|x a IH]; intros [|y b];
    try (cbn; split; discriminate).
  rewrite lex_cons_lt, lex_cons_gt, IH. intuition lia.
Qed.

Lemma lex_sym_eq a b : lex a b = 0 <-> lex b a = 0.
Proof.
  revert b; induction a as [|x a IH]; intros [|y b]; try (cbn; tauto).
  rewrite !lex_cons_eq, IH. intuition lia.
Qed.

Lemma lex_eq a b : List.length a = List.length b -> (lex a b = 0 <-> a = b).
Proof.
  revert b; induction a as [|x a IH]; intros [|y b] Hl; cbn in Hl; try discriminate.
  - cbn. tauto.
  - rewrite lex_cons_eq, IH by lia. split.
    + intros [-> ->]; reflexivity.
    + intros E; injection E; auto.
Qed.

Lemma lex_trans_lt a b c : lex a b = -1 -> lex b c = -1 -> lex a c = -1.
Proof.
  revert b c; induction a as [|x a IH]; intros [|y b] [|z c]; try (cbn; discriminate).
  rewrite !lex_cons_lt. intros [H1|[-> H1]] [H2|[-> H2]]; try (left; lia).
  right; split; [reflexivity|]. eapply IH; eauto.
Qed.

Lemma lex_eq_lt a b c :
  List.length a = List.length b -> lex a b = 0 -> lex b c = -1 -> lex a c = -1.
Proof. intros Hl E. apply lex_eq in E; auto. subst. auto. Qed.

Lemma lex_lt_eq a b c :
  List.length b = List.length c -> lex a b = -1 -> lex b c = 0 -> lex a c = -1.
Proof. intros Hl H E. apply lex_eq in E; auto. subst. auto. Qed.

(** Comparing longer prefixes refines the comparison of shorter ones. *)
Lemma lex_firstn_lt n m a b :
  (n <= m)%nat -> lex (firstn n a) (firstn n b) = -1 -> lex (firstn m a) (firstn m b) = -1.
Proof.
  revert m a b; induction n as [|n IH]; intros m a b Hnm; [cbn; discriminate|].
  destruct m as [|m]; [lia|]. destruct a as [|x a], b as [|y b]; try (cbn; discriminate).
  cbn [firstn]. rewrite !lex_cons_lt. intros [H|[-> H]]; [left; auto|right; split; auto].
  apply IH; auto. lia.
Qed.

Lemma lex_firstn_gt n m a b :
  (n <= m)%nat -> lex (firstn n a) (firstn n b) = 1 -> lex (firstn m a) (firstn m b) = 1.
Proof.
  intros Hnm H. apply lex_antisym. apply lex_antisym in H. eapply lex_firstn_lt; eauto.
Qed.

Lemma lex_firstn_eq n m a b :
  (n <= m)%nat -> lex (firstn m a) (firstn m b) = 0 -> lex (firstn n a) (firstn n b) = 0.
Proof.
  intros Hnm H.
  destruct (lex_range (firstn n a) (firstn n b)) as [E|[E|E]]; auto.
  - eapply lex_firstn_lt in E; eauto. lia.
  - eapply lex_firstn_gt in E; eauto. lia.
Qed.

(** *** The order on row numbers at a level *)

Lemma cmp_range d a b : cmp d a b = -1 \/ cmp d a b = 0 \/ cmp d a b = 1.
Proof. apply lex_range. Qed.

Lemma cmp_refl d a : cmp d a a = 0.
Proof. apply lex_refl. Qed.

Lemma cmp_antisym d a b : cmp d a b = -1 <-> cmp d b a = 1.
Proof. apply lex_antisym. Qed.

Lemma cmp_sym_eq d a b : cmp d a b = 0 <-> cmp d b a = 0.
Proof. apply lex_sym_eq. Qed.

Lemma cmp_eq_key d a b : cmp d a b = 0 <-> key d a = key d b.
Proof.
  unfold cmp. apply lex_eq. unfold key. rewrite !length_firstn, !rn_list_length. reflexivity.
Qed.

Lemma cmp_trans_lt d a b c : cmp d a b = -1 -> cmp d b c = -1 -> cmp d a c = -1.
Proof. apply lex_trans_lt. Qed.

Lemma cmp_eq_l d a b c : cmp d a b = 0 -> cmp d a c = cmp d b c.
Proof. intros E. apply cmp_eq_key in E. unfold cmp. rewrite E. reflexivity. Qed.

Lemma cmp_eq_r d a b c : cmp d b c = 0 -> cmp d a b = cmp d a c.
Proof. intros E. apply cmp_eq_key in E. unfold cmp. rewrite E. reflexivity. Qed.

Lemma cmp_level_lt d d' a b : (d <= d')%nat -> cmp d a b = -1 -> cmp d' a b = -1.
Proof. intros Hd. unfold cmp, key. apply lex_firstn_lt. lia. Qed.

Lemma cmp_level_gt d d' a b : (d <= d')%nat -> cmp d a b = 1 -> cmp d' a b = 1.
Proof. intros Hd. unfold cmp, key. apply lex_firstn_gt. lia. Qed.

Lemma cmp_level_eq d d' a b : (d <= d')%nat -> cmp d' a b = 0 -> cmp d a b = 0.
Proof. intros Hd. unfold cmp, key. apply lex_firstn_eq. lia. Qed.

Lemma EqualRowNumber_cmp d a b :
  (d <= 7)%nat -> EqualRowNumber d a b = Some (cmp d a b =? 0).
Proof.
  intros Hd. unfold EqualRowNumber, cmp, key.
  rewrite equal_loop_lex by lia. reflexivity.
Qed.

(* ------------------------------------------------------------------ *)
(** ** Preceding *)

Lemma Preceding_list r :
  rn_list (RowNumber_Preceding r) = fst (prec_list (rn_list r)).
Proof.
  destruct r as [a0 a1 a2 a3 a4 a5 a6 a7].
  unfold RowNumber_Preceding. cbn.
  destruct (a7 =? -1); [|destruct (a7 =? 0); [|reflexivity]];
  (destruct (a6 =? -1); [|destruct (a6 =? 0); [|reflexivity]]);
  (destruct (a5 =? -1); [|destruct (a5 =? 0); [|reflexivity]]);
  (destruct (a4 =? -1); [|destruct (a4 =? 0); [|reflexivity]]);
  (destruct (a3 =? -1); [|destruct (a3 =? 0); [|reflexivity]]);
  (destruct (a2 =? -1); [|destruct (a2 =? 0); [|reflexivity]]);
  (destruct (a1 =? -1); [|destruct (a1 =? 0); [|reflexivity]]);
  (destruct (a0 =? -1); [|destruct (a0 =? 0); [|reflexivity]]);
  reflexivity.
Qed.

Lemma prec_list_length l : List.length (fst (prec_list l)) = List.length l.
Proof.
  induction l as [|x xs IH]; [reflexivity|]. cbn.
  destruct (prec_list xs) as [xs' done]. cbn in IH.
  destruct done; [cbn; lia|].
  destruct (x =? -1); [cbn; lia|]. destruct (x =? 0); cbn; lia.
Qed.

(** A position is decremented exactly when some position is neither -1
    nor 0. *)
Lemma prec_list_done l :
  Forall (fun x => -1 <= x <= MaxInt32) l ->
  (snd (prec_list l) = true <-> Exists (fun x => 1 <= x) l).
Proof.
  induction 1 as [|x xs Hx Hxs IH]; cbn.
  - split; [discriminate|]. intros E; inversion E.
  - destruct (prec_list xs) as [xs' done]. cbn in IH.
    destruct done; cbn.
    + split; auto. intros _. apply Exists_cons_tl. apply IH. reflexivity.
    + destruct (Z.eqb_spec x (-1)); cbn.
      * split; [discriminate|]. intros E; inversion E; subst; [lia|]. apply IH in H0. discriminate.
      * destruct (Z.eqb_spec x 0); cbn.
        -- split; [discriminate|]. intros E; inversion E; subst; [lia|].
           apply IH in H0. discriminate.
        -- split; auto. intros _. apply Exists_cons_hd. lia.
Qed.

Lemma prec_list_lt l :
  Forall (fun x => -1 <= x <= MaxInt32) l ->
  snd (prec_list l) = true -> lex (fst (prec_list l)) l = -1.
Proof.
  induction 1 as [|x xs Hx Hxs IH]; cbn [prec_list fst snd]; [discriminate|].
  destruct (prec_list xs) as [xs' done]. cbn [fst snd] in IH.
  destruct done; cbn [prec_list fst snd].
  - intros _. apply lex_cons_lt. right. auto.
  - destruct (Z.eqb_spec x (-1)); cbn [prec_list fst snd]; [discriminate|].
    destruct (Z.eqb_spec x 0); cbn [prec_list fst snd]; [discriminate|].
    intros _. apply lex_cons_lt. left.
    rewrite wrap32_id; [lia|]. unfold int32, MinInt32, MaxInt32 in *. lia.
Qed.

(** When no position is decremented, the positions afterwards are -1 or
    [MaxInt32]; nothing defined at the same positions is above them or
    below the positions before. *)
Lemma prec_list_top l l' :
  Forall (fun x => -1 <= x <= MaxInt32) l ->
  Forall (fun x => -1 <= x <= MaxInt32) l' ->
  Forall2 (fun x y => x = -1 <-> y = -1) l l' ->
  snd (prec_list l) = false ->
  lex (fst (prec_list l)) l' <> -1 /\ lex l' l <> -1.
Proof.
  intros Hl Hl' Hs. revert Hl Hl'.
  induction Hs as [|x y xs ys Hxy Hs IH]; intros Hl Hl'; cbn [prec_list fst snd]; [intros _; split; discriminate|].
  inversion Hl as [|? ? Hx Hxs]; subst. inversion Hl' as [|? ? Hy Hys]; subst.
  destruct (prec_list xs) as [xs' done]. cbn [fst snd] in IH.
  destruct done; cbn [prec_list fst snd]; [discriminate|].
  specialize (IH Hxs Hys eq_refl). destruct IH as [IH1 IH2].
  destruct (Z.eqb_spec x (-1)); cbn [prec_list fst snd].
  - intros _. rewrite !lex_cons_lt. split; intros [?|[? ?]]; intuition lia.
  - destruct (Z.eqb_spec x 0); cbn [prec_list fst snd]; [|discriminate].
    intros _. rewrite !lex_cons_lt. unfold MaxInt32 in *.
    split; intros [?|[? ?]]; intuition lia.
Qed.

Lemma prec_list_gap l l' :
  Forall (fun x => -1 <= x <= MaxInt32) l ->
  Forall (fun x => -1 <= x <= MaxInt32) l' ->
  Forall2 (fun x y => x = -1 <-> y = -1) l l' ->
  ~ (lex (fst (prec_list l)) l' = -1 /\ lex l' l = -1).
Proof.
  intros Hl Hl' Hs. revert Hl Hl'.
  induction Hs as [|x y xs ys Hxy Hs IH]; intros Hl Hl'; cbn [prec_list fst snd]; [intros [? _]; discriminate|].
  inversion Hl as [|? ? Hx Hxs]; subst. inversion Hl' as [|? ? Hy Hys]; subst.
  specialize (IH Hxs Hys).
  pose proof (prec_list_top xs ys Hxs Hys Hs) as Htop.
  destruct (prec_list xs) as [xs' done]. cbn [fst snd] in IH, Htop.
  destruct done; cbn [prec_list fst snd].
  - rewrite !lex_cons_lt. intros [[?|[? ?]] [?|[? ?]]]; try lia; try (apply IH; auto).
  - destruct (Htop eq_refl) as [T1 T2].
    destruct (Z.eqb_spec x (-1)); cbn [prec_list fst snd].
    + rewrite !lex_cons_lt. intros [[?|[? ?]] [?|[? ?]]]; try lia; intuition lia.
    + destruct (Z.eqb_spec x 0); cbn [prec_list fst snd].
      * rewrite !lex_cons_lt. unfold MaxInt32 in *.
        intros [[?|[? ?]] [?|[? ?]]]; try lia; intuition lia.
      * rewrite !lex_cons_lt.
        rewrite wrap32_id by (unfold int32, MinInt32, MaxInt32 in *; lia).
        intros [[?|[? ?]] [?|[? ?]]]; try lia; intuition lia.
Qed.

Lemma key_7 t : key 7 t = rn_list t.
Proof. destruct t; reflexivity. Qed.

(** C5 (as amended).  For every row number [r] whose positions are -1 or
    an [int32] ordinal, and that has a position of at least 1,
    [Preceding(r)] is strictly below [r] under [CompareRowNumbers(7, ., .)],
    and no row number defined at exactly the positions of [r] lies strictly
    between the two. *)
Theorem Preceding_largest_below (r : RowNumber) :
  rn_ordinals r ->
  Exists (fun x => 1 <= x) (rn_list r) ->
  CompareRowNumbers 7 (RowNumber_Preceding r) r = Some (-1)
  /\ forall r', rn_ordinals r' -> sameLevels r r' ->
       ~ (CompareRowNumbers 7 (RowNumber_Preceding r) r' = Some (-1)
          /\ CompareRowNumbers 7 r' r = Some (-1)).
Proof.
  intros Hr He. rewrite !CompareRowNumbers_cmp by lia.
  unfold cmp. rewrite !key_7, Preceding_list. split.
  - f_equal. apply prec_list_lt; auto. apply prec_list_done; auto.
  - intros r' Hr' Hs. rewrite !CompareRowNumbers_cmp by lia.
    unfold cmp. rewrite !key_7, Preceding_list.
    intros [H1 H2]. injection H1 as H1. injection H2 as H2.
    apply (prec_list_gap (rn_list r) (rn_list r') Hr Hr' Hs). split; assumption.
Qed.

Lemma Preceding_largest_below_witness :
  let r := mkRN 1000 0 0 (-1) (-1) (-1) (-1) (-1) in
  RowNumber_Preceding r = mkRN 999 MaxInt32 MaxInt32 (-1) (-1) (-1) (-1) (-1)
  /\ CompareRowNumbers 7 (RowNumber_Preceding r) r = Some (-1).
Proof.
  split; [reflexivity|].
  apply (Preceding_largest_below (mkRN 1000 0 0 (-1) (-1) (-1) (-1) (-1))).
  - unfold rn_ordinals, rn_list, MaxInt32; cbn. repeat (apply Forall_cons; [lia|]). apply Forall_nil.
  - apply Exists_cons_hd. cbn. lia.
Defined.

(** C5 as stated fails twice.  The valid row number [0.-1...-1] is
    preceded by [MaxInt32.-1...-1], which is above it; and between
    [1000.0.0] and its predecessor [999.max.max] lies [999.max.max.0]. *)
Lemma Preceding_counterexample :
  (Valid (mkRN 0 (-1) (-1) (-1) (-1) (-1) (-1) (-1)) = true
   /\ CompareRowNumbers 7 (RowNumber_Preceding (mkRN 0 (-1) (-1) (-1) (-1) (-1) (-1) (-1)))
                          (mkRN 0 (-1) (-1) (-1) (-1) (-1) (-1) (-1)) = Some 1)
  /\ (Valid (mkRN 1000 0 0 (-1) (-1) (-1) (-1) (-1)) = true
      /\ exists r',
           CompareRowNumbers 7 (RowNumber_Preceding (mkRN 1000 0 0 (-1) (-1) (-1) (-1) (-1))) r'
           = Some (-1)
           /\ CompareRowNumbers 7 r' (mkRN 1000 0 0 (-1) (-1) (-1) (-1) (-1)) = Some (-1)).
Proof.
  split; [split; reflexivity|]. split; [reflexivity|].
  exists (mkRN 999 MaxInt32 MaxInt32 0 (-1) (-1) (-1) (-1)). split; reflexivity.
Qed.

(* ------------------------------------------------------------------ *)
(** ** Row group bounds of NewSyncIterator *)

Lemma RowNumber_Skip_rowAt k n :
  int32 (k + n) -> RowNumber_Skip (rowAt k) n = rowAt (k + n).
Proof.
  intros H. unfold RowNumber_Skip, rowAt. cbn. rewrite wrap32_add_l, wrap32_id by assumption.
  reflexivity.
Qed.

Lemma sumRows_nonneg rgs :
  Forall (fun rg => 0 <= rg_NumRows rg) rgs -> 0 <= sumRows rgs.
Proof.
  induction 1 as [|rg rgs H0 H IH]; [cbn; lia|].
  cbn [sumRows fold_right]. fold (sumRows rgs). lia.
Qed.

Lemma rowGroupBounds_nth rgs : forall k i rg,
  Forall (fun rg => 0 <= rg_NumRows rg) rgs ->
  -1 <= k -> k + 1 + sumRows rgs <= MaxInt32 ->
  nth_error rgs i = Some rg ->
  nth_error (fst (Sync.rowGroupBounds (rowAt k) rgs)) i
  = Some (rowAt (k + sumRows (firstn i rgs)))
  /\ nth_error (snd (Sync.rowGroupBounds (rowAt k) rgs)) i
     = Some (rowAt (k + sumRows (firstn i rgs) + rg_NumRows rg + 1)).
Proof.
  induction rgs as [|rg0 rgs IH]; intros k i rg Hpos Hk Hsum Hnth.
  - destruct i; discriminate.
  - inversion Hpos as [|? ? H0 Hpos']; subst.
    pose proof (sumRows_nonneg rgs Hpos') as Hs.
    cbn [sumRows fold_right] in Hsum. fold (sumRows rgs) in Hsum.
    cbn [Sync.rowGroupBounds].
    rewrite !RowNumber_Skip_rowAt by (unfold int32, MinInt32, MaxInt32 in *; lia).
    destruct (Sync.rowGroupBounds (rowAt (k + rg_NumRows rg0)) rgs) as [mins maxs] eqn:E.
    destruct i as [|i]; cbn [nth_error fst snd firstn].
    + injection Hnth as <-. cbn. rewrite Z.add_0_r. split; [reflexivity|].
      f_equal. f_equal. lia.
    + cbn [nth_error] in Hnth.
      specialize (IH (k + rg_NumRows rg0) i rg Hpos' ltac:(lia) ltac:(lia) Hnth).
      rewrite E in IH. cbn [fst snd] in IH. destruct IH as [IH1 IH2].
      cbn [sumRows fold_right]. fold (sumRows (firstn i rgs)).
      rewrite IH1, IH2. split; f_equal; f_equal; lia.
Qed.

Lemma declaredOpt_bounds opts : forall it,
  Forall declaredOpt opts ->
  Sync.rgsMin (fold_left (fun i opt => opt i) opts it) = Sync.rgsMin it
  /\ Sync.rgsMax (fold_left (fun i opt => opt i) opts it) = Sync.rgsMax it.
Proof.
  induction opts as [|o opts IH]; intros it Ho; [split; reflexivity|].
  inversion Ho as [|? ? H1 H2]; subst. cbn [fold_left].
  destruct (IH (o it) H2) as [E1 E2]. rewrite E1, E2.
  destruct H1; split; reflexivity.
Qed.

Lemma NewSyncIterator_bounds_eq rgs column opts :
  Forall declaredOpt opts ->
  Sync.rgsMin (Sync.NewSyncIterator rgs column opts) = fst (Sync.rowGroupBounds EmptyRowNumber rgs)
  /\ Sync.rgsMax (Sync.NewSyncIterator rgs column opts)
     = snd (Sync.rowGroupBounds EmptyRowNumber rgs).
Proof.
  intros Ho. unfold Sync.NewSyncIterator.
  destruct (Sync.rowGroupBounds EmptyRowNumber rgs) as [mins maxs]. cbn [fst snd].
  match goal with
  | |- context [fold_left ?f opts ?i] =>
      destruct (declaredOpt_bounds opts i Ho) as [E1 E2]; set (it := fold_left f opts i) in *
  end.
  destruct (String.eqb (Sync.selectAs it) EmptyString); cbn; rewrite ?E1, ?E2; split; reflexivity.
Qed.

(** C7 (as amended).  For the row groups passed to [NewSyncIterator]
    (non-negative row counts, at most [MaxInt32] rows in all), the bounds
    of the group whose first row has number [first] are
    [min = first - 1] and [max = first + NumRows], all other positions
    being -1: [max] is exclusive, it is the number of the first row of the
    next group, and it equals [min + NumRows + 1] at position 0; the [min]
    of the next group is the [max] of this one minus 1. *)
Theorem NewSyncIterator_bounds (rgs : list RowGroup) (column : nat)
        (opts : list Sync.SyncIteratorOpt) (i : nat) (rg : RowGroup) :
  Forall declaredOpt opts ->
  Forall (fun rg => 0 <= rg_NumRows rg) rgs ->
  sumRows rgs <= MaxInt32 ->
  nth_error rgs i = Some rg ->
  let it := Sync.NewSyncIterator rgs column opts in
  let first := sumRows (firstn i rgs) in
  nth_error (Sync.rgsMin it) i = Some (rowAt (first - 1))
  /\ nth_error (Sync.rgsMax it) i = Some (rowAt (first + rg_NumRows rg))
  /\ rowAt (first + rg_NumRows rg) = rowAt (rn0 (rowAt (first - 1)) + rg_NumRows rg + 1)
  /\ (forall rg', nth_error rgs (S i) = Some rg' ->
        nth_error (Sync.rgsMin it) (S i) = Some (rowAt (first + rg_NumRows rg - 1))).
Proof.
  intros Ho Hpos Hsum Hnth it first.
  destruct (NewSyncIterator_bounds_eq rgs column opts Ho) as [E1 E2].
  subst it. rewrite E1, E2.
  assert (Hemp : EmptyRowNumber = rowAt (-1)) by reflexivity. rewrite Hemp.
  destruct (rowGroupBounds_nth rgs (-1) i rg Hpos ltac:(lia) ltac:(lia) Hnth) as [B1 B2].
  fold first in B1, B2. repeat split.
  - rewrite B1. f_equal. f_equal. lia.
  - rewrite B2. f_equal. f_equal. lia.
  - f_equal. cbn. lia.
  - intros rg' Hnth'.
    destruct (rowGroupBounds_nth rgs (-1) (S i) rg' Hpos ltac:(lia) ltac:(lia) Hnth') as [B1' _].
    rewrite B1'. f_equal. f_equal.
    assert (Hf : sumRows (firstn (S i) rgs) = first + rg_NumRows rg).
    { subst first. clear - Hnth. revert i Hnth.
      induction rgs as [|r0 rgs IH]; intros i Hnth; [destruct i; discriminate|].
      destruct i as [|i]; cbn in Hnth.
      - injection Hnth as <-. cbn. lia.
      - specialize (IH i Hnth). cbn [firstn sumRows fold_right] in *.
        fold (sumRows (firstn i rgs)). lia. }
    lia.
Qed.

Lemma NewSyncIterator_bounds_witness :
  let rgs := [mkRowGroup 10 []; mkRowGroup 5 []] in
  let it := Sync.NewSyncIterator rgs 0 [] in
  nth_error (Sync.rgsMin it) 1 = Some (rowAt 9)
  /\ nth_error (Sync.rgsMax it) 1 = Some (rowAt 15).
Proof.
  pose proof (NewSyncIterator_bounds [mkRowGroup 10 []; mkRowGroup 5 []] 0 [] 1
                (mkRowGroup 5 [])) as H.
  destruct H as [H1 [H2 _]].
  - apply Forall_nil.
  - repeat (apply Forall_cons; [cbn; lia|]). apply Forall_nil.
  - unfold MaxInt32; cbn; lia.
  - reflexivity.
  - split; [exact H1 | exact H2].
Defined.

(** C7 as stated fails: for one row group of 10 rows [min] is -1 and [max]
    is 10 at position 0, not [min + NumRows = 9]. *)
Lemma NewSyncIterator_bounds_counterexample :
  let it := Sync.NewSyncIterator [mkRowGroup 10 []] 0 [] in
  Sync.rgsMin it = [rowAt (-1)] /\ Sync.rgsMax it = [rowAt 10]
  /\ rn0 (rowAt 10) <> rn0 (rowAt (-1)) + 10.
Proof. repeat split. cbn. lia. Qed.

(* ------------------------------------------------------------------ *)
(** ** NewLeftJoinIterator *)

(** C9.  [NewLeftJoinIterator] returns an error and no iterator when the
    list of required iterators is empty, whatever the definition level,
    the optional iterators, the predicate and the options; when the list
    is not empty it returns an iterator. *)
Theorem NewLeftJoinIterator_required {It : Type} `{Iterator It}
        (definitionLevel : nat) (optional : list It) (pred : option GroupPredicate)
        (opts : list LeftJoin.LeftJoinIteratorOption) :
  LeftJoin.NewLeftJoinIterator definitionLevel [] optional pred opts
  = inr "left join iterator requires at least one required iterator"%string
  /\ (forall r required,
        let j := fold_left (fun j opt => opt j) opts
                   (LeftJoin.mkLeftJoin definitionLevel (r :: required) optional
                      (map (fun _ => None) (r :: required)) (map (fun _ => None) optional)
                      pred DefaultPool emptyResult) in
        LeftJoin.NewLeftJoinIterator definitionLevel (r :: required) optional pred opts
        = inl (LeftJoin.set_at_ j (ResultPool_Get (LeftJoin.pool j)))).
Proof.
  split; [reflexivity|]. intros r required. reflexivity.
Qed.

(* ------------------------------------------------------------------ *)
(** ** KeyValueGroupPredicate *)

Lemma bytes_Equal_eq a b : bytes_Equal a b = true <-> a = b.
Proof.
  revert b; induction a as [|x a IH]; intros [|y b]; cbn; try (split; [discriminate|discriminate]);
    try tauto.
  rewrite andb_true_iff, IH. split.
  - intros [E ->]. apply Byte.byte_dec_bl in E. subst. reflexivity.
  - intros E. injection E as -> ->. split; auto. apply Byte.byte_dec_lb. reflexivity.
Qed.

Lemma Columns_fold es : forall a b,
  fold_left (columns_add ["keys"; "values"]%string) es [a; b]
  = [a ++ map snd (List.filter (fun e => String.eqb (fst e) "keys") es);
     b ++ map snd (List.filter (fun e => String.eqb (fst e) "values") es)].
Proof.
  induction es as [|e es IH]; intros a b; cbn [fold_left List.filter map].
  - rewrite !app_nil_r. reflexivity.
  - cbn [columns_add]. destruct (String.eqb_spec (fst e) "keys") as [E|E].
    + rewrite IH. rewrite E. cbn. rewrite <- app_assoc. reflexivity.
    + destruct (String.eqb_spec (fst e) "values") as [E'|E'].
      * rewrite IH. cbn. rewrite <- app_assoc. reflexivity.
      * rewrite IH. reflexivity.
Qed.

Lemma Columns_keys_values r :
  Columns r ["keys"; "values"]%string = [column_of r "keys"; column_of r "values"].
Proof. unfold Columns, column_of. cbn [map]. apply Columns_fold. Qed.

Lemma kv_found_pairAt k v keys vals :
  kv_found k v keys vals = true <-> pairAt k v keys vals.
Proof.
  revert vals; induction keys as [|key keys IH]; intros [|val vals]; cbn [kv_found].
  - split; [discriminate|]. intros (j & ? & ? & H & _). destruct j; discriminate.
  - split; [discriminate|]. intros (j & ? & ? & H & _). destruct j; discriminate.
  - split; [discriminate|]. intros (j & ? & ? & _ & H & _). destruct j; discriminate.
  - destruct (bytes_Equal k (ByteArray key) && bytes_Equal v (ByteArray val)) eqn:E.
    + split; auto. intros _. apply andb_true_iff in E. destruct E as [E1 E2].
      apply bytes_Equal_eq in E1, E2. exists 0%nat, key, val. cbn. auto.
    + rewrite IH. split.
      * intros (j & key' & val' & H1 & H2 & H3 & H4).
        exists (S j), key', val'. cbn. auto.
      * intros (j & key' & val' & H1 & H2 & H3 & H4).
        destruct j as [|j]; cbn in H1, H2.
        -- injection H1 as <-. injection H2 as <-.
           assert (bytes_Equal k (ByteArray key) && bytes_Equal v (ByteArray val) = true).
           { apply andb_true_iff. split; apply bytes_Equal_eq; auto. }
           congruence.
        -- exists j, key', val'. auto.
Qed.

Lemma kv_all_spec a keys vals : forall n i,
  List.length (kv_keys a) = List.length (kv_vals a) ->
  (i + n <= List.length (kv_keys a))%nat ->
  exists b, kv_all n i a keys vals = Some b
            /\ (b = true <->
                forall i' k v, (i <= i' < i + n)%nat ->
                               nth_error (kv_keys a) i' = Some k ->
                               nth_error (kv_vals a) i' = Some v ->
                               pairAt k v keys vals).
Proof.
  induction n as [|n IH]; intros i Hl Hi; cbn [kv_all].
  - exists true. split; auto. split; auto. intros _ i' k v Hi'. lia.
  - destruct (nth_error (kv_keys a) i) as [k|] eqn:Ek;
      [|apply nth_error_None in Ek; lia].
    destruct (nth_error (kv_vals a) i) as [v|] eqn:Ev;
      [|apply nth_error_None in Ev; lia].
    destruct (kv_found k v keys vals) eqn:Ef.
    + destruct (IH (S i) Hl ltac:(lia)) as [b [Eb Hb]]. exists b. split; auto.
      rewrite Hb. split.
      * intros Hall i' k' v' Hi' Hk' Hv'.
        destruct (Nat.eq_dec i' i) as [->|Hne].
        -- rewrite Ek in Hk'. rewrite Ev in Hv'. injection Hk' as <-. injection Hv' as <-.
           apply kv_found_pairAt. exact Ef.
        -- apply (Hall i'); auto. lia.
      * intros Hall i' k' v' Hi'. apply Hall. lia.
    + exists false. split; auto. split; [discriminate|].
      intros Hall. specialize (Hall i k v ltac:(lia) Ek Ev).
      apply kv_found_pairAt in Hall. congruence.
Qed.

(** C6 (as amended).  For a predicate built from [n] pairs
    [(k_1, v_1) .. (k_n, v_n)] and every group, [KeepGroup] returns true
    if and only if the group's "keys" and "values" columns have the same
    length, that length is at least [n], and every pair [(k_i, v_i)]
    occurs at some common index [j] of the two columns, byte for byte. *)
Theorem KeepGroup_iff (keys values : list string) (group : IteratorResult) :
  List.length keys = List.length values ->
  exists b,
    KeepGroup (NewKeyValueGroupPredicate keys values) group = Some b
    /\ (b = true <->
        List.length (column_of group "keys") = List.length (column_of group "values")
        /\ (List.length keys <= List.length (column_of group "keys"))%nat
        /\ forall i k v,
             nth_error keys i = Some k -> nth_error values i = Some v ->
             pairAt (list_byte_of_string k) (list_byte_of_string v)
                    (column_of group "keys") (column_of group "values")).
Proof.
  intros Hl. unfold KeepGroup. rewrite Columns_keys_values.
  set (ks := column_of group "keys"). set (vs := column_of group "values").
  set (a := NewKeyValueGroupPredicate keys values).
  assert (Hka : List.length (kv_keys a) = List.length keys) by (cbn; apply length_map).
  assert (Hva : List.length (kv_vals a) = List.length values) by (cbn; apply length_map).
  rewrite Hka.
  destruct (Nat.ltb_spec (List.length ks) (List.length keys)) as [Hlt|Hge]; cbn [orb].
  { exists false. split; auto. split; [discriminate|]. intros (_ & ? & _). lia. }
  destruct (Nat.eqb_spec (List.length ks) (List.length vs)) as [He|Hne]; cbn [negb].
  2:{ exists false. split; auto. split; [discriminate|]. intros (? & _). lia. }
  destruct (kv_all_spec a ks vs (List.length keys) 0 ltac:(lia) ltac:(lia)) as [b [Eb Hb]].
  exists b. split; auto. rewrite Hb. split.
  - intros Hall. repeat split; auto. intros i k v Hk Hv.
    apply (Hall i).
    + assert (nth_error keys i <> None) as Hs by congruence.
      apply nth_error_Some in Hs. lia.
    + cbn. rewrite nth_error_map, Hk. reflexivity.
    + cbn. rewrite nth_error_map, Hv. reflexivity.
  - intros (_ & _ & Hall) i k v Hi Hk Hv. cbn in Hk, Hv.
    rewrite nth_error_map in Hk, Hv.
    destruct (nth_error keys i) as [k'|] eqn:Ek'; [|discriminate].
    destruct (nth_error values i) as [v'|] eqn:Ev'; [|discriminate].
    injection Hk as <-. injection Hv as <-. eapply Hall; eauto.
Qed.

Lemma KeepGroup_iff_witness :
  exists b,
    KeepGroup (NewKeyValueGroupPredicate ["a"] ["1"])%string groupA1 = Some b
    /\ (b = true <->
        List.length (column_of groupA1 "keys") = List.length (column_of groupA1 "values")
        /\ (List.length ["a"%string] <= List.length (column_of groupA1 "keys"))%nat
        /\ forall i k v,
             nth_error ["a"%string] i = Some k -> nth_error ["1"%string] i = Some v ->
             pairAt (list_byte_of_string k) (list_byte_of_string v)
                    (column_of groupA1 "keys") (column_of groupA1 "values")).
Proof. apply (KeepGroup_iff ["a"%string] ["1"%string] groupA1). reflexivity. Defined.

(** C6 as stated fails: the predicate built from the pairs [(a,1), (a,1)]
    rejects a group whose only key/value pair is [(a,1)], although each of
    its pairs occurs in the group. *)
Lemma KeepGroup_counterexample :
  KeepGroup (NewKeyValueGroupPredicate ["a"; "a"] ["1"; "1"])%string groupA1 = Some false
  /\ forall i k v,
       nth_error ["a"; "a"]%string i = Some k -> nth_error ["1"; "1"]%string i = Some v ->
       pairAt (list_byte_of_string k) (list_byte_of_string v)
              (column_of groupA1 "keys") (column_of groupA1 "values").
Proof.
  split; [reflexivity|]. intros i k v Hk Hv.
  exists 0%nat, (bytesValue "a"), (bytesValue "1").
  destruct i as [|[|i]]; cbn in Hk, Hv; try (destruct i; discriminate);
    injection Hk as <-; injection Hv as <-; repeat split; reflexivity.
Qed.

(* ------------------------------------------------------------------ *)
(** ** Replication accounting *)



(* ------------------------------------------------------------------ *)
(** ** SyncIterator: exhaustion reported by SeekTo *)

(** C10 fails on the code.  [seekC] looks for the value [c] in two row
    groups; the only page of the first group holds no [c] and is rejected
    by [KeepPage].  [SeekTo(0.-1..., 0)] returns no result and no error:
    [seekPages] runs out of pages in the first row group and reports the
    iterator done.  The next call of [Next] opens the second row group and
    returns row 2, and so does a second [SeekTo] to the same target. *)
Lemma SeekTo_exhaustion_not_permanent :
  exists it1 it2 it3 r,
    Sync.SeekTo (rowAt 0) 0 seekC = (it1, Ok None)
    /\ Sync.Next it1 = (it2, Ok (Some r))
    /\ Sync.SeekTo (rowAt 0) 0 it1 = (it3, Ok (Some r))
    /\ ir_RowNumber r = rowAt 2.
Proof.
  eexists. eexists. eexists. eexists.
  split; [vm_compute; reflexivity|].
  split; [vm_compute; reflexivity|].
  split; [vm_compute; reflexivity|].
  reflexivity.
Qed.

(* ------------------------------------------------------------------ *)
(** ** Lists updated by index *)

Lemma list_set_length {A} (l : list A) i v : List.length (list_set l i v) = List.length l.
Proof. revert i; induction l as [|x l IH]; intros [|i]; cbn; auto. Qed.

Lemma nth_error_list_set_eq {A} (l : list A) i v :
  (i < List.length l)%nat -> nth_error (list_set l i v) i = Some v.
Proof.
  revert i; induction l as [|x l IH]; intros [|i] Hi; cbn in *; try lia; auto.
  apply IH. lia.
Qed.

Lemma nth_error_list_set_neq {A} (l : list A) i j v :
  i <> j -> nth_error (list_set l i v) j = nth_error l j.
Proof.
  revert i j; induction l as [|x l IH]; intros [|i] [|j] Hne; cbn; auto; try lia.
Qed.

Lemma list_set_same {A} (l : list A) i v :
  nth_error l i = Some v -> list_set l i v = l.
Proof.
  revert i; induction l as [|x l IH]; intros [|i] Hn; cbn in *; try discriminate; auto.
  - injection Hn as ->. reflexivity.
  - f_equal. apply IH. exact Hn.
Qed.

Lemma map_list_set {A B} (f : A -> B) (l : list A) i v :
  map f (list_set l i v) = list_set (map f l) i (f v).
Proof.
  revert i; induction l as [|x l IH]; intros [|i]; cbn; auto.
  f_equal. apply IH.
Qed.

Lemma combine_list_set {A B} (a : list A) (b : list B) i x y :
  List.length a = List.length b ->
  combine (list_set a i x) (list_set b i y) = list_set (combine a b) i (x, y).
Proof.
  revert b i; induction a as [|u a IH]; intros [|w b] [|i] Hl; cbn in *; auto; try discriminate.
  f_equal. apply IH. lia.
Qed.

Lemma nth_error_combine {A B} (a : list A) (b : list B) i :
  nth_error (combine a b) i
  = match nth_error a i, nth_error b i with
    | Some x, Some y => Some (x, y)
    | _, _ => None
    end.
Proof.
  revert b i; induction a as [|u a IH]; intros [|w b] [|i]; cbn; auto.
  destruct (nth_error a i); reflexivity.
Qed.

Lemma list_set_list_set {A} (l : list A) i v w :
  list_set (list_set l i v) i w = list_set l i w.
Proof.
  revert i; induction l as [|x l IH]; intros [|i]; cbn; auto.
  f_equal. apply IH.
Qed.

(** ** dropWhile and takeWhile *)

Lemma takeWhile_dropWhile {A} (f : A -> bool) l : takeWhile f l ++ dropWhile f l = l.
Proof. induction l as [|x l IH]; cbn; auto. destruct (f x); cbn; congruence. Qed.

Lemma dropWhile_length {A} (f : A -> bool) l :
  (List.length (dropWhile f l) <= List.length l)%nat.
Proof. induction l as [|x l IH]; cbn; auto. destruct (f x); cbn; lia. Qed.

Lemma dropWhile_incl {A} (f : A -> bool) l x : In x (dropWhile f l) -> In x l.
Proof.
  induction l as [|y l IH]; cbn; auto. destruct (f y); cbn; auto.
Qed.

Lemma dropWhile_keeps {A} (f : A -> bool) l x : In x l -> f x = false -> In x (dropWhile f l).
Proof.
  induction l as [|y l IH]; cbn; auto. intros [->|Hin] Hf.
  - rewrite Hf. left; reflexivity.
  - destruct (f y); [auto|right; auto].
Qed.

Lemma dropWhile_head {A} (f : A -> bool) l x :
  hd_error (dropWhile f l) = Some x -> f x = false.
Proof.
  induction l as [|y l IH]; cbn; [discriminate|].
  destruct (f y) eqn:E; auto. cbn. intros [= ->]. exact E.
Qed.

Lemma dropWhile_id {A} (f : A -> bool) l :
  match l with x :: _ => f x = false | [] => True end -> dropWhile f l = l.
Proof. destruct l as [|x l]; cbn; auto. intros ->. reflexivity. Qed.

Lemma takeWhile_all {A} (f : A -> bool) l : Forall (fun x => f x = true) (takeWhile f l).
Proof.
  induction l as [|x l IH]; cbn; auto. destruct (f x) eqn:E; auto.
Qed.

Lemma dropWhile_StronglySorted {A} (R : A -> A -> Prop) (f : A -> bool) l :
  StronglySorted R l -> StronglySorted R (dropWhile f l).
Proof.
  induction 1 as [|x l Hs IH Hx]; cbn; [constructor|].
  destruct (f x); auto. constructor; auto.
Qed.

Lemma tl_StronglySorted {A} (R : A -> A -> Prop) l :
  StronglySorted R l -> StronglySorted R (tl l).
Proof. destruct 1; cbn; auto. constructor. Qed.

Lemma hd_tl {A} (l : list A) :
  match hd_error l with Some x => x :: tl l | None => tl l end = l.
Proof. destruct l; reflexivity. Qed.

Lemma fold_left_ext_in {A B} (f g : A -> B -> A) (l : list B) :
  forall a, (forall x a, In x l -> f a x = g a x) -> fold_left f l a = fold_left g l a.
Proof.
  induction l as [|x l IH]; intros a E; cbn; auto.
  rewrite E by (left; reflexivity). apply IH. intros y b Hy. apply E. right. exact Hy.
Qed.

(** ** Counting the results of streams *)

Lemma total_cons S l : total (S :: l) = (List.length S + total l)%nat.
Proof. unfold total. cbn. apply length_app. Qed.

Lemma total_nth l : forall i S,
  nth_error l i = Some S -> (List.length S <= total l)%nat.
Proof.
  induction l as [|S0 l IH]; intros [|i] S Hn; cbn in Hn; try discriminate; rewrite total_cons.
  - injection Hn as ->. lia.
  - specialize (IH i S Hn). lia.
Qed.

Lemma total_list_set l : forall i S S',
  nth_error l i = Some S -> (List.length S' <= List.length S)%nat ->
  (total (list_set l i S') <= total l)%nat.
Proof.
  induction l as [|S0 l IH]; intros [|i] S S' Hn Hl; cbn in Hn; try discriminate;
    cbn [list_set]; rewrite !total_cons.
  - injection Hn as ->. lia.
  - specialize (IH i S S' Hn Hl). lia.
Qed.

(* ------------------------------------------------------------------ *)
(** ** The operations on children, under the contract *)

Section ChildrenBasics.
Context {It : Type} `{IteratorContract It}.

Lemma streams_length (ch : Children) :
  wfChildren ch -> List.length (streams ch) = List.length (fst ch).
Proof.
  unfold wfChildren, streams. intros Hw. rewrite length_map, length_combine. lia.
Qed.

Lemma streams_nth (ch : Children) i :
  nth_error (streams ch) i
  = match nth_error (fst ch) i, nth_error (snd ch) i with
    | Some it, Some pk => Some (streamOf (it, pk))
    | _, _ => None
    end.
Proof.
  unfold streams. rewrite nth_error_map, nth_error_combine.
  destruct (nth_error (fst ch) i), (nth_error (snd ch) i); reflexivity.
Qed.

Lemma streams_nth_inv (ch : Children) i S :
  nth_error (streams ch) i = Some S ->
  exists it pk, nth_error (fst ch) i = Some it /\ nth_error (snd ch) i = Some pk
                /\ S = streamOf (it, pk).
Proof.
  rewrite streams_nth. destruct (nth_error (fst ch) i) as [it|]; [|discriminate].
  destruct (nth_error (snd ch) i) as [pk|]; [|discriminate].
  intros [= <-]. eauto.
Qed.

(** What a call that follows the contract does to child [i]: [f] maps the
    view before the call to the results from the returned one on. *)
Lemma advance_spec (call : It -> It * Res (option IteratorResult))
      (f : list IteratorResult -> list IteratorResult) i (ch : Children) it pk :
  wfChildren ch ->
  nth_error (fst ch) i = Some it -> nth_error (snd ch) i = Some pk ->
  snd (call it) = Ok (hd_error (f (view it))) ->
  view (fst (call it)) = tl (f (view it)) ->
  exists ch',
    advance call i ch = (ch', Ok (hd_error (f (view it))))
    /\ wfChildren ch'
    /\ List.length (fst ch') = List.length (fst ch)
    /\ streams ch' = list_set (streams ch) i (f (view it))
    /\ nth_error (snd ch') i = Some (hd_error (f (view it)))
    /\ (forall j, j <> i -> nth_error (snd ch') j = nth_error (snd ch) j).
Proof.
  intros Hw Hit Hpk Hres Hview. destruct ch as [its pks]. cbn [fst snd] in *.
  unfold advance. rewrite Hit, Hpk. destruct (call it) as [it' res] eqn:Ec.
  cbn [fst snd] in *. subst res.
  eexists. split; [reflexivity|].
  assert (Hi : (i < List.length pks)%nat).
  { apply nth_error_Some. congruence. }
  unfold wfChildren in *. cbn [fst snd] in *.
  repeat split.
  - rewrite !list_set_length. assumption.
  - rewrite list_set_length. reflexivity.
  - unfold streams. cbn [fst snd]. rewrite combine_list_set, map_list_set by assumption.
    f_equal. unfold streamOf. cbn [fst snd]. rewrite Hview. apply hd_tl.
  - apply nth_error_list_set_eq. assumption.
  - intros j Hj. apply nth_error_list_set_neq. auto.
Qed.

Lemma peek_spec i (ch : Children) S :
  wfChildren ch -> nth_error (streams ch) i = Some S ->
  exists ch',
    peek i ch = (ch', Ok (hd_error S))
    /\ wfChildren ch'
    /\ List.length (fst ch') = List.length (fst ch)
    /\ streams ch' = streams ch
    /\ nth_error (snd ch') i = Some (hd_error S)
    /\ (forall j, j <> i -> nth_error (snd ch') j = nth_error (snd ch) j).
Proof.
  intros Hw HS. destruct (streams_nth_inv ch i S HS) as (it & pk & Hit & Hpk & ->).
  unfold peek. rewrite Hpk. destruct pk as [p|].
  - exists ch. unfold streamOf; cbn. repeat split; auto.
  - destruct (contract_Next it) as [C1 C2].
    destruct (advance_spec Iterator_Next (fun l => l) i ch it None Hw Hit Hpk C1 C2)
      as (ch' & E & Hw' & Hl & Hs & Hp & Ho).
    exists ch'. unfold streamOf; cbn [fst snd]. repeat split; auto.
    rewrite Hs. apply list_set_same. exact HS.
Qed.

End ChildrenBasics.

Section ChildrenLemmas.
Context {It : Type} `{IteratorContract It}.
Variable d : nat.
Hypothesis Hd : (d <= 7)%nat.

Lemma seekIfBehind_spec i t (ch : Children) S :
  wfChildren ch -> nth_error (streams ch) i = Some S ->
  exists ch',
    seekIfBehind i t d ch = (ch', Ok (hd_error (dropWhile (belowAt d t) S)))
    /\ wfChildren ch'
    /\ List.length (fst ch') = List.length (fst ch)
    /\ streams ch' = list_set (streams ch) i (dropWhile (belowAt d t) S)
    /\ nth_error (snd ch') i = Some (hd_error (dropWhile (belowAt d t) S))
    /\ (forall j, j <> i -> nth_error (snd ch') j = nth_error (snd ch) j).
Proof.
  intros Hw HS. destruct (streams_nth_inv ch i S HS) as (it & pk & Hit & Hpk & ->).
  destruct (contract_SeekTo t d it Hd) as [C1 C2].
  destruct (advance_spec (Iterator_SeekTo t d) (dropWhile (belowAt d t)) i ch it pk
                         Hw Hit Hpk C1 C2) as (ch' & E & Hw' & Hl & Hs & Hp & Ho).
  unfold seekIfBehind. rewrite Hpk. destruct pk as [p|]; unfold streamOf; cbn [fst snd].
  - rewrite CompareRowNumbers_cmp by exact Hd.
    cbn [dropWhile]. unfold belowAt at 1 3 5.
    destruct (cmp d (ir_RowNumber p) t =? -1) eqn:Ec.
    + exists ch'. repeat split; auto.
    + exists ch. cbn [hd_error]. repeat split; auto.
      symmetry. apply list_set_same. rewrite HS. unfold streamOf. reflexivity.
  - exists ch'. repeat split; auto.
Qed.

Lemma TruncateRowNumber_key t :
  exists t', TruncateRowNumber d t = Some t' /\ key d t' = key d t.
Proof.
  destruct t. pose proof Hd as Hd'. level_cases Hd'; eexists; split; reflexivity.
Qed.

Lemma belowAt_key t t' r : key d t' = key d t -> belowAt d t' r = belowAt d t r.
Proof. intros E. unfold belowAt, cmp. rewrite E. reflexivity. Qed.

Lemma dropWhile_ext {A} (f g : A -> bool) l :
  (forall x, f x = g x) -> dropWhile f l = dropWhile g l.
Proof. intros E. induction l as [|x l IH]; cbn; auto. rewrite E, IH. reflexivity. Qed.

Lemma takeWhile_ext {A} (f g : A -> bool) l :
  (forall x, f x = g x) -> takeWhile f l = takeWhile g l.
Proof. intros E. induction l as [|x l IH]; cbn; auto. rewrite E, IH. reflexivity. Qed.

(** [JoinIterator.seek] truncates the target, which changes nothing at
    level [d]. *)
Lemma Join_seek_spec i t (ch : Children) S :
  wfChildren ch -> nth_error (streams ch) i = Some S ->
  exists ch',
    Join.seek i t d ch = (ch', Ok (hd_error (dropWhile (belowAt d t) S)))
    /\ wfChildren ch'
    /\ List.length (fst ch') = List.length (fst ch)
    /\ streams ch' = list_set (streams ch) i (dropWhile (belowAt d t) S)
    /\ nth_error (snd ch') i = Some (hd_error (dropWhile (belowAt d t) S))
    /\ (forall j, j <> i -> nth_error (snd ch') j = nth_error (snd ch) j).
Proof.
  intros Hw HS. unfold Join.seek.
  destruct (TruncateRowNumber_key t) as (t' & -> & Hk).
  destruct (seekIfBehind_spec i t' ch S Hw HS) as (ch' & E & R).
  rewrite (dropWhile_ext (belowAt d t') (belowAt d t)) in E, R
    by (intros; apply belowAt_key; exact Hk).
  exists ch'. split; auto.
Qed.

(** The loop of [collect] for one child whose peek is the head of its
    stream. *)
Lemma collectFrom_spec rowNumber i : forall S fuel result (ch : Children),
  wfChildren ch -> nth_error (streams ch) i = Some S ->
  nth_error (snd ch) i = Some (hd_error S) ->
  (List.length S < fuel)%nat ->
  exists ch',
    collectFrom fuel d rowNumber i result ch
    = Some (ch', fold_left IteratorResult_Append (takeWhile (groupAt d rowNumber) S) result,
            Ok tt)
    /\ wfChildren ch'
    /\ List.length (fst ch') = List.length (fst ch)
    /\ streams ch' = list_set (streams ch) i (dropWhile (groupAt d rowNumber) S)
    /\ nth_error (snd ch') i = Some (hd_error (dropWhile (groupAt d rowNumber) S))
    /\ (forall j, j <> i -> nth_error (snd ch') j = nth_error (snd ch) j).
Proof.
  induction S as [|x S IH]; intros fuel result ch Hw HS Hpk Hf.
  - destruct fuel as [|fuel]; [cbn in Hf; lia|]. cbn [collectFrom]. rewrite Hpk. cbn.
    exists ch. repeat split; auto. symmetry. apply list_set_same. exact HS.
  - destruct fuel as [|fuel]; [cbn in Hf; lia|]. cbn [collectFrom]. rewrite Hpk.
    cbn [hd_error]. rewrite EqualRowNumber_cmp by exact Hd.
    cbn [takeWhile dropWhile]. unfold groupAt at 1 3 5.
    destruct (cmp d (ir_RowNumber x) rowNumber =? 0) eqn:Ec.
    + destruct (streams_nth_inv ch i _ HS) as (it & pk & Hit & Hpk' & Es).
      rewrite Hpk in Hpk'. injection Hpk' as <-. unfold streamOf in Es. cbn in Es.
      injection Es as Es.
      destruct (contract_Next it) as [C1 C2].
      destruct (advance_spec Iterator_Next (fun l => l) i ch it (Some x) Hw Hit Hpk C1 C2)
        as (ch1 & E1 & Hw1 & Hl1 & Hs1 & Hp1 & Ho1).
      rewrite E1. rewrite <- Es in *.
      assert (HS1 : nth_error (streams ch1) i = Some S).
      { rewrite Hs1. apply nth_error_list_set_eq. apply nth_error_Some. congruence. }
      destruct (IH fuel (IteratorResult_Append result x) ch1 Hw1 HS1 Hp1 ltac:(cbn in Hf; lia))
        as (ch' & E & Hw' & Hl' & Hs' & Hp' & Ho').
      exists ch'. cbn [fold_left]. repeat split; auto.
      * congruence.
      * rewrite Hs', Hs1. apply list_set_list_set.
      * intros j Hj. rewrite Ho', Ho1; auto.
    + exists ch. cbn [fold_left hd_error]. repeat split; auto.
      symmetry. apply list_set_same. exact HS.
Qed.

End ChildrenLemmas.

Section ChildrenLoops.
Context {It : Type} `{IteratorContract It}.
Variable d : nat.
Hypothesis Hd : (d <= 7)%nat.

Lemma peekAll_spec : forall n i (ch : Children),
  wfChildren ch -> (i + n = List.length (fst ch))%nat ->
  exists ch' b,
    peekAll n i ch = (ch', Ok b)
    /\ wfChildren ch'
    /\ List.length (fst ch') = List.length (fst ch)
    /\ streams ch' = streams ch
    /\ (forall j, (j < i)%nat -> nth_error (snd ch') j = nth_error (snd ch) j)
    /\ (b = true -> forall j, (i <= j < i + n)%nat ->
                              exists x, nth_error (snd ch') j = Some (Some x))
    /\ (b = false -> In [] (streams ch)).
Proof.
  induction n as [|n IH]; intros i ch Hw Hn.
  - exists ch, true. cbn. repeat split; auto; try discriminate. intros _ j Hj. lia.
  - cbn [peekAll].
    destruct (nth_error (streams ch) i) as [S|] eqn:HS.
    2:{ apply nth_error_None in HS. rewrite streams_length in HS by assumption. lia. }
    destruct (peek_spec i ch S Hw HS) as (ch1 & E1 & Hw1 & Hl1 & Hs1 & Hp1 & Ho1).
    rewrite E1. destruct S as [|x S]; cbn [hd_error] in *.
    + exists ch1, false. repeat split; auto; try discriminate.
      * intros j Hj. apply Ho1. lia.
      * intros _. eapply nth_error_In. exact HS.
    + destruct (IH (Datatypes.S i) ch1 Hw1 ltac:(lia)) as (ch' & b & E & Hw' & Hl' & Hs' & Ho' & Ht & Hf).
      exists ch', b. rewrite E. repeat split; auto; try congruence.
      * intros j Hj. rewrite Ho' by lia. apply Ho1. lia.
      * intros Hb j Hj. destruct (Nat.eq_dec j i) as [->|Hne].
        -- exists x. rewrite Ho' by lia. exact Hp1.
        -- apply Ht; auto. lia.
      * intros Hb. rewrite <- Hs1. auto.
Qed.

(** The streams and peeks after [collect] has visited the children
    [idxs]. *)
Lemma collectEach_spec rowNumber : forall idxs fuel result (ch : Children),
  wfChildren ch -> NoDup idxs ->
  (forall i, In i idxs ->
             exists S, nth_error (streams ch) i = Some S
                       /\ nth_error (snd ch) i = Some (hd_error S)) ->
  (total (streams ch) < fuel)%nat ->
  exists ch',
    collectEach fuel d rowNumber idxs result ch
    = Some (ch',
            fold_left (fun res i =>
                         fold_left IteratorResult_Append
                                   (takeWhile (groupAt d rowNumber) (nth i (streams ch) [])) res)
                      idxs result,
            Ok tt)
    /\ wfChildren ch'
    /\ List.length (fst ch') = List.length (fst ch)
    /\ (forall j S, nth_error (streams ch) j = Some S ->
                    nth_error (streams ch') j
                    = Some (if among idxs j then dropWhile (groupAt d rowNumber) S else S))
    /\ (forall j S, In j idxs -> nth_error (streams ch) j = Some S ->
                    nth_error (snd ch') j = Some (hd_error (dropWhile (groupAt d rowNumber) S)))
    /\ (forall j, ~ In j idxs -> nth_error (snd ch') j = nth_error (snd ch) j).
Proof.
  induction idxs as [|i idxs IH]; intros fuel result ch Hw Hnd Hpk Hf.
  - exists ch. cbn. repeat split; auto. intros j S HS. contradiction.
  - cbn [collectEach fold_left].
    destruct (Hpk i (or_introl eq_refl)) as (S & HS & HpS).
    pose proof (total_nth _ _ _ HS) as HlS.
    destruct (collectFrom_spec d Hd rowNumber i S fuel result ch Hw HS HpS ltac:(lia))
      as (ch1 & E1 & Hw1 & Hl1 & Hs1 & Hp1 & Ho1).
    rewrite E1. inversion Hnd as [|? ? Hni Hnd']; subst.
    assert (Hpk1 : forall i', In i' idxs ->
               exists S', nth_error (streams ch1) i' = Some S'
                          /\ nth_error (snd ch1) i' = Some (hd_error S')).
    { intros i' Hi'. destruct (Hpk i' (or_intror Hi')) as (S' & HS' & HpS').
      assert (i <> i') by (intros ->; contradiction).
      exists S'. rewrite Hs1, nth_error_list_set_neq by assumption.
      rewrite Ho1 by auto. auto. }
    assert (Hf1 : (total (streams ch1) < fuel)%nat).
    { eapply Nat.le_lt_trans; [|exact Hf]. rewrite Hs1.
      eapply total_list_set; [exact HS|]. apply dropWhile_length. }
    destruct (IH fuel (fold_left IteratorResult_Append (takeWhile (groupAt d rowNumber) S) result)
                 ch1 Hw1 Hnd' Hpk1 Hf1) as (ch' & E & Hw' & Hl' & Hs' & Hp' & Ho').
    exists ch'. rewrite E. repeat split; auto; try congruence.
    + f_equal. f_equal. f_equal.
      rewrite (nth_error_nth _ _ _ HS).
      apply fold_left_ext_in. intros i' res Hi'.
      assert (i <> i') by (intros ->; contradiction).
      f_equal. f_equal. rewrite Hs1.
      destruct (nth_error (streams ch) i') as [S'|] eqn:E'.
      * rewrite (nth_error_nth _ _ _ E').
        apply nth_error_nth. rewrite nth_error_list_set_neq by assumption. exact E'.
      * rewrite !nth_overflow; auto.
        -- apply nth_error_None. exact E'.
        -- rewrite list_set_length. apply nth_error_None. exact E'.
    + intros j S' HS'. cbn [among existsb].
      destruct (Nat.eqb_spec j i) as [->|Hne]; cbn [orb].
      * rewrite HS in HS'. injection HS' as <-.
        assert (HS1 : nth_error (streams ch1) i = Some (dropWhile (groupAt d rowNumber) S)).
        { rewrite Hs1. apply nth_error_list_set_eq. apply nth_error_Some. congruence. }
        rewrite (Hs' i _ HS1).
        assert (Ha : among idxs i = false).
        { unfold among. apply not_true_is_false. intros Hex. apply existsb_exists in Hex.
          destruct Hex as (k & Hk & Ek). apply Nat.eqb_eq in Ek. subst. contradiction. }
        rewrite Ha. reflexivity.
      * assert (HS1 : nth_error (streams ch1) j = Some S').
        { rewrite Hs1, nth_error_list_set_neq by auto. exact HS'. }
        apply (Hs' j S' HS1).
    + intros j S' [<-|Hj] HS'.
      * rewrite HS in HS'. injection HS' as <-. rewrite Ho' by assumption. exact Hp1.
      * assert (i <> j) by (intros ->; contradiction).
        apply (Hp' j S' Hj). rewrite Hs1, nth_error_list_set_neq by auto. exact HS'.
    + intros j Hj. rewrite Ho' by (intros Hin; apply Hj; right; exact Hin).
      apply Ho1. intros ->. apply Hj. left. reflexivity.
Qed.

End ChildrenLoops.

(* ------------------------------------------------------------------ *)
(** ** Streams with prefixes removed *)

Lemma trimmedBy_refl P l : trimmedBy P l l.
Proof.
  unfold trimmedBy. induction l as [|L l IH]; constructor; auto.
  exists []. split; auto.
Qed.

Lemma trimmedBy_trans P l1 l2 l3 : trimmedBy P l1 l2 -> trimmedBy P l2 l3 -> trimmedBy P l1 l3.
Proof.
  unfold trimmedBy. intros H12. revert l3. induction H12 as [|L1 L2 l1 l2 HL H12 IH]; intros l3 H23.
  - inversion H23. constructor.
  - inversion H23 as [|? L3 ? l3' HL' H23']; subst. constructor; auto.
    destruct HL as (p1 & -> & F1). destruct HL' as (p2 & -> & F2).
    exists (p1 ++ p2). split; [apply app_assoc|]. apply Forall_app. auto.
Qed.

Lemma trimmedBy_list_set P l : forall i L L',
  nth_error l i = Some L -> (exists pre, L = pre ++ L' /\ Forall P pre) ->
  trimmedBy P l (list_set l i L').
Proof.
  induction l as [|L0 l IH]; intros [|i] L L' Hn HL; cbn in Hn; try discriminate; cbn [list_set].
  - injection Hn as ->. constructor; [exact HL|]. apply trimmedBy_refl.
  - constructor.
    + exists []. split; auto.
    + eapply IH; eauto.
Qed.

Lemma dropWhile_prefix {A} (f : A -> bool) (P : A -> Prop) l :
  (forall x, f x = true -> P x) ->
  exists pre, l = pre ++ dropWhile f l /\ Forall P pre.
Proof.
  intros HP. exists (takeWhile f l). split; [symmetry; apply takeWhile_dropWhile|].
  eapply Forall_impl; [|apply takeWhile_all]. auto.
Qed.

Lemma trimmedBy_length P l l' : trimmedBy P l l' -> List.length l' = List.length l.
Proof. intros T. symmetry. eapply Forall2_length. exact T. Qed.

Lemma trimmedBy_nth P l l' i L' :
  trimmedBy P l l' -> nth_error l' i = Some L' ->
  exists pre, nth_error l i = Some (pre ++ L') /\ Forall P pre.
Proof.
  intros T. revert i. induction T as [|L1 L2 l1 l2 HL T IH]; intros [|i] Hn; cbn in Hn;
    try discriminate.
  - injection Hn as ->. destruct HL as (pre & -> & F). exists pre. cbn. auto.
  - apply IH. exact Hn.
Qed.

Lemma trimmedBy_In P l l' x : trimmedBy P l l' -> In x (List.concat l') -> In x (List.concat l).
Proof.
  induction 1 as [|L1 L2 l1 l2 HL T IH]; cbn; auto.
  rewrite !in_app_iff. destruct HL as (pre & -> & F). intros [Hx|Hx]; auto.
  left. apply in_or_app. auto.
Qed.

Lemma trimmedBy_total P l l' : trimmedBy P l l' -> (total l' <= total l)%nat.
Proof.
  induction 1 as [|L1 L2 l1 l2 HL T IH]; [lia|].
  rewrite !total_cons. destruct HL as (pre & -> & F). rewrite length_app. lia.
Qed.

Lemma countAbove_cons d t L l :
  countAbove d t (L :: l)
  = Nat.add (List.length (List.filter (fun y => cmp d (ir_RowNumber y) t =? 1) L))
            (countAbove d t l).
Proof. unfold countAbove. cbn. rewrite filter_app, length_app. reflexivity. Qed.

Lemma trimmedBy_countAbove P d t l l' :
  trimmedBy P l l' -> (countAbove d t l' <= countAbove d t l)%nat.
Proof.
  induction 1 as [|L1 L2 l1 l2 HL T IH]; [lia|].
  rewrite !countAbove_cons. destruct HL as (pre & -> & F).
  rewrite filter_app, length_app. lia.
Qed.

Lemma StronglySorted_app_r {A} (R : A -> A -> Prop) l1 l2 :
  StronglySorted R (l1 ++ l2) -> StronglySorted R l2.
Proof.
  induction l1 as [|x l1 IH]; cbn; auto. intros Hs. apply StronglySorted_inv in Hs. tauto.
Qed.

Lemma trimmedBy_sorted P (R : IteratorResult -> IteratorResult -> Prop) l l' :
  trimmedBy P l l' -> Forall (StronglySorted R) l -> Forall (StronglySorted R) l'.
Proof.
  induction 1 as [|L1 L2 l1 l2 HL T IH]; intros Hs; [constructor|].
  inversion Hs; subst. constructor; auto.
  destruct HL as (pre & -> & F). eapply StronglySorted_app_r; eauto.
Qed.

Lemma trimmedBy_allAbove P d e l l' :
  trimmedBy P l l' -> allAbove d e l -> allAbove d e l'.
Proof.
  unfold allAbove. induction 1 as [|L1 L2 l1 l2 HL T IH]; intros Hs; [constructor|].
  inversion Hs; subst. constructor; auto.
  destruct HL as (pre & -> & F). rewrite Forall_app in *. tauto.
Qed.

Lemma trimmedBy_common_back P d r l l' :
  trimmedBy P l l' -> commonGroup d r l' -> commonGroup d r l.
Proof.
  unfold commonGroup, hasGroup. induction 1 as [|L1 L2 l1 l2 HL T IH]; intros Hc; [constructor|].
  inversion Hc; subst. constructor; auto.
  destruct HL as (pre & -> & F). apply Exists_app. auto.
Qed.

(** Removing results that are in no group [r] keeps the group [r]. *)
Lemma trimmedBy_common_keep P d r l l' :
  trimmedBy P l l' ->
  (forall x, P x -> cmp d (ir_RowNumber x) r <> 0) ->
  commonGroup d r l -> commonGroup d r l'.
Proof.
  unfold commonGroup, hasGroup. intros T HP.
  induction T as [|L1 L2 l1 l2 HL T IH]; intros Hc; [constructor|].
  inversion Hc as [|? ? Hx Hc']; subst. constructor; auto.
  destruct HL as (pre & -> & F). apply Exists_app in Hx. destruct Hx as [Hx|Hx]; auto.
  exfalso. apply Exists_exists in Hx. destruct Hx as (x & Hin & Hx).
  rewrite Forall_forall in F. apply (HP x (F x Hin) Hx).
Qed.

Lemma trimmedBy_some_back P d r l l' :
  trimmedBy P l l' -> someGroup d r l' -> someGroup d r l.
Proof.
  unfold someGroup, hasGroup. induction 1 as [|L1 L2 l1 l2 HL T IH]; intros Hc; inversion Hc; subst.
  - apply Exists_cons_hd. destruct HL as (pre & -> & F). apply Exists_app. auto.
  - apply Exists_cons_tl. auto.
Qed.

(** ** Swapping two children *)

Lemma swap_length {A} (l : list A) i : List.length (swap l i) = List.length l.
Proof.
  unfold swap. destruct (nth_error l 0), (nth_error l i); auto.
  rewrite !list_set_length. reflexivity.
Qed.

Lemma map_swap {A B} (f : A -> B) (l : list A) i : map f (swap l i) = swap (map f l) i.
Proof.
  unfold swap. rewrite !nth_error_map.
  destruct (nth_error l 0), (nth_error l i); cbn; auto.
  rewrite !map_list_set. reflexivity.
Qed.

Lemma combine_swap {A B} (a : list A) (b : list B) i :
  List.length a = List.length b ->
  combine (swap a i) (swap b i) = swap (combine a b) i.
Proof.
  intros Hl. unfold swap. rewrite !nth_error_combine.
  assert (Hopt : forall k, (exists x y, nth_error a k = Some x /\ nth_error b k = Some y)
                           \/ (nth_error a k = None /\ nth_error b k = None)).
  { intros k. destruct (nth_error a k) as [x|] eqn:Ea, (nth_error b k) as [y|] eqn:Eb; eauto.
    - apply nth_error_None in Eb.
      assert (nth_error a k <> None) as Hx by congruence. apply nth_error_Some in Hx. lia.
    - apply nth_error_None in Ea.
      assert (nth_error b k <> None) as Hx by congruence. apply nth_error_Some in Hx. lia. }
  destruct (Hopt 0%nat) as [(a0 & b0 & Ea0 & Eb0)|[Ea0 Eb0]]; rewrite Ea0, Eb0; [|reflexivity].
  destruct (Hopt i) as [(ai & bi & Eai & Ebi)|[Eai Ebi]]; rewrite Eai, Ebi; [|reflexivity].
  rewrite !combine_list_set; auto. rewrite !list_set_length. exact Hl.
Qed.

Lemma swap_Permutation {A} (l : list A) i : Permutation (swap l i) l.
Proof.
  unfold swap. destruct (nth_error l 0) as [x0|] eqn:E0; auto.
  destruct (nth_error l i) as [xi|] eqn:Ei; auto.
  destruct l as [|y l]; [discriminate|]. cbn in E0. injection E0 as ->.
  destruct i as [|i]; cbn in Ei.
  - injection Ei as ->. cbn. reflexivity.
  - cbn [list_set]. revert i Ei. induction l as [|z l IH]; intros [|i] Ei; cbn in Ei;
      try discriminate; cbn [list_set].
    + injection Ei as ->. apply perm_swap.
    + specialize (IH i Ei).
      eapply perm_trans; [apply perm_swap|]. eapply perm_trans; [|apply perm_swap].
      apply perm_skip. exact IH.
Qed.

Lemma concat_Permutation {A} (l l' : list (list A)) :
  Permutation l l' -> Permutation (List.concat l) (List.concat l').
Proof.
  induction 1; cbn; auto.
  - apply Permutation_app_head. assumption.
  - rewrite !app_assoc. apply Permutation_app_tail. apply Permutation_app_comm.
  - eapply perm_trans; eauto.
Qed.

Lemma filter_Permutation {A} (f : A -> bool) (l l' : list A) :
  Permutation l l' -> Permutation (List.filter f l) (List.filter f l').
Proof.
  induction 1; cbn; auto.
  - destruct (f x); auto.
  - destruct (f x), (f y); auto. apply perm_swap.
  - eapply perm_trans; eauto.
Qed.

Lemma total_Permutation l l' : Permutation l l' -> total l = total l'.
Proof. intros Hp. unfold total. apply Permutation_length, concat_Permutation, Hp. Qed.

Lemma countAbove_Permutation d t l l' : Permutation l l' -> countAbove d t l = countAbove d t l'.
Proof.
  intros Hp. unfold countAbove.
  apply Permutation_length, filter_Permutation, concat_Permutation, Hp.
Qed.

Section SeekLoop.
Context {It : Type} `{IteratorContract It}.
Variable d : nat.
Hypothesis Hd : (d <= 7)%nat.
Variable seek : nat -> RowNumber -> nat -> @Children It -> @Children It * Res (option IteratorResult).
Hypothesis Hseek : seekSpec d seek.

Lemma streams_swap (ch : Children) m :
  wfChildren ch -> streams (swap (fst ch) m, swap (snd ch) m) = swap (streams ch) m.
Proof.
  intros Hw. unfold streams. cbn [fst snd]. rewrite combine_swap by exact Hw. apply map_swap.
Qed.

Lemma seekLoop_spec p0 : forall n k (ch : Children),
  wfChildren ch -> (1 <= k)%nat -> (k + n = List.length (fst ch))%nat ->
  nth_error (snd ch) 0 = Some (Some p0) ->
  exists ch' out,
    seekLoop seek d n k ch = (ch', Ok out)
    /\ wfChildren ch'
    /\ List.length (fst ch') = List.length (fst ch)
    /\ match out with
       | Matched =>
           trimmedBy (fun x => cmp d (ir_RowNumber x) (ir_RowNumber p0) = -1)
                     (streams ch) (streams ch')
           /\ (forall j, (j < k)%nat -> nth_error (snd ch') j = nth_error (snd ch) j)
           /\ (forall j, (k <= j < k + n)%nat ->
                         exists x, nth_error (snd ch') j = Some (Some x)
                                   /\ cmp d (ir_RowNumber x) (ir_RowNumber p0) = 0)
       | Swapped =>
           exists mid m q Lm,
             trimmedBy (fun x => cmp d (ir_RowNumber x) (ir_RowNumber p0) = -1)
                       (streams ch) mid
             /\ streams ch' = swap mid m
             /\ nth_error mid m = Some (q :: Lm)
             /\ cmp d (ir_RowNumber q) (ir_RowNumber p0) = 1
       | Finished r =>
           r = Ok None
           /\ trimmedBy (fun x => cmp d (ir_RowNumber x) (ir_RowNumber p0) = -1)
                        (streams ch) (streams ch')
           /\ In [] (streams ch')
       end.
Proof.
  induction n as [|n IH]; intros k ch Hw Hk Hn Hp0.
  - exists ch, Matched. cbn [seekLoop]. repeat split; auto.
    + apply trimmedBy_refl.
    + intros j Hj. lia.
  - cbn [seekLoop]. rewrite Hp0.
    destruct (nth_error (streams ch) k) as [L|] eqn:HL.
    2:{ apply nth_error_None in HL. rewrite streams_length in HL by assumption. lia. }
    destruct (Hseek k (ir_RowNumber p0) ch L Hw HL) as (ch1 & E1 & Hw1 & Hl1 & Hs1 & Hp1 & Ho1).
    rewrite E1.
    assert (T1 : trimmedBy (fun x => cmp d (ir_RowNumber x) (ir_RowNumber p0) = -1)
                           (streams ch) (streams ch1)).
    { rewrite Hs1. eapply trimmedBy_list_set; [exact HL|].
      apply dropWhile_prefix. intros x Hx. unfold belowAt in Hx. apply Z.eqb_eq. exact Hx. }
    destruct (dropWhile (belowAt d (ir_RowNumber p0)) L) as [|x L'] eqn:EL; cbn [hd_error] in *.
    + exists ch1, (Finished (Ok None)). repeat split; auto.
      rewrite Hs1. eapply nth_error_In. apply nth_error_list_set_eq.
      apply nth_error_Some. congruence.
    + assert (Hp01 : nth_error (snd ch1) 0 = Some (Some p0)).
      { rewrite Ho1 by lia. exact Hp0. }
      rewrite Hp01. rewrite CompareRowNumbers_cmp by exact Hd.
      assert (Hx : cmp d (ir_RowNumber x) (ir_RowNumber p0) <> -1).
      { assert (Hh : hd_error (dropWhile (belowAt d (ir_RowNumber p0)) L) = Some x)
          by (rewrite EL; reflexivity).
        apply dropWhile_head in Hh. unfold belowAt in Hh. apply Z.eqb_neq. exact Hh. }
      destruct (Z.eqb_spec (cmp d (ir_RowNumber x) (ir_RowNumber p0)) 1) as [E1x|N1x].
      * eexists. exists Swapped. split; [reflexivity|].
        split; [unfold wfChildren; cbn [fst snd]; rewrite !swap_length; exact Hw1|].
        split; [cbn [fst]; rewrite swap_length; exact Hl1|].
        exists (streams ch1), k, x, L'. repeat split; auto.
        -- apply streams_swap. exact Hw1.
        -- rewrite Hs1. apply nth_error_list_set_eq. apply nth_error_Some. congruence.
      * assert (E0x : cmp d (ir_RowNumber x) (ir_RowNumber p0) = 0).
        { destruct (cmp_range d (ir_RowNumber x) (ir_RowNumber p0)) as [?|[?|?]]; congruence. }
        destruct (IH (Datatypes.S k) ch1 Hw1 ltac:(lia) ltac:(lia) Hp01)
          as (ch' & out & E & Hw' & Hl' & Hout).
        exists ch', out. rewrite E. split; [reflexivity|]. split; [exact Hw'|].
        split; [congruence|].
        destruct out as [| |r].
        -- destruct Hout as (T & Ho & Hm). repeat split.
           ++ eapply trimmedBy_trans; eauto.
           ++ intros j Hj. rewrite Ho by lia. apply Ho1. lia.
           ++ intros j Hj. destruct (Nat.eq_dec j k) as [->|Hne].
              ** exists x. rewrite Ho by lia. auto.
              ** apply Hm. lia.
        -- destruct Hout as (mid & m & q & Lm & T & Es & Hm & Hq).
           exists mid, m, q, Lm. repeat split; auto. eapply trimmedBy_trans; eauto.
        -- destruct Hout as (-> & T & Hin). repeat split; auto.
           eapply trimmedBy_trans; eauto.
Qed.

End SeekLoop.

(* ------------------------------------------------------------------ *)
(** ** More of the order at a level *)

Lemma cmp_lt_le_trans d a b c : cmp d a b = -1 -> cmp d b c <> 1 -> cmp d a c = -1.
Proof.
  intros H1 H2. destruct (cmp_range d b c) as [E|[E|E]]; [|  |congruence].
  - eapply cmp_trans_lt; eauto.
  - rewrite <- (cmp_eq_r d a b c E). exact H1.
Qed.

Lemma cmp_le_lt_trans d a b c : cmp d a b <> 1 -> cmp d b c = -1 -> cmp d a c = -1.
Proof.
  intros H1 H2. destruct (cmp_range d a b) as [E|[E|E]]; [|  |congruence].
  - eapply cmp_trans_lt; eauto.
  - rewrite (cmp_eq_l d a b c E). exact H2.
Qed.

Lemma cmp_gt_trans d a b c : cmp d a b = 1 -> cmp d b c = 1 -> cmp d a c = 1.
Proof.
  intros H1 H2. apply cmp_antisym. apply cmp_antisym in H1, H2. eapply cmp_trans_lt; eauto.
Qed.

Lemma cmp_le_trans d a b c : cmp d a b <> 1 -> cmp d b c <> 1 -> cmp d a c <> 1.
Proof.
  intros H1 H2 H3. destruct (cmp_range d b c) as [E|[E|E]]; [|  |congruence].
  - apply cmp_antisym in H3.
    assert (cmp d b a = -1) by (eapply cmp_trans_lt; eauto).
    apply cmp_antisym in H. congruence.
  - rewrite <- (cmp_eq_r d a b c E) in H3. congruence.
Qed.

Lemma cmp_gt_lt d a b : cmp d a b = 1 <-> cmp d b a = -1.
Proof. symmetry. apply cmp_antisym. Qed.

Lemma StronglySorted_weaken {A} (R R' : A -> A -> Prop) l :
  (forall a b, R a b -> R' a b) -> StronglySorted R l -> StronglySorted R' l.
Proof.
  intros HR. induction 1 as [|x l Hs IH Hx]; constructor; auto.
  eapply Forall_impl; [|exact Hx]. auto.
Qed.

Lemma ascending_nondecreasingAt d l : (d <= 7)%nat -> ascending l -> nondecreasingAt d l.
Proof.
  intros Hd. apply StronglySorted_weaken. intros a b Hab Hc.
  apply (cmp_level_gt d 7) in Hc; [congruence|lia].
Qed.

Lemma ascendingAt_ascending d l : (d <= 7)%nat -> ascendingAt d l -> ascending l.
Proof.
  intros Hd. apply StronglySorted_weaken. intros a b Hab.
  apply (cmp_level_lt d 7); [lia|exact Hab].
Qed.

(** In a non-decreasing stream nothing is below the head. *)
Lemma nondecreasing_head d x L y :
  nondecreasingAt d (x :: L) -> In y (x :: L) -> cmp d (ir_RowNumber x) (ir_RowNumber y) <> 1.
Proof.
  intros Hs [<-|Hin].
  - rewrite cmp_refl. discriminate.
  - apply StronglySorted_inv in Hs. destruct Hs as [_ Hx].
    rewrite Forall_forall in Hx. apply Hx. exact Hin.
Qed.

(** After the group of the head has been removed from a non-decreasing
    stream, what is left is above it. *)
Lemma dropWhile_group_above d t L :
  nondecreasingAt d L ->
  match L with x :: _ => cmp d (ir_RowNumber x) t = 0 | [] => True end ->
  Forall (fun y => cmp d t (ir_RowNumber y) = -1) (dropWhile (groupAt d t) L).
Proof.
  intros Hs Hh. destruct L as [|x L]; [constructor|].
  assert (Hall : forall y, In y (x :: L) -> cmp d t (ir_RowNumber y) <> 1).
  { intros y Hy. rewrite <- (cmp_eq_l d _ _ _ Hh). eapply nondecreasing_head; eauto. }
  clear Hh. revert Hs Hall. generalize (x :: L) as M. clear x L.
  induction M as [|y M IH]; intros Hs Hall; cbn; [constructor|].
  unfold groupAt at 1. destruct (Z.eqb_spec (cmp d (ir_RowNumber y) t) 0) as [E|N].
  - apply IH.
    + apply StronglySorted_inv in Hs. tauto.
    + intros z Hz. apply Hall. right. exact Hz.
  - assert (Hy : cmp d t (ir_RowNumber y) = -1).
    { specialize (Hall y (or_introl eq_refl)).
      destruct (cmp_range d t (ir_RowNumber y)) as [?|[E0|?]]; try congruence.
      apply cmp_sym_eq in E0. congruence. }
    constructor; auto.
    apply StronglySorted_inv in Hs. destruct Hs as [_ Hy'].
    eapply Forall_impl; [|exact Hy']. intros z Hz. cbn in Hz.
    eapply cmp_lt_le_trans; eauto.
Qed.

Lemma filter_length_le {A} (f g : A -> bool) l :
  (forall x, In x l -> f x = true -> g x = true) ->
  (List.length (List.filter f l) <= List.length (List.filter g l))%nat.
Proof.
  induction l as [|x l IH]; intros Hfg; cbn; auto.
  assert (IH' := IH (fun y Hy => Hfg y (or_intror Hy))).
  destruct (f x) eqn:Ef.
  - rewrite (Hfg x (or_introl eq_refl) Ef). cbn. lia.
  - destruct (g x); cbn; lia.
Qed.

Lemma filter_length_lt {A} (f g : A -> bool) l x :
  (forall y, In y l -> f y = true -> g y = true) ->
  In x l -> f x = false -> g x = true ->
  (List.length (List.filter f l) < List.length (List.filter g l))%nat.
Proof.
  induction l as [|y l IH]; intros Hfg Hin Hf Hg; [contradiction|]. cbn.
  assert (Hle := filter_length_le f g l (fun z Hz => Hfg z (or_intror Hz))).
  destruct Hin as [->|Hin].
  - rewrite Hf, Hg. cbn. lia.
  - assert (IH' := IH (fun z Hz => Hfg z (or_intror Hz)) Hin Hf Hg).
    destruct (f y) eqn:Ef.
    + rewrite (Hfg y (or_introl eq_refl) Ef). cbn. lia.
    + destruct (g y); cbn; lia.
Qed.

Lemma countAbove_mono d t t' l :
  cmp d t t' <> 1 -> (countAbove d t' l <= countAbove d t l)%nat.
Proof.
  intros Ht. unfold countAbove. apply filter_length_le. intros y _ Hy.
  apply Z.eqb_eq in Hy. apply Z.eqb_eq.
  apply cmp_gt_lt. apply cmp_gt_lt in Hy. eapply cmp_le_lt_trans; eauto.
Qed.

Lemma countAbove_lt d t q l :
  In q (List.concat l) -> cmp d (ir_RowNumber q) t = 1 ->
  (countAbove d (ir_RowNumber q) l < countAbove d t l)%nat.
Proof.
  intros Hin Hq. unfold countAbove. apply (filter_length_lt _ _ _ q); auto.
  - intros y _ Hy. apply Z.eqb_eq in Hy. apply Z.eqb_eq. eapply cmp_gt_trans; eauto.
  - rewrite cmp_refl. reflexivity.
  - apply Z.eqb_eq. exact Hq.
Qed.

Lemma nth_error_swap_0 {A} (l : list A) m x :
  nth_error l m = Some x -> nth_error (swap l m) 0 = Some x.
Proof.
  intros Hm. unfold swap. rewrite Hm.
  destruct l as [|y l]; [destruct m; discriminate|]. cbn [nth_error].
  destruct m as [|m]; cbn in *.
  - exact Hm.
  - reflexivity.
Qed.

Lemma nth_error_In_concat {A} (l : list (list A)) i L x :
  nth_error l i = Some L -> In x L -> In x (List.concat l).
Proof.
  intros Hn Hx. apply in_concat. exists L. split; auto. eapply nth_error_In; eauto.
Qed.

Lemma not_common_of_empty d r l : In [] l -> ~ commonGroup d r l.
Proof.
  intros Hin Hc. unfold commonGroup in Hc. rewrite Forall_forall in Hc.
  specialize (Hc [] Hin). inversion Hc.
Qed.

Section Align.
Context {It : Type} `{IteratorContract It}.
Variable d : nat.
Hypothesis Hd : (d <= 7)%nat.
Variable seek : nat -> RowNumber -> nat -> @Children It -> @Children It * Res (option IteratorResult).
Hypothesis Hseek : seekSpec d seek.

(** Results below the head of the first stream are in no common group. *)
Lemma trimmed_common_equiv p0 L0 l l' :
  nth_error l 0 = Some (p0 :: L0) -> nondecreasingAt d (p0 :: L0) ->
  trimmedBy (fun x => cmp d (ir_RowNumber x) (ir_RowNumber p0) = -1) l l' ->
  forall r, commonGroup d r l <-> commonGroup d r l'.
Proof.
  intros Hn0 Hs T r. split; [|apply (trimmedBy_common_back _ _ _ _ _ T)].
  intros Hc. eapply trimmedBy_common_keep; [exact T| |exact Hc].
  intros x Hx Hxr.
  destruct l as [|L l]; [discriminate|]. cbn in Hn0. injection Hn0 as ->.
  unfold commonGroup in Hc. apply Forall_inv in Hc. unfold hasGroup in Hc.
  apply Exists_exists in Hc. destruct Hc as (y & Hy & Hyr).
  pose proof (nondecreasing_head d p0 L0 y Hs Hy) as Hle.
  apply cmp_sym_eq in Hyr.
  assert (Hxy : cmp d (ir_RowNumber x) (ir_RowNumber y) = 0).
  { rewrite <- (cmp_eq_r d _ _ _ Hyr). exact Hxr. }
  cbn beta in Hx. rewrite (cmp_eq_l d _ _ (ir_RowNumber p0) Hxy) in Hx.
  apply cmp_antisym in Hx. congruence.
Qed.

Lemma alignChildren_spec (ch : Children) :
  wfChildren ch -> (1 <= List.length (fst ch))%nat ->
  Forall (nondecreasingAt d) (streams ch) ->
  exists ch' out,
    alignChildren seek d (List.length (fst ch)) (List.length (fst ch)) ch = (ch', Ok out)
    /\ wfChildren ch'
    /\ List.length (fst ch') = List.length (fst ch)
    /\ match out with
       | Matched =>
           exists p0 L0,
             nth_error (streams ch) 0 = Some (p0 :: L0)
             /\ trimmedBy (fun x => cmp d (ir_RowNumber x) (ir_RowNumber p0) = -1)
                          (streams ch) (streams ch')
             /\ nth_error (snd ch') 0 = Some (Some p0)
             /\ (forall j, (j < List.length (fst ch))%nat ->
                           exists x, nth_error (snd ch') j = Some (Some x)
                                     /\ cmp d (ir_RowNumber x) (ir_RowNumber p0) = 0)
       | Swapped =>
           exists p0 L0 mid m q Lm,
             nth_error (streams ch) 0 = Some (p0 :: L0)
             /\ trimmedBy (fun x => cmp d (ir_RowNumber x) (ir_RowNumber p0) = -1)
                          (streams ch) mid
             /\ streams ch' = swap mid m
             /\ nth_error mid m = Some (q :: Lm)
             /\ cmp d (ir_RowNumber q) (ir_RowNumber p0) = 1
       | Finished r => r = Ok None /\ forall g, ~ commonGroup d g (streams ch)
       end.
Proof.
  intros Hw HN Hsorted. unfold alignChildren.
  destruct (nth_error (snd ch) 0) as [pk0|] eqn:Hpk0.
  2:{ apply nth_error_None in Hpk0. unfold wfChildren in Hw. lia. }
  (* after the peeks: the same streams, and the first child peeked *)
  assert (Hpeek :
    exists ch1 b,
      match pk0 with
      | None => peekAll (List.length (fst ch)) 0 ch
      | Some _ => (ch, Ok true)
      end = (ch1, Ok b)
      /\ wfChildren ch1 /\ List.length (fst ch1) = List.length (fst ch)
      /\ streams ch1 = streams ch
      /\ (b = true -> exists p0, nth_error (snd ch1) 0 = Some (Some p0))
      /\ (b = false -> In [] (streams ch))).
  { destruct pk0 as [p0|].
    - exists ch, true. repeat split; eauto. discriminate.
    - destruct (peekAll_spec d Hd (List.length (fst ch)) 0%nat ch Hw ltac:(lia))
        as (ch1 & b & E & Hw1 & Hl1 & Hs1 & _ & Ht & Hf).
      exists ch1, b. repeat split; auto; try (intros Hb; apply (Ht Hb 0%nat); lia). }
  destruct Hpeek as (ch1 & b & -> & Hw1 & Hl1 & Hs1 & Ht & Hf).
  destruct b.
  2:{ exists ch1, (Finished (Ok None)). repeat split; auto.
      intros g. apply not_common_of_empty. auto. }
  destruct (Ht eq_refl) as (p0 & Hp0).
  assert (HS0 : exists L0, nth_error (streams ch1) 0 = Some (p0 :: L0)).
  { rewrite streams_nth, Hp0.
    destruct (nth_error (fst ch1) 0) as [it0|] eqn:E0.
    - exists (view it0). reflexivity.
    - apply nth_error_None in E0. lia. }
  destruct HS0 as (L0 & HS0).
  destruct (seekLoop_spec d Hd seek Hseek p0 (List.length (fst ch) - 1)%nat 1%nat ch1 Hw1 ltac:(lia)
                          ltac:(lia) Hp0) as (ch' & out & E & Hw' & Hl' & Hout).
  exists ch', out. rewrite E. split; [reflexivity|]. split; [exact Hw'|]. split; [congruence|].
  rewrite Hs1 in *.
  destruct out as [| |r].
  - destruct Hout as (T & Ho & Hm). exists p0, L0. repeat split; auto.
    + rewrite Ho by lia. exact Hp0.
    + intros j Hj. destruct j as [|j].
      * exists p0. rewrite Ho by lia. split; auto. apply cmp_refl.
      * apply Hm. lia.
  - destruct Hout as (mid & m & q & Lm & T & Es & Hm & Hq).
    exists p0, L0, mid, m, q, Lm. repeat split; auto.
  - destruct Hout as (-> & T & Hin). split; auto.
    intros g Hg.
    assert (Hs0 : nondecreasingAt d (p0 :: L0)).
    { rewrite Forall_forall in Hsorted. apply Hsorted. eapply nth_error_In. exact HS0. }
    apply (trimmed_common_equiv p0 L0 _ _ HS0 Hs0 T) in Hg.
    eapply not_common_of_empty; eauto.
Qed.

End Align.

(* ------------------------------------------------------------------ *)
(** ** One round of a join, on the streams *)

Lemma trimmedBy_weaken (P Q : IteratorResult -> Prop) l l' :
  (forall x, P x -> Q x) -> trimmedBy P l l' -> trimmedBy Q l l'.
Proof.
  intros HPQ T. unfold trimmedBy in *. eapply Forall2_impl; [|exact T].
  intros L L' (pre & -> & F). exists pre. split; auto. eapply Forall_impl; eauto.
Qed.

Lemma trimmedBy_map_dropWhile (f : IteratorResult -> bool) l :
  trimmedBy (fun x => f x = true) l (map (dropWhile f) l).
Proof.
  unfold trimmedBy. induction l as [|L l IH]; cbn; constructor; auto.
  apply dropWhile_prefix. auto.
Qed.

Lemma joinMeasure_head d p0 L0 l :
  joinMeasure d ((p0 :: L0) :: l)
  = (total ((p0 :: L0) :: l) + countAbove d (ir_RowNumber p0) ((p0 :: L0) :: l))%nat.
Proof. reflexivity. Qed.

Lemma joinMeasure_le_total d l : (total l <= joinMeasure d l)%nat.
Proof. unfold joinMeasure. lia. Qed.

Section Rounds.
Variable d : nat.

(** A round that ends by swapping a child with a later row number to the
    front. *)
Lemma swap_round p0 L0 l mid m q Lm l' :
  nth_error l 0 = Some (p0 :: L0) ->
  Forall (nondecreasingAt d) l ->
  trimmedBy (fun x => cmp d (ir_RowNumber x) (ir_RowNumber p0) = -1) l mid ->
  l' = swap mid m ->
  nth_error mid m = Some (q :: Lm) ->
  cmp d (ir_RowNumber q) (ir_RowNumber p0) = 1 ->
  (forall g, commonGroup d g l' <-> commonGroup d g l)
  /\ (forall x, In x (List.concat l') -> In x (List.concat l))
  /\ Forall (nondecreasingAt d) l'
  /\ (total l' <= total l)%nat
  /\ (joinMeasure d l' < joinMeasure d l)%nat
  /\ List.length l' = List.length l.
Proof.
  intros Hn0 Hs T -> Hm Hq.
  assert (Hs0 : nondecreasingAt d (p0 :: L0)).
  { rewrite Forall_forall in Hs. apply Hs. eapply nth_error_In; eauto. }
  pose proof (swap_Permutation mid m) as Hperm.
  repeat split.
  - intros Hc. apply (trimmed_common_equiv d p0 L0 l mid Hn0 Hs0 T).
    unfold commonGroup in *. eapply Permutation_Forall; [exact Hperm|exact Hc].
  - intros Hc. apply (trimmed_common_equiv d p0 L0 l mid Hn0 Hs0 T) in Hc.
    unfold commonGroup in *. eapply Permutation_Forall; [symmetry; exact Hperm|exact Hc].
  - intros x Hx. eapply trimmedBy_In; [exact T|].
    eapply Permutation_in; [apply concat_Permutation; exact Hperm|exact Hx].
  - eapply Permutation_Forall; [symmetry; exact Hperm|].
    eapply trimmedBy_sorted; eauto.
  - rewrite (total_Permutation _ _ Hperm). eapply trimmedBy_total; eauto.
  - destruct l as [|L l]; [discriminate|]. cbn in Hn0. injection Hn0 as ->.
    rewrite joinMeasure_head.
    pose proof (nth_error_swap_0 mid m _ Hm) as H0'.
    destruct (swap mid m) as [|L' l'] eqn:Esw; [discriminate|]. cbn in H0'. injection H0' as ->.
    rewrite joinMeasure_head.
    rewrite (total_Permutation _ _ Hperm), (countAbove_Permutation d _ _ _ Hperm).
    pose proof (trimmedBy_total _ _ _ T).
    pose proof (trimmedBy_countAbove _ d (ir_RowNumber p0) _ _ T).
    assert (countAbove d (ir_RowNumber q) mid < countAbove d (ir_RowNumber p0) mid)%nat.
    { apply countAbove_lt; auto. eapply nth_error_In_concat; [exact Hm|]. left. reflexivity. }
    lia.
  - rewrite swap_length. eapply trimmedBy_length; eauto.
Qed.

(** A round that ends by collecting the group of [p0] from every child. *)
Lemma collect_round p0 L0 l mid :
  nth_error l 0 = Some (p0 :: L0) ->
  Forall (nondecreasingAt d) l ->
  trimmedBy (fun x => cmp d (ir_RowNumber x) (ir_RowNumber p0) = -1) l mid ->
  Forall (fun L => match L with
                   | x :: _ => cmp d (ir_RowNumber x) (ir_RowNumber p0) = 0
                   | [] => False
                   end) mid ->
  let l' := map (dropWhile (groupAt d (ir_RowNumber p0))) mid in
  (forall g, commonGroup d g l <-> cmp d g (ir_RowNumber p0) = 0 \/ commonGroup d g l')
  /\ commonGroup d (ir_RowNumber p0) l
  /\ allAbove d (ir_RowNumber p0) l'
  /\ (forall x, In x (List.concat l') -> In x (List.concat l))
  /\ Forall (nondecreasingAt d) l'
  /\ (total l' < total l)%nat
  /\ (joinMeasure d l' < joinMeasure d l)%nat
  /\ List.length l' = List.length l.
Proof.
  intros Hn0 Hs T Hheads l'.
  assert (Hs0 : nondecreasingAt d (p0 :: L0)).
  { rewrite Forall_forall in Hs. apply Hs. eapply nth_error_In; eauto. }
  assert (Hsmid : Forall (nondecreasingAt d) mid) by (eapply trimmedBy_sorted; eauto).
  assert (T2 : trimmedBy (fun x => cmp d (ir_RowNumber x) (ir_RowNumber p0) = 0) mid l').
  { eapply trimmedBy_weaken; [|apply trimmedBy_map_dropWhile].
    intros x Hx. unfold groupAt in Hx. apply Z.eqb_eq. exact Hx. }
  assert (Tall : trimmedBy (fun _ => True) l l').
  { eapply trimmedBy_trans; eapply trimmedBy_weaken; eauto. }
  assert (Hcmid : commonGroup d (ir_RowNumber p0) mid).
  { unfold commonGroup, hasGroup. eapply Forall_impl; [|exact Hheads].
    intros [|x L] Hx; [contradiction|]. apply Exists_cons_hd. exact Hx. }
  assert (Htot : (total l' < total mid)%nat).
  { destruct mid as [|M mid]; [inversion T; subst; discriminate|].
    inversion Hheads as [|? ? HM _]; subst. destruct M as [|x M]; [contradiction|].
    subst l'. cbn [map]. rewrite !total_cons.
    pose proof (trimmedBy_total _ _ _ (trimmedBy_map_dropWhile
                                           (groupAt d (ir_RowNumber p0)) mid)).
    cbn [dropWhile]. unfold groupAt at 1. rewrite HM. cbn.
    pose proof (dropWhile_length (groupAt d (ir_RowNumber p0)) M). lia. }
  pose proof (trimmedBy_total _ _ _ T) as Htm.
  repeat split.
  - intros Hc.
    destruct (Z.eqb_spec (cmp d g (ir_RowNumber p0)) 0) as [E|N]; [left; exact E|right].
    apply (trimmed_common_equiv d p0 L0 l mid Hn0 Hs0 T) in Hc.
    eapply trimmedBy_common_keep; [exact T2| |exact Hc].
    intros x Hx Hxg. cbn beta in Hx. apply N.
    rewrite <- (cmp_eq_l d _ _ (ir_RowNumber p0) Hxg). exact Hx.
  - intros [E|Hc].
    + apply (trimmed_common_equiv d p0 L0 l mid Hn0 Hs0 T).
      unfold commonGroup, hasGroup in *. eapply Forall_impl; [|exact Hcmid].
      intros L HL. eapply Exists_impl; [|exact HL]. intros x Hx. cbn beta in *.
      rewrite (cmp_eq_r d _ _ _ E). exact Hx.
    + eapply trimmedBy_common_back; [exact Tall|exact Hc].
  - apply (trimmed_common_equiv d p0 L0 l mid Hn0 Hs0 T). exact Hcmid.
  - unfold allAbove. subst l'. rewrite Forall_map.
    rewrite Forall_forall in Hsmid, Hheads. apply Forall_forall. intros L HL.
    apply dropWhile_group_above; auto. specialize (Hheads L HL).
    destruct L; auto.
  - intros x. eapply trimmedBy_In. exact Tall.
  - eapply trimmedBy_sorted; eauto.
  - lia.
  - destruct l as [|L l]; [discriminate|]. cbn in Hn0. injection Hn0 as ->.
    rewrite joinMeasure_head. unfold joinMeasure.
    pose proof (trimmedBy_countAbove _ d (ir_RowNumber p0) _ _ Tall) as Hca.
    destruct l' as [|[|h L'] l''] eqn:El'; try lia.
    assert (Hh : cmp d (ir_RowNumber p0) (ir_RowNumber h) <> 1).
    { destruct (trimmedBy_nth _ _ _ 0%nat (h :: L') Tall eq_refl) as (pre & Hpre & _).
      cbn in Hpre. injection Hpre as Hpre.
      eapply nondecreasing_head; [exact Hs0|]. rewrite Hpre. apply in_or_app. right. left.
      reflexivity. }
    pose proof (countAbove_mono d _ _ ((h :: L') :: l'') Hh). lia.
  - subst l'. rewrite length_map. eapply trimmedBy_length; eauto.
Qed.

End Rounds.

Section CollectAll.
Context {It : Type} `{IteratorContract It}.
Variable d : nat.
Hypothesis Hd : (d <= 7)%nat.

Lemma among_seq n j : among (seq 0 n) j = true <-> (j < n)%nat.
Proof.
  unfold among. rewrite existsb_exists. split.
  - intros (k & Hk & E). apply Nat.eqb_eq in E. subst. apply in_seq in Hk. lia.
  - intros Hj. exists j. split; [apply in_seq; lia|apply Nat.eqb_refl].
Qed.

(** [collect] over all the children, each peeked. *)
Lemma collectAll_spec rowNumber fuel result (ch : Children) :
  wfChildren ch ->
  (forall i, (i < List.length (fst ch))%nat -> exists x, nth_error (snd ch) i = Some (Some x)) ->
  (total (streams ch) < fuel)%nat ->
  exists ch',
    collectEach fuel d rowNumber (seq 0 (List.length (fst ch))) result ch
    = Some (ch',
            fold_left (fun res i =>
                         fold_left IteratorResult_Append
                                   (takeWhile (groupAt d rowNumber) (nth i (streams ch) [])) res)
                      (seq 0 (List.length (fst ch))) result,
            Ok tt)
    /\ wfChildren ch'
    /\ List.length (fst ch') = List.length (fst ch)
    /\ streams ch' = map (dropWhile (groupAt d rowNumber)) (streams ch).
Proof.
  intros Hw Hpk Hf.
  assert (Hpk' : forall i, In i (seq 0 (List.length (fst ch))) ->
             exists L, nth_error (streams ch) i = Some L
                       /\ nth_error (snd ch) i = Some (hd_error L)).
  { intros i Hi. apply in_seq in Hi. destruct (Hpk i ltac:(lia)) as (x & Hx).
    rewrite streams_nth, Hx.
    destruct (nth_error (fst ch) i) as [it|] eqn:Ei.
    - eexists. split; [reflexivity|]. reflexivity.
    - apply nth_error_None in Ei. lia. }
  destruct (collectEach_spec d Hd rowNumber _ fuel result ch Hw (seq_NoDup _ _) Hpk' Hf)
    as (ch' & E & Hw' & Hl' & Hs' & _ & _).
  exists ch'. repeat split; auto.
  apply nth_error_ext. intros j. rewrite nth_error_map.
  destruct (nth_error (streams ch) j) as [L|] eqn:EL.
  - rewrite (Hs' j L EL).
    assert (Hj : (j < List.length (fst ch))%nat).
    { rewrite <- (streams_length ch Hw). apply nth_error_Some. congruence. }
    apply among_seq in Hj. rewrite Hj. reflexivity.
  - cbn. apply nth_error_None. apply nth_error_None in EL.
    rewrite streams_length in * by assumption. lia.
Qed.

End CollectAll.

Ltac split_ands := repeat match goal with |- _ /\ _ => split end.

(** [Append] leaves the row number of the result alone and adds the
    entries. *)
Lemma Append_all_RowNumber g : forall r,
  ir_RowNumber (fold_left IteratorResult_Append g r) = ir_RowNumber r.
Proof. induction g as [|x g IH]; intros r; cbn; auto. rewrite IH. reflexivity. Qed.

Lemma collected_RowNumber (f : IteratorResult -> bool) (l : list (list IteratorResult)) idxs :
  forall r,
    ir_RowNumber (fold_left (fun res i =>
                               fold_left IteratorResult_Append (takeWhile f (nth i l [])) res)
                            idxs r)
    = ir_RowNumber r.
Proof.
  induction idxs as [|i idxs IH]; intros r; cbn; auto.
  rewrite IH. apply Append_all_RowNumber.
Qed.

(** A group common to streams that are all above [L] is above [L]. *)
Lemma common_above d L g (l : list (list IteratorResult)) :
  (1 <= List.length l)%nat -> allAbove d L l -> commonGroup d g l -> cmp d L g = -1.
Proof.
  intros Hn Ha Hc. destruct l as [|S l]; [cbn in Hn; lia|].
  apply Forall_inv in Ha. apply Forall_inv in Hc.
  unfold hasGroup in Hc. apply Exists_exists in Hc. destruct Hc as (x & Hx & Exg).
  rewrite Forall_forall in Ha. specialize (Ha x Hx).
  rewrite <- (cmp_eq_r d _ _ _ Exg). exact Ha.
Qed.

Lemma StronglySorted_app_intro {A} (R : A -> A -> Prop) l1 l2 :
  StronglySorted R l1 -> StronglySorted R l2 ->
  (forall x y, In x l1 -> In y l2 -> R x y) ->
  StronglySorted R (l1 ++ l2).
Proof.
  induction l1 as [|a l1 IH]; intros H1 H2 H12; [exact H2|].
  apply StronglySorted_inv in H1. destruct H1 as (H1 & Ha).
  cbn [app]. constructor.
  - apply IH; auto. intros x y Hx Hy. apply H12; [right; exact Hx|exact Hy].
  - apply Forall_app. split; [exact Ha|].
    apply Forall_forall. intros y Hy. apply H12; [left; reflexivity|exact Hy].
Qed.

(* ------------------------------------------------------------------ *)
(** ** JoinIterator.Next *)

Section JoinNext.
Context {It : Type} `{IteratorContract It}.
Variable d : nat.
Hypothesis Hd : (d <= 7)%nat.

Lemma Join_seekSpec : seekSpec d Join.seek.
Proof. intros i t ch L Hw HL. apply Join_seek_spec; auto. Qed.

Lemma peeked_heads (ch : @Children It) p0 :
  wfChildren ch ->
  (forall j, (j < List.length (fst ch))%nat ->
             exists x, nth_error (snd ch) j = Some (Some x)
                       /\ cmp d (ir_RowNumber x) (ir_RowNumber p0) = 0) ->
  Forall (fun L => match L with
                   | x :: _ => cmp d (ir_RowNumber x) (ir_RowNumber p0) = 0
                   | [] => False
                   end) (streams ch).
Proof.
  intros Hw Hh. apply Forall_forall. intros L HL. apply In_nth_error in HL.
  destruct HL as (j & Hj).
  assert (Hlt : (j < List.length (fst ch))%nat).
  { rewrite <- (streams_length ch Hw). apply nth_error_Some. congruence. }
  destruct (Hh j Hlt) as (x & Hx & Ex).
  rewrite streams_nth, Hx in Hj. destruct (nth_error (fst ch) j); [|discriminate].
  injection Hj as <-. exact Ex.
Qed.

Lemma Join_Next_spec : forall fuel (j : Join.JoinIterator),
  Join.definitionLevel j = d ->
  joinInv d (Join.children j) ->
  (joinMeasure d (streams (Join.children j)) + 2 <= fuel)%nat ->
  exists j' r rej,
    Join.Next fuel j = Some (j', Ok r)
    /\ Join.definitionLevel j' = d
    /\ Join.pred j' = Join.pred j
    /\ Forall (fun x => keepsGroup (Join.pred j) x = false) rej
    /\ Forall (fun x => commonGroup d (ir_RowNumber x) (streams (Join.children j))) rej
    /\ ascendingAt d rej
    /\ match r with
       | None =>
           forall g, commonGroup d g (streams (Join.children j))
                     <-> Exists (fun x => cmp d g (ir_RowNumber x) = 0) rej
       | Some e =>
           Forall (fun x => cmp d (ir_RowNumber x) (ir_RowNumber e) = -1) rej
           /\ joinInv d (Join.children j')
           /\ (forall x, In x (List.concat (streams (Join.children j'))) ->
                         In x (List.concat (streams (Join.children j))))
           /\ keepsGroup (Join.pred j) e = true
           /\ commonGroup d (ir_RowNumber e) (streams (Join.children j))
           /\ allAbove d (ir_RowNumber e) (streams (Join.children j'))
           /\ (exists x, In x (List.concat (streams (Join.children j)))
                         /\ ir_RowNumber x = ir_RowNumber e)
           /\ (joinMeasure d (streams (Join.children j'))
               < joinMeasure d (streams (Join.children j)))%nat
           /\ (forall g, commonGroup d g (streams (Join.children j))
                         <-> Exists (fun x => cmp d g (ir_RowNumber x) = 0) rej
                             \/ cmp d g (ir_RowNumber e) = 0
                             \/ commonGroup d g (streams (Join.children j')))
       end.
Proof.
  induction fuel as [|fuel IH]; intros j Hdl Hinv Hfuel; [lia|].
  destruct Hinv as (Hw & HN & Hsorted).
  cbn [Join.Next]. rewrite Hdl.
  destruct (alignChildren_spec d Hd Join.seek Join_seekSpec (Join.children j) Hw HN Hsorted)
    as (ch1 & out & E & Hw1 & Hl1 & Hout).
  cbn [Join.children fst snd] in E. rewrite E.
  set (j1 := Join.set_children j ch1).
  assert (Hch1 : Join.children j1 = ch1) by (destruct ch1; reflexivity).
  assert (Hdl1 : Join.definitionLevel j1 = d) by exact Hdl.
  assert (Hpr1 : Join.pred j1 = Join.pred j) by reflexivity.
  assert (HN1 : (1 <= List.length (fst ch1))%nat) by (cbn [Join.children fst] in *; lia).
  destruct out as [| |r].
  - (* matched: collect *)
    destruct Hout as (p0 & L0 & Hn0 & T & Hp0 & Hheads).
    assert (Hp0' : nth_error (Join.peeks j1) 0 = Some (Some p0)).
    { change (Join.peeks j1) with (snd (Join.children j1)). rewrite Hch1. exact Hp0. }
    rewrite Hp0'.
    assert (Hheads1 : forall i, (i < List.length (fst ch1))%nat ->
               exists x, nth_error (snd ch1) i = Some (Some x)
                         /\ cmp d (ir_RowNumber x) (ir_RowNumber p0) = 0).
    { intros i Hi. apply Hheads. cbn [Join.children fst] in *. lia. }
    assert (Hpk1 : forall i, (i < List.length (fst ch1))%nat ->
               exists x, nth_error (snd ch1) i = Some (Some x)).
    { intros i Hi. destruct (Hheads1 i Hi) as (x & Hx & _). eauto. }
    pose proof (trimmedBy_total _ _ _ T) as Htot1.
    pose proof (joinMeasure_le_total d (streams (Join.children j))) as Hmt.
    destruct (collectAll_spec d Hd (ir_RowNumber p0) fuel
                (with_RowNumber (IteratorResult_Reset (Join.at_ j1)) (ir_RowNumber p0))
                ch1 Hw1 Hpk1 ltac:(lia)) as (ch2 & E2 & Hw2 & Hl2 & Hs2).
    unfold Join.collect. cbv zeta. rewrite Hdl1.
    change (List.length (Join.iters j1)) with (List.length (fst (Join.children j1))).
    rewrite Hch1. rewrite E2.
    match goal with
    | |- context [fold_left ?f ?l ?a] => set (result := fold_left f l a)
    end.
    set (j2 := Join.set_at_ (Join.set_children j1 ch2) result).
    assert (Hch2 : Join.children j2 = ch2) by (destruct ch2; reflexivity).
    assert (Hrn : ir_RowNumber result = ir_RowNumber p0).
    { unfold result. rewrite collected_RowNumber. reflexivity. }
    destruct (collect_round d p0 L0 (streams (Join.children j)) (streams ch1) Hn0 Hsorted T
                            (peeked_heads ch1 p0 Hw1 Hheads1))
      as (Ciff & Ccom & Cabove & Cin & Csort & Ctot & Cmeas & Clen).
    rewrite <- Hs2 in *.
    assert (Hinv2 : joinInv d (Join.children j2)).
    { rewrite Hch2. unfold joinInv. split_ands; auto. lia. }
    change (Join.pred j2) with (Join.pred j).
    destruct (keepsGroup (Join.pred j) result) eqn:Ek.
    + exists j2, (Some result), []. rewrite Hch2, Hrn. split_ands; auto; try lia;
        try (constructor; fail).
      * exists p0. split; auto. eapply nth_error_In_concat; [exact Hn0|]. left. reflexivity.
      * intros g. rewrite Ciff, Exists_nil. tauto.
    + destruct (IH j2 Hdl Hinv2 ltac:(rewrite Hch2; lia))
        as (j' & r & rej & En & Hdl' & Hpr' & Hrej & Hrc & Hrs & Hr).
      rewrite Hch2 in *.
      assert (Hab : forall g, commonGroup d g (streams ch2) -> cmp d (ir_RowNumber result) g = -1).
      { intros g Hg. rewrite Hrn. apply (common_above d _ g (streams ch2)); auto.
        rewrite streams_length by assumption. lia. }
      exists j', r, (result :: rej). rewrite En. split_ands; auto.
      * constructor.
        -- rewrite Hrn. exact Ccom.
        -- eapply Forall_impl; [|exact Hrc]. cbn beta. intros x Hx. apply Ciff. right. exact Hx.
      * constructor; [exact Hrs|].
        eapply Forall_impl; [|exact Hrc]. cbn beta. intros x Hx. apply Hab. exact Hx.
      * destruct r as [e|].
        -- destruct Hr as (Rlt & Rinv & Rin & Rk & Rc & Ra & (x & Rx & Rxe) & Rm & Riff).
           pose proof (Hab _ Rc) as Hre.
           split_ands; auto; try lia.
           ++ apply Ciff. right. exact Rc.
           ++ exists x. split; auto.
           ++ intros g. rewrite Ciff, Riff, Exists_cons, Hrn. tauto.
        -- intros g. rewrite Ciff, Hr, Exists_cons, Hrn. tauto.
  - (* swapped: another round *)
    destruct Hout as (p0 & L0 & mid & m & q & Lm & Hn0 & T & Es & Hm & Hq).
    destruct (swap_round d p0 L0 (streams (Join.children j)) mid m q Lm (streams ch1)
                         Hn0 Hsorted T Es Hm Hq) as (Siff & Sin & Ssort & Stot & Smeas & Slen).
    assert (Hinv1 : joinInv d (Join.children j1)).
    { rewrite Hch1. unfold joinInv. split_ands; auto. }
    destruct (IH j1 Hdl1 Hinv1 ltac:(rewrite Hch1; lia))
      as (j' & r & rej & En & Hdl' & Hpr' & Hrej & Hrc & Hrs & Hr).
    rewrite Hch1 in *.
    exists j', r, rej. rewrite En. split_ands; auto.
    { eapply Forall_impl; [|exact Hrc]. cbn beta. intros x Hx. apply Siff. exact Hx. }
    destruct r as [e|].
    + destruct Hr as (Rlt & Rinv & Rin & Rk & Rc & Ra & (x & Rx & Rxe) & Rm & Riff).
      split_ands; auto; try lia.
      * apply Siff. exact Rc.
      * exists x. split; auto.
      * intros g. rewrite <- Riff. symmetry. apply Siff.
    + intros g. rewrite <- Hr. symmetry. apply Siff.
  - (* finished *)
    destruct Hout as (-> & Hnc).
    exists j1, None, []. split_ands; auto; try (constructor; fail).
    intros g. rewrite Exists_nil. split; [apply Hnc | tauto].
Qed.

End JoinNext.

(* ------------------------------------------------------------------ *)
(** ** Fuel *)

(** More fuel does not change a result. *)
Section Fuel.
Context {It : Type} `{Iterator It}.

Lemma collectFrom_mono : forall f f' d rowNumber i result (ch : @Children It) x,
  (f <= f')%nat ->
  collectFrom f d rowNumber i result ch = Some x ->
  collectFrom f' d rowNumber i result ch = Some x.
Proof.
  induction f as [|f IH]; intros f' d rowNumber i result ch x Hle E; [discriminate|].
  destruct f' as [|f']; [lia|]. cbn [collectFrom] in *.
  destruct (nth_error (snd ch) i) as [[p|]|]; auto.
  destruct (EqualRowNumber d (ir_RowNumber p) rowNumber) as [[|]|]; auto.
  destruct (advance Iterator_Next i ch) as [ch1 [r|e|]]; auto.
  apply IH; [lia|exact E].
Qed.

Lemma collectEach_mono : forall idxs f f' d rowNumber result (ch : @Children It) x,
  (f <= f')%nat ->
  collectEach f d rowNumber idxs result ch = Some x ->
  collectEach f' d rowNumber idxs result ch = Some x.
Proof.
  induction idxs as [|i idxs IH]; intros f f' d rowNumber result ch x Hle E; [exact E|].
  cbn [collectEach] in *.
  destruct (collectFrom f d rowNumber i result ch) as [[[ch1 r1] o]|] eqn:Ec; [|discriminate].
  rewrite (collectFrom_mono _ _ _ _ _ _ _ _ Hle Ec).
  destruct o; auto. eapply IH; eauto.
Qed.

Lemma Join_collect_mono : forall f f' rowNumber (j : Join.JoinIterator) x,
  (f <= f')%nat ->
  Join.collect f rowNumber j = Some x ->
  Join.collect f' rowNumber j = Some x.
Proof.
  intros f f' rowNumber j x Hle. unfold Join.collect. cbv zeta.
  destruct (collectEach f _ _ _ _ _) as [[[ch1 r1] o]|] eqn:Ec; [|discriminate].
  rewrite (collectEach_mono _ _ _ _ _ _ _ _ Hle Ec). auto.
Qed.

Lemma Join_Next_mono : forall f f' (j : Join.JoinIterator) x,
  (f <= f')%nat ->
  Join.Next f j = Some x ->
  Join.Next f' j = Some x.
Proof.
  induction f as [|f IH]; intros f' j x Hle E; [discriminate|].
  destruct f' as [|f']; [lia|]. cbn [Join.Next] in *.
  destruct (alignChildren Join.seek _ _ _ _) as [ch r].
  destruct r as [[| |r]|e|]; auto.
  - destruct (nth_error _ 0) as [[p0|]|]; auto.
    destruct (Join.collect f _ _) as [[j2 r2]|] eqn:Ec; [|discriminate].
    rewrite (Join_collect_mono f f' _ _ _ ltac:(lia) Ec).
    destruct r2; auto. destruct (keepsGroup _ _); auto. apply (IH f'); [lia|exact E].
  - apply (IH f'); [lia|exact E].
Qed.
End Fuel.

Lemma filter_none {A} (f : A -> bool) (l : list A) :
  Forall (fun x => f x = false) l -> filter f l = [].
Proof.
  induction 1 as [|x l Hx _ IH]; cbn; auto. rewrite Hx. exact IH.
Qed.

(* ------------------------------------------------------------------ *)
(** ** A full iteration of JoinIterator *)

Section JoinRun.
Context {It : Type} `{IteratorContract It}.
Variable d : nat.
Hypothesis Hd : (d <= 7)%nat.

(** Calling [Next] until it returns nil: the groups the iterator
    assembles are the common groups of its children, the results it
    returns are the assembled groups that the predicate keeps, in strictly
    increasing order at level [d], each with the row number of a result
    of a child. *)
Lemma Join_run_spec : forall m (j : Join.JoinIterator),
  Join.definitionLevel j = d ->
  joinInv d (Join.children j) ->
  (joinMeasure d (streams (Join.children j)) <= m)%nat ->
  exists groups,
    (forall fuel n, (m + 2 <= fuel)%nat -> (m + 1 <= n)%nat ->
        drain (Join.Next fuel) n j = Some (filter (keepsGroup (Join.pred j)) groups))
    /\ (forall g, commonGroup d g (streams (Join.children j))
                  <-> Exists (fun e => cmp d g (ir_RowNumber e) = 0) groups)
    /\ ascendingAt d groups
    /\ ascendingAt d (filter (keepsGroup (Join.pred j)) groups)
    /\ Forall (fun e => exists x, In x (List.concat (streams (Join.children j)))
                                  /\ ir_RowNumber x = ir_RowNumber e)
              (filter (keepsGroup (Join.pred j)) groups).
Proof.
  induction m as [|m IH]; intros j Hdl Hinv Hm.
  all: destruct (Join_Next_spec d Hd _ j Hdl Hinv (Nat.le_refl _))
      as (j' & r & rej & En & Hdl' & Hpr' & Hrej & Hrc & Hrs & Hr).
  all: destruct r as [e|];
    [destruct Hr as (Rlt & Rinv & Rin & Rk & Rc & Ra & Rx & Rm & Riff)|].
  - lia.
  - exists rej. rewrite (filter_none _ _ Hrej). split_ands.
    + intros fuel n Hf Hn. destruct n as [|n]; [lia|]. cbn [drain].
      rewrite (fun Hle => Join_Next_mono _ fuel _ _ Hle En) by lia. reflexivity.
    + exact Hr.
    + exact Hrs.
    + constructor.
    + constructor.
  - destruct (IH j' Hdl' Rinv ltac:(lia)) as (groups & Hrun & Hiff & Hall & Hasc & Hin).
    rewrite Hpr' in *.
    assert (Habove : forall y, In y groups -> cmp d (ir_RowNumber e) (ir_RowNumber y) = -1).
    { intros y Hy. apply (common_above d _ _ (streams (Join.children j'))); auto.
      - destruct Rinv as (Hw' & HN' & _). rewrite streams_length by assumption. exact HN'.
      - apply Hiff. apply Exists_exists. exists y. split; [exact Hy|apply cmp_refl]. }
    exists (rej ++ e :: groups).
    rewrite filter_app, (filter_none _ _ Hrej). cbn [app filter]. rewrite Rk.
    split_ands.
    + intros fuel n Hf Hn. destruct n as [|n]; [lia|]. cbn [drain].
      rewrite (fun Hle => Join_Next_mono _ fuel _ _ Hle En) by lia.
      rewrite (Hrun fuel n) by lia. reflexivity.
    + intros g. rewrite Riff, Hiff, Exists_app, Exists_cons. tauto.
    + apply StronglySorted_app_intro; [exact Hrs| |].
      * constructor; [exact Hall|]. apply Forall_forall. exact Habove.
      * rewrite Forall_forall in Rlt. intros x y Hx [<-|Hy]; [apply Rlt; exact Hx|].
        eapply cmp_trans_lt; [apply Rlt; exact Hx|apply Habove; exact Hy].
    + constructor; [exact Hasc|].
      rewrite Forall_forall in Hin |- *. intros y Hy.
      destruct (Hin y Hy) as (x & Hx & <-).
      apply in_concat in Hx. destruct Hx as (L & HL & HxL).
      unfold allAbove in Ra. rewrite Forall_forall in Ra.
      specialize (Ra L HL). rewrite Forall_forall in Ra. apply Ra. exact HxL.
    + constructor; [exact Rx|].
      eapply Forall_impl; [|exact Hin]. cbn beta. intros y (x & Hx & Hxy).
      exists x. split; auto.
  - exists rej. rewrite (filter_none _ _ Hrej). split_ands.
    + intros fuel n Hf Hn. destruct n as [|n]; [lia|]. cbn [drain].
      rewrite (fun Hle => Join_Next_mono _ fuel _ _ Hle En) by lia. reflexivity.
    + exact Hr.
    + exact Hrs.
    + constructor.
    + constructor.
Qed.
End JoinRun.

(* ------------------------------------------------------------------ *)
(** ** The list-backed iterator keeps the contract *)

Lemma slice_seek_spec t d : (d <= 7)%nat -> forall l,
  slice_seek t d l
  = (mkSlice (tl (dropWhile (belowAt d t) l)), Ok (hd_error (dropWhile (belowAt d t) l))).
Proof.
  intros Hd. induction l as [|r l IH]; [reflexivity|].
  cbn [slice_seek dropWhile]. rewrite CompareRowNumbers_cmp by exact Hd.
  assert (Eb : belowAt d t r = (cmp d (ir_RowNumber r) t =? -1)) by reflexivity.
  rewrite Eb.
  destruct (cmp_range d (ir_RowNumber r) t) as [E|[E|E]]; rewrite E;
    cbn [Z.geb Z.compare Z.eqb Pos.eqb tl hd_error]; auto.
Qed.

Lemma SliceIterator_Next_spec (s : SliceIterator) :
  snd (Iterator_Next s) = Ok (hd_error (slice_results s))
  /\ slice_results (fst (Iterator_Next s)) = tl (slice_results s).
Proof. split; reflexivity. Qed.

Lemma SliceIterator_SeekTo_spec t d (s : SliceIterator) :
  (d <= 7)%nat ->
  snd (Iterator_SeekTo t d s) = Ok (hd_error (dropWhile (belowAt d t) (slice_results s)))
  /\ slice_results (fst (Iterator_SeekTo t d s)) = tl (dropWhile (belowAt d t) (slice_results s)).
Proof.
  intros Hd. cbn [Iterator_SeekTo SliceIterator_Iterator].
  rewrite slice_seek_spec by exact Hd. split; reflexivity.
Qed.

#[export] Instance SliceIterator_Contract : IteratorContract SliceIterator :=
  {| view := slice_results;
     contract_Next := SliceIterator_Next_spec;
     contract_SeekTo := SliceIterator_SeekTo_spec |}.

Ltac solve_sorted :=
  repeat first [ apply Forall_nil | apply SSorted_nil
               | apply Forall_cons | apply SSorted_cons
               | (intro; discriminate) | reflexivity ].

(* ------------------------------------------------------------------ *)
(** ** JoinIterator emits the common groups *)



(* ------------------------------------------------------------------ *)
(** ** LeftJoinIterator.Next *)

Lemma total_map_dropWhile (f : IteratorResult -> bool) l :
  (total (map (dropWhile f) l) <= total l)%nat.
Proof.
  unfold total. induction l as [|L l IH]; cbn; auto.
  rewrite !length_app. pose proof (dropWhile_length f L). lia.
Qed.

Section LeftJoinNext.
Context {It : Type} `{IteratorContract It}.
Variable d : nat.
Hypothesis Hd : (d <= 7)%nat.

Lemma LeftJoin_seekSpec : seekSpec d LeftJoin.seek.
Proof. intros i t ch L Hw HL. apply seekIfBehind_spec; auto. Qed.

(** [seekAllOptional] leaves every optional child it visits peeked, and
    takes nothing but results away. *)
Lemma seekAllOptional_spec t : forall n i (ch : @Children It),
  wfChildren ch -> (i + n = List.length (fst ch))%nat ->
  exists ch',
    LeftJoin.seekAllOptional_loop n i t d ch = (ch', Ok tt)
    /\ wfChildren ch'
    /\ List.length (fst ch') = List.length (fst ch)
    /\ (total (streams ch') <= total (streams ch))%nat
    /\ (forall j, (i <= j < i + n)%nat ->
                  exists S, nth_error (streams ch') j = Some S
                            /\ nth_error (snd ch') j = Some (hd_error S))
    /\ (forall j, (j < i)%nat ->
                  nth_error (streams ch') j = nth_error (streams ch) j
                  /\ nth_error (snd ch') j = nth_error (snd ch) j).
Proof.
  induction n as [|n IH]; intros i ch Hw Hn.
  - exists ch. cbn. split_ands; auto. intros j Hj. lia.
  - cbn [LeftJoin.seekAllOptional_loop].
    destruct (nth_error (streams ch) i) as [S|] eqn:HS.
    2:{ apply nth_error_None in HS. rewrite streams_length in HS by assumption. lia. }
    destruct (seekIfBehind_spec d Hd i t ch S Hw HS) as (ch1 & E1 & Hw1 & Hl1 & Hs1 & Hp1 & Ho1).
    rewrite E1.
    destruct (IH (Datatypes.S i) ch1 Hw1 ltac:(lia))
      as (ch' & E & Hw' & Hl' & Ht' & Hpk' & Hlow').
    exists ch'. rewrite E. split_ands; auto; try congruence.
    + eapply Nat.le_trans; [exact Ht'|]. rewrite Hs1.
      eapply total_list_set; [exact HS|]. apply dropWhile_length.
    + intros j Hj. destruct (Nat.eq_dec j i) as [->|Hne].
      * destruct (Hlow' i ltac:(lia)) as (Ea & Eb). rewrite Ea, Eb, Hs1.
        rewrite nth_error_list_set_eq.
        -- eexists. split; [reflexivity|exact Hp1].
        -- apply nth_error_Some. congruence.
      * apply Hpk'. lia.
    + intros j Hj. destruct (Hlow' j ltac:(lia)) as (Ea & Eb). rewrite Ea, Eb, Hs1.
      rewrite nth_error_list_set_neq by lia. split; [reflexivity|]. apply Ho1. lia.
Qed.

(** [collect] over all the children, each of them peeked. *)
Lemma collectPeeked_spec rowNumber fuel result (ch : @Children It) :
  wfChildren ch ->
  (forall i, (i < List.length (fst ch))%nat ->
             exists S, nth_error (streams ch) i = Some S
                       /\ nth_error (snd ch) i = Some (hd_error S)) ->
  (total (streams ch) < fuel)%nat ->
  exists ch' result',
    collectEach fuel d rowNumber (seq 0 (List.length (fst ch))) result ch
    = Some (ch', result', Ok tt)
    /\ ir_RowNumber result' = ir_RowNumber result
    /\ wfChildren ch'
    /\ List.length (fst ch') = List.length (fst ch)
    /\ streams ch' = map (dropWhile (groupAt d rowNumber)) (streams ch).
Proof.
  intros Hw Hpk Hf.
  assert (Hpk' : forall i, In i (seq 0 (List.length (fst ch))) ->
             exists L, nth_error (streams ch) i = Some L
                       /\ nth_error (snd ch) i = Some (hd_error L)).
  { intros i Hi. apply in_seq in Hi. apply Hpk. lia. }
  destruct (collectEach_spec d Hd rowNumber _ fuel result ch Hw (seq_NoDup _ _) Hpk' Hf)
    as (ch' & E & Hw' & Hl' & Hs' & _ & _).
  exists ch'. eexists. split; [exact E|]. split; [apply collected_RowNumber|].
  split_ands; auto.
  apply nth_error_ext. intros j. rewrite nth_error_map.
  destruct (nth_error (streams ch) j) as [L|] eqn:EL.
  - rewrite (Hs' j L EL).
    assert (Hj : (j < List.length (fst ch))%nat).
    { rewrite <- (streams_length ch Hw). apply nth_error_Some. congruence. }
    apply (among_seq d Hd) in Hj. rewrite Hj. reflexivity.
  - cbn. apply nth_error_None. apply nth_error_None in EL.
    rewrite streams_length in * by assumption. lia.
Qed.

Ltac lj_simpl :=
  cbv beta iota zeta delta
      [LeftJoin.definitionLevel LeftJoin.childrenRequired LeftJoin.childrenOptional
       LeftJoin.required LeftJoin.optional LeftJoin.peeksRequired LeftJoin.peeksOptional
       LeftJoin.pred LeftJoin.set_at_ LeftJoin.set_childrenRequired
       LeftJoin.set_childrenOptional LeftJoin.at_ LeftJoin.pool].

Lemma LeftJoin_collect_spec fuel rowNumber (j : LeftJoin.LeftJoinIterator) :
  LeftJoin.definitionLevel j = d ->
  wfChildren (LeftJoin.childrenRequired j) ->
  (forall i, (i < List.length (LeftJoin.required j))%nat ->
             exists x, nth_error (LeftJoin.peeksRequired j) i = Some (Some x)) ->
  wfChildren (LeftJoin.childrenOptional j) ->
  (total (streams (LeftJoin.childrenRequired j)) < fuel)%nat ->
  (total (streams (LeftJoin.childrenOptional j)) < fuel)%nat ->
  exists j' result,
    LeftJoin.collect fuel rowNumber j = Some (j', Ok result)
    /\ LeftJoin.definitionLevel j' = d
    /\ LeftJoin.pred j' = LeftJoin.pred j
    /\ ir_RowNumber result = rowNumber
    /\ wfChildren (LeftJoin.childrenRequired j')
    /\ List.length (LeftJoin.required j') = List.length (LeftJoin.required j)
    /\ streams (LeftJoin.childrenRequired j')
       = map (dropWhile (groupAt d rowNumber)) (streams (LeftJoin.childrenRequired j))
    /\ wfChildren (LeftJoin.childrenOptional j')
    /\ (total (streams (LeftJoin.childrenOptional j'))
        <= total (streams (LeftJoin.childrenOptional j)))%nat.
Proof.
  destruct j as [dl req opt preq popt pr pl at0].
  lj_simpl.
  intros -> Hwr Hpk Hwo Hfr Hfo.
  unfold LeftJoin.collect, LeftJoin.seekAllOptional. cbv zeta.
  lj_simpl.
  destruct (seekAllOptional_spec rowNumber (List.length opt) 0 (opt, popt) Hwo eq_refl)
    as (opt1 & E1 & Hwo1 & Hlo1 & Hto1 & Hpo1 & _).
  rewrite E1.
  lj_simpl.
  assert (Hpkr : forall i, (i < List.length (fst (req, preq)))%nat ->
             exists S, nth_error (streams (req, preq)) i = Some S
                       /\ nth_error (snd (req, preq)) i = Some (hd_error S)).
  { intros i Hi. destruct (Hpk i Hi) as (x & Hx).
    rewrite streams_nth. cbn [fst snd] in *. rewrite Hx.
    destruct (nth_error req i) as [it|] eqn:Ei.
    - eexists. split; [reflexivity|]. reflexivity.
    - apply nth_error_None in Ei. lia. }
  destruct (collectPeeked_spec rowNumber fuel
              (with_RowNumber (IteratorResult_Reset at0) rowNumber) (req, preq) Hwr Hpkr Hfr)
    as (req2 & res2 & E2 & Hrn2 & Hwr2 & Hlr2 & Hsr2).
  cbn [fst snd] in E2. rewrite E2.
  lj_simpl.
  assert (Hpko : forall i, (i < List.length (fst opt1))%nat ->
             exists S, nth_error (streams opt1) i = Some S
                       /\ nth_error (snd opt1) i = Some (hd_error S)).
  { intros i Hi. apply Hpo1. cbn [fst] in Hlo1. lia. }
  destruct (collectPeeked_spec rowNumber fuel res2 opt1 Hwo1 Hpko ltac:(lia))
    as (opt2 & res3 & E3 & Hrn3 & Hwo2 & Hlo2 & Hso2).
  destruct opt1 as [o1 po1]. cbn [fst snd] in *. rewrite E3.
  eexists. exists res3. split; [reflexivity|].
  lj_simpl.
  destruct req2 as [r2 pr2]. destruct opt2 as [o2 po2]. cbn [fst snd] in *.
  split_ands; auto.
  - rewrite Hrn3, Hrn2. reflexivity.
  - rewrite Hso2. eapply Nat.le_trans; [apply total_map_dropWhile|exact Hto1].
Qed.

Lemma LeftJoin_Next_spec : forall fuel (j : LeftJoin.LeftJoinIterator),
  LeftJoin.definitionLevel j = d ->
  joinInv d (LeftJoin.childrenRequired j) ->
  wfChildren (LeftJoin.childrenOptional j) ->
  (joinMeasure d (streams (LeftJoin.childrenRequired j))
   + total (streams (LeftJoin.childrenOptional j)) + 2 <= fuel)%nat ->
  exists j' r rej,
    LeftJoin.Next fuel j = Some (j', Ok r)
    /\ LeftJoin.definitionLevel j' = d
    /\ LeftJoin.pred j' = LeftJoin.pred j
    /\ Forall (fun x => keepsGroup (LeftJoin.pred j) x = false) rej
    /\ match r with
       | None =>
           forall g, commonGroup d g (streams (LeftJoin.childrenRequired j))
                     <-> Exists (fun x => cmp d g (ir_RowNumber x) = 0) rej
       | Some e =>
           joinInv d (LeftJoin.childrenRequired j')
           /\ wfChildren (LeftJoin.childrenOptional j')
           /\ (total (streams (LeftJoin.childrenOptional j'))
               <= total (streams (LeftJoin.childrenOptional j)))%nat
           /\ (forall x, In x (List.concat (streams (LeftJoin.childrenRequired j'))) ->
                         In x (List.concat (streams (LeftJoin.childrenRequired j))))
           /\ keepsGroup (LeftJoin.pred j) e = true
           /\ commonGroup d (ir_RowNumber e) (streams (LeftJoin.childrenRequired j))
           /\ allAbove d (ir_RowNumber e) (streams (LeftJoin.childrenRequired j'))
           /\ (exists x, In x (List.concat (streams (LeftJoin.childrenRequired j)))
                         /\ ir_RowNumber x = ir_RowNumber e)
           /\ (joinMeasure d (streams (LeftJoin.childrenRequired j'))
               < joinMeasure d (streams (LeftJoin.childrenRequired j)))%nat
           /\ (forall g, commonGroup d g (streams (LeftJoin.childrenRequired j))
                         <-> Exists (fun x => cmp d g (ir_RowNumber x) = 0) rej
                             \/ cmp d g (ir_RowNumber e) = 0
                             \/ commonGroup d g (streams (LeftJoin.childrenRequired j')))
       end.
Proof.
  induction fuel as [|fuel IH]; intros j Hdl Hinv Hwo Hfuel; [lia|].
  destruct Hinv as (Hw & HN & Hsorted).
  cbn [LeftJoin.Next]. rewrite Hdl.
  assert (Hlen : List.length (LeftJoin.peeksRequired j) = List.length (LeftJoin.required j)).
  { symmetry. exact Hw. }
  rewrite Hlen.
  destruct (alignChildren_spec d Hd LeftJoin.seek LeftJoin_seekSpec
                               (LeftJoin.childrenRequired j) Hw HN Hsorted)
    as (ch1 & out & E & Hw1 & Hl1 & Hout).
  cbn [LeftJoin.childrenRequired fst snd] in E. rewrite E.
  set (j1 := LeftJoin.set_childrenRequired j ch1).
  assert (Hch1 : LeftJoin.childrenRequired j1 = ch1) by (destruct ch1; reflexivity).
  assert (Hop1 : LeftJoin.childrenOptional j1 = LeftJoin.childrenOptional j) by reflexivity.
  assert (Hdl1 : LeftJoin.definitionLevel j1 = d) by exact Hdl.
  assert (Hpr1 : LeftJoin.pred j1 = LeftJoin.pred j) by reflexivity.
  assert (HN1 : (1 <= List.length (fst ch1))%nat)
    by (cbn [LeftJoin.childrenRequired fst] in *; lia).
  destruct out as [| |r].
  - (* matched: collect *)
    destruct Hout as (p0 & L0 & Hn0 & T & Hp0 & Hheads).
    assert (Hp0' : nth_error (LeftJoin.peeksRequired j1) 0 = Some (Some p0)).
    { change (LeftJoin.peeksRequired j1) with (snd (LeftJoin.childrenRequired j1)).
      rewrite Hch1. exact Hp0. }
    rewrite Hp0'.
    assert (Hheads1 : forall i, (i < List.length (fst ch1))%nat ->
               exists x, nth_error (snd ch1) i = Some (Some x)
                         /\ cmp d (ir_RowNumber x) (ir_RowNumber p0) = 0).
    { intros i Hi. apply Hheads. cbn [LeftJoin.childrenRequired fst] in *. lia. }
    assert (Hpk1 : forall i, (i < List.length (LeftJoin.required j1))%nat ->
               exists x, nth_error (LeftJoin.peeksRequired j1) i = Some (Some x)).
    { change (LeftJoin.required j1) with (fst (LeftJoin.childrenRequired j1)).
      change (LeftJoin.peeksRequired j1) with (snd (LeftJoin.childrenRequired j1)).
      rewrite Hch1. intros i Hi. destruct (Hheads1 i Hi) as (x & Hx & _). eauto. }
    pose proof (trimmedBy_total _ _ _ T) as Htot1.
    pose proof (joinMeasure_le_total d (streams (LeftJoin.childrenRequired j))) as Hmt.
    destruct (LeftJoin_collect_spec fuel (ir_RowNumber p0) j1 Hdl1
                ltac:(rewrite Hch1; exact Hw1) Hpk1 ltac:(rewrite Hop1; exact Hwo)
                ltac:(rewrite Hch1; lia) ltac:(rewrite Hop1; lia))
      as (j2 & result & E2 & Hdl2 & Hpr2 & Hrn & Hw2 & Hl2 & Hs2 & Hwo2 & Hto2).
    rewrite E2. rewrite Hch1 in Hs2. rewrite Hop1 in Hto2.
    change (LeftJoin.required j1) with (fst (LeftJoin.childrenRequired j1)) in Hl2.
    rewrite Hch1 in Hl2.
    destruct (collect_round d p0 L0 (streams (LeftJoin.childrenRequired j)) (streams ch1)
                            Hn0 Hsorted T (peeked_heads d ch1 p0 Hw1 Hheads1))
      as (Ciff & Ccom & Cabove & Cin & Csort & Ctot & Cmeas & Clen).
    rewrite <- Hs2 in *.
    assert (Hinv2 : joinInv d (LeftJoin.childrenRequired j2)).
    { unfold joinInv. split_ands; auto.
      change (fst (LeftJoin.childrenRequired j2)) with (LeftJoin.required j2). lia. }
    rewrite Hpr2, Hpr1.
    destruct (keepsGroup (LeftJoin.pred j) result) eqn:Ek.
    + exists j2, (Some result), []. rewrite Hrn. split_ands; auto; try lia; try congruence.
      * exists p0. split; auto. eapply nth_error_In_concat; [exact Hn0|]. left. reflexivity.
      * intros g. rewrite Ciff, Exists_nil. tauto.
    + destruct (IH j2 Hdl2 Hinv2 Hwo2 ltac:(lia))
        as (j' & r & rej & En & Hdl' & Hpr' & Hrej & Hr).
      rewrite Hpr2, Hpr1 in *.
      exists j', r, (result :: rej). rewrite En. split_ands; auto.
      destruct r as [e|].
      * destruct Hr as (Rinv & Rwo & Rto & Rin & Rk & Rc & Ra & (x & Rx & Rxe) & Rm & Riff).
        split_ands; auto; try lia.
        -- apply Ciff. right. exact Rc.
        -- exists x. split; auto.
        -- intros g. rewrite Ciff, Riff, Exists_cons, Hrn. tauto.
      * intros g. rewrite Ciff, Hr, Exists_cons, Hrn. tauto.
  - (* swapped: another round *)
    destruct Hout as (p0 & L0 & mid & m & q & Lm & Hn0 & T & Es & Hm & Hq).
    destruct (swap_round d p0 L0 (streams (LeftJoin.childrenRequired j)) mid m q Lm (streams ch1)
                         Hn0 Hsorted T Es Hm Hq) as (Siff & Sin & Ssort & Stot & Smeas & Slen).
    assert (Hinv1 : joinInv d (LeftJoin.childrenRequired j1)).
    { rewrite Hch1. unfold joinInv. split_ands; auto. }
    destruct (IH j1 Hdl1 Hinv1 ltac:(rewrite Hop1; exact Hwo) ltac:(rewrite Hch1, Hop1; lia))
      as (j' & r & rej & En & Hdl' & Hpr' & Hrej & Hr).
    rewrite Hch1, ?Hop1, ?Hpr1 in *.
    exists j', r, rej. rewrite En. split_ands; auto.
    destruct r as [e|].
    + destruct Hr as (Rinv & Rwo & Rto & Rin & Rk & Rc & Ra & (x & Rx & Rxe) & Rm & Riff).
      split_ands; auto; try lia.
      * apply Siff. exact Rc.
      * exists x. split; auto.
      * intros g. rewrite <- Riff. symmetry. apply Siff.
    + intros g. rewrite <- Hr. symmetry. apply Siff.
  - (* finished *)
    destruct Hout as (-> & Hnc).
    exists j1, None, []. split_ands; auto.
    intros g. rewrite Exists_nil. split; [apply Hnc | tauto].
Qed.
End LeftJoinNext.

Section LeftJoinFuel.
Context {It : Type} `{Iterator It}.

Lemma LeftJoin_collect_mono : forall f f' rowNumber (j : LeftJoin.LeftJoinIterator) x,
  (f <= f')%nat ->
  LeftJoin.collect f rowNumber j = Some x ->
  LeftJoin.collect f' rowNumber j = Some x.
Proof.
  intros f f' rowNumber j x Hle. unfold LeftJoin.collect. cbv zeta.
  destruct (LeftJoin.seekAllOptional _ _ _) as [j1 [u|e|]]; auto.
  destruct (collectEach f _ _ _ _ _) as [[[ch1 r1] o]|] eqn:Ec; [|discriminate].
  intros E. rewrite (collectEach_mono _ _ _ _ _ _ _ _ Hle Ec).
  clear Ec. destruct o; try exact E.
  revert E. cbv beta iota.
  destruct (collectEach f _ _ _ _ _) as [[[ch2 r2] o2]|] eqn:Ec2; [|discriminate].
  intros E. rewrite (collectEach_mono _ _ _ _ _ _ _ _ Hle Ec2). exact E.
Qed.

Lemma LeftJoin_Next_mono : forall f f' (j : LeftJoin.LeftJoinIterator) x,
  (f <= f')%nat ->
  LeftJoin.Next f j = Some x ->
  LeftJoin.Next f' j = Some x.
Proof.
  induction f as [|f IH]; intros f' j x Hle E; [discriminate|].
  destruct f' as [|f']; [lia|]. cbn [LeftJoin.Next] in *.
  destruct (alignChildren LeftJoin.seek _ _ _ _) as [ch r].
  destruct r as [[| |r]|e|]; auto.
  - destruct (nth_error _ 0) as [[p0|]|]; auto.
    destruct (LeftJoin.collect f _ _) as [[j2 r2]|] eqn:Ec; [|discriminate].
    rewrite (LeftJoin_collect_mono f f' _ _ _ ltac:(lia) Ec).
    destruct r2; auto. destruct (keepsGroup _ _); auto. apply (IH f'); [lia|exact E].
  - apply (IH f'); [lia|exact E].
Qed.
End LeftJoinFuel.

(* ------------------------------------------------------------------ *)
(** ** A full iteration of LeftJoinIterator *)

Section LeftJoinRun.
Context {It : Type} `{IteratorContract It}.
Variable d : nat.
Hypothesis Hd : (d <= 7)%nat.

Lemma LeftJoin_run_spec : forall m (j : LeftJoin.LeftJoinIterator),
  LeftJoin.definitionLevel j = d ->
  joinInv d (LeftJoin.childrenRequired j) ->
  wfChildren (LeftJoin.childrenOptional j) ->
  (joinMeasure d (streams (LeftJoin.childrenRequired j))
   + total (streams (LeftJoin.childrenOptional j)) <= m)%nat ->
  exists groups,
    (forall fuel n, (m + 2 <= fuel)%nat -> (m + 1 <= n)%nat ->
        drain (LeftJoin.Next fuel) n j = Some (filter (keepsGroup (LeftJoin.pred j)) groups))
    /\ (forall g, commonGroup d g (streams (LeftJoin.childrenRequired j))
                  <-> Exists (fun e => cmp d g (ir_RowNumber e) = 0) groups)
    /\ ascendingAt d (filter (keepsGroup (LeftJoin.pred j)) groups)
    /\ Forall (fun e => exists x, In x (List.concat (streams (LeftJoin.childrenRequired j)))
                                  /\ ir_RowNumber x = ir_RowNumber e)
              (filter (keepsGroup (LeftJoin.pred j)) groups).
Proof.
  induction m as [|m IH]; intros j Hdl Hinv Hwo Hm.
  all: destruct (LeftJoin_Next_spec d Hd _ j Hdl Hinv Hwo (Nat.le_refl _))
      as (j' & r & rej & En & Hdl' & Hpr' & Hrej & Hr).
  all: destruct r as [e|];
    [destruct Hr as (Rinv & Rwo & Rto & Rin & Rk & Rc & Ra & Rx & Rm & Riff)|].
  - lia.
  - exists rej. rewrite (filter_none _ _ Hrej). split_ands.
    + intros fuel n Hf Hn. destruct n as [|n]; [lia|]. cbn [drain].
      rewrite (fun Hle => LeftJoin_Next_mono _ fuel _ _ Hle En) by lia. reflexivity.
    + exact Hr.
    + constructor.
    + constructor.
  - destruct (IH j' Hdl' Rinv Rwo ltac:(lia)) as (groups & Hrun & Hiff & Hasc & Hin).
    rewrite Hpr' in *.
    exists (rej ++ e :: groups).
    rewrite filter_app, (filter_none _ _ Hrej). cbn [app filter]. rewrite Rk.
    split_ands.
    + intros fuel n Hf Hn. destruct n as [|n]; [lia|]. cbn [drain].
      rewrite (fun Hle => LeftJoin_Next_mono _ fuel _ _ Hle En) by lia.
      rewrite (Hrun fuel n) by lia. reflexivity.
    + intros g. rewrite Riff, Hiff, Exists_app, Exists_cons. tauto.
    + constructor; [exact Hasc|].
      rewrite Forall_forall in Hin |- *. intros y Hy.
      destruct (Hin y Hy) as (x & Hx & <-).
      apply in_concat in Hx. destruct Hx as (L & HL & HxL).
      unfold allAbove in Ra. rewrite Forall_forall in Ra.
      specialize (Ra L HL). rewrite Forall_forall in Ra. apply Ra. exact HxL.
    + constructor; [exact Rx|].
      eapply Forall_impl; [|exact Hin]. cbn beta. intros y (x & Hx & Hxy).
      exists x. split; auto.
  - exists rej. rewrite (filter_none _ _ Hrej). split_ands.
    + intros fuel n Hf Hn. destruct n as [|n]; [lia|]. cbn [drain].
      rewrite (fun Hle => LeftJoin_Next_mono _ fuel _ _ Hle En) by lia. reflexivity.
    + exact Hr.
    + constructor.
    + constructor.
Qed.
End LeftJoinRun.

Lemma filter_all {A} (f : A -> bool) (l : list A) :
  (forall x, f x = true) -> filter f l = l.
Proof.
  intros Hf. induction l as [|x l IH]; cbn; [reflexivity|]. rewrite Hf, IH. reflexivity.
Qed.

(** Two lists of results in strictly increasing order at level [d] that
    stand for the same groups agree group by group. *)
Lemma ascending_same_groups d : forall l1 l2,
  ascendingAt d l1 -> ascendingAt d l2 ->
  (forall g, Exists (fun e => cmp d g (ir_RowNumber e) = 0) l1
             <-> Exists (fun e => cmp d g (ir_RowNumber e) = 0) l2) ->
  Forall2 (fun a b => cmp d (ir_RowNumber a) (ir_RowNumber b) = 0) l1 l2.
Proof.
  induction l1 as [|a l1 IH]; intros l2 H1 H2 Hiff.
  - destruct l2 as [|b l2]; [constructor|].
    exfalso. assert (Hb : Exists (fun e => cmp d (ir_RowNumber b) (ir_RowNumber e) = 0) (b :: l2)).
    { left. apply cmp_refl. }
    apply Hiff in Hb. inversion Hb.
  - destruct l2 as [|b l2].
    { exfalso.
      assert (Ha : Exists (fun e => cmp d (ir_RowNumber a) (ir_RowNumber e) = 0) (a :: l1)).
      { left. apply cmp_refl. }
      apply Hiff in Ha. inversion Ha. }
    apply StronglySorted_inv in H1. destruct H1 as (H1 & Ha).
    apply StronglySorted_inv in H2. destruct H2 as (H2 & Hb).
    rewrite Forall_forall in Ha, Hb.
    assert (Hab : cmp d (ir_RowNumber a) (ir_RowNumber b) = 0).
    { assert (Ea : Exists (fun e => cmp d (ir_RowNumber a) (ir_RowNumber e) = 0) (b :: l2)).
      { apply Hiff. left. apply cmp_refl. }
      assert (Eb : Exists (fun e => cmp d (ir_RowNumber b) (ir_RowNumber e) = 0) (a :: l1)).
      { apply Hiff. left. apply cmp_refl. }
      apply Exists_cons in Ea. apply Exists_cons in Eb.
      destruct Ea as [Ea|Ea]; [exact Ea|].
      destruct Eb as [Eb|Eb]; [apply cmp_sym_eq; exact Eb|].
      exfalso. apply Exists_exists in Ea. destruct Ea as (y & Hy & Eay).
      apply Exists_exists in Eb. destruct Eb as (x & Hx & Ebx).
      pose proof (Hb y Hy) as Hby. pose proof (Ha x Hx) as Hax.
      (* b < y = a and a < x = b *)
      rewrite <- (cmp_eq_r d _ _ _ Ebx) in Hax.
      rewrite <- (cmp_eq_r d _ _ _ Eay) in Hby.
      apply cmp_antisym in Hby. congruence. }
    constructor; [exact Hab|].
    apply IH; auto.
    intros g. split; intros Hg.
    + assert (Hg' : Exists (fun e => cmp d g (ir_RowNumber e) = 0) (b :: l2)).
      { apply Hiff. right. exact Hg. }
      apply Exists_cons in Hg'. destruct Hg' as [Hgb|Hg']; [|exact Hg'].
      exfalso. apply Exists_exists in Hg. destruct Hg as (x & Hx & Egx).
      pose proof (Ha x Hx) as Hax.
      assert (Eax : cmp d (ir_RowNumber a) (ir_RowNumber x) = 0).
      { rewrite (cmp_eq_l d _ _ _ Hab). apply cmp_sym_eq in Hgb.
        rewrite (cmp_eq_l d _ _ _ Hgb). exact Egx. }
      congruence.
    + assert (Hg' : Exists (fun e => cmp d g (ir_RowNumber e) = 0) (a :: l1)).
      { apply Hiff. right. exact Hg. }
      apply Exists_cons in Hg'. destruct Hg' as [Hga|Hg']; [|exact Hg'].
      exfalso. apply Exists_exists in Hg. destruct Hg as (y & Hy & Egy).
      pose proof (Hb y Hy) as Hby.
      assert (Eby : cmp d (ir_RowNumber b) (ir_RowNumber y) = 0).
      { apply cmp_sym_eq in Hab. rewrite (cmp_eq_l d _ _ _ Hab). apply cmp_sym_eq in Hga.
        rewrite (cmp_eq_l d _ _ _ Hga). exact Egy. }
      congruence.
Qed.

(* ------------------------------------------------------------------ *)
(** ** LeftJoinIterator emits as often as the join of its required children *)

(** C4.  A left join without a predicate at level [d <= 7], its required
    children keeping the contract and in non-decreasing order at level
    [d], and a join without a predicate over the same required children
    at the same level: both iterations come to an end, the left join
    returns as many results as the join, one for each of the same
    level-[d] groups, whatever the optional children hold. *)
Theorem LeftJoin_count_as_Join {It : Type} `{IteratorContract It}
        (d : nat) (lj : LeftJoin.LeftJoinIterator) (j : Join.JoinIterator) :
  (d <= 7)%nat ->
  LeftJoin.definitionLevel lj = d ->
  Join.definitionLevel j = d ->
  LeftJoin.pred lj = None ->
  Join.pred j = None ->
  Join.children j = LeftJoin.childrenRequired lj ->
  joinInv d (LeftJoin.childrenRequired lj) ->
  wfChildren (LeftJoin.childrenOptional lj) ->
  exists runL runJ f0,
    (forall fuel, (f0 <= fuel)%nat ->
        drain (LeftJoin.Next fuel) fuel lj = Some runL
        /\ drain (Join.Next fuel) fuel j = Some runJ)
    /\ List.length runL = List.length runJ
    /\ Forall2 (fun a b => cmp d (ir_RowNumber a) (ir_RowNumber b) = 0) runL runJ.
Proof.
  intros Hd HdL HdJ HpL HpJ Hch Hinv Hwo.
  destruct (LeftJoin_run_spec d Hd _ lj HdL Hinv Hwo (Nat.le_refl _))
    as (gL & HrunL & HiffL & HascL & _).
  assert (HinvJ : joinInv d (Join.children j)) by (rewrite Hch; exact Hinv).
  destruct (Join_run_spec d Hd _ j HdJ HinvJ (Nat.le_refl _))
    as (gJ & HrunJ & HiffJ & _ & HascJ & _).
  rewrite HpL in *. rewrite HpJ in *.
  rewrite (filter_all (keepsGroup None) gL) in * by reflexivity.
  rewrite (filter_all (keepsGroup None) gJ) in * by reflexivity.
  assert (F : Forall2 (fun a b => cmp d (ir_RowNumber a) (ir_RowNumber b) = 0) gL gJ).
  { apply ascending_same_groups; auto.
    intros g. rewrite <- HiffL, <- HiffJ, Hch. reflexivity. }
  exists gL, gJ.
  exists (joinMeasure d (streams (LeftJoin.childrenRequired lj))
          + total (streams (LeftJoin.childrenOptional lj))
          + joinMeasure d (streams (Join.children j)) + 2)%nat.
  split_ands.
  - intros fuel Hf. split; [apply HrunL; lia|apply HrunJ; lia].
  - eapply Forall2_length; eauto.
  - exact F.
Qed.

Lemma LeftJoin_count_as_Join_witness :
  let j := Join.NewJoinIterator 0 [sliceA; sliceB] None [] in
  exists runL runJ f0,
    (forall fuel, (f0 <= fuel)%nat ->
        drain (LeftJoin.Next fuel) fuel leftJoinAB = Some runL
        /\ drain (Join.Next fuel) fuel j = Some runJ)
    /\ List.length runL = List.length runJ
    /\ Forall2 (fun a b => cmp 0 (ir_RowNumber a) (ir_RowNumber b) = 0) runL runJ.
Proof.
  intro j. apply (LeftJoin_count_as_Join 0 leftJoinAB j); try reflexivity.
  - lia.
  - unfold joinInv. split; [reflexivity|]. split; [cbn; lia|].
    cbn. unfold nondecreasingAt. solve_sorted.
Defined.

(* ------------------------------------------------------------------ *)
(** ** UnionIterator.Next: one group at a time *)

Lemma filter_dropWhile_other {A} (f g : A -> bool) (l : list A) :
  (forall x, f x = true -> g x = false) ->
  filter g (dropWhile f l) = filter g l.
Proof.
  intros Hfg. induction l as [|x l IH]; cbn; [reflexivity|].
  destruct (f x) eqn:Ef; [|reflexivity].
  rewrite (Hfg x Ef). exact IH.
Qed.

Lemma filter_none_in {A} (f : A -> bool) (l : list A) :
  (forall x, In x l -> f x = false) -> filter f l = [].
Proof. intros Hf. apply filter_none. apply Forall_forall. exact Hf. Qed.

Lemma headNotBelow_tail d L x S :
  nondecreasingAt d (x :: S) -> cmp d (ir_RowNumber x) L = 0 -> headNotBelow d L S.
Proof.
  intros Hs Hx. destruct S as [|y S]; cbn; [exact I|].
  pose proof (nondecreasing_head d x (y :: S) y Hs (or_intror (or_introl eq_refl))) as Hxy.
  rewrite (cmp_eq_l d _ _ _ Hx) in Hxy. intros Hy. apply cmp_antisym in Hy. congruence.
Qed.

Lemma above_rest d L x S :
  nondecreasingAt d (x :: S) -> cmp d (ir_RowNumber x) L = 1 ->
  Forall (fun y => cmp d L (ir_RowNumber y) = -1) (x :: S).
Proof.
  intros Hs Hx. apply Forall_forall. intros y Hy.
  pose proof (nondecreasing_head d x S y Hs Hy) as Hxy.
  apply cmp_gt_lt in Hx. eapply cmp_lt_le_trans; eauto.
Qed.

Lemma headNotBelow_cases d L x :
  cmp d (ir_RowNumber x) L <> -1 -> groupAt d L x = false -> cmp d (ir_RowNumber x) L = 1.
Proof.
  unfold groupAt. intros Hn Hg. apply Z.eqb_neq in Hg.
  destruct (cmp_range d (ir_RowNumber x) L) as [E|[E|E]]; congruence.
Qed.

(** In a sorted stream that starts at or above [L], the results of the
    group of [L] are the first ones. *)
Lemma takeWhile_filter_sorted d L : forall S,
  nondecreasingAt d S -> headNotBelow d L S ->
  takeWhile (groupAt d L) S = filter (groupAt d L) S.
Proof.
  induction S as [|x S IH]; intros Hs Hh; [reflexivity|].
  cbn [takeWhile filter]. destruct (groupAt d L x) eqn:Eg.
  - f_equal. apply IH.
    + apply StronglySorted_inv in Hs. apply Hs.
    + eapply headNotBelow_tail; [exact Hs|]. apply Z.eqb_eq. exact Eg.
  - symmetry. apply filter_none_in. intros y Hy.
    pose proof (above_rest d L x S Hs (headNotBelow_cases d L x Hh Eg)) as Hab.
    rewrite Forall_forall in Hab. specialize (Hab y (or_intror Hy)).
    unfold groupAt. apply Z.eqb_neq. apply cmp_antisym in Hab. congruence.
Qed.

Lemma dropWhile_group_above_sorted d L : forall S,
  nondecreasingAt d S -> headNotBelow d L S ->
  Forall (fun y => cmp d L (ir_RowNumber y) = -1) (dropWhile (groupAt d L) S).
Proof.
  induction S as [|x S IH]; intros Hs Hh; [constructor|].
  cbn [dropWhile]. destruct (groupAt d L x) eqn:Eg.
  - apply IH.
    + apply StronglySorted_inv in Hs. apply Hs.
    + eapply headNotBelow_tail; [exact Hs|]. apply Z.eqb_eq. exact Eg.
  - apply (above_rest d L x S Hs (headNotBelow_cases d L x Hh Eg)).
Qed.

Lemma Append_Entries r rr :
  Entries (IteratorResult_Append r rr) = Entries r ++ Entries rr.
Proof.
  unfold IteratorResult_Append. cbn [Entries].
  destruct (Entries rr); cbn; [rewrite app_nil_r|]; reflexivity.
Qed.

Lemma Append_all_Entries g : forall r,
  Entries (fold_left IteratorResult_Append g r) = Entries r ++ List.concat (map Entries g).
Proof.
  induction g as [|x g IH]; intros r; cbn [fold_left map List.concat].
  - rewrite app_nil_r. reflexivity.
  - rewrite IH, Append_Entries, <- app_assoc. reflexivity.
Qed.

Lemma collected_Entries (f : IteratorResult -> bool) (l : list (list IteratorResult)) idxs :
  forall r,
    Entries (fold_left (fun res i =>
                          fold_left IteratorResult_Append (takeWhile f (nth i l [])) res)
                       idxs r)
    = Entries r
      ++ List.concat (map (fun i => List.concat (map Entries (takeWhile f (nth i l [])))) idxs).
Proof.
  induction idxs as [|i idxs IH]; intros r; cbn [fold_left map List.concat].
  - rewrite app_nil_r. reflexivity.
  - rewrite IH, Append_all_Entries, <- app_assoc. reflexivity.
Qed.

Lemma concat_map_filter {A B} (f : A -> bool) (h : A -> list B) (l : list A) :
  (forall x, In x l -> f x = false -> h x = []) ->
  List.concat (map h (filter f l)) = List.concat (map h l).
Proof.
  induction l as [|x l IH]; intros Hh; [reflexivity|].
  cbn [filter map List.concat]. destruct (f x) eqn:Ef.
  - cbn [map List.concat]. rewrite IH; [reflexivity|].
    intros y Hy. apply Hh. right. exact Hy.
  - rewrite (Hh x (or_introl eq_refl) Ef). cbn [app]. apply IH.
    intros y Hy. apply Hh. right. exact Hy.
Qed.

Lemma map_seq_nth {A B} (g : A -> B) (a : A) (l : list A) :
  map (fun i => g (nth i l a)) (seq 0 (List.length l)) = map g l.
Proof.
  induction l as [|x l IH]; [reflexivity|].
  cbn [List.length seq map nth]. f_equal.
  rewrite <- seq_shift, map_map. exact IH.
Qed.

Lemma among_In idxs j : among idxs j = true <-> In j idxs.
Proof.
  unfold among. rewrite existsb_exists. split.
  - intros (k & Hk & E). apply Nat.eqb_eq in E. subst. exact Hk.
  - intros Hj. exists j. split; [exact Hj|apply Nat.eqb_refl].
Qed.

Lemma total_map_dropWhile_lt (f : IteratorResult -> bool) l j x S :
  nth_error l j = Some (x :: S) -> f x = true ->
  (total (map (dropWhile f) l) < total l)%nat.
Proof.
  revert j. induction l as [|L l IH]; intros [|j] Hj Hx; cbn in Hj; try discriminate.
  - injection Hj as ->. cbn [map]. rewrite !total_cons. cbn [dropWhile]. rewrite Hx.
    pose proof (dropWhile_length f S). pose proof (total_map_dropWhile f l).
    cbn [List.length]. lia.
  - cbn [map]. rewrite !total_cons. pose proof (dropWhile_length f L).
    specialize (IH j Hj Hx). lia.
Qed.

Section UnionNext.
Context {It : Type} `{IteratorContract It}.
Variable d : nat.
Hypothesis Hd : (d <= 7)%nat.

Lemma tied_ext L (pks pks' : list (option IteratorResult)) (l : list nat) :
  (forall j, In j l -> nth_error pks' j = nth_error pks j) ->
  filter (tied d L pks') l = filter (tied d L pks) l.
Proof.
  intros Hp. apply filter_ext_in. intros j Hj. unfold tied. rewrite (Hp j Hj). reflexivity.
Qed.

(** The minimum search of [Next]: afterwards every child is peeked, no
    peek is below the lowest row number, and the lowest children are
    those peeked at its group; they are none only while the lowest row
    number is still the sentinel. *)
Lemma findLowest_spec : forall n i L I (ch : @Children It),
  wfChildren ch -> (i + n = List.length (fst ch))%nat ->
  (forall j S, (j < i)%nat -> nth_error (streams ch) j = Some S ->
               nth_error (snd ch) j = Some (hd_error S)) ->
  (forall j p, (j < i)%nat -> nth_error (snd ch) j = Some (Some p) ->
               cmp d (ir_RowNumber p) L <> -1) ->
  I = filter (tied d L (snd ch)) (seq 0 i) ->
  (I = [] -> cmp d L MaxRowNumber = 0) ->
  exists ch' L' I',
    Union.findLowest d n i L I ch = (ch', Ok (L', I'))
    /\ wfChildren ch'
    /\ List.length (fst ch') = List.length (fst ch)
    /\ streams ch' = streams ch
    /\ (forall j S, (j < i + n)%nat -> nth_error (streams ch') j = Some S ->
                    nth_error (snd ch') j = Some (hd_error S))
    /\ (forall j p, (j < i + n)%nat -> nth_error (snd ch') j = Some (Some p) ->
                    cmp d (ir_RowNumber p) L' <> -1)
    /\ I' = filter (tied d L' (snd ch')) (seq 0 (i + n))
    /\ (I' = [] -> cmp d L' MaxRowNumber = 0).
Proof.
  induction n as [|n IH]; intros i L I ch Hw Hn Hpk Hlow HI HQ.
  - exists ch, L, I. rewrite Nat.add_0_r. cbn [Union.findLowest]. split_ands; auto.
  - cbn [Union.findLowest].
    destruct (nth_error (streams ch) i) as [S|] eqn:HS.
    2:{ apply nth_error_None in HS. rewrite streams_length in HS by assumption. lia. }
    destruct (peek_spec i ch S Hw HS) as (ch1 & E1 & Hw1 & Hl1 & Hs1 & Hp1 & Ho1).
    rewrite E1.
    assert (Hpk1 : forall j S', (j < Datatypes.S i)%nat -> nth_error (streams ch1) j = Some S' ->
                                nth_error (snd ch1) j = Some (hd_error S')).
    { intros j S' Hj HS'. rewrite Hs1 in HS'. destruct (Nat.eq_dec j i) as [->|Hne].
      - rewrite HS in HS'. injection HS' as <-. exact Hp1.
      - rewrite Ho1 by exact Hne. apply Hpk; [lia|exact HS']. }
    assert (Hseq : seq 0 (Datatypes.S i) = seq 0 i ++ [i]) by (rewrite seq_S; reflexivity).
    assert (Hext : forall L0, filter (tied d L0 (snd ch1)) (seq 0 i)
                              = filter (tied d L0 (snd ch)) (seq 0 i)).
    { intros L0. apply tied_ext. intros j Hj. apply in_seq in Hj. apply Ho1. lia. }
    replace (i + Datatypes.S n)%nat with (Datatypes.S i + n)%nat by lia.
    assert (Hstep : forall L1 I1,
      (forall j q, (j < Datatypes.S i)%nat -> nth_error (snd ch1) j = Some (Some q) ->
                   cmp d (ir_RowNumber q) L1 <> -1) ->
      I1 = filter (tied d L1 (snd ch1)) (seq 0 (Datatypes.S i)) ->
      (I1 = [] -> cmp d L1 MaxRowNumber = 0) ->
      exists ch' L' I',
        Union.findLowest d n (Datatypes.S i) L1 I1 ch1 = (ch', Ok (L', I'))
        /\ wfChildren ch'
        /\ List.length (fst ch') = List.length (fst ch)
        /\ streams ch' = streams ch
        /\ (forall j S, (j < Datatypes.S i + n)%nat -> nth_error (streams ch') j = Some S ->
                        nth_error (snd ch') j = Some (hd_error S))
        /\ (forall j p, (j < Datatypes.S i + n)%nat -> nth_error (snd ch') j = Some (Some p) ->
                        cmp d (ir_RowNumber p) L' <> -1)
        /\ I' = filter (tied d L' (snd ch')) (seq 0 (Datatypes.S i + n))
        /\ (I' = [] -> cmp d L' MaxRowNumber = 0)).
    { intros L1 I1 Hlow1 HI1 HQ1.
      destruct (IH (Datatypes.S i) L1 I1 ch1 Hw1 ltac:(lia) Hpk1 Hlow1 HI1 HQ1)
        as (ch' & L' & I' & E & Hw' & Hl' & Hs' & A & B & C & D).
      exists ch', L', I'. split_ands; auto; congruence. }
    destruct S as [|p S]; cbn [hd_error] in *.
    + (* exhausted *)
      apply Hstep; auto.
      * intros j q Hj Hq. destruct (Nat.eq_dec j i) as [->|Hne]; [congruence|].
        rewrite Ho1 in Hq by exact Hne. apply (Hlow j q); [lia|exact Hq].
      * rewrite Hseq, filter_app, Hext, <- HI. cbn [filter]. unfold tied at 1. rewrite Hp1.
        rewrite app_nil_r. reflexivity.
    + rewrite CompareRowNumbers_cmp by exact Hd.
      assert (Hti : forall L0, tied d L0 (snd ch1) i = (cmp d (ir_RowNumber p) L0 =? 0)).
      { intros L0. unfold tied. rewrite Hp1. reflexivity. }
      destruct (cmp_range d (ir_RowNumber p) L) as [Ec|[Ec|Ec]]; rewrite Ec;
        cbn [Z.eqb Pos.eqb].
      * (* a new lowest *)
        apply Hstep.
        -- intros j q Hj Hq. destruct (Nat.eq_dec j i) as [->|Hne].
           ++ rewrite Hp1 in Hq. injection Hq as <-. rewrite cmp_refl. discriminate.
           ++ rewrite Ho1 in Hq by exact Hne. intros Hqp.
              apply (Hlow j q ltac:(lia) Hq). eapply cmp_trans_lt; eauto.
        -- rewrite Hseq, filter_app. cbn [filter]. rewrite Hti, cmp_refl. cbn [Z.eqb].
           rewrite filter_none_in; [reflexivity|].
           intros j Hj. apply in_seq in Hj. unfold tied.
           destruct (nth_error (snd ch1) j) as [[q|]|] eqn:Eq; auto.
           apply Z.eqb_neq. intros Hqp.
           rewrite Ho1 in Eq by lia.
           apply (Hlow j q ltac:(lia) Eq). rewrite (cmp_eq_l d _ _ _ Hqp). exact Ec.
        -- discriminate.
      * (* the same *)
        apply Hstep.
        -- intros j q Hj Hq. destruct (Nat.eq_dec j i) as [->|Hne].
           ++ rewrite Hp1 in Hq. injection Hq as <-. congruence.
           ++ rewrite Ho1 in Hq by exact Hne. apply (Hlow j q); [lia|exact Hq].
        -- rewrite Hseq, filter_app, Hext, <- HI. cbn [filter]. rewrite Hti, Ec. reflexivity.
        -- intros Habs. destruct I; discriminate.
      * (* above the lowest *)
        apply Hstep.
        -- intros j q Hj Hq. destruct (Nat.eq_dec j i) as [->|Hne].
           ++ rewrite Hp1 in Hq. injection Hq as <-. congruence.
           ++ rewrite Ho1 in Hq by exact Hne. apply (Hlow j q); [lia|exact Hq].
        -- rewrite Hseq, filter_app, Hext, <- HI. cbn [filter]. rewrite Hti, Ec.
           cbn [Z.eqb]. rewrite app_nil_r. reflexivity.
        -- exact HQ.
Qed.

(** What taking the group of [L] from the heads of sorted streams, none
    of which starts below [L], leaves and gives. *)
Lemma union_round L (S : list (list IteratorResult)) :
  Forall (nondecreasingAt d) S ->
  Forall (headNotBelow d L) S ->
  let S' := map (dropWhile (groupAt d L)) S in
  allAbove d L S'
  /\ Forall (nondecreasingAt d) S'
  /\ (forall x, In x (List.concat S') -> In x (List.concat S))
  /\ (forall g, someGroup d g S <-> (cmp d g L = 0 /\ someGroup d L S) \/ someGroup d g S')
  /\ groupEntries d L S
     = List.concat (map (fun l => List.concat (map Entries (takeWhile (groupAt d L) l))) S)
  /\ (forall g, cmp d g L <> 0 -> groupEntries d g S' = groupEntries d g S).
Proof.
  intros Hs Hh S'. subst S'. split_ands.
  - unfold allAbove. apply Forall_map. rewrite Forall_forall in *. intros l Hl.
    apply dropWhile_group_above_sorted; auto.
  - apply Forall_map. eapply Forall_impl; [|exact Hs]. intros l Hl.
    apply dropWhile_StronglySorted. exact Hl.
  - intros x Hx. apply in_concat in Hx. destruct Hx as (l' & Hl' & Hx).
    apply in_map_iff in Hl'. destruct Hl' as (l & <- & Hl).
    apply in_concat. exists l. split; [exact Hl|]. eapply dropWhile_incl; eauto.
  - intros g. unfold someGroup, hasGroup. split.
    + intros Hg. apply Exists_exists in Hg. destruct Hg as (l & Hl & Hx).
      apply Exists_exists in Hx. destruct Hx as (x & Hx & Exg).
      destruct (Z.eq_dec (cmp d g L) 0) as [EgL|EgL].
      * left. split; [exact EgL|]. apply Exists_exists. exists l. split; [exact Hl|].
        apply Exists_exists. exists x. split; [exact Hx|].
        rewrite (cmp_eq_l d _ _ _ Exg). exact EgL.
      * right. apply Exists_exists. exists (dropWhile (groupAt d L) l).
        split; [apply in_map; exact Hl|].
        apply Exists_exists. exists x. split; [|exact Exg].
        apply dropWhile_keeps; [exact Hx|]. unfold groupAt. apply Z.eqb_neq.
        rewrite (cmp_eq_l d _ _ _ Exg). exact EgL.
    + intros [(EgL & Hg)|Hg].
      * eapply Exists_impl; [|exact Hg]. cbn beta. intros l Hl.
        eapply Exists_impl; [|exact Hl]. cbn beta. intros x Hx.
        rewrite (cmp_eq_r d _ _ _ EgL). exact Hx.
      * apply Exists_exists in Hg. destruct Hg as (l' & Hl' & Hx).
        apply in_map_iff in Hl'. destruct Hl' as (l & <- & Hl).
        apply Exists_exists. exists l. split; [exact Hl|].
        apply Exists_exists in Hx. destruct Hx as (x & Hx & Exg).
        apply Exists_exists. exists x. split; [|exact Exg]. eapply dropWhile_incl; eauto.
  - unfold groupEntries. f_equal. apply map_ext_in. intros l Hl.
    rewrite Forall_forall in Hs, Hh. rewrite takeWhile_filter_sorted; auto.
  - intros g Hg. unfold groupEntries. rewrite map_map. f_equal. apply map_ext. intros l.
    rewrite filter_dropWhile_other; [reflexivity|].
    intros x Hx. unfold groupAt in *. apply Z.eqb_eq in Hx. apply Z.eqb_neq.
    intros Exg. apply Hg. rewrite <- (cmp_eq_l d _ _ _ Exg). exact Hx.
Qed.

(** What the minimum search tells of the streams. *)
Lemma lowest_facts (ch1 : @Children It) L I :
  wfChildren ch1 ->
  (forall j S, (j < List.length (fst ch1))%nat -> nth_error (streams ch1) j = Some S ->
               nth_error (snd ch1) j = Some (hd_error S)) ->
  (forall j p, (j < List.length (fst ch1))%nat -> nth_error (snd ch1) j = Some (Some p) ->
               cmp d (ir_RowNumber p) L <> -1) ->
  I = filter (tied d L (snd ch1)) (seq 0 (List.length (fst ch1))) ->
  (I = [] -> cmp d L MaxRowNumber = 0) ->
  Forall (headNotBelow d L) (streams ch1)
  /\ NoDup I
  /\ (forall i, In i I ->
                exists S, nth_error (streams ch1) i = Some S
                          /\ nth_error (snd ch1) i = Some (hd_error S))
  /\ (forall j S, nth_error (streams ch1) j = Some S -> among I j = false ->
                  dropWhile (groupAt d L) S = S /\ takeWhile (groupAt d L) S = [])
  /\ (I <> [] -> exists j x S, nth_error (streams ch1) j = Some (x :: S)
                               /\ cmp d (ir_RowNumber x) L = 0)
  /\ (allBelowSentinel d (streams ch1) -> I = [] -> forall g, ~ someGroup d g (streams ch1)).
Proof.
  intros Hw Hpk Hlow HI HQ.
  assert (Hlen : forall j S, nth_error (streams ch1) j = Some S ->
                             (j < List.length (fst ch1))%nat).
  { intros j S HS. rewrite <- (streams_length ch1 Hw). apply nth_error_Some. congruence. }
  assert (Hhead : forall j x S, nth_error (streams ch1) j = Some (x :: S) ->
                                nth_error (snd ch1) j = Some (Some x)).
  { intros j x S HS. apply (Hpk j (x :: S)); eauto. }
  assert (HinI : forall j, In j I <-> (j < List.length (fst ch1))%nat
                                      /\ tied d L (snd ch1) j = true).
  { intros j. rewrite HI, filter_In, in_seq. intuition lia. }
  assert (Hout : forall j x S, nth_error (streams ch1) j = Some (x :: S) -> ~ In j I ->
                               groupAt d L x = false).
  { intros j x S HS Hni. destruct (groupAt d L x) eqn:Eg; [|reflexivity].
    exfalso. apply Hni. apply HinI. split; [eauto|].
    unfold tied. rewrite (Hhead j x S HS). exact Eg. }
  split_ands.
  - apply Forall_forall. intros S HS. apply In_nth_error in HS. destruct HS as (j & HS).
    destruct S as [|x S]; cbn; [exact Logic.I|].
    apply (Hlow j x); eauto.
  - rewrite HI. apply NoDup_filter. apply seq_NoDup.
  - intros i Hi. apply HinI in Hi. destruct Hi as (Hi & _).
    destruct (nth_error (streams ch1) i) as [S|] eqn:HS.
    + exists S. split; [reflexivity|]. apply Hpk; auto.
    + apply nth_error_None in HS. rewrite streams_length in HS by assumption. lia.
  - intros j S HS Ha.
    assert (Hni : ~ In j I).
    { intros Hin. apply among_In in Hin. congruence. }
    destruct S as [|x S]; [split; reflexivity|].
    pose proof (Hout j x S HS Hni) as Eg. cbn [dropWhile takeWhile]. rewrite Eg.
    split; reflexivity.
  - intros Hne. destruct I as [|j I']; [congruence|].
    assert (Hj : In j (j :: I')) by (left; reflexivity).
    apply HinI in Hj. destruct Hj as (Hj & Ht).
    unfold tied in Ht. destruct (nth_error (snd ch1) j) as [[p|]|] eqn:Ep; try discriminate.
    destruct (nth_error (streams ch1) j) as [S|] eqn:HS.
    2:{ apply nth_error_None in HS. rewrite streams_length in HS by assumption. lia. }
    pose proof (Hpk j S Hj HS) as Hp. rewrite Ep in Hp.
    destruct S as [|x S]; cbn in Hp; [discriminate|]. injection Hp as ->.
    exists j, x, S. split; [exact HS|]. apply Z.eqb_eq. exact Ht.
  - intros Hbs He g Hg. unfold someGroup in Hg. apply Exists_exists in Hg.
    destruct Hg as (S & HS & Hx). apply In_nth_error in HS. destruct HS as (j & HS).
    destruct S as [|x S]; [inversion Hx|].
    assert (Hni : ~ In j I) by (rewrite He; intros []).
    pose proof (Hout j x S HS Hni) as Eg.
    pose proof (Hlow j x (Hlen _ _ HS) (Hhead j x S HS)) as Hnb.
    pose proof (headNotBelow_cases d L x Hnb Eg) as Hab.
    rewrite (cmp_eq_r d _ _ _ (HQ He)) in Hab.
    unfold allBelowSentinel in Hbs. rewrite Forall_forall in Hbs.
    apply (Hbs x); [|exact Hab].
    eapply nth_error_In_concat; [exact HS|]. left. reflexivity.
Qed.
End UnionNext.

Section UnionFuel.
Context {It : Type} `{Iterator It}.

Lemma Union_collect_mono : forall f f' idxs rowNumber (u : Union.UnionIterator) x,
  (f <= f')%nat ->
  Union.collect f idxs rowNumber u = Some x ->
  Union.collect f' idxs rowNumber u = Some x.
Proof.
  intros f f' idxs rowNumber u x Hle. unfold Union.collect. cbv zeta.
  destruct (collectEach f _ _ _ _ _) as [[[ch1 r1] o]|] eqn:Ec; [|discriminate].
  intros E. rewrite (collectEach_mono _ _ _ _ _ _ _ _ Hle Ec). exact E.
Qed.

Lemma Union_Next_mono : forall f f' (u : Union.UnionIterator) x,
  (f <= f')%nat ->
  Union.Next f u = Some x ->
  Union.Next f' u = Some x.
Proof.
  induction f as [|f IH]; intros f' u x Hle E; [discriminate|].
  destruct f' as [|f']; [lia|]. cbn [Union.Next] in *.
  destruct (Union.findLowest _ _ _ _ _ _) as [ch r].
  destruct r as [[L I]|e|]; auto.
  destruct (Union.collect f _ _ _) as [[u2 r2]|] eqn:Ec; [|discriminate].
  rewrite (Union_collect_mono f f' _ _ _ _ ltac:(lia) Ec).
  destruct r2; auto. destruct (0 <? _)%nat; auto.
  destruct (negb _); auto. apply (IH f'); [lia|exact E].
Qed.
End UnionFuel.

Section UnionNextSpec.
Context {It : Type} `{IteratorContract It}.
Variable d : nat.
Hypothesis Hd : (d <= 7)%nat.

Lemma Union_Next_spec : forall fuel (u : Union.UnionIterator),
  Union.definitionLevel u = d ->
  unionInv d (Union.children u) ->
  (total (streams (Union.children u)) + 2 <= fuel)%nat ->
  exists u' r rej,
    Union.Next fuel u = Some (u', Ok r)
    /\ Union.definitionLevel u' = d
    /\ Union.pred u' = Union.pred u
    /\ Forall (fun x => keepsGroup (Union.pred u) x = false) rej
    /\ match r with
       | None =>
           allBelowSentinel d (streams (Union.children u)) ->
           forall g, someGroup d g (streams (Union.children u))
                     <-> Exists (fun x => cmp d g (ir_RowNumber x) = 0) rej
       | Some e =>
           unionInv d (Union.children u')
           /\ (forall x, In x (List.concat (streams (Union.children u'))) ->
                         In x (List.concat (streams (Union.children u))))
           /\ keepsGroup (Union.pred u) e = true
           /\ someGroup d (ir_RowNumber e) (streams (Union.children u))
           /\ allAbove d (ir_RowNumber e) (streams (Union.children u'))
           /\ (total (streams (Union.children u')) < total (streams (Union.children u)))%nat
           /\ (forall g, someGroup d g (streams (Union.children u))
                         <-> Exists (fun x => cmp d g (ir_RowNumber x) = 0) rej
                             \/ cmp d g (ir_RowNumber e) = 0
                             \/ someGroup d g (streams (Union.children u')))
           /\ Entries e = groupEntries d (ir_RowNumber e) (streams (Union.children u))
           /\ (forall g, someGroup d g (streams (Union.children u')) ->
                         groupEntries d g (streams (Union.children u'))
                         = groupEntries d g (streams (Union.children u)))
       end.
Proof.
  induction fuel as [|fuel IH]; intros u Hdl Hinv Hfuel; [lia|].
  destruct Hinv as (Hw & Hsorted).
  cbn [Union.Next]. rewrite Hdl.
  assert (V1 : forall j S, (j < 0)%nat -> nth_error (streams (Union.children u)) j = Some S ->
                           nth_error (snd (Union.children u)) j = Some (hd_error S))
    by (intros; lia).
  assert (V2 : forall j p, (j < 0)%nat ->
                           nth_error (snd (Union.children u)) j = Some (Some p) ->
                           cmp d (ir_RowNumber p) MaxRowNumber <> -1)
    by (intros; lia).
  destruct (findLowest_spec d Hd (List.length (fst (Union.children u))) 0 MaxRowNumber []
              (Union.children u) Hw eq_refl V1 V2 eq_refl (fun _ => cmp_refl _ _))
    as (ch1 & L & I & E & Hw1 & Hl1 & Hs1 & Hpk & Hlow & HI & HQ).
  clear V1 V2.
  cbn [Union.children fst snd Nat.add] in E, Hpk, Hlow, HI, Hl1. rewrite E.
  rewrite <- Hl1 in Hpk, Hlow, HI. rewrite <- Hs1 in Hsorted, Hfuel |- *.
  destruct (lowest_facts d Hd ch1 L I Hw1 Hpk Hlow HI HQ) as (Fh & Fnd & Fpk & Fout & Fne & Fe).
  destruct (union_round d L (streams ch1) Hsorted Fh) as (Ra & Rs & Rin & Riff & Rent & Rother).
  set (u2 := Union.set_lowestIters (Union.set_children u ch1) I).
  assert (Hch2 : Union.children u2 = ch1) by (destruct ch1; reflexivity).
  assert (Hdl2 : Union.definitionLevel u2 = d) by exact Hdl.
  destruct (collectEach_spec d Hd L I fuel
              (with_RowNumber (IteratorResult_Reset (Union.at_ u2)) L) ch1 Hw1 Fnd Fpk
              ltac:(lia)) as (ch2 & E2 & Hw2 & Hl2 & Hs2 & _ & _).
  unfold Union.collect. cbv zeta. rewrite Hdl2, Hch2, E2.
  match goal with
  | |- context [fold_left ?f ?l ?a] => set (result := fold_left f l a)
  end.
  set (u3 := Union.set_at_ (Union.set_children u2 ch2) result).
  assert (Hch3 : Union.children u3 = ch2) by (destruct ch2; reflexivity).
  assert (Hdl3 : Union.definitionLevel u3 = d) by exact Hdl.
  assert (Hpr3 : Union.pred u3 = Union.pred u) by reflexivity.
  assert (Hrn : ir_RowNumber result = L).
  { unfold result. rewrite collected_RowNumber. reflexivity. }
  assert (F2 : streams ch2 = map (dropWhile (groupAt d L)) (streams ch1)).
  { apply nth_error_ext. intros j. rewrite nth_error_map.
    destruct (nth_error (streams ch1) j) as [S|] eqn:ES.
    - rewrite (Hs2 j S ES). cbn [option_map]. f_equal.
      destruct (among I j) eqn:Ea; [reflexivity|].
      symmetry. apply (Fout j S ES Ea).
    - cbn. apply nth_error_None. apply nth_error_None in ES.
      rewrite streams_length in * by assumption. lia. }
  rewrite <- F2 in *.
  destruct (Nat.ltb_spec 0 (List.length I)) as [Hpos|Hzero].
  2:{ (* all exhausted *)
    assert (HI0 : I = []) by (apply length_zero_iff_nil; lia).
    exists u3, None, []. split_ands; auto.
    intros Hbs g. rewrite Exists_nil. split; [apply (Fe Hbs HI0)|tauto]. }
  assert (Hne : I <> []) by (intros ->; cbn in Hpos; lia).
  destruct (Fne Hne) as (j0 & x0 & S0 & Hj0 & Ex0).
  assert (HsL : someGroup d L (streams ch1)).
  { apply Exists_exists. exists (x0 :: S0). split; [eapply nth_error_In; eauto|].
    left. exact Ex0. }
  assert (Riff' : forall g, someGroup d g (streams ch1)
                            <-> cmp d g L = 0 \/ someGroup d g (streams ch2)).
  { intros g. rewrite Riff. tauto. }
  assert (Htot : (total (streams ch2) < total (streams ch1))%nat).
  { rewrite F2. eapply total_map_dropWhile_lt; [exact Hj0|].
    unfold groupAt. apply Z.eqb_eq. exact Ex0. }
  assert (Hinv3 : unionInv d (Union.children u3)).
  { rewrite Hch3. unfold unionInv. split_ands; auto. }
  assert (Hent : Entries result = groupEntries d L (streams ch1)).
  { unfold result. rewrite collected_Entries. cbn [with_RowNumber IteratorResult_Reset Entries app].
    rewrite Rent, HI.
    rewrite concat_map_filter.
    - rewrite <- (streams_length ch1 Hw1).
      rewrite <- (map_seq_nth (fun l => List.concat (map Entries (takeWhile (groupAt d L) l))) []).
      reflexivity.
    - intros i Hi Ht. apply in_seq in Hi.
      destruct (nth_error (streams ch1) i) as [S|] eqn:ES.
      + rewrite (nth_error_nth _ _ _ ES).
        assert (Ea : among I i = false).
        { apply not_true_is_false. intros Ha. apply among_In in Ha.
          rewrite HI in Ha. apply filter_In in Ha. destruct Ha as (_ & Ha). congruence. }
        destruct (Fout i S ES Ea) as (_ & ->). reflexivity.
      + apply nth_error_None in ES. rewrite nth_overflow by exact ES. reflexivity. }
  assert (Hother : forall g, someGroup d g (streams ch2) -> cmp d g L <> 0).
  { intros g Rc. unfold someGroup, hasGroup in Rc. apply Exists_exists in Rc.
    destruct Rc as (l & Hl & Hx). apply Exists_exists in Hx. destruct Hx as (x & Hx & Exe).
    unfold allAbove in Ra. rewrite Forall_forall in Ra. specialize (Ra l Hl).
    rewrite Forall_forall in Ra. specialize (Ra x Hx).
    rewrite (cmp_eq_r d _ _ _ Exe) in Ra. apply cmp_antisym in Ra. congruence. }
  rewrite Hpr3.
  destruct (keepsGroup (Union.pred u) result) eqn:Ek; cbn [negb].
  - exists u3, (Some result), []. rewrite Hch3, Hrn. split_ands; auto.
    + intros g. rewrite Riff', Exists_nil. tauto.
  - destruct (IH u3 Hdl3 Hinv3 ltac:(rewrite Hch3; lia))
      as (u' & r & rej & En & Hdl' & Hpr' & Hrej & Hr).
    rewrite Hch3, ?Hpr3 in *.
    exists u', r, (result :: rej). rewrite En. split_ands; auto.
    destruct r as [e|].
    + destruct Hr as (Rinv & Rin' & Rk & Rc & Rab & Rt & Riff2 & Rent2 & Rtr).
      split_ands; auto; try lia.
      * apply Riff'. right. exact Rc.
      * intros g. rewrite Riff', Riff2, Exists_cons, Hrn. tauto.
      * rewrite Rent2. apply Rother. apply Hother. exact Rc.
      * intros g Hg. rewrite (Rtr g Hg). apply Rother. apply Hother.
        apply Riff2. right. right. exact Hg.
    + intros Hbs g. rewrite Riff', Hr, Exists_cons, Hrn; [tauto|].
      unfold allBelowSentinel in *. rewrite Forall_forall in *. intros x Hx.
      apply Hbs. apply Rin. exact Hx.
Qed.
End UnionNextSpec.

(* ------------------------------------------------------------------ *)
(** ** A full iteration of UnionIterator *)

Section UnionRun.
Context {It : Type} `{IteratorContract It}.
Variable d : nat.
Hypothesis Hd : (d <= 7)%nat.

Lemma Union_run_spec : forall m (u : Union.UnionIterator),
  Union.definitionLevel u = d ->
  unionInv d (Union.children u) ->
  (total (streams (Union.children u)) <= m)%nat ->
  exists groups,
    (forall fuel n, (m + 2 <= fuel)%nat -> (m + 1 <= n)%nat ->
        drain (Union.Next fuel) n u = Some (filter (keepsGroup (Union.pred u)) groups))
    /\ (allBelowSentinel d (streams (Union.children u)) ->
        forall g, someGroup d g (streams (Union.children u))
                  <-> Exists (fun e => cmp d g (ir_RowNumber e) = 0) groups)
    /\ ascendingAt d (filter (keepsGroup (Union.pred u)) groups)
    /\ Forall (fun e => someGroup d (ir_RowNumber e) (streams (Union.children u))
                        /\ Entries e
                           = groupEntries d (ir_RowNumber e) (streams (Union.children u)))
              (filter (keepsGroup (Union.pred u)) groups).
Proof.
  induction m as [|m IH]; intros u Hdl Hinv Hm.
  all: destruct (Union_Next_spec d Hd _ u Hdl Hinv (Nat.le_refl _))
      as (u' & r & rej & En & Hdl' & Hpr' & Hrej & Hr).
  all: destruct r as [e|];
    [destruct Hr as (Rinv & Rin & Rk & Rc & Ra & Rt & Riff & Rent & Rtr)|].
  - lia.
  - exists rej. rewrite (filter_none _ _ Hrej). split_ands.
    + intros fuel n Hf Hn. destruct n as [|n]; [lia|]. cbn [drain].
      rewrite (fun Hle => Union_Next_mono _ fuel _ _ Hle En) by lia. reflexivity.
    + exact Hr.
    + constructor.
    + constructor.
  - destruct (IH u' Hdl' Rinv ltac:(lia)) as (groups & Hrun & Hiff & Hasc & Hin).
    rewrite Hpr' in *.
    exists (rej ++ e :: groups).
    rewrite filter_app, (filter_none _ _ Hrej). cbn [app filter]. rewrite Rk.
    split_ands.
    + intros fuel n Hf Hn. destruct n as [|n]; [lia|]. cbn [drain].
      rewrite (fun Hle => Union_Next_mono _ fuel _ _ Hle En) by lia.
      rewrite (Hrun fuel n) by lia. reflexivity.
    + intros Hbs g. rewrite Riff, Hiff, Exists_app, Exists_cons; [tauto|].
      unfold allBelowSentinel in *. rewrite Forall_forall in *. intros x Hx.
      apply Hbs. apply Rin. exact Hx.
    + constructor; [exact Hasc|].
      rewrite Forall_forall in Hin |- *. intros y Hy.
      destruct (Hin y Hy) as (Hg & _).
      unfold someGroup, hasGroup in Hg. apply Exists_exists in Hg.
      destruct Hg as (l & Hl & Hx). apply Exists_exists in Hx. destruct Hx as (x & Hx & Exy).
      unfold allAbove in Ra. rewrite Forall_forall in Ra. specialize (Ra l Hl).
      rewrite Forall_forall in Ra. specialize (Ra x Hx).
      rewrite (cmp_eq_r d _ _ _ Exy) in Ra. exact Ra.
    + constructor; [split; assumption|].
      eapply Forall_impl; [|exact Hin]. cbn beta. intros y (Hg & Hent).
      split.
      * apply Riff. right. right. exact Hg.
      * rewrite Hent. apply Rtr. exact Hg.
  - exists rej. rewrite (filter_none _ _ Hrej). split_ands.
    + intros fuel n Hf Hn. destruct n as [|n]; [lia|]. cbn [drain].
      rewrite (fun Hle => Union_Next_mono _ fuel _ _ Hle En) by lia. reflexivity.
    + exact Hr.
    + constructor.
    + constructor.
Qed.
End UnionRun.

(* ------------------------------------------------------------------ *)
(** ** UnionIterator emits every group of its children once *)




(* ------------------------------------------------------------------ *)
(** ** RowNumber.Next, position by position *)

Lemma rn_set_get t i v t' :
  rn_set t i v = Some t' ->
  rn_get t' i = Some v /\ forall j, j <> i -> rn_get t' j = rn_get t j.
Proof.
  destruct t as [a0 a1 a2 a3 a4 a5 a6 a7].
  do 8 (destruct i as [|i];
        [cbn; intros E; injection E as <-; split; [reflexivity|];
         intros j Hj; do 8 (destruct j as [|j]; [first [congruence|reflexivity]|]);
         reflexivity|]).
  cbn. discriminate.
Qed.

Lemma fill_loop_get : forall n i v t t',
  fill_loop n i v t = Some t' ->
  forall j, rn_get t' j = if ((i <=? j) && (j <? i + n))%nat then Some v else rn_get t j.
Proof.
  induction n as [|n IH]; intros i v t t' E j.
  - cbn in E. injection E as <-.
    destruct (Nat.leb_spec i j); destruct (Nat.ltb_spec j (i + 0)); cbn; auto; lia.
  - cbn [fill_loop] in E. destruct (rn_set t i v) as [t1|] eqn:E1; [|discriminate].
    destruct (rn_set_get _ _ _ _ E1) as (Hi & Ho).
    rewrite (IH _ _ _ _ E j).
    destruct (Nat.eq_dec j i) as [->|Hne].
    + rewrite Hi.
      destruct (Nat.leb_spec (S i) i); [lia|].
      destruct (Nat.leb_spec i i); [|lia].
      destruct (Nat.ltb_spec i (i + S n)); [|lia]. reflexivity.
    + rewrite (Ho j Hne).
      destruct (Nat.leb_spec (S i) j); destruct (Nat.ltb_spec j (S i + n));
        destruct (Nat.leb_spec i j); destruct (Nat.ltb_spec j (i + S n));
        cbn; auto; lia.
Qed.

Lemma RowNumber_Next_get t r dl m t' :
  (r <= dl)%nat ->
  RowNumber_Next t r dl m = Some t' ->
  exists x, rn_get t r = Some x
    /\ forall j, rn_get t' j =
         if (j <? r)%nat then rn_get t j
         else if (j =? r)%nat then Some (wrap32 (x + 1))
         else if (j <=? dl)%nat then Some 0
         else if (j <? Nat.min 8 (S m))%nat then Some (-1)
         else rn_get t j.
Proof.
  intros Hr E. unfold RowNumber_Next in E.
  destruct (rn_get t r) as [x|] eqn:Ex; [|discriminate].
  destruct (rn_set t r (wrap32 (x + 1))) as [t1|] eqn:E1; [|discriminate].
  destruct (fill_loop (dl - r) (S r) 0 t1) as [t2|] eqn:E2; [|discriminate].
  exists x. split; [reflexivity|]. intros j.
  destruct (rn_set_get _ _ _ _ E1) as (Hi & Ho).
  rewrite (fill_loop_get _ _ _ _ _ E j), (fill_loop_get _ _ _ _ _ E2 j).
  destruct (Nat.ltb_spec j r); destruct (Nat.eqb_spec j r); destruct (Nat.leb_spec j dl);
    destruct (Nat.ltb_spec j (Nat.min 8 (S m)));
    destruct (Nat.leb_spec (S dl) j); destruct (Nat.ltb_spec j (S dl + (Nat.min 8 (S m) - S dl)));
    destruct (Nat.leb_spec (S r) j); destruct (Nat.ltb_spec j (S r + (dl - r)));
    cbn; try lia; auto; try (subst; exact Hi); try (apply Ho; lia).
Qed.

(** Two lists that agree before position [i] and differ there compare as
    their elements at [i]. *)
Lemma lex_at : forall i l1 l2 x y,
  (forall j, (j < i)%nat -> nth_error l1 j = nth_error l2 j) ->
  nth_error l1 i = Some x -> nth_error l2 i = Some y -> x < y ->
  lex l1 l2 = -1.
Proof.
  induction i as [|i IH]; intros l1 l2 x y Heq H1 H2 Hxy.
  - destruct l1 as [|a l1], l2 as [|b l2]; try discriminate.
    cbn in H1, H2. injection H1 as ->. injection H2 as ->.
    apply lex_cons_lt. left. exact Hxy.
  - destruct l1 as [|a l1], l2 as [|b l2]; try discriminate.
    pose proof (Heq 0%nat ltac:(lia)) as H0. cbn in H0. injection H0 as ->.
    apply lex_cons_lt. right. split; [reflexivity|].
    apply (IH l1 l2 x y); auto.
    intros j Hj. apply (Heq (S j)). lia.
Qed.

Lemma cmp7_lt_at i a b x y :
  (forall j, (j < i)%nat -> rn_get a j = rn_get b j) ->
  rn_get a i = Some x -> rn_get b i = Some y -> x < y ->
  cmp 7 a b = -1.
Proof.
  intros Heq Ha Hb Hxy. unfold cmp, key.
  change (firstn 8 (rn_list a)) with (rn_list a).
  change (firstn 8 (rn_list b)) with (rn_list b).
  apply (lex_at i _ _ x y); rewrite <- ?rn_get_nth; auto.
  intros j Hj. rewrite <- !rn_get_nth. apply Heq. exact Hj.
Qed.

Lemma cmp7_rn0 a b : cmp 7 a b <> 1 -> rn0 a <= rn0 b.
Proof.
  intros Hc. destruct (Z.le_gt_cases (rn0 a) (rn0 b)) as [Hle|Hgt]; [exact Hle|].
  exfalso. apply Hc. apply cmp_gt_lt.
  apply (cmp7_lt_at 0 b a (rn0 b) (rn0 a)); auto. intros j Hj. lia.
Qed.

(** A value moves the row number up, and its row by one if it starts a
    row. *)
Lemma RowNumber_Next_above t v m t' n :
  valueOK v ->
  -1 <= rn0 t -> rn0 t < MaxInt32 ->
  levelsOK t (S n) ->
  RowNumber_Next t (RepetitionLevel v) (DefinitionLevel v) m = Some t' ->
  cmp 7 t t' = -1
  /\ rn0 t' = rn0 t + (if Nat.eqb (RepetitionLevel v) 0 then 1 else 0)
  /\ levelsOK t' n.
Proof.
  intros (Hrd & Hd7) Hlo Hhi Hlv E.
  destruct (RowNumber_Next_get _ _ _ _ _ Hrd E) as (x & Ex & Hget).
  assert (Hx : -1 <= x /\ x + 1 <= MaxInt32).
  { destruct (RepetitionLevel v) as [|r] eqn:Er.
    - cbn in Ex. injection Ex as <-. lia.
    - destruct (Hlv (S r) x ltac:(lia) Ex). lia. }
  assert (Hw : wrap32 (x + 1) = x + 1).
  { apply wrap32_id. unfold int32, MinInt32, MaxInt32 in *. lia. }
  split_ands.
  - apply (cmp7_lt_at (RepetitionLevel v) t t' x (x + 1)); auto; try lia.
    + intros j Hj. rewrite Hget. destruct (Nat.ltb_spec j (RepetitionLevel v)); [reflexivity|lia].
    + rewrite Hget, Nat.ltb_irrefl, Nat.eqb_refl, Hw. reflexivity.
  - pose proof (Hget 0%nat) as H0. cbn [rn_get] in H0.
    destruct (RepetitionLevel v) as [|r] eqn:Er.
    + cbn in H0, Ex. injection Ex as <-. injection H0 as ->. rewrite Hw. reflexivity.
    + cbn in H0. injection H0 as ->. cbn. lia.
  - intros j z Hj Hz. rewrite Hget in Hz.
    destruct (Nat.ltb_spec j (RepetitionLevel v)).
    { destruct (Hlv j z Hj Hz). lia. }
    destruct (Nat.eqb_spec j (RepetitionLevel v)).
    { injection Hz as <-. rewrite Hw. subst j.
      destruct (Hlv _ x Hj Ex). lia. }
    destruct (Nat.leb_spec j (DefinitionLevel v)).
    { injection Hz as <-. unfold MaxInt32. 
      assert (Hj7 : (j <= 7)%nat) by lia.
      destruct (rn_get t j) as [y|] eqn:Ey.
      - destruct (Hlv j y Hj Ey). unfold MaxInt32 in *. lia.
      - rewrite rn_get_nth in Ey. apply nth_error_None in Ey. rewrite rn_list_length in Ey. lia. }
    destruct (Nat.ltb_spec j (Nat.min 8 (S m))).
    { injection Hz as <-.
      destruct (rn_get t j) as [y|] eqn:Ey.
      - destruct (Hlv j y Hj Ey). unfold MaxInt32 in *. lia.
      - rewrite rn_get_nth in Ey. apply nth_error_None in Ey. rewrite rn_list_length in Ey. lia. }
    destruct (Hlv j z Hj Hz). lia.
Qed.

(* ------------------------------------------------------------------ *)
(** ** SyncIterator.next keeps the row numbers in order *)

Ltac sync_proj :=
  cbn [Sync.column Sync.columnName Sync.selectAs Sync.rgs Sync.rgsMin Sync.rgsMax
       Sync.readSize Sync.filter Sync.curr Sync.currRowGroup Sync.currRowGroupMin
       Sync.currRowGroupMax Sync.currChunk Sync.currPage Sync.currPageMin Sync.currPageMax
       Sync.currValues Sync.currBuf Sync.currBufN Sync.currPageN Sync.at_ Sync.maxDefinitionLevel
       Sync.intern Sync.set_columnName Sync.set_selectAs Sync.set_rgs Sync.set_rgsMin
       Sync.set_rgsMax Sync.set_readSize Sync.set_filter Sync.set_curr Sync.set_currRowGroup
       Sync.set_currRowGroupMin Sync.set_currRowGroupMax Sync.set_currChunk Sync.set_currPage
       Sync.set_currPageMin Sync.set_currPageMax Sync.set_currValues Sync.set_currBuf
       Sync.set_currBufN Sync.set_currPageN Sync.set_at_ Sync.set_maxDefinitionLevel
       Sync.set_intern] in *.

Ltac sync_simpl :=
  unfold pageInv, chunkInv, closedInv, pending, unread in *; sync_proj.

Lemma rowsOf_nonneg vs : 0 <= rowsOf vs.
Proof.
  induction vs as [|v vs IH]; cbn [rowsOf]; [lia|].
  destruct (Nat.eqb (RepetitionLevel v) 0); lia.
Qed.

Lemma rowsOf_app vs ws : rowsOf (vs ++ ws) = rowsOf vs + rowsOf ws.
Proof. induction vs as [|v vs IH]; cbn [rowsOf app]; [reflexivity|]. rewrite IH. lia. Qed.

Lemma chunkRows_nonneg cc : chunkOK cc -> 0 <= chunkRows cc.
Proof.
  induction 1 as [|rd cc Hrd _ IH]; cbn [chunkRows]; [lia|].
  destruct rd as [p|e]; [|exact IH].
  destruct Hrd as (_ & _ & _ & Hn & _). lia.
Qed.

Lemma chain_bound column : forall rgs b mins, chain column b rgs mins -> b < MaxInt32.
Proof.
  induction rgs as [|rg rgs IH]; intros b mins Hc; [exact Hc|].
  destruct mins as [|mn mins]; [contradiction|].
  destruct Hc as (_ & (Hn & _) & Hc). specialize (IH _ _ Hc). lia.
Qed.

Lemma Skip_rowAt x n :
  -1 <= x -> 0 <= n -> x + n <= MaxInt32 -> RowNumber_Skip (rowAt x) n = rowAt (x + n).
Proof.
  intros Hx Hn Hb. apply RowNumber_Skip_rowAt. unfold int32, MinInt32, MaxInt32 in *. lia.
Qed.

Lemma Preceding_rowAt y :
  1 <= y <= MaxInt32 -> RowNumber_Preceding (rowAt y) = rowAt (y - 1).
Proof.
  intros Hy. unfold RowNumber_Preceding, rowAt. cbn.
  destruct (Z.eqb_spec y (-1)); [lia|]. destruct (Z.eqb_spec y 0); [lia|].
  cbn. rewrite wrap32_id; [reflexivity|]. unfold int32, MinInt32, MaxInt32 in *. lia.
Qed.

Lemma levelsOK_rowAt x n : Z.of_nat n < MaxInt32 -> levelsOK (rowAt x) n.
Proof.
  intros Hn j z Hj Hz.
  do 8 (destruct j as [|j]; [first [lia | cbn in Hz; injection Hz as <-; lia]|]).
  discriminate.
Qed.

Lemma skipn_S_tail {A} n (l : list A) v vs :
  skipn n l = v :: vs -> skipn (S n) l = vs.
Proof.
  revert l. induction n as [|n IH]; intros l E.
  - cbn in E. subst. reflexivity.
  - destruct l as [|x l]; [discriminate|]. cbn [skipn] in E |- *. apply IH. exact E.
Qed.

(** The inner loop of [next]. *)
Lemma next_consume_post : forall vs c last b e,
  pageInv last c b e -> unread c = vs ->
  nextPost last (Sync.next_consume vs c).
Proof.
  induction vs as [|v vs IH]; intros c last b e Hinv Hu.
  - cbn. eapply inv_page. exact Hinv.
  - cbn [Sync.next_consume].
    destruct (RowNumber_Next (Sync.curr c) (RepetitionLevel v) (DefinitionLevel v)
                             (Sync.maxDefinitionLevel c)) as [rn|] eqn:EN; [|exact I].
    set (c1 := Sync.set_currPageN
                 (Sync.set_currBufN (Sync.set_curr c rn) (S (Sync.currBufN (Sync.set_curr c rn))))
                 (S (Sync.currPageN
                       (Sync.set_currBufN (Sync.set_curr c rn)
                                          (S (Sync.currBufN (Sync.set_curr c rn))))))).
    assert (Hu1 : unread c1 = vs).
    { unfold unread, c1 in *. sync_proj. eapply skipn_S_tail. exact Hu. }
    destruct Hinv as (Hrg & (cc & Hcc & Hcok & Hcb) & Hpg & Hvals & Hmax & He & Hok & Hlo & Hrows
                      & Hlv & Hl0 & Hord & Hch).
    assert (Hp : pending c
                 = v :: vs ++ match Sync.currValues c with
                              | Some r => reader_values r
                              | None => []
                              end).
    { unfold pending. rewrite Hu. reflexivity. }
    assert (Hp1 : pending c1
                  = vs ++ match Sync.currValues c with
                          | Some r => reader_values r
                          | None => []
                          end).
    { unfold pending. rewrite Hu1. reflexivity. }
    rewrite Hp in *. cbn [rowsOf List.length startsRow] in *.
    apply Forall_cons_iff in Hok. destruct Hok as (Hv & Hok').
    pose proof (rowsOf_nonneg (vs ++ match Sync.currValues c with
                                     | Some r => reader_values r
                                     | None => []
                                     end)) as Hrn.
    pose proof (chunkRows_nonneg cc Hcok) as Hcn.
    pose proof (chain_bound _ _ _ _ Hch) as Hbb.
    assert (Hhi : rn0 (Sync.curr c) < MaxInt32).
    { destruct (Nat.eqb (RepetitionLevel v) 0); lia. }
    destruct (RowNumber_Next_above _ v _ rn _ Hv Hlo Hhi Hlv EN) as (Habove & Hrn0 & Hlv1).
    assert (Hlast : cmp 7 last rn = -1).
    { destruct Hord as [Hle|Hst].
      - eapply cmp_le_lt_trans; eauto.
      - rewrite Hst in Hrn0. cbn in Hrn0.
        apply (cmp7_lt_at 0 last rn (rn0 last) (rn0 rn)); auto; lia. }
    assert (Hinv1 : forall l, rn0 l <= rn0 rn -> cmp 7 l rn <> 1 -> pageInv l c1 b e).
    { intros l Hl0' Hl. unfold pageInv. rewrite Hp1. unfold c1. sync_proj.
      split_ands; auto; try lia; try (exists cc; auto; fail);
        try (destruct (Nat.eqb (RepetitionLevel v) 0); lia). }
    change (Sync.curr c1) with rn.
    destruct (Sync.rejectsValue c1 v).
    + apply (IH c1 last b e); [|exact Hu1].
      apply Hinv1; [|congruence]. apply cmp7_rn0. congruence.
    + cbn. intros _. split; [exact Hlast|].
      eapply inv_page. apply Hinv1; [lia|]. rewrite cmp_refl. discriminate.
Qed.

(** Leaving a page: the row number becomes the last row of the page. *)
Lemma setPage_None_chunk last c b e :
  Sync.currRowGroup c <> None ->
  (exists cc, Sync.currChunk c = Some cc /\ chunkOK cc /\ e + chunkRows cc <= b) ->
  Sync.currPage c <> None ->
  Sync.currPageMax c = rowAt (e + 1) ->
  0 <= e -> rn0 last <= e ->
  chain (Sync.column c) b (Sync.rgs c) (Sync.rgsMin c) ->
  chunkInv last (Sync.setPage c None) b e.
Proof.
  intros Hrg (cc & Hcc & Hcok & Hcb) Hpg Hmax He Hl Hch.
  pose proof (chunkRows_nonneg cc Hcok) as Hcn.
  pose proof (chain_bound _ _ _ _ Hch) as Hbb.
  unfold Sync.setPage. cbv zeta.
  destruct (Sync.currPage c) as [p|] eqn:Ep; [|congruence].
  unfold chunkInv. sync_proj. rewrite Hmax.
  rewrite Preceding_rowAt by lia. replace (e + 1 - 1) with e by lia.
  split_ands; auto; try lia. exists cc. auto.
Qed.

Lemma pageInv_last_le last c b e : pageInv last c b e -> rn0 last <= e.
Proof.
  intros (_ & _ & _ & _ & _ & _ & _ & _ & Hrows & _ & Hl0 & _).
  pose proof (rowsOf_nonneg (pending c)). lia.
Qed.

(** The buffer part of the loop of [next]. *)
Lemma next_buffer_post last c b e :
  pageInv last c b e ->
  nextPost last (Sync.next_buffer c (fun c =>
     Sync.next_consume (skipn (Sync.currBufN c)
                              (match Sync.currBuf c with Some b => b | None => [] end)) c)).
Proof.
  intros Hinv. unfold Sync.next_buffer. cbv zeta.
  set (c0 := match Sync.currBuf c with
             | Some _ => c
             | None => Sync.set_currBuf c (Some [])
             end).
  assert (Hinv0 : pageInv last c0 b e).
  { unfold c0. destruct (Sync.currBuf c) as [buf|] eqn:Eb; [exact Hinv|].
    unfold pageInv, pending, unread in *. sync_proj. rewrite Eb in Hinv.
    rewrite !skipn_nil in *. exact Hinv. }
  clearbody c0. clear Hinv c.
  pose proof (pageInv_last_le _ _ _ _ Hinv0) as Hle.
  destruct ((List.length match Sync.currBuf c0 with
                         | Some b0 => b0
                         | None => []
                         end <=? Sync.currBufN c0)%nat
            || (List.length match Sync.currBuf c0 with
                            | Some b0 => b0
                            | None => []
                            end =? 0)%nat) eqn:Econd.
  2:{ apply (next_consume_post _ c0 last b e Hinv0). reflexivity. }
  assert (Hun : unread c0 = []).
  { unfold unread. apply orb_true_iff in Econd. destruct Econd as [Ec|Ec].
    - apply skipn_all2. apply Nat.leb_le. exact Ec.
    - apply Nat.eqb_eq in Ec. apply length_zero_iff_nil in Ec. rewrite Ec. apply skipn_nil. }
  destruct Hinv0 as (Hrg & Hchunk & Hpg & Hvals & Hmax & He & Hok & Hlo & Hrows
                     & Hlv & Hl0 & Hord & Hch).
  destruct (Sync.currValues c0) as [r|] eqn:Er; [|exact I].
  assert (Hp : pending c0 = reader_values r).
  { unfold pending. rewrite Hun, Er. reflexivity. }
  rewrite Hp in *.
  assert (Hleave : forall c', Sync.currRowGroup c' = Sync.currRowGroup c0 ->
                              Sync.currChunk c' = Sync.currChunk c0 ->
                              Sync.currPage c' = Sync.currPage c0 ->
                              Sync.currPageMax c' = Sync.currPageMax c0 ->
                              Sync.column c' = Sync.column c0 ->
                              Sync.rgs c' = Sync.rgs c0 ->
                              Sync.rgsMin c' = Sync.rgsMin c0 ->
                              syncInv last (Sync.setPage c' None)).
  { intros c' E1 E2 E3 E4 E5 E6 E7. eapply inv_chunk.
    apply (setPage_None_chunk last c' b e); rewrite ?E1, ?E2, ?E3, ?E4, ?E5, ?E6, ?E7; auto. }
  unfold ReadValues.
  destruct (reader_values r) as [|x rest] eqn:Erv.
  - destruct (reader_err r) as [err|]; [exact I|].
    cbv beta iota. unfold nextPost. apply Hleave; reflexivity.
  - set (vs := firstn (Sync.readSize c0) (x :: rest)).
    destruct vs as [|w ws] eqn:Evs.
    + cbv beta iota. unfold nextPost. apply Hleave; reflexivity.
    + set (c3 := Sync.set_currBufN
                   (Sync.set_currBuf
                      (Sync.set_currValues c0
                         (Some (mkReader (skipn (Sync.readSize c0) (x :: rest)) (reader_err r))))
                      (Some (w :: ws))) 0).
      assert (Hp3 : pending c3 = x :: rest).
      { unfold pending, unread, c3. sync_proj. cbn [skipn reader_values].
        rewrite <- Evs. unfold vs. apply firstn_skipn. }
      apply (next_consume_post _ c3 last b e); [|reflexivity].
      unfold pageInv. rewrite Hp3. unfold c3. sync_proj.
      split_ands; auto. discriminate.
Qed.

(** The page part of the loop of [next]. *)
Lemma next_page_post last c b x :
  chunkInv last c b x ->
  nextPost last (Sync.next_page c (fun c =>
     Sync.next_buffer c (fun c =>
       Sync.next_consume (skipn (Sync.currBufN c)
                                (match Sync.currBuf c with Some b => b | None => [] end)) c))).
Proof.
  intros (Hrg & (cc & Hcc & Hcok & Hcb) & Hpg & Hbuf & Hcurr & Hx & Hl & Hch).
  pose proof (chunkRows_nonneg cc Hcok) as Hcn.
  pose proof (chain_bound _ _ _ _ Hch) as Hbb.
  unfold Sync.next_page. rewrite Hpg, Hcc.
  destruct cc as [|[p|err] rest]; cbn [NextPage]; cbv beta iota zeta.
  - (* the row group is exhausted *)
    unfold nextPost. eapply (inv_closed _ _ b).
    unfold closedInv, Sync.closeCurrRowGroup, Sync.setPage. cbv zeta. sync_proj.
    rewrite Hpg. sync_proj. cbn [chunkRows] in Hcb. split_ands; auto; lia.
  - apply Forall_cons_iff in Hcok. destruct Hcok as (Hp & Hrest).
    pose proof Hp as (Hvok & Hstart & Hrows & Hn1 & Hlen).
    pose proof (chunkRows_nonneg rest Hrest) as Hrn.
    cbn [chunkRows] in Hcb.
    destruct (Sync.rejectsPage _ p).
    + (* the page is filtered out *)
      unfold nextPost. eapply (inv_chunk _ _ b (x + page_NumRows p)).
      unfold chunkInv. sync_proj. rewrite Hcurr.
      rewrite Skip_rowAt by lia.
      split_ands; auto; try lia. exists rest. split_ands; auto. lia.
    + apply (next_buffer_post last _ b (x + page_NumRows p)).
      unfold pageInv, pending, unread, Sync.setPage. cbv zeta. sync_proj.
      rewrite Hpg. sync_proj. rewrite Hbuf, Hcurr. cbn [skipn app Page_Values reader_values].
      rewrite Skip_rowAt by lia.
      split_ands; auto; try lia; try discriminate.
      * exists rest. split_ands; auto. lia.
      * f_equal. lia.
      * cbn [rowAt rn0]. lia.
      * apply levelsOK_rowAt. exact Hlen.
  - exact I.
Qed.

(** The row group part of the loop of [next]. *)
Lemma next_rowGroup_post last c b :
  closedInv last c b ->
  nextPost last (Sync.next_rowGroup c (fun _ => Ok (EmptyRowNumber, None)) (fun c =>
     Sync.next_page c (fun c =>
       Sync.next_buffer c (fun c =>
         Sync.next_consume (skipn (Sync.currBufN c)
                                  (match Sync.currBuf c with Some b => b | None => [] end)) c)))).
Proof.
  intros (Hrg & Hb & Hl & Hch).
  unfold Sync.next_rowGroup. rewrite Hrg. unfold Sync.popRowGroup.
  destruct (Sync.rgs c) as [|rg rgs'] eqn:Ergs.
  { cbn. discriminate. }
  destruct (Sync.rgsMin c) as [|mn mins'] eqn:Emin; [contradiction|].
  destruct Hch as (-> & (Hn & Hok) & Hch).
  destruct (Sync.rgsMax c) as [|mx maxs'] eqn:Emax; [exact I|].
  cbv beta iota. sync_proj.
  destruct (nth_error (rg_ColumnChunks rg) (Sync.column c)) as [cc|] eqn:Ecc; [|exact I].
  destruct Hok as (Hcok & Hrows).
  pose proof (chunkRows_nonneg cc Hcok) as Hcn.
  pose proof (chain_bound _ _ _ _ Hch) as Hbb.
  destruct (Sync.rejectsChunk _ cc).
  - unfold nextPost. eapply (inv_closed _ _ (b + rg_NumRows rg)).
    unfold closedInv. sync_proj. split_ands; auto; lia.
  - apply (next_page_post last _ (b + rg_NumRows rg) b).
    unfold chunkInv, Sync.setRowGroup, Sync.closeCurrRowGroup, Sync.setPage. cbv zeta.
    sync_proj.
    destruct (Sync.currPage c) eqn:Ep; sync_proj;
      (split_ands; auto; try lia; try discriminate;
       try (exists cc; split_ands; auto; lia)).
Qed.

(** One round of the loop of [next]. *)
Lemma next_body_post last c : syncInv last c -> nextPost last (Sync.next_body c).
Proof.
  intros [b Hinv|b x Hinv|b e Hinv]; unfold Sync.next_body.
  - apply (next_rowGroup_post last c b Hinv).
  - pose proof Hinv as (Hrg & _).
    unfold Sync.next_rowGroup. destruct (Sync.currRowGroup c); [|congruence].
    apply (next_page_post last c b x Hinv).
  - pose proof Hinv as (Hrg & _ & Hpg & _).
    unfold Sync.next_rowGroup. destruct (Sync.currRowGroup c); [|congruence].
    unfold Sync.next_page. destruct (Sync.currPage c); [|congruence].
    apply (next_buffer_post last c b e Hinv).
Qed.

Lemma next_fuel_post : forall fuel last c c' rn v,
  syncInv last c ->
  Sync.next_fuel fuel c = Some (c', Ok (rn, v)) ->
  Valid rn = true ->
  cmp 7 last rn = -1 /\ syncInv rn c'.
Proof.
  induction fuel as [|fuel IH]; intros last c c' rn v Hinv E Hv; [discriminate|].
  cbn [Sync.next_fuel] in E. pose proof (next_body_post last c Hinv) as Hpost.
  destruct (Sync.next_body c) as [c1|c1 r].
  - apply (IH last c1 c' rn v Hpost E Hv).
  - injection E as -> ->. apply Hpost. exact Hv.
Qed.

(** [Next] returns a row number above the last one and keeps the
    invariant. *)
Lemma Sync_Next_post last c c' r :
  syncInv last c ->
  Sync.Next c = (c', Ok (Some r)) ->
  cmp 7 last (ir_RowNumber r) = -1 /\ syncInv (ir_RowNumber r) c'.
Proof.
  intros Hinv E. unfold Sync.Next, Sync.next in E.
  destruct (Sync.next_fuel (S (Sync.weight c)) c) as [[c1 [[rn v]|err|]]|] eqn:En;
    try discriminate.
  destruct (Valid rn) eqn:Hv; cbn [negb] in E; [|discriminate].
  destruct (next_fuel_post _ last c c1 rn v Hinv En Hv) as (Hlt & Hinv1).
  unfold Sync.makeResult in E. cbv zeta in E.
  assert (Hset : forall a, syncInv rn (Sync.set_at_ c1 a)).
  { intros a. destruct Hinv1 as [b H1|b x H1|b e H1];
      [eapply inv_closed|eapply inv_chunk|eapply inv_page];
      unfold closedInv, chunkInv, pageInv, pending, unread in *; sync_proj; exact H1. }
  destruct (Entries (with_RowNumber (Sync.at_ c1) rn)) as [|[k w] [|]];
    try (injection E as <- <-; cbn [ir_RowNumber with_RowNumber]; split; [exact Hlt|apply Hset]).
  destruct v as [v'|]; [|discriminate].
  injection E as <- <-. cbn [ir_RowNumber]. split; [exact Hlt|apply Hset].
Qed.

(** The results of successive calls of [Next] are in strictly increasing
    order, and above the last result before them. *)
Lemma Sync_results_ascending : forall n last c,
  syncInv last c ->
  Forall (fun r => cmp 7 last (ir_RowNumber r) = -1) (results Sync.Next n c)
  /\ ascending (results Sync.Next n c).
Proof.
  induction n as [|n IH]; intros last c Hinv; cbn [results].
  { split; constructor. }
  destruct (Sync.Next c) as [c' [[r|]|err|]] eqn:EN; try solve [split; constructor].
  destruct (Sync_Next_post last c c' r Hinv EN) as (Hlt & Hinv').
  destruct (IH (ir_RowNumber r) c' Hinv') as (Hall & Hasc).
  split.
  - constructor; [exact Hlt|]. eapply Forall_impl; [|exact Hall]. cbn beta.
    intros x Hx. eapply cmp_trans_lt; eauto.
  - constructor; assumption.
Qed.

(** The bounds [NewSyncIterator] computes chain the row groups. *)
Lemma chain_rowGroupBounds column : forall rgs b,
  -1 <= b ->
  Forall (rowGroupOK column) rgs ->
  b + sumRows rgs < MaxInt32 ->
  chain column b rgs (fst (Sync.rowGroupBounds (rowAt b) rgs)).
Proof.
  induction rgs as [|rg rgs IH]; intros b Hb Hok Hsum.
  - cbn in *. lia.
  - apply Forall_cons_iff in Hok. destruct Hok as (Hrg & Hok).
    assert (Hnn : 0 <= sumRows rgs).
    { apply sumRows_nonneg. eapply Forall_impl; [|exact Hok]. intros r (Hr & _). exact Hr. }
    cbn [sumRows fold_right] in Hsum. fold (sumRows rgs) in Hsum.
    pose proof Hrg as (Hn & _).
    cbn [Sync.rowGroupBounds].
    rewrite (Skip_rowAt b (rg_NumRows rg)) by lia.
    specialize (IH (b + rg_NumRows rg) ltac:(lia) Hok ltac:(lia)).
    destruct (Sync.rowGroupBounds (rowAt (b + rg_NumRows rg)) rgs) as [mins maxs].
    cbn [fst chain] in *. split_ands; auto.
Qed.

Lemma declaredOpt_fields opts : forall it,
  Forall declaredOpt opts ->
  let it' := fold_left (fun i opt => opt i) opts it in
  Sync.column it' = Sync.column it
  /\ Sync.rgs it' = Sync.rgs it
  /\ Sync.rgsMin it' = Sync.rgsMin it
  /\ Sync.currRowGroup it' = Sync.currRowGroup it.
Proof.
  induction opts as [|o opts IH]; intros it Ho; [repeat split; reflexivity|].
  apply Forall_cons_iff in Ho. destruct Ho as (H1 & H2). cbn [fold_left].
  destruct (IH (o it) H2) as (E1 & E2 & E3 & E4). cbv zeta. rewrite E1, E2, E3, E4.
  destruct H1; repeat split; reflexivity.
Qed.

(** A new iterator over well-formed row groups is between two row groups,
    before the first row. *)
Lemma NewSyncIterator_inv rgs column opts :
  Forall declaredOpt opts ->
  wellFormed column rgs ->
  syncInv EmptyRowNumber (Sync.NewSyncIterator rgs column opts).
Proof.
  intros Ho (Hok & Hsum). apply (inv_closed _ _ (-1)).
  pose proof (chain_rowGroupBounds column rgs (-1) ltac:(lia) Hok ltac:(lia)) as Hch.
  change (rowAt (-1)) with EmptyRowNumber in Hch.
  unfold Sync.NewSyncIterator.
  destruct (Sync.rowGroupBounds EmptyRowNumber rgs) as [mins maxs]. cbn [fst] in Hch.
  match goal with
  | |- context [fold_left ?f opts ?i] =>
      destruct (declaredOpt_fields opts i Ho) as (E1 & E2 & E3 & E4);
      set (it := fold_left f opts i) in *
  end.
  cbn [Sync.column Sync.rgs Sync.rgsMin Sync.currRowGroup] in E1, E2, E3, E4.
  unfold closedInv.
  destruct (String.eqb (Sync.selectAs it) EmptyString); sync_proj;
    rewrite E1, E2, E3, E4; split_ands; auto; cbn; lia.
Qed.

(* ------------------------------------------------------------------ *)
(** ** The loop of next comes to an end *)

Ltac weight_lia :=
  repeat match goal with
         | |- context [match Sync.currChunk ?c with _ => _ end] => destruct (Sync.currChunk c)
         | |- context [match Sync.currValues ?c with _ => _ end] => destruct (Sync.currValues c)
         | |- context [match Sync.currBuf ?c with _ => _ end] => destruct (Sync.currBuf c)
         | |- context [match Sync.currPage ?c with _ => _ end] => destruct (Sync.currPage c)
         end;
  cbn [List.length] in *; try congruence; lia.

Lemma weightPost_mono n m f : (n <= m)%nat -> weightPost n f -> weightPost m f.
Proof.
  intros Hle. destruct f as [c'|c' [[rn [v|]]|e|]]; cbn; auto; lia.
Qed.

Lemma next_consume_weight : forall vs c,
  Sync.currPage c <> None -> unread c = vs ->
  match Sync.next_consume vs c with
  | Sync.Continue c' => (Sync.weight c' + List.length vs = Sync.weight c)%nat
  | Sync.Return c' (Ok (_, Some _)) => (Sync.weight c' < Sync.weight c)%nat
  | Sync.Return c' (Ok (_, None)) => False
  | Sync.Return _ _ => True
  end.
Proof.
  induction vs as [|v vs IH]; intros c Hpg Hu.
  - cbn. lia.
  - cbn [Sync.next_consume].
    destruct (RowNumber_Next _ _ _ _) as [rn|]; [|exact I].
    set (c1 := Sync.set_currPageN
                 (Sync.set_currBufN (Sync.set_curr c rn) (S (Sync.currBufN (Sync.set_curr c rn))))
                 (S (Sync.currPageN
                       (Sync.set_currBufN (Sync.set_curr c rn)
                                          (S (Sync.currBufN (Sync.set_curr c rn))))))).
    assert (Hu1 : unread c1 = vs).
    { unfold unread, c1 in *. sync_proj. eapply skipn_S_tail. exact Hu. }
    assert (Hw : (Sync.weight c1 + 1 = Sync.weight c)%nat).
    { unfold unread in Hu. apply (f_equal (@List.length _)) in Hu.
      rewrite length_skipn in Hu. cbn [List.length] in Hu.
      unfold Sync.weight, c1. sync_proj.
      destruct (Sync.currPage c); [|congruence].
      destruct (Sync.currBuf c); cbn [List.length] in *; lia. }
    assert (Hpg1 : Sync.currPage c1 <> None) by exact Hpg.
    destruct (Sync.rejectsValue c1 v).
    + specialize (IH c1 Hpg1 Hu1).
      destruct (Sync.next_consume vs c1) as [c'|c' [[rn' [w|]]|e|]]; cbn [List.length]; auto; lia.
    + lia.
Qed.

Lemma next_buffer_weight c :
  Sync.currPage c <> None ->
  weightPost (Sync.weight c) (Sync.next_buffer c (fun c =>
     Sync.next_consume (skipn (Sync.currBufN c)
                              (match Sync.currBuf c with Some b => b | None => [] end)) c)).
Proof.
  intros Hpg. unfold Sync.next_buffer. cbv zeta.
  set (c0 := match Sync.currBuf c with
             | Some _ => c
             | None => Sync.set_currBuf c (Some [])
             end).
  assert (Hpg0 : Sync.currPage c0 <> None).
  { unfold c0. destruct (Sync.currBuf c); exact Hpg. }
  assert (Hw0 : Sync.weight c0 = Sync.weight c).
  { unfold c0. destruct (Sync.currBuf c) eqn:Eb; [reflexivity|].
    unfold Sync.weight. sync_proj. rewrite Eb. destruct (Sync.currPage c); reflexivity. }
  rewrite <- Hw0. clearbody c0. clear Hw0 Hpg c.
  assert (Hcons : forall c1, Sync.currPage c1 <> None -> unread c1 <> [] ->
                             (Sync.weight c1 <= Sync.weight c0)%nat ->
                             weightPost (Sync.weight c0) (Sync.next_consume (unread c1) c1)).
  { intros c1 Hp1 Hne Hle. pose proof (next_consume_weight (unread c1) c1 Hp1 eq_refl) as Hc.
    destruct (unread c1) as [|v vs] eqn:Eu; [congruence|].
    destruct (Sync.next_consume (v :: vs) c1) as [c'|c' [[rn' [w|]]|e|]];
      cbn [List.length weightPost] in *; auto; try lia; try contradiction. }
  destruct ((List.length match Sync.currBuf c0 with
                         | Some b0 => b0
                         | None => []
                         end <=? Sync.currBufN c0)%nat
            || (List.length match Sync.currBuf c0 with
                            | Some b0 => b0
                            | None => []
                            end =? 0)%nat) eqn:Econd.
  2:{ apply (Hcons c0 Hpg0); [|lia].
      unfold unread. apply orb_false_iff in Econd. destruct Econd as (E1 & E2).
      apply Nat.leb_gt in E1. intros Hs. apply (f_equal (@List.length _)) in Hs.
      rewrite length_skipn in Hs. cbn in Hs. lia. }
  assert (Hun : (List.length match Sync.currBuf c0 with
                             | Some b0 => b0
                             | None => []
                             end - Sync.currBufN c0 = 0)%nat).
  { apply orb_true_iff in Econd. destruct Econd as [Ec|Ec].
    - apply Nat.leb_le in Ec. lia.
    - apply Nat.eqb_eq in Ec. lia. }
  destruct (Sync.currValues c0) as [r|] eqn:Er; [|exact I].
  assert (Hleave : forall c', Sync.rgs c' = Sync.rgs c0 -> Sync.column c' = Sync.column c0 ->
                              Sync.currChunk c' = Sync.currChunk c0 ->
                              (Sync.weight (Sync.setPage c' None) < Sync.weight c0)%nat).
  { intros c' E1 E2 E3. unfold Sync.weight, Sync.setPage. cbv zeta.
    destruct (Sync.currPage c') eqn:Ep; sync_proj; rewrite ?Ep, E1, E2, E3; weight_lia. }
  unfold ReadValues.
  destruct (reader_values r) as [|x rest] eqn:Erv.
  - destruct (reader_err r) as [err|]; [exact I|].
    cbv beta iota. unfold weightPost. apply Hleave; reflexivity.
  - set (vs := firstn (Sync.readSize c0) (x :: rest)).
    destruct vs as [|w ws] eqn:Evs.
    + cbv beta iota. unfold weightPost. apply Hleave; reflexivity.
    + set (c3 := Sync.set_currBufN
                   (Sync.set_currBuf
                      (Sync.set_currValues c0
                         (Some (mkReader (skipn (Sync.readSize c0) (x :: rest)) (reader_err r))))
                      (Some (w :: ws))) 0).
      assert (Hu3 : unread c3 = w :: ws) by reflexivity.
      cbv beta iota.
      change (skipn (Sync.currBufN c3) match Sync.currBuf c3 with
                                       | Some b => b
                                       | None => []
                                       end) with (unread c3).
      apply Hcons; [exact Hpg0|rewrite Hu3; discriminate|].
      unfold Sync.weight, c3. sync_proj. rewrite Er, Erv.
      destruct (Sync.currPage c0); [|congruence].
      cbn [reader_values].
      assert (Hl : (List.length (w :: ws) + List.length (skipn (Sync.readSize c0) (x :: rest))
                    = List.length (x :: rest))%nat).
      { rewrite <- Evs. unfold vs. rewrite <- length_app, firstn_skipn. reflexivity. }
      lia.
Qed.

Lemma next_page_weight c :
  weightPost (Sync.weight c) (Sync.next_page c (fun c =>
     Sync.next_buffer c (fun c =>
       Sync.next_consume (skipn (Sync.currBufN c)
                                (match Sync.currBuf c with Some b => b | None => [] end)) c))).
Proof.
  unfold Sync.next_page.
  destruct (Sync.currPage c) as [pg|] eqn:Epg.
  { apply next_buffer_weight. congruence. }
  destruct (Sync.currChunk c) as [cc|] eqn:Ecc; [|exact I].
  destruct cc as [|[p|err] rest]; cbn [NextPage]; cbv beta iota zeta.
  - unfold weightPost, Sync.weight, Sync.closeCurrRowGroup, Sync.setPage. cbv zeta. sync_proj.
    rewrite Epg, Ecc. sync_proj. rewrite ?Epg. weight_lia.
  - destruct (Sync.rejectsPage _ p).
    + unfold weightPost, Sync.weight. sync_proj. rewrite Epg, Ecc.
      unfold Sync.chunkWeight. cbn [fold_right Sync.readWeight]. weight_lia.
    + eapply weightPost_mono; [|apply next_buffer_weight].
      * unfold Sync.weight, Sync.setPage. cbv zeta. sync_proj. rewrite Epg, Ecc. sync_proj.
        unfold Sync.chunkWeight. cbn [fold_right Sync.readWeight Page_Values reader_values].
        weight_lia.
      * unfold Sync.setPage. cbv zeta. sync_proj. rewrite ?Epg. sync_proj. discriminate.
  - exact I.
Qed.

Lemma next_rowGroup_weight c :
  weightPost (Sync.weight c)
    (Sync.next_rowGroup c (fun _ => Ok (EmptyRowNumber, None)) (fun c =>
     Sync.next_page c (fun c =>
       Sync.next_buffer c (fun c =>
         Sync.next_consume (skipn (Sync.currBufN c)
                                  (match Sync.currBuf c with Some b => b | None => [] end)) c)))).
Proof.
  unfold Sync.next_rowGroup.
  destruct (Sync.currRowGroup c) as [rg0|] eqn:Erg.
  { apply next_page_weight. }
  unfold Sync.popRowGroup.
  destruct (Sync.rgs c) as [|rg rgs'] eqn:Ergs; [reflexivity|].
  destruct (Sync.rgsMin c) as [|mn mins']; [exact I|].
  destruct (Sync.rgsMax c) as [|mx maxs']; [exact I|].
  cbv beta iota. sync_proj.
  destruct (nth_error (rg_ColumnChunks rg) (Sync.column c)) as [cc|] eqn:Ecc; [|exact I].
  destruct (Sync.rejectsChunk _ cc).
  - unfold weightPost, Sync.weight. sync_proj. rewrite Ergs. cbn [fold_right].
    unfold Sync.rowGroupWeight at 2. weight_lia.
  - eapply weightPost_mono; [|apply next_page_weight].
    unfold Sync.weight, Sync.setRowGroup, Sync.closeCurrRowGroup, Sync.setPage. cbv zeta.
    sync_proj. rewrite Ergs. cbn [fold_right]. unfold Sync.rowGroupWeight at 2. rewrite Ecc.
    destruct (Sync.currPage c) eqn:Epg; sync_proj; rewrite ?Epg; weight_lia.
Qed.

Lemma next_body_weight c : weightPost (Sync.weight c) (Sync.next_body c).
Proof. apply next_rowGroup_weight. Qed.

(** The fuel [next] runs its loop with is enough. *)
Lemma next_fuel_enough : forall fuel c,
  (Sync.weight c < fuel)%nat ->
  exists c' r, Sync.next_fuel fuel c = Some (c', r)
               /\ match r with
                  | Ok (rn, Some _) => (Sync.weight c' < Sync.weight c)%nat
                  | Ok (rn, None) => rn = EmptyRowNumber
                  | _ => True
                  end.
Proof.
  induction fuel as [|fuel IH]; intros c Hf; [lia|].
  cbn [Sync.next_fuel]. pose proof (next_body_weight c) as Hw.
  destruct (Sync.next_body c) as [c1|c1 r]; cbn [weightPost] in Hw.
  - destruct (IH c1 ltac:(lia)) as (c' & r & E & Hr).
    exists c', r. split; [exact E|].
    destruct r as [[rn [v|]]|e|]; auto. lia.
  - exists c1, r. split; [reflexivity|]. destruct r as [[rn [v|]]|e|]; auto.
Qed.

Lemma next_total c :
  exists c' r, Sync.next_fuel (S (Sync.weight c)) c = Some (c', r)
               /\ Sync.next c = (c', r)
               /\ match r with
                  | Ok (rn, Some _) => (Sync.weight c' < Sync.weight c)%nat
                  | Ok (rn, None) => rn = EmptyRowNumber
                  | _ => True
                  end.
Proof.
  destruct (next_fuel_enough (S (Sync.weight c)) c ltac:(lia)) as (c' & r & E & Hr).
  exists c', r. unfold Sync.next. rewrite E. auto.
Qed.

(* ------------------------------------------------------------------ *)
(** ** Every iterator returns its results in increasing order *)

(** C1.  The row numbers of the results of successive calls of [Next]
    are strictly increasing under [CompareRowNumbers(7, ., .)]:
    - for a [SyncIterator] built by [NewSyncIterator] with the declared
      options over well-formed row groups, over any number of calls up to
      the first that returns nil;
    - for a [JoinIterator], a [LeftJoinIterator] and a [UnionIterator] at
      a level [d <= 7] whose children keep the iterator contract and are in
      non-decreasing order at level [d], with or without a predicate, over
      the full iteration, which comes to an end. *)
Theorem Next_row_numbers_ascending :
  (forall rgs column opts n,
      Forall declaredOpt opts -> wellFormed column rgs ->
      ascending (results Sync.Next n (Sync.NewSyncIterator rgs column opts)))
  /\ (forall (It : Type) (I1 : Iterator It) (I2 : IteratorContract It)
             (d : nat) (j : Join.JoinIterator),
         (d <= 7)%nat -> Join.definitionLevel j = d -> joinInv d (Join.children j) ->
         exists run f0,
           (forall fuel, (f0 <= fuel)%nat -> drain (Join.Next fuel) fuel j = Some run)
           /\ ascending run)
  /\ (forall (It : Type) (I1 : Iterator It) (I2 : IteratorContract It)
             (d : nat) (j : LeftJoin.LeftJoinIterator),
         (d <= 7)%nat -> LeftJoin.definitionLevel j = d ->
         joinInv d (LeftJoin.childrenRequired j) -> wfChildren (LeftJoin.childrenOptional j) ->
         exists run f0,
           (forall fuel, (f0 <= fuel)%nat -> drain (LeftJoin.Next fuel) fuel j = Some run)
           /\ ascending run)
  /\ (forall (It : Type) (I1 : Iterator It) (I2 : IteratorContract It)
             (d : nat) (u : Union.UnionIterator),
         (d <= 7)%nat -> Union.definitionLevel u = d -> unionInv d (Union.children u) ->
         exists run f0,
           (forall fuel, (f0 <= fuel)%nat -> drain (Union.Next fuel) fuel u = Some run)
           /\ ascending run).
Proof.
  split_ands.
  - intros rgs column opts n Ho Hwf.
    apply (Sync_results_ascending n EmptyRowNumber).
    apply NewSyncIterator_inv; assumption.
  - intros It I1 I2 d j Hd Hdl Hinv.
    destruct (Join_run_spec d Hd _ j Hdl Hinv (Nat.le_refl _))
      as (groups & Hrun & _ & _ & Hasc & _).
    exists (filter (keepsGroup (Join.pred j)) groups),
           (joinMeasure d (streams (Join.children j)) + 2)%nat.
    split; [intros fuel Hf; apply Hrun; lia|].
    eapply ascendingAt_ascending; eauto.
  - intros It I1 I2 d j Hd Hdl Hinv Hwo.
    destruct (LeftJoin_run_spec d Hd _ j Hdl Hinv Hwo (Nat.le_refl _))
      as (groups & Hrun & _ & Hasc & _).
    exists (filter (keepsGroup (LeftJoin.pred j)) groups),
           (joinMeasure d (streams (LeftJoin.childrenRequired j))
            + total (streams (LeftJoin.childrenOptional j)) + 2)%nat.
    split; [intros fuel Hf; apply Hrun; lia|].
    eapply ascendingAt_ascending; eauto.
  - intros It I1 I2 d u Hd Hdl Hinv.
    destruct (Union_run_spec d Hd _ u Hdl Hinv (Nat.le_refl _)) as (groups & Hrun & _ & Hasc & _).
    exists (filter (keepsGroup (Union.pred u)) groups),
           (total (streams (Union.children u)) + 2)%nat.
    split; [intros fuel Hf; apply Hrun; lia|].
    eapply ascendingAt_ascending; eauto.
Qed.

Lemma Next_row_numbers_ascending_witness :
  ascending (results Sync.Next 4 (Sync.NewSyncIterator twoRowGroups 0 []))
  /\ (exists run f0,
        (forall fuel, (f0 <= fuel)%nat ->
           drain (Join.Next fuel) fuel (Join.NewJoinIterator 0 [sliceA; sliceB] None [])
           = Some run)
        /\ ascending run)
  /\ (exists run f0,
        (forall fuel, (f0 <= fuel)%nat -> drain (LeftJoin.Next fuel) fuel leftJoinAB = Some run)
        /\ ascending run)
  /\ (exists run f0,
        (forall fuel, (f0 <= fuel)%nat -> drain (Union.Next fuel) fuel unionAB = Some run)
        /\ ascending run).
Proof.
  destruct Next_row_numbers_ascending as (HS & HJ & HL & HU).
  split; [|split; [|split]].
  - apply HS; [apply Forall_nil|].
    unfold wellFormed, rowGroupOK, chunkOK, readOK, pageOK, valueOK, twoRowGroups, MaxInt32.
    cbn. repeat split; repeat constructor; cbn; lia.
  - apply (HJ SliceIterator _ _ 0%nat); [lia|reflexivity|].
    unfold joinInv. split; [reflexivity|]. split; [cbn; lia|].
    cbn. unfold nondecreasingAt. solve_sorted.
  - apply (HL SliceIterator _ _ 0%nat); [lia|reflexivity| |reflexivity].
    unfold joinInv. split; [reflexivity|]. split; [cbn; lia|].
    cbn. unfold nondecreasingAt. solve_sorted.
  - apply (HU SliceIterator _ _ 0%nat); [lia|reflexivity|].
    unfold unionInv. split; [reflexivity|].
    cbn. unfold nondecreasingAt. solve_sorted.
Defined.

(* ------------------------------------------------------------------ *)
(** ** The loops of SeekTo and of Preceding come to an end *)

Lemma seekRowGroup_loop_enough seekTo d : forall fuel c,
  (List.length (Sync.rgs c) < fuel)%nat ->
  exists r, Sync.seekRowGroup_loop fuel seekTo d c = Some r.
Proof.
  induction fuel as [|fuel IH]; intros c Hf; [lia|].
  cbn [Sync.seekRowGroup_loop].
  destruct (Sync.currRowGroup c) as [rg0|] eqn:Erg; [eauto|].
  unfold Sync.popRowGroup.
  destruct (Sync.rgs c) as [|rg rgs'] eqn:Ergs; [eauto|].
  destruct (Sync.rgsMin c) as [|mn mins']; [eauto|].
  destruct (Sync.rgsMax c) as [|mx maxs']; [eauto|].
  cbv beta iota. cbn [List.length] in Hf.
  destruct (Sync.compareIs _ d seekTo mx) as [[|]|e|]; eauto.
  - apply IH. sync_proj. lia.
  - sync_proj. destruct (nth_error (rg_ColumnChunks rg) (Sync.column c)) as [cc|]; [|eauto].
    destruct (Sync.rejectsChunk _ cc).
    + apply IH. sync_proj. lia.
    + destruct fuel as [|fuel']; [lia|].
      cbn [Sync.seekRowGroup_loop]. unfold Sync.setRowGroup. cbv zeta. sync_proj. eauto.
Qed.

Lemma seekRowGroup_enough seekTo d c : exists r, Sync.seekRowGroup seekTo d c = Some r.
Proof.
  unfold Sync.seekRowGroup. cbv zeta.
  destruct (Sync.currRowGroup c); [|apply seekRowGroup_loop_enough; lia].
  destruct (Sync.compareIs _ d seekTo (Sync.currRowGroupMax c)) as [[|]|e|]; eauto;
    apply seekRowGroup_loop_enough; lia.
Qed.

Lemma seekPages_loop_enough seekTo d : forall fuel c,
  (match Sync.currChunk c with Some cc => List.length cc | None => 0 end < fuel)%nat ->
  exists r, Sync.seekPages_loop fuel seekTo d c = Some r.
Proof.
  induction fuel as [|fuel IH]; intros c Hf; [lia|].
  cbn [Sync.seekPages_loop].
  destruct (Sync.currPage c) as [pg|] eqn:Epg; [eauto|].
  destruct (Sync.currChunk c) as [cc|] eqn:Ecc; [|eauto].
  destruct cc as [|[p|err] rest]; cbn [NextPage List.length] in *; cbv beta iota zeta; eauto.
  destruct (Sync.compareIs _ d seekTo _) as [[|]|e|]; eauto.
  - apply IH. sync_proj. lia.
  - destruct (Sync.rejectsPage _ p).
    + apply IH. sync_proj. lia.
    + destruct fuel as [|fuel']; [lia|].
      cbn [Sync.seekPages_loop]. unfold Sync.setPage. cbv zeta. sync_proj.
      rewrite Epg. sync_proj. eauto.
Qed.

Lemma seekPages_enough seekTo d c : exists r, Sync.seekPages seekTo d c = Some r.
Proof.
  unfold Sync.seekPages. cbv zeta.
  destruct (Sync.currPage c); [|apply seekPages_loop_enough; lia].
  destruct (Sync.compareIs _ d seekTo (Sync.currPageMax c)) as [[|]|e|]; eauto;
    apply seekPages_loop_enough; lia.
Qed.

Lemma seekTo_loop_enough to d : forall fuel c,
  (Sync.weight c < fuel)%nat ->
  exists r, Sync.seekTo_loop fuel to d c = Some r.
Proof.
  induction fuel as [|fuel IH]; intros c Hf; [lia|].
  cbn [Sync.seekTo_loop].
  destruct (next_total c) as (c' & r & _ & -> & Hr).
  destruct r as [[rn v]|e|]; eauto.
  destruct (Valid rn) eqn:Hv; cbn [negb]; [|eauto].
  destruct (Sync.compareIs _ d rn to) as [[|]|e|]; eauto.
  destruct v as [v|].
  - apply IH. lia.
  - subst rn. discriminate.
Qed.

(** The fuel [SeekTo] runs its loops with is enough. *)
Lemma SeekTo_fuel_enough to d c : exists r, Sync.SeekTo_fuel to d c = Some r.
Proof.
  unfold Sync.SeekTo_fuel.
  destruct (seekRowGroup_enough to d c) as ([c1 r1] & ->).
  destruct r1 as [[|]|e|]; eauto.
  destruct (seekPages_enough to d c1) as ([c2 r2] & ->).
  destruct r2 as [[|]|e|]; eauto.
  destruct (Sync.seekWithinPage to d c2) as [c3 [u|e|]]; eauto.
  apply seekTo_loop_enough. lia.
Qed.

Lemma rn_set_total t i v : (i < 8)%nat -> exists t', rn_set t i v = Some t'.
Proof.
  intros Hi. destruct t as [a0 a1 a2 a3 a4 a5 a6 a7].
  do 8 (destruct i as [|i]; [cbn; eauto|]). lia.
Qed.

Lemma rn_get_total t i : (i < 8)%nat -> exists x, rn_get t i = Some x.
Proof.
  intros Hi. do 8 (destruct i as [|i]; [cbn; eauto|]). lia.
Qed.

Lemma preceding_loop_total : forall n t,
  (n <= 8)%nat -> exists t', preceding_loop n t = Some t'.
Proof.
  induction n as [|n IH]; intros t Hn; [cbn; eauto|].
  cbn [preceding_loop].
  destruct (rn_get_total t n ltac:(lia)) as (x & ->).
  destruct (x =? -1); [apply IH; lia|].
  destruct (x =? 0).
  - destruct (rn_set_total t n MaxInt32 ltac:(lia)) as (t1 & ->). apply IH. lia.
  - apply rn_set_total. lia.
Qed.

(** The loop of [Preceding] stays inside the row number. *)
Lemma Preceding_total t : preceding_loop 8 t = Some (RowNumber_Preceding t).
Proof.
  unfold RowNumber_Preceding.
  destruct (preceding_loop_total 8 t (Nat.le_refl _)) as (t' & ->). reflexivity.
Qed.

(* ================================================================== *)
(** * Further properties of the row numbers *)

(** X1. The unrolled [TruncateRowNumber] and the loop of
    [truncateRowNumberSlow] agree at every level: the same row number for
    the levels 0 to 7, and a panic for every level above 7. *)
Theorem TruncateRowNumber_matches_slow (d : nat) (t : RowNumber) :
  TruncateRowNumber d t = truncateRowNumberSlow d t.
Proof.
  destruct t as [t0 t1 t2 t3 t4 t5 t6 t7].
  do 8 (destruct d as [|d]; [reflexivity|]).
  reflexivity.
Qed.

(** X2. Truncating twice is truncating once, at the lower of the two
    levels; in particular truncation is idempotent. *)
Theorem TruncateRowNumber_compose (d d' : nat) (t u : RowNumber) :
  (d' <= 7)%nat ->
  TruncateRowNumber d t = Some u ->
  TruncateRowNumber d' u = TruncateRowNumber (Nat.min d d') t.
Proof.
  intros Hd' E. destruct t as [t0 t1 t2 t3 t4 t5 t6 t7].
  do 8 (destruct d as [|d];
        [cbn in E; injection E as <-;
         do 8 (destruct d' as [|d']; [reflexivity|]); lia|]).
  discriminate.
Qed.

Lemma TruncateRowNumber_compose_witness :
  TruncateRowNumber 3 (mkRN 5 4 (-1) (-1) (-1) (-1) (-1) (-1))
  = TruncateRowNumber (Nat.min 1 3) (mkRN 5 4 3 2 1 0 (-1) (-1)).
Proof.
  apply (TruncateRowNumber_compose 1 3 (mkRN 5 4 3 2 1 0 (-1) (-1))).
  - lia.
  - reflexivity.
Defined.

(** X3. A row number truncated to level [d] compares like the row number
    itself at every level up to [d], on either side of the comparison. *)
Theorem TruncateRowNumber_keeps_comparisons (d e : nat) (t u x : RowNumber) :
  (e <= d)%nat ->
  TruncateRowNumber d t = Some u ->
  CompareRowNumbers e u x = CompareRowNumbers e t x
  /\ CompareRowNumbers e x u = CompareRowNumbers e x t.
Proof.
  intros He E. destruct t as [t0 t1 t2 t3 t4 t5 t6 t7].
  do 8 (destruct d as [|d];
        [cbn in E; injection E as <-;
         do 8 (destruct e as [|e]; [first [lia | split; reflexivity]|]); lia|]).
  discriminate.
Qed.

Lemma TruncateRowNumber_keeps_comparisons_witness :
  CompareRowNumbers 1 (mkRN 5 4 (-1) (-1) (-1) (-1) (-1) (-1)) (mkRN 5 4 0 0 0 0 0 0)
  = CompareRowNumbers 1 (mkRN 5 4 3 2 1 0 (-1) (-1)) (mkRN 5 4 0 0 0 0 0 0)
  /\ CompareRowNumbers 1 (mkRN 5 4 0 0 0 0 0 0) (mkRN 5 4 (-1) (-1) (-1) (-1) (-1) (-1))
     = CompareRowNumbers 1 (mkRN 5 4 0 0 0 0 0 0) (mkRN 5 4 3 2 1 0 (-1) (-1)).
Proof.
  apply (TruncateRowNumber_keeps_comparisons 1 1 (mkRN 5 4 3 2 1 0 (-1) (-1))).
  - lia.
  - reflexivity.
Defined.

(* ------------------------------------------------------------------ *)
(** ** The comparisons *)

Lemma RowNumber_eqb_cmp a b : RowNumber_eqb a b = (cmp 7 a b =? 0).
Proof.
  destruct (Z.eqb_spec (cmp 7 a b) 0) as [E|E].
  - apply cmp_eq_key in E. rewrite !key_7 in E. apply rn_list_inj in E. subst b.
    destruct a as [a0 a1 a2 a3 a4 a5 a6 a7]. unfold RowNumber_eqb. cbn.
    rewrite !Z.eqb_refl. reflexivity.
  - destruct (RowNumber_eqb a b) eqn:Eb; [|reflexivity].
    exfalso. apply E. apply cmp_eq_key. rewrite !key_7.
    destruct a as [a0 a1 a2 a3 a4 a5 a6 a7], b as [b0 b1 b2 b3 b4 b5 b6 b7].
    unfold RowNumber_eqb in Eb. cbn in Eb.
    rewrite !andb_true_iff, !Z.eqb_eq in Eb.
    destruct Eb as (-> & -> & -> & -> & -> & -> & -> & -> & _). reflexivity.
Qed.

(** The loop of [CompareRowNumbers] when it is asked to go beyond the last
    position. *)
Lemma compare_loop_beyond a b : forall n i,
  (i <= 8)%nat -> (8 < i + n)%nat ->
  compare_loop n i a b
  = if lex (skipn i (rn_list a)) (skipn i (rn_list b)) =? 0 then None
    else Some (lex (skipn i (rn_list a)) (skipn i (rn_list b))).
Proof.
  induction n as [|n IH]; intros i Hi Hn; [lia|].
  cbn [compare_loop]. rewrite !rn_get_nth.
  destruct (Nat.eq_dec i 8) as [->|Hne].
  - destruct a, b; reflexivity.
  - destruct (skipn_nth_cons (rn_list a) i) as [x [Ex Sx]]; [rewrite rn_list_length; lia|].
    destruct (skipn_nth_cons (rn_list b) i) as [y [Ey Sy]]; [rewrite rn_list_length; lia|].
    rewrite Ex, Ey, Sx, Sy. cbn [lex].
    destruct (x <? y); [reflexivity|]. destruct (x >? y); [reflexivity|].
    apply IH; lia.
Qed.

(** X4. Asked to compare beyond level 7, [CompareRowNumbers] still
    answers for two row numbers that differ, with the result of level 7:
    the loop returns at the first position that differs.  It panics, on
    index 8, exactly when the two row numbers are equal. *)
Theorem CompareRowNumbers_beyond_7 (d : nat) (a b : RowNumber) :
  (8 <= d)%nat ->
  CompareRowNumbers d a b = if RowNumber_eqb a b then None else CompareRowNumbers 7 a b.
Proof.
  intros Hd. unfold CompareRowNumbers at 1.
  rewrite compare_loop_beyond by lia. cbn [skipn].
  rewrite RowNumber_eqb_cmp, CompareRowNumbers_cmp by lia.
  unfold cmp. rewrite (key_7 a), (key_7 b). reflexivity.
Qed.

Lemma CompareRowNumbers_beyond_7_witness :
  CompareRowNumbers 8 (rowAt 3) (rowAt 3) = None
  /\ CompareRowNumbers 8 (rowAt 3) (rowAt 4) = Some (-1).
Proof.
  split.
  - apply (CompareRowNumbers_beyond_7 8 (rowAt 3) (rowAt 3)). lia.
  - reflexivity.
Defined.

(** X5. Up to level 7 [CompareRowNumbers] never panics and is a total
    preorder on row numbers: the result is -1, 0 or 1, a row number
    compares 0 with itself, swapping the arguments negates the result, and
    "not above" is transitive, strictly so when one of the two steps is
    strict. *)
Theorem CompareRowNumbers_total_preorder (d : nat) (a b c : RowNumber) :
  (d <= 7)%nat ->
  exists x y z,
    CompareRowNumbers d a b = Some x
    /\ CompareRowNumbers d b c = Some y
    /\ CompareRowNumbers d a c = Some z
    /\ (x = -1 \/ x = 0 \/ x = 1)
    /\ CompareRowNumbers d a a = Some 0
    /\ CompareRowNumbers d b a = Some (- x)
    /\ (x <= 0 -> y <= 0 -> z <= 0)
    /\ (x <= 0 -> y <= 0 -> x < 0 \/ y < 0 -> z < 0).
Proof.
  intros Hd. exists (cmp d a b), (cmp d b c), (cmp d a c).
  rewrite !CompareRowNumbers_cmp by exact Hd. rewrite cmp_refl.
  pose proof (cmp_range d a b) as Rab. pose proof (cmp_range d b c) as Rbc.
  pose proof (cmp_range d a c) as Rac. pose proof (cmp_range d b a) as Rba.
  assert (Hba : cmp d b a = - cmp d a b).
  { destruct Rab as [E|[E|E]].
    - rewrite E. apply cmp_antisym in E. rewrite E. reflexivity.
    - rewrite E. apply cmp_sym_eq in E. rewrite E. reflexivity.
    - rewrite E. apply cmp_antisym in E. rewrite E. reflexivity. }
  split_ands; auto.
  - rewrite Hba. reflexivity.
  - intros Hx Hy.
    assert (cmp d a c <> 1); [|lia].
    apply (cmp_le_trans d a b c); lia.
  - intros Hx Hy Hs.
    assert (cmp d a c = -1); [|lia].
    destruct Hs as [Hs|Hs].
    + apply (cmp_lt_le_trans d a b c); lia.
    + apply (cmp_le_lt_trans d a b c); lia.
Qed.

Lemma CompareRowNumbers_total_preorder_witness :
  exists x y z,
    CompareRowNumbers 1 (rowAt 1) (rowAt 2) = Some x
    /\ CompareRowNumbers 1 (rowAt 2) (rowAt 2) = Some y
    /\ CompareRowNumbers 1 (rowAt 1) (rowAt 2) = Some z
    /\ (x = -1 \/ x = 0 \/ x = 1)
    /\ CompareRowNumbers 1 (rowAt 1) (rowAt 1) = Some 0
    /\ CompareRowNumbers 1 (rowAt 2) (rowAt 1) = Some (- x)
    /\ (x <= 0 -> y <= 0 -> z <= 0)
    /\ (x <= 0 -> y <= 0 -> x < 0 \/ y < 0 -> z < 0).
Proof.
  apply (CompareRowNumbers_total_preorder 1 (rowAt 1) (rowAt 2) (rowAt 2)). lia.
Defined.

Lemma equal_loop_compare_loop a b : forall n i,
  equal_loop n i a b = option_map (fun x => x =? 0) (compare_loop n i a b).
Proof.
  induction n as [|n IH]; intros i; [reflexivity|].
  cbn [equal_loop compare_loop].
  destruct (rn_get a i) as [x|]; [|reflexivity].
  destruct (rn_get b i) as [y|]; [|reflexivity].
  rewrite Z.gtb_ltb.
  destruct (Z.eqb_spec x y) as [->|Hne]; cbn [negb].
  - rewrite Z.ltb_irrefl. apply IH.
  - destruct (Z.ltb_spec x y); [reflexivity|].
    destruct (Z.ltb_spec y x); [reflexivity|lia].
Qed.

(** X6. [EqualRowNumber(d, a, b)] is [CompareRowNumbers(d, a, b) == 0]
    at every level: the same answer, and a panic in the same cases. *)
Theorem EqualRowNumber_is_Compare_zero (d : nat) (a b : RowNumber) :
  EqualRowNumber d a b = option_map (fun x => x =? 0) (CompareRowNumbers d a b).
Proof. apply equal_loop_compare_loop. Qed.

Lemma compare_loop_more a b x : forall n n' i,
  (n <= n')%nat -> compare_loop n i a b = Some x -> x <> 0 ->
  compare_loop n' i a b = Some x.
Proof.
  induction n as [|n IH]; intros n' i Hn E Hx.
  - cbn in E. congruence.
  - destruct n' as [|n']; [lia|]. cbn [compare_loop] in *.
    destruct (rn_get a i) as [u|]; [|discriminate].
    destruct (rn_get b i) as [v|]; [|discriminate].
    destruct (u <? v); [exact E|]. destruct (u >? v); [exact E|].
    apply IH; auto. lia.
Qed.

(** X7. A comparison that finds a difference at level [d] gives the same
    result at every deeper level, also beyond level 7. *)
Theorem CompareRowNumbers_deeper (d d' : nat) (a b : RowNumber) (x : Z) :
  (d <= d')%nat ->
  CompareRowNumbers d a b = Some x ->
  x <> 0 ->
  CompareRowNumbers d' a b = Some x.
Proof.
  intros Hd E Hx. unfold CompareRowNumbers in *.
  apply (compare_loop_more a b x (S d)); auto. lia.
Qed.

Lemma CompareRowNumbers_deeper_witness :
  CompareRowNumbers 9 (mkRN 0 1 5 0 0 0 0 0) (mkRN 0 2 0 0 0 0 0 0) = Some (-1).
Proof.
  apply (CompareRowNumbers_deeper 1 9 (mkRN 0 1 5 0 0 0 0 0) (mkRN 0 2 0 0 0 0 0 0) (-1)).
  - lia.
  - reflexivity.
  - lia.
Defined.

(* ------------------------------------------------------------------ *)
(** ** RowNumber.Next, Skip and Preceding *)

Lemma rn_get_none t i : (8 <= i)%nat -> rn_get t i = None.
Proof. intros Hi. do 8 (destruct i as [|i]; [lia|]). reflexivity. Qed.

Lemma rn_set_none t i v : (8 <= i)%nat -> rn_set t i v = None.
Proof.
  intros Hi. destruct t as [a0 a1 a2 a3 a4 a5 a6 a7].
  do 8 (destruct i as [|i]; [lia|]). reflexivity.
Qed.

Lemma fill_loop_some : forall n i v t,
  (i + n <= 8)%nat -> exists t', fill_loop n i v t = Some t'.
Proof.
  induction n as [|n IH]; intros i v t Hn; [cbn; eauto|].
  cbn [fill_loop]. destruct (rn_set_total t i v ltac:(lia)) as [t1 ->].
  apply IH. lia.
Qed.

Lemma fill_loop_none : forall n i v t,
  (8 < i + n)%nat -> (0 < n)%nat -> fill_loop n i v t = None.
Proof.
  induction n as [|n IH]; intros i v t Hn Hp; [lia|].
  cbn [fill_loop]. destruct (le_lt_dec 8 i) as [Hi|Hi].
  - rewrite rn_set_none by exact Hi. reflexivity.
  - destruct (rn_set_total t i v Hi) as [t1 ->]. apply IH; lia.
Qed.

Lemma RowNumber_Next_None_iff (t : RowNumber) (r d m : nat) :
  RowNumber_Next t r d m = None <-> (8 <= r \/ 8 <= d)%nat.
Proof.
  unfold RowNumber_Next. split.
  - intros E. destruct (le_lt_dec 8 r) as [Hr|Hr]; [left; exact Hr|].
    destruct (le_lt_dec 8 d) as [Hd|Hd]; [right; exact Hd|]. exfalso.
    destruct (rn_get_total t r Hr) as [x Ex]. rewrite Ex in E.
    destruct (rn_set_total t r (wrap32 (x + 1)) Hr) as [t1 E1]. rewrite E1 in E.
    destruct (fill_loop_some (d - r) (S r) 0 t1 ltac:(lia)) as [t2 E2]. rewrite E2 in E.
    destruct (fill_loop_some (Nat.min 8 (S m) - S d) (S d) (-1) t2 ltac:(lia)) as [t3 E3].
    congruence.
  - intros Hrd. destruct (le_lt_dec 8 r) as [Hr|Hr].
    + rewrite rn_get_none by exact Hr. reflexivity.
    + destruct Hrd as [Hrd|Hd]; [lia|].
      destruct (rn_get_total t r Hr) as [x ->].
      destruct (rn_set_total t r (wrap32 (x + 1)) Hr) as [t1 ->].
      rewrite fill_loop_none by lia. reflexivity.
Qed.

(** X8. [RowNumber.Next] panics exactly when the repetition level or the
    definition level is above 7; the maximum definition level may be
    anything, the last loop stops at the end of the row number. *)
Theorem RowNumber_Next_panics (t : RowNumber) (r d m : nat) :
  RowNumber_Next t r d m = None <-> (8 <= r \/ 8 <= d)%nat.
Proof. apply RowNumber_Next_None_iff. Qed.

(** X9. For a repetition level [r] at most the definition level [d], both
    within [0, 7], [Next] gives the row number whose positions above [r]
    (shallower) are unchanged, whose position [r] is one more, whose
    positions from [r + 1] to [d] are 0, whose positions from [d + 1] to
    the maximum definition level are -1, and whose positions beyond it are
    unchanged. *)
Theorem RowNumber_Next_positions (t : RowNumber) (r d m : nat) :
  (r <= d)%nat -> (d <= 7)%nat ->
  exists t' x,
    RowNumber_Next t r d m = Some t'
    /\ rn_get t r = Some x
    /\ forall j, (j <= 7)%nat ->
         rn_get t' j =
           if (j <? r)%nat then rn_get t j
           else if (j =? r)%nat then Some (wrap32 (x + 1))
           else if (j <=? d)%nat then Some 0
           else if (j <=? m)%nat then Some (-1)
           else rn_get t j.
Proof.
  intros Hr Hd.
  destruct (RowNumber_Next t r d m) as [t'|] eqn:E.
  - destruct (RowNumber_Next_get _ _ _ _ _ Hr E) as (x & Ex & Hget).
    exists t', x. split_ands; auto. intros j Hj. rewrite Hget.
    destruct (Nat.ltb_spec j r); [reflexivity|].
    destruct (Nat.eqb_spec j r); [reflexivity|].
    destruct (Nat.leb_spec j d); [reflexivity|].
    destruct (Nat.ltb_spec j (Nat.min 8 (S m))); destruct (Nat.leb_spec j m);
      try reflexivity; lia.
  - apply RowNumber_Next_None_iff in E. lia.
Qed.

Lemma RowNumber_Next_positions_witness :
  exists t' x,
    RowNumber_Next (mkRN 0 0 0 0 (-1) (-1) (-1) (-1)) 2 2 3 = Some t'
    /\ rn_get (mkRN 0 0 0 0 (-1) (-1) (-1) (-1)) 2 = Some x
    /\ forall j, (j <= 7)%nat ->
         rn_get t' j =
           if (j <? 2)%nat then rn_get (mkRN 0 0 0 0 (-1) (-1) (-1) (-1)) j
           else if (j =? 2)%nat then Some (wrap32 (x + 1))
           else if (j <=? 2)%nat then Some 0
           else if (j <=? 3)%nat then Some (-1)
           else rn_get (mkRN 0 0 0 0 (-1) (-1) (-1) (-1)) j.
Proof.
  apply (RowNumber_Next_positions (mkRN 0 0 0 0 (-1) (-1) (-1) (-1)) 2 2 3); lia.
Defined.

Lemma firstn_nth_ext {A} : forall n (l1 l2 : list A),
  (forall i, (i < n)%nat -> nth_error l1 i = nth_error l2 i) ->
  firstn n l1 = firstn n l2.
Proof.
  induction n as [|n IH]; intros l1 l2 Hn; [reflexivity|].
  pose proof (Hn 0%nat ltac:(lia)) as H0.
  destruct l1 as [|a l1], l2 as [|b l2]; cbn in H0; try discriminate; [reflexivity|].
  injection H0 as ->. cbn [firstn]. f_equal. apply IH.
  intros i Hi. apply (Hn (S i)). lia.
Qed.

Lemma nth_error_firstn_lt {A} : forall n (l : list A) i,
  (i < n)%nat -> nth_error (firstn n l) i = nth_error l i.
Proof.
  induction n as [|n IH]; intros l i Hi; [lia|].
  destruct l as [|a l]; [destruct i; reflexivity|].
  destruct i as [|i]; [reflexivity|]. cbn. apply IH. lia.
Qed.

(** X10. Without overflow of the incremented position, [Next] moves the
    row number strictly forward at every level from the repetition level
    on, and leaves it in the same group at every shallower level. *)
Theorem RowNumber_Next_moves_forward (t t' : RowNumber) (r d m j : nat) (x : Z) :
  (r <= d)%nat -> (j <= 7)%nat ->
  RowNumber_Next t r d m = Some t' ->
  rn_get t r = Some x ->
  MinInt32 <= x < MaxInt32 ->
  CompareRowNumbers j t t' = Some (if (j <? r)%nat then 0 else -1).
Proof.
  intros Hr Hj E Ex Hx.
  destruct (RowNumber_Next_get _ _ _ _ _ Hr E) as (x' & Ex' & Hget).
  assert (x' = x) by congruence. subst x'.
  rewrite CompareRowNumbers_cmp by exact Hj. f_equal.
  assert (Hlow : forall i, (i < r)%nat -> rn_get t i = rn_get t' i).
  { intros i Hi. rewrite Hget. destruct (Nat.ltb_spec i r); [reflexivity|lia]. }
  destruct (Nat.ltb_spec j r) as [Hjr|Hjr].
  - apply cmp_eq_key. unfold key. apply firstn_nth_ext.
    intros i Hi. rewrite <- !rn_get_nth. apply Hlow. lia.
  - unfold cmp, key. apply (lex_at r _ _ x (wrap32 (x + 1))).
    + intros i Hi. rewrite !nth_error_firstn_lt by lia.
      rewrite <- !rn_get_nth. apply Hlow. exact Hi.
    + rewrite nth_error_firstn_lt by lia. rewrite <- rn_get_nth. exact Ex.
    + rewrite nth_error_firstn_lt by lia. rewrite <- rn_get_nth, Hget.
      destruct (Nat.ltb_spec r r); [lia|]. rewrite Nat.eqb_refl. reflexivity.
    + rewrite wrap32_id; [lia|]. unfold int32, MinInt32, MaxInt32 in *. lia.
Qed.

Lemma RowNumber_Next_moves_forward_witness :
  CompareRowNumbers 0 (mkRN 0 0 0 0 (-1) (-1) (-1) (-1)) (mkRN 0 0 1 (-1) (-1) (-1) (-1) (-1))
  = Some 0
  /\ CompareRowNumbers 2 (mkRN 0 0 0 0 (-1) (-1) (-1) (-1)) (mkRN 0 0 1 (-1) (-1) (-1) (-1) (-1))
     = Some (-1).
Proof.
  split.
  - apply (RowNumber_Next_moves_forward (mkRN 0 0 0 0 (-1) (-1) (-1) (-1)) _ 2 2 3 0 0).
    + lia.
    + lia.
    + reflexivity.
    + reflexivity.
    + unfold MinInt32, MaxInt32. lia.
  - apply (RowNumber_Next_moves_forward (mkRN 0 0 0 0 (-1) (-1) (-1) (-1)) _ 2 2 3 2 0).
    + lia.
    + lia.
    + reflexivity.
    + reflexivity.
    + unfold MinInt32, MaxInt32. lia.
Defined.

Lemma wrap32_add_r a b : wrap32 (wrap32 a + b) = wrap32 (a + b).
Proof. rewrite Z.add_comm, wrap32_add_l, Z.add_comm. reflexivity. Qed.

(** X11. Skipping [a] rows and then [b] rows is skipping [a + b] rows,
    whatever the counts: the conversions to [int32] and the additions
    wrap around consistently. *)
Theorem RowNumber_Skip_compose (t : RowNumber) (a b : Z) :
  RowNumber_Skip (RowNumber_Skip t a) b = RowNumber_Skip t (a + b).
Proof.
  unfold RowNumber_Skip. cbn [rn0]. f_equal.
  rewrite (wrap32_add_l (rn0 t) a), (wrap32_add_l _ b), wrap32_add_r,
    (wrap32_add_l (rn0 t) (a + b)).
  f_equal. lia.
Qed.

Lemma rn_ext a b : (forall j, rn_get a j = rn_get b j) -> a = b.
Proof.
  intros Hj. destruct a as [a0 a1 a2 a3 a4 a5 a6 a7], b as [b0 b1 b2 b3 b4 b5 b6 b7].
  pose proof (Hj 0%nat) as H0. pose proof (Hj 1%nat) as H1. pose proof (Hj 2%nat) as H2.
  pose proof (Hj 3%nat) as H3. pose proof (Hj 4%nat) as H4. pose proof (Hj 5%nat) as H5.
  pose proof (Hj 6%nat) as H6. pose proof (Hj 7%nat) as H7.
  cbn in *. congruence.
Qed.

(** The loop of [Preceding] passes the undefined positions and decrements
    the deepest defined one when that is not 0. *)
Lemma preceding_loop_at t d x : forall n,
  (d < n <= 8)%nat ->
  rn_get t d = Some x -> x <> -1 -> x <> 0 ->
  (forall j, (d < j < n)%nat -> rn_get t j = Some (-1)) ->
  preceding_loop n t = rn_set t d (wrap32 (x - 1)).
Proof.
  induction n as [|n IH]; intros Hn Ex H1 H0 Hu; [lia|].
  cbn [preceding_loop]. destruct (Nat.eq_dec n d) as [->|Hne].
  - rewrite Ex.
    destruct (Z.eqb_spec x (-1)); [contradiction|].
    destruct (Z.eqb_spec x 0); [contradiction|]. reflexivity.
  - rewrite (Hu n) by lia. cbn. apply IH; auto; try lia.
    intros j Hj. apply Hu. lia.
Qed.

(** X12. [Preceding] is undone by [Next]: for a row number defined down
    to level [d] with an ordinal of at least 1 there, the next row number
    after its predecessor, at repetition and definition level [d], is the
    row number itself. *)
Theorem Preceding_Next_round_trip (t : RowNumber) (d m : nat) (x : Z) :
  (d <= 7)%nat ->
  rn_get t d = Some x ->
  1 <= x <= MaxInt32 ->
  (forall j, (d < j <= 7)%nat -> rn_get t j = Some (-1)) ->
  RowNumber_Next (RowNumber_Preceding t) d d m = Some t.
Proof.
  intros Hd Ex Hx Hu.
  destruct (rn_set_total t d (wrap32 (x - 1)) ltac:(lia)) as [t1 E1].
  assert (Ep : RowNumber_Preceding t = t1).
  { unfold RowNumber_Preceding.
    rewrite (preceding_loop_at t d x 8), E1; auto; try lia.
    intros j Hj. apply Hu. lia. }
  rewrite Ep.
  destruct (rn_set_get _ _ _ _ E1) as (G1 & O1).
  destruct (RowNumber_Next t1 d d m) as [t2|] eqn:E2.
  - f_equal. apply rn_ext. intros j.
    destruct (RowNumber_Next_get _ _ _ _ _ (le_n d) E2) as (y & Ey & Hget).
    rewrite G1 in Ey. injection Ey as <-. rewrite Hget.
    destruct (Nat.ltb_spec j d); [apply O1; lia|].
    destruct (Nat.eqb_spec j d) as [->|Hne].
    + rewrite Ex. f_equal. rewrite (wrap32_id (x - 1)).
      * rewrite wrap32_id; [lia|]. unfold int32, MinInt32, MaxInt32 in *. lia.
      * unfold int32, MinInt32, MaxInt32 in *. lia.
    + destruct (Nat.leb_spec j d); [lia|].
      destruct (Nat.ltb_spec j (Nat.min 8 (S m))).
      * symmetry. apply Hu. lia.
      * apply O1. lia.
  - apply RowNumber_Next_None_iff in E2. lia.
Qed.

Lemma Preceding_Next_round_trip_witness :
  RowNumber_Next (RowNumber_Preceding (mkRN 1000 (-1) (-1) (-1) (-1) (-1) (-1) (-1))) 0 0 7
  = Some (mkRN 1000 (-1) (-1) (-1) (-1) (-1) (-1) (-1)).
Proof.
  apply (Preceding_Next_round_trip (mkRN 1000 (-1) (-1) (-1) (-1) (-1) (-1) (-1)) 0 7 1000).
  - lia.
  - reflexivity.
  - unfold MaxInt32. lia.
  - intros j Hj.
    do 8 (destruct j as [|j]; [first [lia | reflexivity]|]). lia.
Defined.

(* ================================================================== *)
(** * Further properties of the results *)

Lemma otherValue_loop_app es es' k :
  otherValue_loop (es ++ es') k
  = match otherValue_loop es k with
    | Some x => Some x
    | None => otherValue_loop es' k
    end.
Proof.
  induction es as [|e es IH]; cbn [app otherValue_loop]; [reflexivity|].
  destruct (String.eqb (fst e) k); [reflexivity|exact IH].
Qed.

(** X13. The first entry with a key wins: after [AppendOtherValue(k, v)],
    [OtherValueFromKey] gives for every key what it gave before, and [v]
    for [k] only when [k] had no entry; a key without entry gives nil. *)
Theorem OtherValueFromKey_AppendOtherValue (r : IteratorResult) (k k' : string) (v : AnyValue) :
  IteratorResult_OtherValueFromKey (IteratorResult_AppendOtherValue r k v) k'
  = match IteratorResult_OtherValueFromKey r k' with
    | Some x => Some x
    | None => if String.eqb k k' then Some v else None
    end.
Proof.
  unfold IteratorResult_OtherValueFromKey, IteratorResult_AppendOtherValue.
  cbn [OtherEntries]. rewrite otherValue_loop_app. reflexivity.
Qed.

Lemma columns_add_length e : forall names buf,
  List.length (columns_add names buf e) = List.length buf.
Proof.
  induction names as [|n names IH]; intros [|b buf]; cbn [columns_add]; try reflexivity.
  destruct (String.eqb (fst e) n); cbn [List.length]; [reflexivity|].
  rewrite IH. reflexivity.
Qed.

(** One entry goes to the buffer of the first name that is its key. *)
Lemma columns_add_nth e : forall names buf i n b,
  nth_error names i = Some n -> nth_error buf i = Some b ->
  nth_error (columns_add names buf e) i
  = Some (if String.eqb (fst e) n && negb (existsb (String.eqb n) (firstn i names))
          then b ++ [snd e] else b).
Proof.
  induction names as [|n0 names IH]; intros buf i n b Hn Hb.
  - destruct i; discriminate.
  - destruct buf as [|b0 buf]; [destruct i; discriminate|].
    cbn [columns_add]. destruct i as [|i].
    + cbn in Hn, Hb. injection Hn as ->. injection Hb as ->.
      cbn [firstn existsb negb]. rewrite andb_true_r.
      destruct (String.eqb (fst e) n); reflexivity.
    + cbn [nth_error firstn existsb] in *.
      destruct (String.eqb_spec (fst e) n0) as [E0|E0].
      * cbn [nth_error]. rewrite Hb. f_equal.
        destruct (String.eqb_spec (fst e) n) as [E|E]; [|reflexivity].
        rewrite <- E, E0, String.eqb_refl. reflexivity.
      * cbn [nth_error]. rewrite (IH buf i n b Hn Hb). f_equal.
        destruct (String.eqb_spec (fst e) n) as [E|E]; [|reflexivity].
        destruct (String.eqb_spec n n0) as [E'|E']; [congruence|]. reflexivity.
Qed.

Lemma columns_fold_nth names i n : forall es buf b,
  nth_error names i = Some n -> nth_error buf i = Some b ->
  nth_error (fold_left (columns_add names) es buf) i
  = Some (b ++ if existsb (String.eqb n) (firstn i names) then []
               else map snd (List.filter (fun e => String.eqb (fst e) n) es)).
Proof.
  induction es as [|e es IH]; intros buf b Hn Hb; cbn [fold_left List.filter map].
  - rewrite Hb. destruct (existsb _ _); rewrite app_nil_r; reflexivity.
  - rewrite (IH _ _ Hn (columns_add_nth e names buf i n b Hn Hb)). f_equal.
    destruct (existsb (String.eqb n) (firstn i names)).
    + rewrite andb_false_r. reflexivity.
    + rewrite andb_true_r. destruct (String.eqb (fst e) n); cbn [map].
      * rewrite <- app_assoc. reflexivity.
      * reflexivity.
Qed.

Lemma columns_fold_length names : forall es buf,
  List.length (fold_left (columns_add names) es buf) = List.length buf.
Proof.
  induction es as [|e es IH]; intros buf; cbn [fold_left]; [reflexivity|].
  rewrite IH. apply columns_add_length.
Qed.

Lemma Columns_nth (r : IteratorResult) (names : list string) (i : nat) (n : string) :
  nth_error names i = Some n ->
  List.length (Columns r names) = List.length names
  /\ nth_error (Columns r names) i
     = Some (if existsb (String.eqb n) (firstn i names) then [] else column_of r n).
Proof.
  intros Hn. unfold Columns. split.
  - rewrite columns_fold_length. apply length_map.
  - rewrite (columns_fold_nth names i n (Entries r) _ []); auto.
    rewrite nth_error_map, Hn. reflexivity.
Qed.

(** X14. [Columns] returns one column for each name given, in the order
    of the names: the values of the entries with that key, in the order of
    the entries.  Entries with any other key are left out, and a name that
    is given twice gets its values at the first place and an empty column
    at the second. *)
Theorem Columns_spec (r : IteratorResult) (names : list string) (i : nat) (n : string) :
  nth_error names i = Some n ->
  List.length (Columns r names) = List.length names
  /\ nth_error (Columns r names) i
     = Some (if existsb (String.eqb n) (firstn i names) then [] else column_of r n).
Proof. apply Columns_nth. Qed.

Lemma Columns_spec_witness :
  List.length (Columns groupA1 ["values"; "keys"; "values"]%string) = 3%nat
  /\ nth_error (Columns groupA1 ["values"; "keys"; "values"]%string) 2 = Some [].
Proof.
  apply (Columns_spec groupA1 ["values"; "keys"; "values"]%string 2 "values"%string).
  reflexivity.
Defined.

Lemma column_of_Append r rr n :
  column_of (IteratorResult_Append r rr) n = column_of r n ++ column_of rr n.
Proof.
  unfold column_of. rewrite Append_Entries, filter_app, map_app. reflexivity.
Qed.

(** X15. [Append] composes with [Columns]: every column of [r] after
    [r.Append(rr)] is the column of [r] followed by the column of [rr];
    the row number of [r] stays. *)
Theorem Columns_Append (r rr : IteratorResult) (names : list string) (i : nat) :
  nth i (Columns (IteratorResult_Append r rr) names) []
  = nth i (Columns r names) [] ++ nth i (Columns rr names) []
  /\ ir_RowNumber (IteratorResult_Append r rr) = ir_RowNumber r.
Proof.
  split; [|reflexivity].
  destruct (nth_error names i) as [n|] eqn:Hn.
  - destruct (Columns_nth (IteratorResult_Append r rr) names i n Hn) as (_ & E1).
    destruct (Columns_nth r names i n Hn) as (_ & E2).
    destruct (Columns_nth rr names i n Hn) as (_ & E3).
    rewrite (nth_error_nth _ _ _ E1), (nth_error_nth _ _ _ E2), (nth_error_nth _ _ _ E3).
    destruct (existsb _ _); [reflexivity|]. apply column_of_Append.
  - apply nth_error_None in Hn.
    rewrite !nth_overflow; [reflexivity| | |];
      unfold Columns; rewrite columns_fold_length, length_map; exact Hn.
Qed.

Lemma ToMap_fold k : forall es (m : ColumnMap),
  fold_left (fun m e => map_set m (fst e) (map_get m (fst e) ++ [snd e])) es m k
  = match map snd (List.filter (fun e => String.eqb (fst e) k) es) with
    | [] => m k
    | c => Some (map_get m k ++ c)
    end.
Proof.
  induction es as [|e es IH]; intros m; cbn [fold_left List.filter]; [reflexivity|].
  rewrite IH.
  set (L := map_get m (fst e) ++ [snd e]).
  assert (Hs : map_set m (fst e) L k = if String.eqb (fst e) k then Some L else m k).
  { unfold map_set. rewrite String.eqb_sym. reflexivity. }
  assert (Hg : map_get (map_set m (fst e) L) k
               = if String.eqb (fst e) k then L else map_get m k).
  { unfold map_get at 1. rewrite Hs. destruct (String.eqb (fst e) k); reflexivity. }
  rewrite Hs, Hg. destruct (String.eqb (fst e) k) eqn:E; cbn [map]; [|reflexivity].
  apply String.eqb_eq in E. subst k L.
  destruct (map snd (List.filter _ es)) as [|c cs]; [reflexivity|].
  rewrite <- app_assoc. reflexivity.
Qed.

(** X16. [ToMap] holds a key exactly for the keys that have an entry, and
    under it the values of the entries with that key, in the order of the
    entries; looking up any other key gives the nil slice. *)
Theorem ToMap_spec (r : IteratorResult) (k : string) :
  ToMap r k = match column_of r k with
              | [] => None
              | _ :: _ => Some (column_of r k)
              end
  /\ map_get (ToMap r) k = column_of r k.
Proof.
  assert (E : ToMap r k = match column_of r k with
                          | [] => None
                          | _ :: _ => Some (column_of r k)
                          end).
  { unfold ToMap, column_of. rewrite ToMap_fold.
    destruct (map snd (List.filter _ (Entries r))); reflexivity. }
  split; [exact E|]. unfold map_get. rewrite E.
  destruct (column_of r k); reflexivity.
Qed.

(* ================================================================== *)
(** * Further properties of the SyncIterator *)

Lemma makeResult_RowNumber c rn v c' r :
  Sync.makeResult c rn v = (c', Ok (Some r)) -> ir_RowNumber r = rn.
Proof.
  unfold Sync.makeResult. cbn [Entries with_RowNumber].
  destruct (Entries (Sync.at_ c)) as [|[k w] [|e es]].
  - intros E. injection E as _ <-. reflexivity.
  - destruct v as [v|]; [|discriminate]. intros E. injection E as _ <-. reflexivity.
  - intros E. injection E as _ <-. reflexivity.
Qed.

Lemma seekTo_loop_not_below to d : forall fuel c c' r,
  Sync.seekTo_loop fuel to d c = Some (c', Ok (Some r)) ->
  Valid (ir_RowNumber r) = true
  /\ exists x, CompareRowNumbers d (ir_RowNumber r) to = Some x /\ 0 <= x.
Proof.
  induction fuel as [|fuel IH]; intros c c' r E; [discriminate|].
  cbn [Sync.seekTo_loop] in E.
  destruct (Sync.next c) as [c1 [[rn v]|e|]]; try discriminate.
  destruct (Valid rn) eqn:Hv; cbn [negb] in E; [|discriminate].
  unfold Sync.compareIs in E.
  destruct (CompareRowNumbers d rn to) as [x|] eqn:Ex; [|discriminate].
  destruct (x >=? 0) eqn:Hx.
  - injection E as E. apply makeResult_RowNumber in E. subst rn.
    split; [exact Hv|]. exists x. split; [exact Ex|]. lia.
  - apply (IH _ _ _ E).
Qed.

(** X17. [SyncIterator.SeekTo(to, d)] never returns a result below the
    target: the row number of a result is valid and compares 0 or 1 with
    [to] at level [d]. *)
Theorem Sync_SeekTo_not_below (to : RowNumber) (d : nat) (c c' : Sync.SyncIterator)
        (r : IteratorResult) :
  Sync.SeekTo to d c = (c', Ok (Some r)) ->
  Valid (ir_RowNumber r) = true
  /\ exists x, CompareRowNumbers d (ir_RowNumber r) to = Some x /\ 0 <= x.
Proof.
  unfold Sync.SeekTo, Sync.SeekTo_fuel. intros E.
  destruct (Sync.seekRowGroup to d c) as [[c1 [[|]|e|]]|]; try discriminate.
  destruct (Sync.seekPages to d c1) as [[c2 [[|]|e|]]|]; try discriminate.
  destruct (Sync.seekWithinPage to d c2) as [c3 [u|e|]]; try discriminate.
  destruct (Sync.seekTo_loop _ to d c3) as [[c4 r4]|] eqn:E4; [|discriminate].
  injection E as -> ->. apply (seekTo_loop_not_below _ _ _ _ _ _ E4).
Qed.

Lemma Sync_SeekTo_not_below_witness :
  exists c' r,
    Sync.SeekTo (rowAt 1) 0 (Sync.NewSyncIterator twoRowGroups 0 []) = (c', Ok (Some r))
    /\ Valid (ir_RowNumber r) = true
    /\ exists x, CompareRowNumbers 0 (ir_RowNumber r) (rowAt 1) = Some x /\ 0 <= x.
Proof.
  eexists. eexists. split; [vm_compute; reflexivity|].
  eapply (Sync_SeekTo_not_below (rowAt 1) 0 (Sync.NewSyncIterator twoRowGroups 0 [])).
  vm_compute. reflexivity.
Defined.

(* ================================================================== *)
(** * SeekTo of the composite iterators *)

(** A non-decreasing stream whose head is not below [t] lies not below
    [t] as a whole. *)
Lemma sorted_not_below d t S :
  nondecreasingAt d S -> headNotBelow d t S ->
  Forall (fun x => cmp d (ir_RowNumber x) t <> -1) S.
Proof.
  intros Hs Hh. destruct S as [|h S]; [constructor|]. cbn in Hh.
  apply Forall_forall. intros x Hx E.
  pose proof (nondecreasing_head d h S x Hs Hx) as Hhx.
  apply Hh. apply (cmp_le_lt_trans d _ (ir_RowNumber x)); assumption.
Qed.

Lemma joinMeasure_le_twice d l : (joinMeasure d l <= 2 * total l)%nat.
Proof.
  unfold joinMeasure. destruct l as [|[|x L] l]; try lia.
  unfold countAbove, total.
  pose proof (filter_length_le (fun y => cmp d (ir_RowNumber y) (ir_RowNumber x) =? 1)
                (fun _ => true) (List.concat ((x :: L) :: l))) as Hle.
  assert (Hall : forall A (m : list A), List.filter (fun _ => true) m = m).
  { intros A m. induction m as [|a m IH]; cbn; [reflexivity|]. rewrite IH. reflexivity. }
  rewrite Hall in Hle. specialize (Hle ltac:(reflexivity)). lia.
Qed.

Section SeekSweep.
Context {It : Type} `{IteratorContract It}.
Variable d : nat.
Hypothesis Hd : (d <= 7)%nat.

(** One child sought: its stream loses the results below [t]. *)
Lemma seek_step i t (ch : @Children It) :
  wfChildren ch -> (i < List.length (fst ch))%nat ->
  (forall j S, (j < i)%nat -> nth_error (streams ch) j = Some S -> headNotBelow d t S) ->
  exists ch' r,
    seekIfBehind i t d ch = (ch', Ok r)
    /\ wfChildren ch'
    /\ List.length (fst ch') = List.length (fst ch)
    /\ trimmedBy (fun x => belowAt d t x = true) (streams ch) (streams ch')
    /\ (r = None -> In [] (streams ch'))
    /\ (forall j S, (j < Datatypes.S i)%nat -> nth_error (streams ch') j = Some S ->
                    headNotBelow d t S).
Proof.
  intros Hw Hi Hlow.
  destruct (nth_error (streams ch) i) as [S|] eqn:HS.
  2:{ apply nth_error_None in HS. rewrite streams_length in HS by assumption. lia. }
  destruct (seekIfBehind_spec d Hd i t ch S Hw HS) as (ch' & E & Hw' & Hl' & Hs' & Hp' & Ho').
  exists ch', (hd_error (dropWhile (belowAt d t) S)). split_ands; auto.
  - rewrite Hs'. eapply trimmedBy_list_set; [exact HS|].
    apply dropWhile_prefix. auto.
  - intros En. rewrite Hs'.
    destruct (dropWhile (belowAt d t) S) as [|x S'] eqn:ES; [|discriminate].
    eapply nth_error_In. apply nth_error_list_set_eq.
    apply nth_error_Some. congruence.
  - intros j S' Hj HS'. rewrite Hs' in HS'.
    destruct (Nat.eq_dec j i) as [->|Hne].
    + rewrite nth_error_list_set_eq in HS' by (apply nth_error_Some; congruence).
      injection HS' as <-.
      destruct (dropWhile (belowAt d t) S) as [|x S'] eqn:ES; cbn; [exact I|].
      assert (Hx : belowAt d t x = false).
      { apply (dropWhile_head (belowAt d t) S). rewrite ES. reflexivity. }
      unfold belowAt in Hx. apply Z.eqb_neq in Hx. exact Hx.
    + rewrite nth_error_list_set_neq in HS' by auto.
      apply (Hlow j); [lia|exact HS'].
Qed.

Lemma Join_seekAll_loop_spec t : forall n i (ch : @Children It),
  wfChildren ch -> (i + n = List.length (fst ch))%nat -> sought d t i ch ->
  exists ch',
    Join.seekAll_loop n i t d ch = (ch', Ok tt)
    /\ sweepPost d t ch ch'
    /\ (In [] (streams ch') \/ sought d t (i + n) ch').
Proof.
  induction n as [|n IH]; intros i ch Hw Hn Hlow.
  - exists ch. cbn [Join.seekAll_loop]. rewrite Nat.add_0_r. unfold sweepPost.
    split_ands; auto. apply trimmedBy_refl.
  - cbn [Join.seekAll_loop].
    destruct (seek_step i t ch Hw ltac:(lia) Hlow) as (ch1 & r & E & Hw1 & Hl1 & Ht1 & Hn1 & Hs1).
    rewrite E. destruct r as [p|].
    + destruct (IH (Datatypes.S i) ch1 Hw1 ltac:(lia) Hs1) as (ch' & E' & (Hw' & Hl' & Ht') & Hp').
      exists ch'. replace (i + Datatypes.S n)%nat with (Datatypes.S i + n)%nat by lia.
      unfold sweepPost. split_ands; auto; try lia.
      eapply trimmedBy_trans; eauto.
    + exists ch1. unfold sweepPost. split_ands; auto.
Qed.



Lemma Union_seekEach_spec t : forall n i (ch : @Children It),
  wfChildren ch -> (i + n = List.length (fst ch))%nat -> sought d t i ch ->
  exists ch',
    Union.seekEach n i t d ch = (ch', Ok tt)
    /\ sweepPost d t ch ch'
    /\ sought d t (i + n) ch'.
Proof.
  induction n as [|n IH]; intros i ch Hw Hn Hlow.
  - exists ch. cbn [Union.seekEach]. rewrite Nat.add_0_r. unfold sweepPost.
    split_ands; auto. apply trimmedBy_refl.
  - cbn [Union.seekEach].
    destruct (seek_step i t ch Hw ltac:(lia) Hlow) as (ch1 & r & E & Hw1 & Hl1 & Ht1 & Hn1 & Hs1).
    rewrite E.
    destruct (IH (Datatypes.S i) ch1 Hw1 ltac:(lia) Hs1) as (ch' & E' & (Hw' & Hl' & Ht') & Hp').
    exists ch'. replace (i + Datatypes.S n)%nat with (Datatypes.S i + n)%nat by lia.
    unfold sweepPost. split_ands; auto; try lia.
    eapply trimmedBy_trans; eauto.
Qed.

(** After a full sweep, no result of a non-decreasing stream is below
    the target. *)
Lemma sought_all t P (ch ch' : @Children It) x :
  wfChildren ch' ->
  trimmedBy P (streams ch) (streams ch') ->
  Forall (nondecreasingAt d) (streams ch) ->
  sought d t (List.length (fst ch')) ch' ->
  In x (List.concat (streams ch')) ->
  cmp d (ir_RowNumber x) t <> -1.
Proof.
  intros Hw Ht Hs Hso Hx.
  apply in_concat in Hx. destruct Hx as (S & HS & Hx).
  apply In_nth_error in HS. destruct HS as (k & Hk).
  assert (Hlt : (k < List.length (fst ch'))%nat).
  { rewrite <- (streams_length ch' Hw). apply nth_error_Some. congruence. }
  pose proof (trimmedBy_sorted P _ _ _ Ht Hs) as Hs'.
  rewrite Forall_forall in Hs'.
  pose proof (sorted_not_below d t S (Hs' S (nth_error_In _ _ Hk)) (Hso k S Hlt Hk)) as Hall.
  rewrite Forall_forall in Hall. apply Hall. exact Hx.
Qed.
End SeekSweep.

Lemma trimmedBy_some_keep P d r l l' :
  trimmedBy P l l' ->
  (forall x, P x -> cmp d (ir_RowNumber x) r <> 0) ->
  someGroup d r l -> someGroup d r l'.
Proof.
  unfold someGroup, hasGroup. intros T HP.
  induction T as [|L1 L2 l1 l2 HL T IH]; intros Hc; [inversion Hc|].
  inversion Hc as [? ? Hx|? ? Hc']; subst.
  - destruct HL as (pre & -> & F). apply Exists_app in Hx. destruct Hx as [Hx|Hx].
    + exfalso. apply Exists_exists in Hx. destruct Hx as (x & Hin & Hx).
      rewrite Forall_forall in F. apply (HP x (F x Hin) Hx).
    + apply Exists_cons_hd. exact Hx.
  - apply Exists_cons_tl. auto.
Qed.

(** The results a seek to [t] at level [d] removes are in no group that
    is not below [t], at any level from [d] on. *)
Lemma below_not_in_group d dj t t' g x :
  (d <= dj)%nat -> key d t' = key d t ->
  cmp d g t <> -1 ->
  belowAt d t' x = true -> cmp dj (ir_RowNumber x) g <> 0.
Proof.
  intros Hddj Hk Hg Hx Exg. apply Hg.
  apply (cmp_level_eq d dj) in Exg; [|exact Hddj].
  rewrite <- (cmp_eq_l d _ _ _ Exg).
  unfold belowAt in Hx. apply Z.eqb_eq in Hx. unfold cmp in *. rewrite <- Hk. exact Hx.
Qed.

Lemma no_rejects (pred : option GroupPredicate) rej :
  pred = None -> Forall (fun x => keepsGroup pred x = false) rej -> rej = [].
Proof.
  intros -> Hr. destruct rej as [|x rej]; [reflexivity|].
  inversion Hr as [|? ? Hx _]. discriminate.
Qed.

Lemma above_group_common d e g l :
  l <> [] -> allAbove d e l -> commonGroup d g l -> cmp d e g = -1.
Proof.
  intros Hne Ha Hc. destruct l as [|S l]; [contradiction|].
  inversion Ha as [|? ? HaS _]. inversion Hc as [|? ? HcS _]. subst.
  unfold hasGroup in HcS. apply Exists_exists in HcS. destruct HcS as (x & Hx & Exg).
  rewrite Forall_forall in HaS. rewrite <- (cmp_eq_r d e _ _ Exg). apply HaS. exact Hx.
Qed.

Lemma above_group_some d e g l :
  allAbove d e l -> someGroup d g l -> cmp d e g = -1.
Proof.
  intros Ha Hc. unfold someGroup, hasGroup in Hc.
  apply Exists_exists in Hc. destruct Hc as (S & HS & Hx).
  apply Exists_exists in Hx. destruct Hx as (x & Hx & Exg).
  unfold allAbove in Ha. rewrite Forall_forall in Ha.
  pose proof (Ha S HS) as HaS. rewrite Forall_forall in HaS.
  rewrite <- (cmp_eq_r d e _ _ Exg). apply HaS. exact Hx.
Qed.

Lemma not_below_result d t t' x e :
  (d <= 7)%nat -> key d t' = key d t ->
  cmp d (ir_RowNumber x) t' <> -1 ->
  cmp d (ir_RowNumber x) (ir_RowNumber e) = 0 ->
  exists z, CompareRowNumbers d (ir_RowNumber e) t = Some z /\ 0 <= z.
Proof.
  intros Hd Hk Hx Exe. exists (cmp d (ir_RowNumber e) t).
  split; [apply CompareRowNumbers_cmp; exact Hd|].
  assert (E : cmp d (ir_RowNumber e) t = cmp d (ir_RowNumber x) t').
  { rewrite <- (cmp_eq_l d _ _ _ Exe). unfold cmp. rewrite Hk. reflexivity. }
  rewrite E. destruct (cmp_range d (ir_RowNumber x) t') as [R|[R|R]]; lia.
Qed.

(** X18. [JoinIterator.SeekTo(t, d)] over children that keep the
    iterator contract and give their results in non-decreasing order, at
    the level of the join and at the level [d] of the seek, returns
    without failing.  A result it returns is not below [t] at level [d],
    is a group common to all children, and is kept by the predicate.
    Without a predicate, and for [d] not deeper than the level of the
    join, no group is skipped: every group common to all children and not
    below [t] is at or after the result, and there is none when nil is
    returned. *)
Theorem Join_SeekTo_first_group {It : Type} `{IteratorContract It}
        (d dj fuel : nat) (t : RowNumber) (j : Join.JoinIterator) :
  (d <= 7)%nat -> (dj <= 7)%nat ->
  Join.definitionLevel j = dj ->
  joinInv dj (Join.children j) ->
  Forall (nondecreasingAt d) (streams (Join.children j)) ->
  (2 * total (streams (Join.children j)) + 2 <= fuel)%nat ->
  exists j' r,
    Join.SeekTo fuel t d j = Some (j', Ok r)
    /\ match r with
       | None => True
       | Some e =>
           (exists x, CompareRowNumbers d (ir_RowNumber e) t = Some x /\ 0 <= x)
           /\ commonGroup dj (ir_RowNumber e) (streams (Join.children j))
           /\ keepsGroup (Join.pred j) e = true
       end
    /\ ((d <= dj)%nat -> Join.pred j = None ->
        forall g, commonGroup dj g (streams (Join.children j)) ->
                  cmp d g t <> -1 ->
                  match r with
                  | None => False
                  | Some e => cmp dj (ir_RowNumber e) g <> 1
                  end).
Proof.
  intros Hd Hdj Hl (Hw & Hlen & Hsj) Hsd Hf.
  unfold Join.SeekTo, Join.seekAll.
  destruct (TruncateRowNumber_key d Hd t) as (t' & -> & Hk).
  destruct (Join_seekAll_loop_spec d Hd t' (List.length (Join.iters j)) 0 (Join.children j)
              Hw eq_refl) as ([its pks] & E & (Hw' & Hl' & Ht') & Hcase).
  { intros k S Hk0. lia. }
  rewrite E. set (j1 := Join.set_children j (its, pks)).
  assert (Hinv1 : joinInv dj (Join.children j1)).
  { unfold joinInv. split_ands.
    - exact Hw'.
    - cbn in *. lia.
    - apply (trimmedBy_sorted _ _ _ _ Ht' Hsj). }
  pose proof (joinMeasure_le_twice dj (streams (Join.children j1))) as Hm.
  pose proof (trimmedBy_total _ _ _ Ht') as Htot.
  destruct (Join_Next_spec dj Hdj fuel j1 Hl Hinv1)
    as (j' & r & rej & En & _ & _ & Hrej & _ & _ & Hr).
  { change (Join.children j1) with (its, pks) in *. lia. }
  rewrite En. exists j', r. split; [reflexivity|].
  change (Join.children j1) with (its, pks) in *.
  change (Join.pred j1) with (Join.pred j) in *.
  split.
  - destruct r as [e|]; [|exact I].
    destruct Hr as (_ & _ & _ & Hkeep & Hcommon & _ & (x & Hx & Exe) & _).
    split_ands.
    + destruct Hcase as [Hemp|Hso].
      * exfalso. exact (not_common_of_empty _ _ _ Hemp Hcommon).
      * apply (not_below_result d t t' x e Hd Hk).
        -- apply (sought_all d t' _ (Join.children j) (its, pks) x Hw' Ht' Hsd); auto.
           cbn [fst]. cbn in Hl'. rewrite Hl'. exact Hso.
        -- rewrite Exe. apply cmp_refl.
    + apply (trimmedBy_common_back _ _ _ _ _ Ht' Hcommon).
    + exact Hkeep.
  - intros Hddj Hp g Hg Hgt.
    pose proof (no_rejects _ _ Hp Hrej) as ->.
    assert (Hg' : commonGroup dj g (streams (its, pks))).
    { apply (trimmedBy_common_keep _ dj g _ _ Ht'); [|exact Hg].
      intros x Hx. apply (below_not_in_group d dj t t' g x Hddj Hk Hgt Hx). }
    destruct r as [e|].
    + destruct Hr as (_ & (Hw2 & Hlen2 & _) & _ & _ & _ & Habove & _ & _ & Hiff).
      apply Hiff in Hg'. destruct Hg' as [Hx|[Hx|Hx]].
      * inversion Hx.
      * apply cmp_sym_eq in Hx. rewrite Hx. discriminate.
      * assert (Hne : streams (Join.children j') <> []).
        { intros En0. pose proof (streams_length (Join.children j') Hw2) as Hsl.
          rewrite En0 in Hsl. cbn in Hsl, Hlen2. lia. }
        rewrite (above_group_common dj (ir_RowNumber e) g _ Hne Habove Hx).
        discriminate.
    + apply Hr in Hg'. inversion Hg'.
Qed.

Lemma Join_SeekTo_first_group_witness :
  let j := Join.NewJoinIterator 0 [sliceA; sliceB] None [] in
  exists j' r,
    Join.SeekTo 18 (rowAt 3) 0 j = Some (j', Ok r)
    /\ match r with
       | None => True
       | Some e =>
           (exists x, CompareRowNumbers 0 (ir_RowNumber e) (rowAt 3) = Some x /\ 0 <= x)
           /\ commonGroup 0 (ir_RowNumber e) (streams (Join.children j))
           /\ keepsGroup (Join.pred j) e = true
       end
    /\ ((0 <= 0)%nat -> Join.pred j = None ->
        forall g, commonGroup 0 g (streams (Join.children j)) ->
                  cmp 0 g (rowAt 3) <> -1 ->
                  match r with
                  | None => False
                  | Some e => cmp 0 (ir_RowNumber e) g <> 1
                  end).
Proof.
  intro j. apply (Join_SeekTo_first_group 0 0 18 (rowAt 3) j).
  - lia.
  - lia.
  - reflexivity.
  - unfold joinInv. split; [reflexivity|]. split; [cbn; lia|].
    cbn. unfold nondecreasingAt. solve_sorted.
  - cbn. unfold nondecreasingAt. solve_sorted.
  - cbn. lia.
Defined.



(** X20. [UnionIterator.SeekTo(t, d)] for a seek level [d] not deeper
    than the level of the union, over children that keep the iterator
    contract and give their results in non-decreasing order at both
    levels, returns without failing.  A result it returns is not below [t]
    at level [d], is a group of some child, and is kept by the predicate.
    Without a predicate, and with no result above the sentinel of the
    minimum search, every group of a child that is not below [t] is at or
    after the result, and there is none when nil is returned. *)
Theorem Union_SeekTo_first_group {It : Type} `{IteratorContract It}
        (d du fuel : nat) (t : RowNumber) (u : Union.UnionIterator) :
  (d <= du)%nat -> (du <= 7)%nat ->
  Union.definitionLevel u = du ->
  unionInv du (Union.children u) ->
  Forall (nondecreasingAt d) (streams (Union.children u)) ->
  (total (streams (Union.children u)) + 2 <= fuel)%nat ->
  exists u' r,
    Union.SeekTo fuel t d u = Some (u', Ok r)
    /\ match r with
       | None => True
       | Some e =>
           (exists x, CompareRowNumbers d (ir_RowNumber e) t = Some x /\ 0 <= x)
           /\ someGroup du (ir_RowNumber e) (streams (Union.children u))
           /\ keepsGroup (Union.pred u) e = true
       end
    /\ (Union.pred u = None ->
        allBelowSentinel du (streams (Union.children u)) ->
        forall g, someGroup du g (streams (Union.children u)) ->
                  cmp d g t <> -1 ->
                  match r with
                  | None => False
                  | Some e => cmp du (ir_RowNumber e) g <> 1
                  end).
Proof.
  intros Hddu Hdu Hl (Hw & Hsu) Hsd Hf.
  assert (Hd : (d <= 7)%nat) by lia.
  unfold Union.SeekTo.
  destruct (TruncateRowNumber_key d Hd t) as (t' & -> & Hk).
  destruct (Union_seekEach_spec d Hd t' (List.length (Union.iters u)) 0 (Union.children u)
              Hw eq_refl) as ([its pks] & E & (Hw' & Hl' & Ht') & Hso).
  { intros k S Hk0. lia. }
  rewrite E. set (u1 := Union.set_children u (its, pks)).
  assert (Hinv1 : unionInv du (Union.children u1)).
  { unfold unionInv. split; [exact Hw'|]. apply (trimmedBy_sorted _ _ _ _ Ht' Hsu). }
  pose proof (trimmedBy_total _ _ _ Ht') as Htot.
  destruct (Union_Next_spec du Hdu fuel u1 Hl Hinv1) as (u' & r & rej & En & _ & _ & Hrej & Hr).
  { change (Union.children u1) with (its, pks) in *. lia. }
  rewrite En. exists u', r. split; [reflexivity|].
  change (Union.children u1) with (its, pks) in *.
  change (Union.pred u1) with (Union.pred u) in *.
  split.
  - destruct r as [e|]; [|exact I].
    destruct Hr as (_ & _ & Hkeep & Hsome & _).
    split_ands.
    + unfold someGroup, hasGroup in Hsome.
      apply Exists_exists in Hsome. destruct Hsome as (S & HS & Hx).
      apply Exists_exists in Hx. destruct Hx as (x & Hx & Exe).
      apply (not_below_result d t t' x e Hd Hk).
      * apply (sought_all d t' _ (Union.children u) (its, pks) x Hw' Ht' Hsd); auto.
        -- cbn [fst]. cbn in Hl'. rewrite Hl'. exact Hso.
        -- apply in_concat. exists S. split; assumption.
      * apply (cmp_level_eq d du); [exact Hddu|exact Exe].
    + apply (trimmedBy_some_back _ _ _ _ _ Ht' Hsome).
    + exact Hkeep.
  - intros Hp Hsent g Hg Hgt.
    pose proof (no_rejects _ _ Hp Hrej) as ->.
    assert (Hg' : someGroup du g (streams (its, pks))).
    { apply (trimmedBy_some_keep _ du g _ _ Ht'); [|exact Hg].
      intros x Hx. apply (below_not_in_group d du t t' g x Hddu Hk Hgt Hx). }
    destruct r as [e|].
    + destruct Hr as (_ & _ & _ & _ & Habove & _ & Hiff & _).
      apply Hiff in Hg'. destruct Hg' as [Hx|[Hx|Hx]].
      * inversion Hx.
      * apply cmp_sym_eq in Hx. rewrite Hx. discriminate.
      * rewrite (above_group_some du (ir_RowNumber e) g _ Habove Hx). discriminate.
    + assert (Hsent' : allBelowSentinel du (streams (its, pks))).
      { unfold allBelowSentinel in *. rewrite Forall_forall in *.
        intros x Hx. apply Hsent. apply (trimmedBy_In _ _ _ _ Ht' Hx). }
      apply (Hr Hsent') in Hg'. inversion Hg'.
Qed.

Lemma Union_SeekTo_first_group_witness :
  exists u' r,
    Union.SeekTo 10 (rowAt 3) 0 unionAB = Some (u', Ok r)
    /\ match r with
       | None => True
       | Some e =>
           (exists x, CompareRowNumbers 0 (ir_RowNumber e) (rowAt 3) = Some x /\ 0 <= x)
           /\ someGroup 0 (ir_RowNumber e) (streams (Union.children unionAB))
           /\ keepsGroup (Union.pred unionAB) e = true
       end
    /\ (Union.pred unionAB = None ->
        allBelowSentinel 0 (streams (Union.children unionAB)) ->
        forall g, someGroup 0 g (streams (Union.children unionAB)) ->
                  cmp 0 g (rowAt 3) <> -1 ->
                  match r with
                  | None => False
                  | Some e => cmp 0 (ir_RowNumber e) g <> 1
                  end).
Proof.
  apply (Union_SeekTo_first_group 0 0 10 (rowAt 3) unionAB).
  - lia.
  - lia.
  - reflexivity.
  - unfold unionInv. split; [reflexivity|].
    cbn. unfold nondecreasingAt. solve_sorted.
  - cbn. unfold nondecreasingAt. solve_sorted.
  - cbn. lia.
Defined.

(* ================================================================== *)
(** * The SyncIterator gives every value *)

Lemma rejectsValue_keeps c v : Sync.rejectsValue c v = negb (keepsValue (Sync.filter c) v).
Proof. unfold Sync.rejectsValue, keepsValue. destruct (Sync.filter c); reflexivity. Qed.

Lemma rejectsPage_keeps c p : Sync.rejectsPage c p = negb (keepsPage (Sync.filter c) p).
Proof. unfold Sync.rejectsPage, keepsPage. destruct (Sync.filter c); reflexivity. Qed.

Lemma rejectsChunk_keeps c cc : Sync.rejectsChunk c cc = negb (keepsChunk (Sync.filter c) cc).
Proof. unfold Sync.rejectsChunk, keepsChunk. destruct (Sync.filter c); reflexivity. Qed.

(** The inner loop of [next] gives the first value kept. *)
Lemma next_consume_values : forall vs c last b e,
  pageInv last c b e -> readyInv c -> unread c = vs ->
  valuesPost (restKept c) (Sync.selectAs c) (Sync.next_consume vs c).
Proof.
  induction vs as [|v vs IH]; intros c last b e Hinv Hre Hu.
  - cbn. auto.
  - cbn [Sync.next_consume].
    destruct Hinv as (Hrg & (cc & Hcc & Hcok & Hcb) & Hpg & Hvals & Hmax & He & Hok & Hlo & Hrows
                      & Hlv & Hl0 & Hord & Hch).
    destruct Hre as (Hval & Herr & Hcl & Hrd & Hmx & Hrs & Hat).
    assert (Hp : pending c
                 = v :: vs ++ match Sync.currValues c with
                              | Some r => reader_values r
                              | None => []
                              end).
    { unfold pending. rewrite Hu. reflexivity. }
    rewrite Hp in *. cbn [rowsOf List.length startsRow] in *.
    apply Forall_cons_iff in Hok. destruct Hok as (Hv & Hok').
    destruct (RowNumber_Next (Sync.curr c) (RepetitionLevel v) (DefinitionLevel v)
                             (Sync.maxDefinitionLevel c)) as [rn|] eqn:EN.
    2:{ apply RowNumber_Next_None_iff in EN. destruct Hv. lia. }
    set (c1 := Sync.set_currPageN
                 (Sync.set_currBufN (Sync.set_curr c rn) (S (Sync.currBufN (Sync.set_curr c rn))))
                 (S (Sync.currPageN
                       (Sync.set_currBufN (Sync.set_curr c rn)
                                          (S (Sync.currBufN (Sync.set_curr c rn))))))).
    assert (Hu1 : unread c1 = vs).
    { unfold unread, c1 in *. sync_proj. eapply skipn_S_tail. exact Hu. }
    assert (Hp1 : pending c1
                  = vs ++ match Sync.currValues c with
                          | Some r => reader_values r
                          | None => []
                          end).
    { unfold pending. rewrite Hu1. reflexivity. }
    pose proof (rowsOf_nonneg (vs ++ match Sync.currValues c with
                                     | Some r => reader_values r
                                     | None => []
                                     end)) as Hrn.
    pose proof (chunkRows_nonneg cc Hcok) as Hcn.
    pose proof (chain_bound _ _ _ _ Hch) as Hbb.
    assert (Hhi : rn0 (Sync.curr c) < MaxInt32).
    { destruct (Nat.eqb (RepetitionLevel v) 0); lia. }
    destruct (RowNumber_Next_above _ v _ rn _ Hv Hlo Hhi Hlv EN) as (Habove & Hrn0 & Hlv1).
    assert (Hinv1 : pageInv rn c1 b e).
    { unfold pageInv. rewrite Hp1. unfold c1. sync_proj.
      split_ands; auto; try lia; try (exists cc; auto; fail);
        try (destruct (Nat.eqb (RepetitionLevel v) 0); lia).
      left. rewrite cmp_refl. discriminate. }
    assert (Hvalid : 0 <= rn0 rn).
    { destruct (Nat.eqb_spec (RepetitionLevel v) 0) as [E0|E0]; [lia|].
      destruct (Hval Hpg) as [H0|H0]; [lia|contradiction]. }
    assert (Hre1 : readyInv c1).
    { unfold readyInv. rewrite Hp1. unfold c1. sync_proj.
      split_ands; auto. }
    assert (Hrest : restKept c
                    = (if keepsValue (Sync.filter c) v then [v] else []) ++ restKept c1).
    { unfold restKept. rewrite Hp1. unfold c1. sync_proj.
      destruct (Sync.currRowGroup c); [|congruence].
      destruct (Sync.currPage c); [|congruence].
      rewrite Hp. cbn [List.filter].
      destruct (keepsValue (Sync.filter c) v); reflexivity. }
    change (Sync.curr c1) with rn.
    rewrite rejectsValue_keeps. change (Sync.filter c1) with (Sync.filter c).
    destruct (keepsValue (Sync.filter c) v); cbn [negb].
    + unfold valuesPost. split_ands; auto.
      unfold Valid. apply Z.geb_le. exact Hvalid.
    + rewrite Hrest. cbn [app].
      change (Sync.selectAs c) with (Sync.selectAs c1).
      apply (IH c1 rn b e Hinv1 Hre1 Hu1).
Qed.

(** The buffer part of the loop of [next]. *)
Lemma next_buffer_values last c b e :
  pageInv last c b e -> readyInv c ->
  valuesPost (restKept c) (Sync.selectAs c)
    (Sync.next_buffer c (fun c =>
       Sync.next_consume (skipn (Sync.currBufN c)
                                (match Sync.currBuf c with Some b => b | None => [] end)) c)).
Proof.
  intros Hinv Hre. unfold Sync.next_buffer. cbv zeta.
  set (c0 := match Sync.currBuf c with
             | Some _ => c
             | None => Sync.set_currBuf c (Some [])
             end).
  assert (Hinv0 : pageInv last c0 b e).
  { unfold c0. destruct (Sync.currBuf c) as [buf|] eqn:Eb; [exact Hinv|].
    unfold pageInv, pending, unread in *. sync_proj. rewrite Eb in Hinv.
    rewrite !skipn_nil in *. exact Hinv. }
  assert (Hre0 : readyInv c0).
  { unfold c0. destruct (Sync.currBuf c) as [buf|] eqn:Eb; [exact Hre|].
    unfold readyInv, pending, unread in *. sync_proj. rewrite Eb in Hre.
    rewrite !skipn_nil in *. exact Hre. }
  assert (Hrest0 : restKept c0 = restKept c).
  { unfold c0. destruct (Sync.currBuf c) as [buf|] eqn:Eb; [reflexivity|].
    unfold restKept, pending, unread. sync_proj. rewrite Eb, !skipn_nil. reflexivity. }
  assert (Hsel0 : Sync.selectAs c0 = Sync.selectAs c).
  { unfold c0. destruct (Sync.currBuf c); reflexivity. }
  rewrite <- Hrest0, <- Hsel0.
  clearbody c0. clear Hinv Hre Hrest0 Hsel0 c.
  destruct ((List.length match Sync.currBuf c0 with
                         | Some b0 => b0
                         | None => []
                         end <=? Sync.currBufN c0)%nat
            || (List.length match Sync.currBuf c0 with
                            | Some b0 => b0
                            | None => []
                            end =? 0)%nat) eqn:Econd.
  2:{ apply (next_consume_values _ c0 last b e Hinv0 Hre0). reflexivity. }
  assert (Hun : unread c0 = []).
  { unfold unread. apply orb_true_iff in Econd. destruct Econd as [Ec|Ec].
    - apply skipn_all2. apply Nat.leb_le. exact Ec.
    - apply Nat.eqb_eq in Ec. apply length_zero_iff_nil in Ec. rewrite Ec. apply skipn_nil. }
  pose proof Hinv0 as (Hrg & Hchunk & Hpg & Hvals & Hmax & He & Hok & Hlo & Hrows
                       & Hlv & Hl0 & Hord & Hch).
  pose proof Hre0 as (Hval & Herr & Hcl & Hrd & Hmx & Hrs & Hat).
  destruct (Sync.currValues c0) as [r|] eqn:Er; [|congruence].
  assert (Hp : pending c0 = reader_values r).
  { unfold pending. rewrite Hun, Er. reflexivity. }
  assert (Hk0 : restKept c0
                = List.filter (keepsValue (Sync.filter c0)) (reader_values r)
                  ++ match Sync.currChunk c0 with
                     | Some cc => chunkKept (Sync.filter c0) cc
                     | None => []
                     end
                  ++ columnKept (Sync.filter c0) (Sync.column c0) (Sync.rgs c0)).
  { unfold restKept. rewrite Hp.
    destruct (Sync.currRowGroup c0); [|congruence].
    destruct (Sync.currPage c0); [|congruence]. reflexivity. }
  unfold ReadValues.
  destruct (reader_values r) as [|x rest] eqn:Erv.
  - rewrite Hk0, Herr. cbv beta iota. unfold valuesPost.
    unfold readyInv, restKept, Sync.setPage. cbv zeta. sync_proj.
    destruct (Sync.currPage c0) as [p|] eqn:Ep; [|congruence]. sync_proj.
    destruct (Sync.currRowGroup c0) as [rg|] eqn:Erg; [|congruence].
    cbn [List.filter app].
    split_ands; auto. congruence.
  - set (vs := firstn (Sync.readSize c0) (x :: rest)).
    assert (Evs : vs = x :: firstn (Sync.readSize c0 - 1) rest).
    { unfold vs. destruct (Sync.readSize c0) as [|n]; [lia|].
      cbn [firstn]. f_equal. f_equal. lia. }
    rewrite Evs. cbv beta iota.
    set (c3 := Sync.set_currBufN
                 (Sync.set_currBuf
                    (Sync.set_currValues c0
                       (Some (mkReader (skipn (Sync.readSize c0) (x :: rest)) (reader_err r))))
                    (Some (x :: firstn (Sync.readSize c0 - 1) rest))) 0).
    assert (Hp3 : pending c3 = x :: rest).
    { unfold pending, unread, c3. sync_proj. cbn [skipn reader_values].
      rewrite <- Evs. unfold vs. apply firstn_skipn. }
    assert (Hinv3 : pageInv last c3 b e).
    { unfold pageInv. rewrite Hp3. rewrite Hp in *. unfold c3. sync_proj.
      split_ands; auto. discriminate. }
    assert (Hre3 : readyInv c3).
    { unfold readyInv. rewrite Hp3. rewrite Hp in *. unfold c3. sync_proj.
      split_ands; auto. }
    assert (Hrest3 : restKept c3 = restKept c0).
    { rewrite Hk0. unfold restKept. rewrite Hp3. unfold c3. sync_proj.
      destruct (Sync.currRowGroup c0); [|congruence].
      destruct (Sync.currPage c0); [|congruence]. reflexivity. }
    rewrite <- Hrest3. change (Sync.selectAs c0) with (Sync.selectAs c3).
    apply (next_consume_values _ c3 last b e Hinv3 Hre3). reflexivity.
Qed.

(** The page part of the loop of [next]. *)
Lemma next_page_values last c b x :
  chunkInv last c b x -> readyInv c ->
  valuesPost (restKept c) (Sync.selectAs c)
    (Sync.next_page c (fun c =>
       Sync.next_buffer c (fun c =>
         Sync.next_consume (skipn (Sync.currBufN c)
                                  (match Sync.currBuf c with Some b => b | None => [] end)) c))).
Proof.
  intros (Hrg & (cc & Hcc & Hcok & Hcb) & Hpg & Hbuf & Hcurr & Hx & Hl & Hch)
         (Hval & Herr & Hcl & Hrd & Hmx & Hrs & Hat).
  pose proof (chunkRows_nonneg cc Hcok) as Hcn.
  pose proof (chain_bound _ _ _ _ Hch) as Hbb.
  assert (Hk : restKept c
               = chunkKept (Sync.filter c) cc
                 ++ columnKept (Sync.filter c) (Sync.column c) (Sync.rgs c)).
  { unfold restKept. rewrite Hpg, Hcc.
    destruct (Sync.currRowGroup c); [|congruence]. reflexivity. }
  rewrite Hk. rewrite Hcc in Hcl.
  unfold Sync.next_page. rewrite Hpg, Hcc.
  destruct cc as [|[p|err] rest]; cbn [NextPage]; cbv beta iota zeta.
  - (* the row group is exhausted *)
    unfold valuesPost, readyInv, restKept, Sync.closeCurrRowGroup, Sync.setPage.
    cbv zeta. sync_proj. rewrite Hpg. sync_proj. cbn [chunkKept app].
    split_ands; auto. congruence.
  - apply Forall_cons_iff in Hcok. destruct Hcok as (Hp & Hrest).
    apply Forall_cons_iff in Hcl. destruct Hcl as (Hperr & Hclrest).
    pose proof Hp as (Hvok & Hstart & Hrows & Hn1 & Hlen).
    pose proof (chunkRows_nonneg rest Hrest) as Hrn.
    cbn [chunkRows] in Hcb. cbn [chunkKept]. unfold pageKept.
    rewrite rejectsPage_keeps. sync_proj.
    destruct (keepsPage (Sync.filter c) p); cbn [negb].
    + set (c2 := Sync.setPage (Sync.set_currChunk c (Some rest)) (Some p)).
      assert (Hinv2 : pageInv last c2 b (x + page_NumRows p)).
      { unfold c2, pageInv, pending, unread, Sync.setPage. cbv zeta. sync_proj.
        rewrite Hpg. sync_proj. rewrite Hbuf, Hcurr. cbn [skipn app Page_Values reader_values].
        rewrite Skip_rowAt by lia.
        split_ands; auto; try lia; try discriminate.
        * exists rest. split_ands; auto. lia.
        * f_equal. lia.
        * cbn [rowAt rn0]. lia.
        * apply levelsOK_rowAt. exact Hlen. }
      assert (Hre2 : readyInv c2).
      { unfold c2, readyInv, pending, unread, Sync.setPage. cbv zeta. sync_proj.
        rewrite Hpg. sync_proj. rewrite Hbuf. cbn [skipn app Page_Values reader_values].
        split_ands; auto. }
      assert (Hrest2 : restKept c2
                       = List.filter (keepsValue (Sync.filter c)) (page_values p)
                         ++ chunkKept (Sync.filter c) rest
                         ++ columnKept (Sync.filter c) (Sync.column c) (Sync.rgs c)).
      { unfold c2, restKept, pending, unread, Sync.setPage. cbv zeta. sync_proj.
        rewrite Hpg. sync_proj. rewrite Hbuf. cbn [skipn app Page_Values reader_values].
        destruct (Sync.currRowGroup c); [|congruence]. reflexivity. }
      rewrite <- app_assoc, <- Hrest2.
      assert (Hsel2 : Sync.selectAs c2 = Sync.selectAs c).
      { unfold c2, Sync.setPage. cbv zeta. sync_proj. rewrite Hpg. reflexivity. }
      rewrite <- Hsel2.
      apply (next_buffer_values last c2 b (x + page_NumRows p) Hinv2 Hre2).
    + (* the page is filtered out *)
      unfold valuesPost, readyInv, restKept. sync_proj. rewrite Hpg.
      destruct (Sync.currRowGroup c); [|congruence].
      cbn [app]. split_ands; auto. congruence.
  - apply Forall_cons_iff in Hcl. destruct Hcl as ([] & _).
Qed.

(** The row group part of the loop of [next]. *)
Lemma next_rowGroup_values last c b :
  closedInv last c b -> readyInv c ->
  valuesPost (restKept c) (Sync.selectAs c)
    (Sync.next_rowGroup c (fun _ => Ok (EmptyRowNumber, None)) (fun c =>
       Sync.next_page c (fun c =>
         Sync.next_buffer c (fun c =>
           Sync.next_consume (skipn (Sync.currBufN c)
                                    (match Sync.currBuf c with Some b => b | None => [] end)) c)))).
Proof.
  intros (Hrg & Hb & Hl & Hch) (Hval & Herr & Hcl & Hrd & Hmx & Hrs & Hat).
  assert (Hk : restKept c = columnKept (Sync.filter c) (Sync.column c) (Sync.rgs c)).
  { unfold restKept. rewrite Hrg. reflexivity. }
  rewrite Hk.
  unfold Sync.next_rowGroup. rewrite Hrg. unfold Sync.popRowGroup.
  destruct (Sync.rgs c) as [|rg rgs'] eqn:Ergs.
  { cbn. auto. }
  destruct (Sync.rgsMin c) as [|mn mins'] eqn:Emin; [contradiction|].
  destruct Hch as (-> & (Hn & Hok) & Hch).
  destruct (Sync.rgsMax c) as [|mx maxs'] eqn:Emax; [discriminate|].
  cbv beta iota. sync_proj.
  apply Forall_cons_iff in Hrd. destruct Hrd as ((cc & Ecc & Hclean) & Hrd).
  rewrite Ecc in *.
  destruct Hok as (Hcok & Hrows).
  pose proof (chunkRows_nonneg cc Hcok) as Hcn.
  pose proof (chain_bound _ _ _ _ Hch) as Hbb.
  unfold columnKept. cbn [map List.concat]. fold (columnKept (Sync.filter c) (Sync.column c) rgs').
  unfold rowGroupKept. rewrite Ecc.
  rewrite rejectsChunk_keeps. sync_proj.
  destruct (keepsChunk (Sync.filter c) cc); cbn [negb].
  - set (c2 := Sync.setRowGroup
                 (Sync.set_rgsMax (Sync.set_rgsMin (Sync.set_rgs c rgs') mins') maxs')
                 rg (rowAt b) mx cc).
    assert (Hinv2 : chunkInv last c2 (b + rg_NumRows rg) b).
    { unfold c2, chunkInv, Sync.setRowGroup, Sync.closeCurrRowGroup, Sync.setPage. cbv zeta.
      sync_proj.
      destruct (Sync.currPage c) eqn:Ep; sync_proj;
        (split_ands; auto; try lia; try discriminate;
         try (exists cc; split_ands; auto; lia)). }
    assert (Hre2 : readyInv c2).
    { unfold c2, readyInv, Sync.setRowGroup, Sync.closeCurrRowGroup, Sync.setPage. cbv zeta.
      sync_proj. cbn [List.length] in Hmx.
      destruct (Sync.currPage c) eqn:Ep; sync_proj;
        (split_ands; auto; try congruence; try lia). }
    assert (Hrest2 : restKept c2
                     = chunkKept (Sync.filter c) cc
                       ++ columnKept (Sync.filter c) (Sync.column c) rgs').
    { unfold c2, restKept, Sync.setRowGroup, Sync.closeCurrRowGroup, Sync.setPage. cbv zeta.
      sync_proj. destruct (Sync.currPage c) eqn:Ep; sync_proj; rewrite ?Ep; reflexivity. }
    assert (Hsel2 : Sync.selectAs c2 = Sync.selectAs c).
    { unfold c2, Sync.setRowGroup, Sync.closeCurrRowGroup, Sync.setPage. cbv zeta.
      sync_proj. destruct (Sync.currPage c) eqn:Ep; reflexivity. }
    rewrite <- Hrest2, <- Hsel2.
    apply (next_page_values last c2 (b + rg_NumRows rg) b Hinv2 Hre2).
  - unfold valuesPost, readyInv, restKept. sync_proj. rewrite Hrg.
    cbn [List.length] in Hmx. cbn [app].
    split_ands; auto; lia.
Qed.

(** One round of the loop of [next]. *)
Lemma next_body_values last c :
  syncInv last c -> readyInv c ->
  valuesPost (restKept c) (Sync.selectAs c) (Sync.next_body c).
Proof.
  intros [b Hinv|b x Hinv|b e Hinv] Hre; unfold Sync.next_body.
  - apply (next_rowGroup_values last c b Hinv Hre).
  - pose proof Hinv as (Hrg & _).
    unfold Sync.next_rowGroup. destruct (Sync.currRowGroup c) eqn:Erg; [|congruence].
    apply (next_page_values last c b x Hinv Hre).
  - pose proof Hinv as (Hrg & _ & Hpg & _).
    unfold Sync.next_rowGroup. destruct (Sync.currRowGroup c) eqn:Erg; [|congruence].
    unfold Sync.next_page. destruct (Sync.currPage c) eqn:Epg; [|congruence].
    apply (next_buffer_values last c b e Hinv Hre).
Qed.

Lemma next_fuel_values : forall fuel last c c' r,
  syncInv last c -> readyInv c ->
  Sync.next_fuel fuel c = Some (c', r) ->
  match r with
  | Ok (rn, Some v) =>
      Valid rn = true /\ cmp 7 last rn = -1 /\ syncInv rn c' /\ readyInv c'
      /\ restKept c = v :: restKept c' /\ Sync.selectAs c' = Sync.selectAs c
  | Ok (rn, None) => restKept c = [] /\ Sync.rgs c' = [] /\ Sync.currRowGroup c' = None
  | _ => False
  end.
Proof.
  induction fuel as [|fuel IH]; intros last c c' r Hinv Hre E; [discriminate|].
  cbn [Sync.next_fuel] in E.
  pose proof (next_body_post last c Hinv) as Hpost.
  pose proof (next_body_values last c Hinv Hre) as Hval.
  destruct (Sync.next_body c) as [c1|c1 r1].
  - destruct Hval as (Hre1 & Hrest1 & Hsel1). rewrite <- Hrest1, <- Hsel1.
    apply (IH last c1 c' r Hpost Hre1 E).
  - injection E as -> ->. destruct r as [[rn [v|]]|e|]; cbn in Hval, Hpost; auto.
    destruct Hval as (Hv & Hre1 & Hrest & Hsel). destruct (Hpost Hv) as (Hlt & Hinv1).
    split_ands; auto.
Qed.

(** Once the row groups are used up, [Next] returns nil and leaves the
    iterator as it is. *)
Lemma exhausted_Next c :
  Sync.rgs c = [] -> Sync.currRowGroup c = None -> Sync.Next c = (c, Ok None).
Proof.
  intros Hr Hg. unfold Sync.Next, Sync.next. cbn [Sync.next_fuel].
  unfold Sync.next_body, Sync.next_rowGroup, Sync.popRowGroup. rewrite Hg, Hr. reflexivity.
Qed.

Lemma set_at_inv rn c a s v :
  syncInv rn c -> readyInv c ->
  Entries a = entriesFor (Sync.selectAs c) v ->
  syncInv rn (Sync.set_at_ c a) /\ readyInv (Sync.set_at_ c a)
  /\ restKept (Sync.set_at_ c a) = restKept c
  /\ (Sync.selectAs c = s -> Sync.selectAs (Sync.set_at_ c a) = s).
Proof.
  intros Hinv Hre Ha. split_ands.
  - destruct Hinv as [b H1|b x H1|b e H1];
      [eapply inv_closed|eapply inv_chunk|eapply inv_page];
      unfold closedInv, chunkInv, pageInv, pending, unread in *; sync_proj; exact H1.
  - unfold readyInv, pending, unread in *. sync_proj.
    destruct Hre as (H1 & H2 & H3 & H4 & H5 & H6 & _). split_ands; auto. exists v. exact Ha.
  - unfold restKept, pending, unread. sync_proj. reflexivity.
  - intros <-. reflexivity.
Qed.

(** [Next] gives the first of the values still to give, under the name
    selected, or nil for good when there is none. *)
Lemma Sync_Next_values last c :
  syncInv last c -> readyInv c ->
  exists c',
    match restKept c with
    | [] => Sync.Next c = (c', Ok None) /\ Sync.Next c' = (c', Ok None)
    | v :: vs =>
        exists r, Sync.Next c = (c', Ok (Some r))
                  /\ Entries r = entriesFor (Sync.selectAs c) v
                  /\ syncInv (ir_RowNumber r) c' /\ readyInv c'
                  /\ restKept c' = vs /\ Sync.selectAs c' = Sync.selectAs c
    end.
Proof.
  intros Hinv Hre.
  destruct (next_total c) as (c1 & r & Ef & En & Hr).
  pose proof (next_fuel_values _ last c c1 r Hinv Hre Ef) as Hv.
  unfold Sync.Next. rewrite En.
  destruct r as [[rn [v|]]|e|]; try contradiction.
  - destruct Hv as (Hvalid & Hlt & Hinv1 & Hre1 & Hrest & Hsel).
    rewrite Hrest, Hvalid. cbn [negb].
    pose proof Hre1 as (_ & _ & _ & _ & _ & _ & (w & Hat)).
    unfold Sync.makeResult. cbv zeta. cbn [Entries with_RowNumber]. rewrite Hat.
    unfold entriesFor at 1 2. rewrite <- Hsel.
    destruct (String.eqb (Sync.selectAs c1) EmptyString) eqn:Es.
    + set (a := with_RowNumber (Sync.at_ c1) rn).
      assert (Ha : Entries a = entriesFor (Sync.selectAs c1) v).
      { unfold a, entriesFor. cbn [Entries with_RowNumber]. rewrite Hat.
        unfold entriesFor. rewrite Es. reflexivity. }
      destruct (set_at_inv rn c1 a (Sync.selectAs c1) v Hinv1 Hre1 Ha) as (I1 & I2 & I3 & I4).
      exists (Sync.set_at_ c1 a), a. split_ands; auto.
      unfold entriesFor in Ha. rewrite Es in Ha. exact Ha.
    + set (a := mkResult rn [(Sync.selectAs c1, v)] (OtherEntries (with_RowNumber (Sync.at_ c1) rn))).
      assert (Ha : Entries a = entriesFor (Sync.selectAs c1) v).
      { unfold a, entriesFor. cbn [Entries]. rewrite Es. reflexivity. }
      destruct (set_at_inv rn c1 a (Sync.selectAs c1) v Hinv1 Hre1 Ha) as (I1 & I2 & I3 & I4).
      exists (Sync.set_at_ c1 a), a. split_ands; auto.
  - destruct Hv as (Hrest & Hrgs & Hg). rewrite Hrest, Hr. cbn.
    exists c1. split; [reflexivity|]. apply exhausted_Next; assumption.
Qed.

Lemma rowGroupBounds_length : forall rgs rn,
  List.length (snd (Sync.rowGroupBounds rn rgs)) = List.length rgs.
Proof.
  induction rgs as [|rg rgs IH]; intros rn; [reflexivity|].
  cbn [Sync.rowGroupBounds]. specialize (IH (RowNumber_Skip rn (rg_NumRows rg))).
  destruct (Sync.rowGroupBounds (RowNumber_Skip rn (rg_NumRows rg)) rgs) as [mins maxs].
  cbn [snd List.length] in *. rewrite IH. reflexivity.
Qed.

Lemma declaredOpt_state opts : forall it,
  Forall declaredOpt opts ->
  let it' := fold_left (fun i opt => opt i) opts it in
  Sync.rgsMax it' = Sync.rgsMax it
  /\ Sync.currPage it' = Sync.currPage it
  /\ Sync.currValues it' = Sync.currValues it
  /\ Sync.currChunk it' = Sync.currChunk it
  /\ Sync.at_ it' = Sync.at_ it.
Proof.
  induction opts as [|o opts IH]; intros it Ho; [repeat split; reflexivity|].
  apply Forall_cons_iff in Ho. destruct Ho as (H1 & H2). cbn [fold_left].
  destruct (IH (o it) H2) as (E1 & E2 & E3 & E4 & E5). cbv zeta.
  rewrite E1, E2, E3, E4, E5.
  destruct H1; repeat split; reflexivity.
Qed.

(** A new iterator over readable row groups is ready, and has every
    value the filter keeps still to give. *)
Lemma NewSyncIterator_ready rgs column opts :
  Forall declaredOpt opts ->
  readable column rgs ->
  (0 < Sync.readSize (Sync.NewSyncIterator rgs column opts))%nat ->
  readyInv (Sync.NewSyncIterator rgs column opts)
  /\ restKept (Sync.NewSyncIterator rgs column opts)
     = columnKept (Sync.filter (Sync.NewSyncIterator rgs column opts)) column rgs.
Proof.
  intros Ho Hrd. unfold Sync.NewSyncIterator.
  pose proof (rowGroupBounds_length rgs EmptyRowNumber) as Hlen.
  destruct (Sync.rowGroupBounds EmptyRowNumber rgs) as [mins maxs]. cbn [snd] in Hlen.
  match goal with
  | |- context [fold_left ?f opts ?i] =>
      destruct (declaredOpt_fields opts i Ho) as (E1 & E2 & E3 & E4);
      destruct (declaredOpt_state opts i Ho) as (F1 & F2 & F3 & F4 & F5);
      set (it := fold_left f opts i) in *
  end.
  cbn [Sync.column Sync.rgs Sync.rgsMin Sync.currRowGroup Sync.rgsMax Sync.currPage
       Sync.currValues Sync.currChunk Sync.at_] in E1, E2, E3, E4, F1, F2, F3, F4, F5.
  unfold readyInv, restKept, entriesFor.
  destruct (String.eqb (Sync.selectAs it) EmptyString) eqn:Es; sync_proj;
    rewrite ?E1, ?E2, ?E3, ?E4, ?F1, ?F2, ?F3, ?F4, ?F5, ?Es; intros Hrs;
    (split; [split_ands; auto; try congruence|reflexivity]).
  - exists zeroValue. reflexivity.
  - exists zeroValue. reflexivity.
Qed.

Lemma Sync_results_values : forall n last c,
  syncInv last c -> readyInv c ->
  map Entries (results Sync.Next n c)
  = map (entriesFor (Sync.selectAs c)) (firstn n (restKept c)).
Proof.
  induction n as [|n IH]; intros last c Hinv Hre; [reflexivity|].
  cbn [results]. destruct (Sync_Next_values last c Hinv Hre) as (c' & Hn).
  destruct (restKept c) as [|v vs].
  - destruct Hn as (-> & _). reflexivity.
  - destruct Hn as (r & -> & He & Hinv' & Hre' & Hrest & Hsel).
    cbn [map firstn]. rewrite He. f_equal.
    rewrite (IH _ c' Hinv' Hre'), Hrest, Hsel. reflexivity.
Qed.

Lemma Sync_exhaustion : forall vs last c,
  syncInv last c -> readyInv c -> restKept c = vs ->
  exists c',
    Sync.Next (stateAfter Sync.Next (List.length vs) c) = (c', Ok None)
    /\ Sync.Next c' = (c', Ok None).
Proof.
  induction vs as [|v vs IH]; intros last c Hinv Hre Hrest;
    destruct (Sync_Next_values last c Hinv Hre) as (c' & Hn); rewrite Hrest in Hn.
  - exists c'. exact Hn.
  - destruct Hn as (r & En & He & Hinv' & Hre' & Hrest' & Hsel).
    cbn [List.length stateAfter]. rewrite En.
    apply (IH _ c' Hinv' Hre' Hrest').
Qed.

(** X21. A [SyncIterator] built by [NewSyncIterator] with the declared
    options and a read buffer that is not empty, over well-formed row
    groups that are read without I/O errors, gives every value of the
    column exactly once and in order: the results of the first [n] calls
    of [Next] are the first [n] values the filter keeps (the values kept
    of the pages kept of the column chunks kept, all values without a
    filter), each as the one entry under the name given with
    [SyncIteratorOptSelectAs], or without entry when no name is given. *)
Theorem Sync_Next_all_values (rgs : list RowGroup) (column : nat)
        (opts : list Sync.SyncIteratorOpt) (n : nat) :
  Forall declaredOpt opts ->
  wellFormed column rgs ->
  readable column rgs ->
  (0 < Sync.readSize (Sync.NewSyncIterator rgs column opts))%nat ->
  map Entries (results Sync.Next n (Sync.NewSyncIterator rgs column opts))
  = map (entriesFor (Sync.selectAs (Sync.NewSyncIterator rgs column opts)))
        (firstn n (columnKept (Sync.filter (Sync.NewSyncIterator rgs column opts)) column rgs)).
Proof.
  intros Ho Hwf Hrd Hrs.
  destruct (NewSyncIterator_ready rgs column opts Ho Hrd Hrs) as (Hre & Hrest).
  rewrite <- Hrest.
  apply (Sync_results_values n EmptyRowNumber).
  - apply NewSyncIterator_inv; assumption.
  - exact Hre.
Qed.

Lemma Sync_Next_all_values_witness :
  map Entries (results Sync.Next 5
                 (Sync.NewSyncIterator twoRowGroups 0 [Sync.SyncIteratorOptSelectAs "x"]))
  = [[("x", bytesValue "a")]; [("x", bytesValue "b")]; [("x", bytesValue "c")]]%string.
Proof.
  apply (Sync_Next_all_values twoRowGroups 0 [Sync.SyncIteratorOptSelectAs "x"%string] 5).
  - repeat constructor.
  - unfold wellFormed, rowGroupOK, chunkOK, readOK, pageOK, valueOK, twoRowGroups, MaxInt32.
    cbn. repeat split; repeat constructor; cbn; lia.
  - unfold readable, twoRowGroups. repeat constructor; eexists; (split; [reflexivity|]);
      repeat constructor.
  - cbn. lia.
Defined.

(** X22. Under the same conditions, once every value has been given
    [Next] returns nil, and from then on it returns nil at every call and
    leaves the iterator as it is. *)
Theorem Sync_Next_exhaustion_permanent (rgs : list RowGroup) (column : nat)
        (opts : list Sync.SyncIteratorOpt) :
  Forall declaredOpt opts ->
  wellFormed column rgs ->
  readable column rgs ->
  (0 < Sync.readSize (Sync.NewSyncIterator rgs column opts))%nat ->
  exists c',
    Sync.Next (stateAfter Sync.Next
                 (List.length (columnKept (Sync.filter (Sync.NewSyncIterator rgs column opts))
                                          column rgs))
                 (Sync.NewSyncIterator rgs column opts))
    = (c', Ok None)
    /\ Sync.Next c' = (c', Ok None).
Proof.
  intros Ho Hwf Hrd Hrs.
  destruct (NewSyncIterator_ready rgs column opts Ho Hrd Hrs) as (Hre & Hrest).
  apply (Sync_exhaustion _ EmptyRowNumber).
  - apply NewSyncIterator_inv; assumption.
  - exact Hre.
  - exact Hrest.
Qed.

Lemma Sync_Next_exhaustion_permanent_witness :
  exists c',
    Sync.Next (stateAfter Sync.Next 3 (Sync.NewSyncIterator twoRowGroups 0 []))
    = (c', Ok None)
    /\ Sync.Next c' = (c', Ok None).
Proof.
  apply (Sync_Next_exhaustion_permanent twoRowGroups 0 []).
  - constructor.
  - unfold wellFormed, rowGroupOK, chunkOK, readOK, pageOK, valueOK, twoRowGroups, MaxInt32.
    cbn. repeat split; repeat constructor; cbn; lia.
  - unfold readable, twoRowGroups. repeat constructor; eexists; (split; [reflexivity|]);
      repeat constructor.
  - cbn. lia.
Defined.

(* ================================================================== *)
(** * The entries of the results of JoinIterator *)






Section JoinEntries.
Context {It : Type} `{IteratorContract It}.
Variable d : nat.
Hypothesis Hd : (d <= 7)%nat.

End JoinEntries.



(* ================================================================== *)
(** * Termination and edge cases *)

(** X24. The loops of [SyncIterator.next] and [SyncIterator.SeekTo] come
    to an end in every state, whatever the data and the filter: a round
    of the loop of [next] that does not return uses up a value, a page or
    a row group, so that it returns within [weight c + 1] rounds, and the
    loops of [SeekTo] return within the rounds the embedding gives them. *)
Theorem Sync_loops_terminate (to : RowNumber) (d : nat) (c : Sync.SyncIterator) :
  (exists r, Sync.next_fuel (S (Sync.weight c)) c = Some r /\ Sync.next c = r)
  /\ (exists r, Sync.SeekTo_fuel to d c = Some r /\ Sync.SeekTo to d c = r).
Proof.
  split.
  - destruct (next_total c) as (c' & r & E & En & _). exists (c', r). auto.
  - destruct (SeekTo_fuel_enough to d c) as (r & E). exists r. split; [exact E|].
    unfold Sync.SeekTo. rewrite E. reflexivity.
Qed.

(** X25. A [JoinIterator] over no children panics in [Next] and in
    [SeekTo], on [peeks[0]]; a [UnionIterator] over no children is
    exhausted from the start. *)
Theorem composite_without_children {It : Type} `{Iterator It}
        (d dl fuel : nat) (t : RowNumber)
        (pred : option GroupPredicate) (pools : list ResultPool) :
  (exists j, Join.Next (S fuel)
               (Join.NewJoinIterator (It := It) dl [] pred (map Join.WithPool pools))
             = Some (j, Panic))
  /\ (exists j, Join.SeekTo (S fuel) t d
                  (Join.NewJoinIterator (It := It) dl [] pred (map Join.WithPool pools))
                = Some (j, Panic))
  /\ (exists u, Union.Next (S fuel) (Union.NewUnionIterator (It := It) dl [] pred)
                = Some (u, Ok None)).
Proof.
  assert (Hi : forall ps (j0 : Join.JoinIterator (It := It)),
             Join.iters j0 = [] -> Join.peeks j0 = [] ->
             Join.iters (fold_left (fun j opt => opt j) (map Join.WithPool ps) j0) = []
             /\ Join.peeks (fold_left (fun j opt => opt j) (map Join.WithPool ps) j0) = []).
  { induction ps as [|p ps IH]; intros j0 H1 H2; [auto|]. cbn [map fold_left]. apply IH; auto. }
  assert (Hn : forall (j0 : Join.JoinIterator (It := It)),
             Join.iters j0 = [] -> Join.peeks j0 = [] ->
             exists j, Join.Next (S fuel) j0 = Some (j, Panic)).
  { intros j0 H1 H2. cbn [Join.Next]. unfold alignChildren, Join.children.
    rewrite H1, H2. cbn. eauto. }
  unfold Join.NewJoinIterator. cbv zeta.
  match goal with
  | |- context [fold_left ?f ?l ?a] =>
      destruct (Hi pools a eq_refl eq_refl) as (H1 & H2); set (j0 := fold_left f l a) in *
  end.
  split_ands.
  - apply Hn; assumption.
  - unfold Join.SeekTo, Join.seekAll.
    destruct (TruncateRowNumber d t) as [t'|]; [|eauto].
    cbn [Join.set_at_ Join.iters]. rewrite H1. cbn [List.length Join.seekAll_loop].
    apply Hn; cbn; assumption.
  - cbn. eauto.
Qed.

(* ------------------------------------------------------------------ *)
(** ** KeyValueGroupPredicate built from lists of different lengths *)

Lemma kv_all_missing a keys vals : forall n i,
  (i <= List.length (kv_vals a))%nat ->
  (List.length (kv_vals a) < i + n)%nat ->
  (i + n <= List.length (kv_keys a))%nat ->
  (forall i' k v, (i <= i')%nat ->
                  nth_error (kv_keys a) i' = Some k -> nth_error (kv_vals a) i' = Some v ->
                  pairAt k v keys vals) ->
  kv_all n i a keys vals = None.
Proof.
  induction n as [|n IH]; intros i Hi Hn Hk Hall; [lia|].
  cbn [kv_all].
  destruct (nth_error (kv_keys a) i) as [k|] eqn:Ek;
    [|apply nth_error_None in Ek; lia].
  destruct (nth_error (kv_vals a) i) as [v|] eqn:Ev; [|reflexivity].
  assert (Hlt : (i < List.length (kv_vals a))%nat).
  { apply nth_error_Some. congruence. }
  rewrite (proj2 (kv_found_pairAt k v keys vals) (Hall i k v (le_n i) Ek Ev)).
  apply IH; auto; try lia.
  intros i' k' v' Hi'. apply Hall. lia.
Qed.

(** X26. A predicate built with fewer values than keys makes [KeepGroup]
    panic, on [a.vals[i]], for every group that passes the length guard
    and holds the pairs that are complete. *)
Theorem KeepGroup_missing_value (keys values : list string) (group : IteratorResult) :
  (List.length values < List.length keys)%nat ->
  List.length (column_of group "keys") = List.length (column_of group "values") ->
  (List.length keys <= List.length (column_of group "keys"))%nat ->
  (forall i k v,
     nth_error keys i = Some k -> nth_error values i = Some v ->
     pairAt (list_byte_of_string k) (list_byte_of_string v)
            (column_of group "keys") (column_of group "values")) ->
  KeepGroup (NewKeyValueGroupPredicate keys values) group = None.
Proof.
  intros Hlt Hcols Hge Hall. unfold KeepGroup. rewrite Columns_keys_values.
  set (ks := column_of group "keys") in *. set (vs := column_of group "values") in *.
  set (a := NewKeyValueGroupPredicate keys values).
  assert (Hka : List.length (kv_keys a) = List.length keys) by (cbn; apply length_map).
  assert (Hva : List.length (kv_vals a) = List.length values) by (cbn; apply length_map).
  rewrite Hka.
  destruct (Nat.ltb_spec (List.length ks) (List.length keys)) as [Hl|_]; [lia|]. cbn [orb].
  destruct (Nat.eqb_spec (List.length ks) (List.length vs)) as [_|Hne]; [|lia]. cbn [negb].
  apply kv_all_missing; try lia.
  intros i k v _ Hk Hv. cbn in Hk, Hv. rewrite nth_error_map in Hk, Hv.
  destruct (nth_error keys i) as [k'|] eqn:Ek'; [|discriminate].
  destruct (nth_error values i) as [v'|] eqn:Ev'; [|discriminate].
  injection Hk as <-. injection Hv as <-. eapply Hall; eauto.
Qed.

Lemma KeepGroup_missing_value_witness :
  KeepGroup (NewKeyValueGroupPredicate ["a"] [])%string groupA1 = None.
Proof.
  apply (KeepGroup_missing_value ["a"%string] [] groupA1).
  - cbn. lia.
  - reflexivity.
  - cbn. lia.
  - intros i k v _ Hv. destruct i; discriminate.
Defined.

Lemma kv_all_firstn a a' keys vals : forall n i,
  kv_keys a' = kv_keys a ->
  (forall i', (i' < i + n)%nat -> nth_error (kv_vals a') i' = nth_error (kv_vals a) i') ->
  kv_all n i a' keys vals = kv_all n i a keys vals.
Proof.
  induction n as [|n IH]; intros i Hk Hv; [reflexivity|].
  cbn [kv_all]. rewrite Hk, (Hv i) by lia.
  destruct (nth_error (kv_keys a) i) as [k|]; [|reflexivity].
  destruct (nth_error (kv_vals a) i) as [v|]; [|reflexivity].
  destruct (kv_found k v keys vals); [|reflexivity].
  apply IH; auto. intros i' Hi'. apply Hv. lia.
Qed.

(** X27. A predicate built with more values than keys ignores the values
    beyond the keys: [KeepGroup] answers as for the predicate built from
    the keys and as many values. *)
Theorem KeepGroup_surplus_values (keys values : list string) (group : IteratorResult) :
  (List.length keys <= List.length values)%nat ->
  KeepGroup (NewKeyValueGroupPredicate keys values) group
  = KeepGroup (NewKeyValueGroupPredicate keys (firstn (List.length keys) values)) group.
Proof.
  intros Hle. unfold KeepGroup.
  destruct (Columns group ["keys"; "values"]%string) as [|ks [|vs [|x l]]]; try reflexivity.
  unfold NewKeyValueGroupPredicate. cbn [kv_keys].
  destruct (_ || _); [reflexivity|].
  symmetry. apply kv_all_firstn; [reflexivity|].
  intros i Hi. cbn [kv_vals kv_keys Nat.add] in *. rewrite length_map in Hi.
  rewrite !nth_error_map. rewrite nth_error_firstn_lt by exact Hi. reflexivity.
Qed.

Lemma KeepGroup_surplus_values_witness :
  KeepGroup (NewKeyValueGroupPredicate ["a"] ["1"; "2"])%string groupA1
  = KeepGroup (NewKeyValueGroupPredicate ["a"] (firstn 1 ["1"; "2"]))%string groupA1.
Proof.
  apply (KeepGroup_surplus_values ["a"%string] ["1"; "2"]%string groupA1). cbn. lia.
Defined.

(* ================================================================== *)
(** * The entries of the results of LeftJoinIterator *)



Section LeftJoinEntries.
Context {It : Type} `{IteratorContract It}.
Variable d : nat.
Hypothesis Hd : (d <= 7)%nat.



End LeftJoinEntries.

Section LeftJoinEntriesNext.
Context {It : Type} `{IteratorContract It}.
Variable d : nat.
Hypothesis Hd : (d <= 7)%nat.

End LeftJoinEntriesNext.



(* ================================================================== *)
(** * The row numbers the SyncIterator gives *)

Lemma columnNumbered_start f m column b : forall rgs mins,
  chain column b rgs mins ->
  columnNumbered f m column (match mins with mn :: _ => rn0 mn | [] => 0 end) rgs
  = columnNumbered f m column b rgs.
Proof.
  intros [|rg rgs] mins Hch; [reflexivity|].
  destruct mins as [|mn mins]; [contradiction|].
  destruct Hch as (-> & _). reflexivity.
Qed.

Lemma rowAt_rn0 x : mkRN x (-1) (-1) (-1) (-1) (-1) (-1) (-1) = rowAt x.
Proof. reflexivity. Qed.

(** The inner loop of [next] gives the first value kept with its row
    number. *)
Lemma next_consume_rows : forall vs c last b e,
  pageInv last c b e -> readyInv c -> unread c = vs ->
  rowsPost (restNumbered c) (Sync.next_consume vs c).
Proof.
  induction vs as [|v vs IH]; intros c last b e Hinv Hre Hu.
  - cbn. auto.
  - cbn [Sync.next_consume].
    destruct Hinv as (Hrg & (cc & Hcc & Hcok & Hcb) & Hpg & Hvals & Hmax & He & Hok & Hlo & Hrows
                      & Hlv & Hl0 & Hord & Hch).
    destruct Hre as (Hval & Herr & Hcl & Hrd & Hmx & Hrs & Hat).
    assert (Hp : pending c
                 = v :: vs ++ match Sync.currValues c with
                              | Some r => reader_values r
                              | None => []
                              end).
    { unfold pending. rewrite Hu. reflexivity. }
    rewrite Hp in *. cbn [rowsOf List.length startsRow] in *.
    apply Forall_cons_iff in Hok. destruct Hok as (Hv & Hok').
    destruct (RowNumber_Next (Sync.curr c) (RepetitionLevel v) (DefinitionLevel v)
                             (Sync.maxDefinitionLevel c)) as [rn|] eqn:EN.
    2:{ apply RowNumber_Next_None_iff in EN. destruct Hv. lia. }
    set (c1 := Sync.set_currPageN
                 (Sync.set_currBufN (Sync.set_curr c rn) (S (Sync.currBufN (Sync.set_curr c rn))))
                 (S (Sync.currPageN
                       (Sync.set_currBufN (Sync.set_curr c rn)
                                          (S (Sync.currBufN (Sync.set_curr c rn))))))).
    assert (Hu1 : unread c1 = vs).
    { unfold unread, c1 in *. sync_proj. eapply skipn_S_tail. exact Hu. }
    assert (Hp1 : pending c1
                  = vs ++ match Sync.currValues c with
                          | Some r => reader_values r
                          | None => []
                          end).
    { unfold pending. rewrite Hu1. reflexivity. }
    pose proof (rowsOf_nonneg (vs ++ match Sync.currValues c with
                                     | Some r => reader_values r
                                     | None => []
                                     end)) as Hrn.
    pose proof (chunkRows_nonneg cc Hcok) as Hcn.
    pose proof (chain_bound _ _ _ _ Hch) as Hbb.
    assert (Hhi : rn0 (Sync.curr c) < MaxInt32).
    { destruct (Nat.eqb (RepetitionLevel v) 0); lia. }
    destruct (RowNumber_Next_above _ v _ rn _ Hv Hlo Hhi Hlv EN) as (Habove & Hrn0 & Hlv1).
    assert (Hinv1 : pageInv rn c1 b e).
    { unfold pageInv. rewrite Hp1. unfold c1. sync_proj.
      split_ands; auto; try lia; try (exists cc; auto; fail);
        try (destruct (Nat.eqb (RepetitionLevel v) 0); lia).
      left. rewrite cmp_refl. discriminate. }
    assert (Hre1 : readyInv c1).
    { unfold readyInv. rewrite Hp1. unfold c1. sync_proj.
      split_ands; auto. intros _.
      destruct (Nat.eqb_spec (RepetitionLevel v) 0) as [E0|E0]; [left; lia|].
      destruct (Hval Hpg) as [H0|H0]; [left; lia|contradiction]. }
    assert (Hrest : restNumbered c
                    = (if keepsValue (Sync.filter c) v then [(rn, v)] else [])
                      ++ restNumbered c1).
    { unfold restNumbered. rewrite Hp1. unfold c1. sync_proj.
      destruct (Sync.currRowGroup c); [|congruence].
      destruct (Sync.currPage c); [|congruence].
      rewrite Hp. cbn [numberFrom]. rewrite EN. unfold keptNumbered. cbn [List.filter snd].
      destruct (keepsValue (Sync.filter c) v); reflexivity. }
    change (Sync.curr c1) with rn.
    rewrite rejectsValue_keeps. change (Sync.filter c1) with (Sync.filter c).
    rewrite Hrest.
    destruct (keepsValue (Sync.filter c) v); cbn [negb].
    + unfold rowsPost. reflexivity.
    + cbn [app]. apply (IH c1 rn b e Hinv1 Hre1 Hu1).
Qed.

(** The buffer part of the loop of [next]. *)
Lemma next_buffer_rows last c b e :
  pageInv last c b e -> readyInv c ->
  rowsPost (restNumbered c)
    (Sync.next_buffer c (fun c =>
       Sync.next_consume (skipn (Sync.currBufN c)
                                (match Sync.currBuf c with Some b => b | None => [] end)) c)).
Proof.
  intros Hinv Hre. unfold Sync.next_buffer. cbv zeta.
  set (c0 := match Sync.currBuf c with
             | Some _ => c
             | None => Sync.set_currBuf c (Some [])
             end).
  assert (Hinv0 : pageInv last c0 b e).
  { unfold c0. destruct (Sync.currBuf c) as [buf|] eqn:Eb; [exact Hinv|].
    unfold pageInv, pending, unread in *. sync_proj. rewrite Eb in Hinv.
    rewrite !skipn_nil in *. exact Hinv. }
  assert (Hre0 : readyInv c0).
  { unfold c0. destruct (Sync.currBuf c) as [buf|] eqn:Eb; [exact Hre|].
    unfold readyInv, pending, unread in *. sync_proj. rewrite Eb in Hre.
    rewrite !skipn_nil in *. exact Hre. }
  assert (Hrest0 : restNumbered c0 = restNumbered c).
  { unfold c0. destruct (Sync.currBuf c) as [buf|] eqn:Eb; [reflexivity|].
    unfold restNumbered, nextStart, pending, unread. sync_proj.
    rewrite Eb, !skipn_nil. reflexivity. }
  rewrite <- Hrest0.
  clearbody c0. clear Hinv Hre Hrest0 c.
  destruct ((List.length match Sync.currBuf c0 with
                         | Some b0 => b0
                         | None => []
                         end <=? Sync.currBufN c0)%nat
            || (List.length match Sync.currBuf c0 with
                            | Some b0 => b0
                            | None => []
                            end =? 0)%nat) eqn:Econd.
  2:{ apply (next_consume_rows _ c0 last b e Hinv0 Hre0). reflexivity. }
  assert (Hun : unread c0 = []).
  { unfold unread. apply orb_true_iff in Econd. destruct Econd as [Ec|Ec].
    - apply skipn_all2. apply Nat.leb_le. exact Ec.
    - apply Nat.eqb_eq in Ec. apply length_zero_iff_nil in Ec. rewrite Ec. apply skipn_nil. }
  pose proof Hinv0 as (Hrg & (cc & Hcc & Hcok & Hcb) & Hpg & Hvals & Hmax & He & Hok & Hlo & Hrows
                       & Hlv & Hl0 & Hord & Hch).
  pose proof Hre0 as (Hval & Herr & Hcl & Hrd & Hmx & Hrs & Hat).
  destruct (Sync.currValues c0) as [r|] eqn:Er; [|congruence].
  assert (Hp : pending c0 = reader_values r).
  { unfold pending. rewrite Hun, Er. reflexivity. }
  assert (Hk0 : restNumbered c0
                = keptNumbered (Sync.filter c0)
                               (numberFrom (Sync.maxDefinitionLevel c0) (Sync.curr c0)
                                           (reader_values r))
                  ++ chunkNumbered (Sync.filter c0) (Sync.maxDefinitionLevel c0)
                                   (rn0 (Sync.currPageMax c0) - 1) cc
                  ++ columnNumbered (Sync.filter c0) (Sync.maxDefinitionLevel c0)
                                    (Sync.column c0) (nextStart c0) (Sync.rgs c0)).
  { unfold restNumbered. rewrite Hp, Hcc.
    destruct (Sync.currRowGroup c0); [|congruence].
    destruct (Sync.currPage c0); [|congruence]. rewrite <- app_assoc. reflexivity. }
  unfold ReadValues.
  destruct (reader_values r) as [|x rest] eqn:Erv.
  - rewrite Hk0, Herr. cbv beta iota. unfold rowsPost.
    unfold restNumbered, nextStart, Sync.setPage. cbv zeta. sync_proj.
    destruct (Sync.currPage c0) as [p|] eqn:Ep; [|congruence]. sync_proj.
    destruct (Sync.currRowGroup c0) as [rg|] eqn:Erg; [|congruence].
    rewrite Hcc, Hmax. unfold keptNumbered. cbn [numberFrom List.filter app].
    pose proof (chunkRows_nonneg cc Hcok) as Hcn.
    pose proof (chain_bound _ _ _ _ Hch) as Hbb.
    rewrite Preceding_rowAt by lia. cbn [rowAt rn0]. repeat f_equal; lia.
  - set (vs := firstn (Sync.readSize c0) (x :: rest)).
    assert (Evs : vs = x :: firstn (Sync.readSize c0 - 1) rest).
    { unfold vs. destruct (Sync.readSize c0) as [|n]; [lia|].
      cbn [firstn]. f_equal. f_equal. lia. }
    rewrite Evs. cbv beta iota.
    set (c3 := Sync.set_currBufN
                 (Sync.set_currBuf
                    (Sync.set_currValues c0
                       (Some (mkReader (skipn (Sync.readSize c0) (x :: rest)) (reader_err r))))
                    (Some (x :: firstn (Sync.readSize c0 - 1) rest))) 0).
    assert (Hp3 : pending c3 = x :: rest).
    { unfold pending, unread, c3. sync_proj. cbn [skipn reader_values].
      rewrite <- Evs. unfold vs. apply firstn_skipn. }
    assert (Hinv3 : pageInv last c3 b e).
    { unfold pageInv. rewrite Hp3. rewrite Hp in *. unfold c3. sync_proj.
      split_ands; auto. - exists cc. auto. - discriminate. }
    assert (Hre3 : readyInv c3).
    { unfold readyInv. rewrite Hp3. rewrite Hp in *. unfold c3. sync_proj.
      split_ands; auto. }
    assert (Hrest3 : restNumbered c3 = restNumbered c0).
    { rewrite Hk0. unfold restNumbered, nextStart. rewrite Hp3. unfold c3. sync_proj.
      rewrite Hcc.
      destruct (Sync.currRowGroup c0); [|congruence].
      destruct (Sync.currPage c0); [|congruence]. rewrite <- app_assoc. reflexivity. }
    rewrite <- Hrest3.
    apply (next_consume_rows _ c3 last b e Hinv3 Hre3). reflexivity.
Qed.

(** The page part of the loop of [next]. *)
Lemma next_page_rows last c b x :
  chunkInv last c b x -> readyInv c ->
  rowsPost (restNumbered c)
    (Sync.next_page c (fun c =>
       Sync.next_buffer c (fun c =>
         Sync.next_consume (skipn (Sync.currBufN c)
                                  (match Sync.currBuf c with Some b => b | None => [] end)) c))).
Proof.
  intros (Hrg & (cc & Hcc & Hcok & Hcb) & Hpg & Hbuf & Hcurr & Hx & Hl & Hch)
         (Hval & Herr & Hcl & Hrd & Hmx & Hrs & Hat).
  pose proof (chunkRows_nonneg cc Hcok) as Hcn.
  pose proof (chain_bound _ _ _ _ Hch) as Hbb.
  assert (Hk : restNumbered c
               = chunkNumbered (Sync.filter c) (Sync.maxDefinitionLevel c) x cc
                 ++ columnNumbered (Sync.filter c) (Sync.maxDefinitionLevel c) (Sync.column c)
                                   (nextStart c) (Sync.rgs c)).
  { unfold restNumbered. rewrite Hpg, Hcc, Hcurr.
    destruct (Sync.currRowGroup c); [|congruence]. reflexivity. }
  rewrite Hk. rewrite Hcc in Hcl.
  unfold Sync.next_page. rewrite Hpg, Hcc.
  destruct cc as [|[p|err] rest]; cbn [NextPage]; cbv beta iota zeta.
  - (* the row group is exhausted *)
    unfold rowsPost, restNumbered, nextStart, Sync.closeCurrRowGroup, Sync.setPage.
    cbv zeta. sync_proj. rewrite Hpg. sync_proj. reflexivity.
  - apply Forall_cons_iff in Hcok. destruct Hcok as (Hp & Hrest).
    apply Forall_cons_iff in Hcl. destruct Hcl as (Hperr & Hclrest).
    pose proof Hp as (Hvok & Hstart & Hrows & Hn1 & Hlen).
    pose proof (chunkRows_nonneg rest Hrest) as Hrn.
    cbn [chunkRows] in Hcb. cbn [chunkNumbered]. unfold pageNumbered.
    rewrite rejectsPage_keeps. sync_proj.
    destruct (keepsPage (Sync.filter c) p); cbn [negb].
    + set (c2 := Sync.setPage (Sync.set_currChunk c (Some rest)) (Some p)).
      assert (Hinv2 : pageInv last c2 b (x + page_NumRows p)).
      { unfold c2, pageInv, pending, unread, Sync.setPage. cbv zeta. sync_proj.
        rewrite Hpg. sync_proj. rewrite Hbuf, Hcurr. cbn [skipn app Page_Values reader_values].
        rewrite Skip_rowAt by lia.
        split_ands; auto; try lia; try discriminate.
        * exists rest. split_ands; auto. lia.
        * f_equal. lia.
        * cbn [rowAt rn0]. lia.
        * apply levelsOK_rowAt. exact Hlen. }
      assert (Hre2 : readyInv c2).
      { unfold c2, readyInv, pending, unread, Sync.setPage. cbv zeta. sync_proj.
        rewrite Hpg. sync_proj. rewrite Hbuf. cbn [skipn app Page_Values reader_values].
        split_ands; auto. }
      assert (Hrest2 : restNumbered c2
                       = (keptNumbered (Sync.filter c)
                            (numberFrom (Sync.maxDefinitionLevel c) (rowAt x) (page_values p))
                          ++ chunkNumbered (Sync.filter c) (Sync.maxDefinitionLevel c)
                                           (x + page_NumRows p) rest)
                         ++ columnNumbered (Sync.filter c) (Sync.maxDefinitionLevel c)
                                           (Sync.column c) (nextStart c) (Sync.rgs c)).
      { unfold c2, restNumbered, nextStart, pending, unread, Sync.setPage. cbv zeta. sync_proj.
        rewrite Hpg. sync_proj. rewrite Hbuf, Hcurr.
        cbn [skipn app Page_Values reader_values].
        rewrite Skip_rowAt by lia.
        destruct (Sync.currRowGroup c); [|congruence].
        cbn [rowAt rn0].
        replace (x + (page_NumRows p + 1) - 1) with (x + page_NumRows p) by lia.
        reflexivity. }
      rewrite rowAt_rn0, <- Hrest2.
      apply (next_buffer_rows last c2 b (x + page_NumRows p) Hinv2 Hre2).
    + (* the page is filtered out *)
      unfold rowsPost, restNumbered, nextStart. sync_proj. rewrite Hpg.
      destruct (Sync.currRowGroup c); [|congruence].
      rewrite Hcurr, Skip_rowAt by lia. cbn [app rowAt rn0]. reflexivity.
  - apply Forall_cons_iff in Hcl. destruct Hcl as ([] & _).
Qed.

(** The row group part of the loop of [next]. *)
Lemma next_rowGroup_rows last c b :
  closedInv last c b -> readyInv c ->
  rowsPost (restNumbered c)
    (Sync.next_rowGroup c (fun _ => Ok (EmptyRowNumber, None)) (fun c =>
       Sync.next_page c (fun c =>
         Sync.next_buffer c (fun c =>
           Sync.next_consume (skipn (Sync.currBufN c)
                                    (match Sync.currBuf c with Some b => b | None => [] end)) c)))).
Proof.
  intros (Hrg & Hb & Hl & Hch) (Hval & Herr & Hcl & Hrd & Hmx & Hrs & Hat).
  assert (Hk : restNumbered c
               = columnNumbered (Sync.filter c) (Sync.maxDefinitionLevel c) (Sync.column c)
                                b (Sync.rgs c)).
  { unfold restNumbered, nextStart. rewrite Hrg.
    apply columnNumbered_start. exact Hch. }
  rewrite Hk.
  unfold Sync.next_rowGroup. rewrite Hrg. unfold Sync.popRowGroup.
  destruct (Sync.rgs c) as [|rg rgs'] eqn:Ergs.
  { cbn. auto. }
  destruct (Sync.rgsMin c) as [|mn mins'] eqn:Emin; [contradiction|].
  destruct Hch as (-> & (Hn & Hok) & Hch).
  destruct (Sync.rgsMax c) as [|mx maxs'] eqn:Emax; [discriminate|].
  cbv beta iota. sync_proj.
  apply Forall_cons_iff in Hrd. destruct Hrd as ((cc & Ecc & Hclean) & Hrd).
  rewrite Ecc in *.
  destruct Hok as (Hcok & Hrows).
  pose proof (chunkRows_nonneg cc Hcok) as Hcn.
  pose proof (chain_bound _ _ _ _ Hch) as Hbb.
  cbn [columnNumbered]. rewrite Ecc.
  rewrite <- (columnNumbered_start (Sync.filter c) (Sync.maxDefinitionLevel c) (Sync.column c)
                                   (b + rg_NumRows rg) rgs' mins' Hch).
  rewrite rejectsChunk_keeps. sync_proj.
  destruct (keepsChunk (Sync.filter c) cc); cbn [negb].
  - set (c2 := Sync.setRowGroup
                 (Sync.set_rgsMax (Sync.set_rgsMin (Sync.set_rgs c rgs') mins') maxs')
                 rg (rowAt b) mx cc).
    assert (Hinv2 : chunkInv last c2 (b + rg_NumRows rg) b).
    { unfold c2, chunkInv, Sync.setRowGroup, Sync.closeCurrRowGroup, Sync.setPage. cbv zeta.
      sync_proj.
      destruct (Sync.currPage c) eqn:Ep; sync_proj;
        (split_ands; auto; try lia; try discriminate;
         try (exists cc; split_ands; auto; lia)). }
    assert (Hre2 : readyInv c2).
    { unfold c2, readyInv, Sync.setRowGroup, Sync.closeCurrRowGroup, Sync.setPage. cbv zeta.
      sync_proj. cbn [List.length] in Hmx.
      destruct (Sync.currPage c) eqn:Ep; sync_proj;
        (split_ands; auto; try congruence; try lia). }
    assert (Hrest2 : restNumbered c2
                     = chunkNumbered (Sync.filter c) (Sync.maxDefinitionLevel c) b cc
                       ++ columnNumbered (Sync.filter c) (Sync.maxDefinitionLevel c)
                                         (Sync.column c)
                                         (match mins' with mn :: _ => rn0 mn | [] => 0 end)
                                         rgs').
    { unfold c2, restNumbered, nextStart, Sync.setRowGroup, Sync.closeCurrRowGroup,
        Sync.setPage. cbv zeta.
      sync_proj. destruct (Sync.currPage c) eqn:Ep; sync_proj; rewrite ?Ep; reflexivity. }
    rewrite <- Hrest2.
    apply (next_page_rows last c2 (b + rg_NumRows rg) b Hinv2 Hre2).
  - unfold rowsPost, restNumbered, nextStart. sync_proj. rewrite Hrg.
    cbn [app]. reflexivity.
Qed.

(** One round of the loop of [next]. *)
Lemma next_body_rows last c :
  syncInv last c -> readyInv c ->
  rowsPost (restNumbered c) (Sync.next_body c).
Proof.
  intros [b Hinv|b x Hinv|b e Hinv] Hre; unfold Sync.next_body.
  - apply (next_rowGroup_rows last c b Hinv Hre).
  - pose proof Hinv as (Hrg & _).
    unfold Sync.next_rowGroup. destruct (Sync.currRowGroup c) eqn:Erg; [|congruence].
    apply (next_page_rows last c b x Hinv Hre).
  - pose proof Hinv as (Hrg & _ & Hpg & _).
    unfold Sync.next_rowGroup. destruct (Sync.currRowGroup c) eqn:Erg; [|congruence].
    unfold Sync.next_page. destruct (Sync.currPage c) eqn:Epg; [|congruence].
    apply (next_buffer_rows last c b e Hinv Hre).
Qed.

Lemma next_fuel_rows : forall fuel last c c' r,
  syncInv last c -> readyInv c ->
  Sync.next_fuel fuel c = Some (c', r) ->
  match r with
  | Ok (rn, Some v) => restNumbered c = (rn, v) :: restNumbered c'
  | Ok (rn, None) => restNumbered c = []
  | _ => True
  end.
Proof.
  induction fuel as [|fuel IH]; intros last c c' r Hinv Hre E; [discriminate|].
  cbn [Sync.next_fuel] in E.
  pose proof (next_body_post last c Hinv) as Hpost.
  pose proof (next_body_values last c Hinv Hre) as Hval.
  pose proof (next_body_rows last c Hinv Hre) as Hrow.
  destruct (Sync.next_body c) as [c1|c1 r1].
  - destruct Hval as (Hre1 & _). cbn in Hrow. rewrite <- Hrow.
    apply (IH last c1 c' r Hpost Hre1 E).
  - injection E as -> ->. destruct r as [[rn [v|]]|e|]; cbn in Hrow; auto.
Qed.

(** [Next] gives the first of the numbered values still to give. *)
Lemma Sync_Next_rows last c :
  syncInv last c -> readyInv c ->
  exists c',
    match restNumbered c with
    | [] => Sync.Next c = (c', Ok None)
    | tv :: tvs =>
        exists r, Sync.Next c = (c', Ok (Some r))
                  /\ numbered r = numberedFor (Sync.selectAs c) tv
                  /\ syncInv (ir_RowNumber r) c' /\ readyInv c'
                  /\ restNumbered c' = tvs /\ Sync.selectAs c' = Sync.selectAs c
    end.
Proof.
  intros Hinv Hre.
  destruct (next_total c) as (c1 & r & Ef & En & Hr).
  pose proof (next_fuel_values _ last c c1 r Hinv Hre Ef) as Hv.
  pose proof (next_fuel_rows _ last c c1 r Hinv Hre Ef) as Hw.
  unfold Sync.Next. rewrite En.
  destruct r as [[rn [v|]]|e|]; try contradiction.
  - destruct Hv as (Hvalid & Hlt & Hinv1 & Hre1 & Hrest & Hsel).
    rewrite Hw, Hvalid. cbn [negb].
    pose proof Hre1 as (_ & _ & _ & _ & _ & _ & (w & Hat)).
    unfold Sync.makeResult. cbv zeta. cbn [Entries with_RowNumber]. rewrite Hat.
    unfold entriesFor at 1. unfold numbered, numberedFor. cbn [fst snd]. rewrite <- Hsel.
    destruct (String.eqb (Sync.selectAs c1) EmptyString) eqn:Es.
    + set (a := with_RowNumber (Sync.at_ c1) rn).
      assert (Ha : Entries a = entriesFor (Sync.selectAs c1) v).
      { unfold a, entriesFor. cbn [Entries with_RowNumber]. rewrite Hat.
        unfold entriesFor. rewrite Es. reflexivity. }
      destruct (set_at_inv rn c1 a (Sync.selectAs c1) v Hinv1 Hre1 Ha) as (I1 & I2 & I3 & I4).
      exists (Sync.set_at_ c1 a), a. split_ands; auto.
      rewrite Ha. reflexivity.
    + set (a := mkResult rn [(Sync.selectAs c1, v)] (OtherEntries (with_RowNumber (Sync.at_ c1) rn))).
      assert (Ha : Entries a = entriesFor (Sync.selectAs c1) v).
      { unfold a, entriesFor. cbn [Entries]. rewrite Es. reflexivity. }
      destruct (set_at_inv rn c1 a (Sync.selectAs c1) v Hinv1 Hre1 Ha) as (I1 & I2 & I3 & I4).
      exists (Sync.set_at_ c1 a), a. split_ands; auto.
      rewrite Ha. reflexivity.
  - rewrite Hw, Hr. cbn. exists c1. reflexivity.
Qed.

Lemma Sync_results_rows : forall n last c,
  syncInv last c -> readyInv c ->
  map numbered (results Sync.Next n c)
  = map (numberedFor (Sync.selectAs c)) (firstn n (restNumbered c)).
Proof.
  induction n as [|n IH]; intros last c Hinv Hre; [reflexivity|].
  cbn [results]. destruct (Sync_Next_rows last c Hinv Hre) as (c' & Hn).
  destruct (restNumbered c) as [|tv tvs].
  - rewrite Hn. reflexivity.
  - destruct Hn as (r & -> & He & Hinv' & Hre' & Hrest & Hsel).
    cbn [map firstn]. rewrite He. f_equal.
    rewrite (IH _ c' Hinv' Hre'), Hrest, Hsel. reflexivity.
Qed.

(** A new iterator has the numbered values of all row groups still to
    give, counted from the row before the first. *)
Lemma NewSyncIterator_rows rgs column opts :
  Forall declaredOpt opts ->
  wellFormed column rgs ->
  restNumbered (Sync.NewSyncIterator rgs column opts)
  = columnNumbered (Sync.filter (Sync.NewSyncIterator rgs column opts))
                   (Sync.maxDefinitionLevel (Sync.NewSyncIterator rgs column opts))
                   column (-1) rgs.
Proof.
  intros Ho (Hok & Hsum).
  pose proof (chain_rowGroupBounds column rgs (-1) ltac:(lia) Hok ltac:(lia)) as Hch.
  change (rowAt (-1)) with EmptyRowNumber in Hch.
  unfold Sync.NewSyncIterator.
  destruct (Sync.rowGroupBounds EmptyRowNumber rgs) as [mins maxs]. cbn [fst] in Hch.
  match goal with
  | |- context [fold_left ?f opts ?i] =>
      destruct (declaredOpt_fields opts i Ho) as (E1 & E2 & E3 & E4);
      set (it := fold_left f opts i) in *
  end.
  cbn [Sync.column Sync.rgs Sync.rgsMin Sync.currRowGroup] in E1, E2, E3, E4.
  unfold restNumbered, nextStart.
  destruct (String.eqb (Sync.selectAs it) EmptyString); sync_proj;
    rewrite E1, E2, E3, E4; apply columnNumbered_start; exact Hch.
Qed.

(** X29. Under the conditions of X21, the results of [Next] are the
    values the filter keeps, in order, each with its row number and as the
    entry under the name selected, where the values of a page are numbered
    with [RowNumber.Next] from the row before the page, a page starts
    after the rows that the pages before it in the column chunk declare,
    and a row group after the rows that the row groups before it declare;
    the rows of the pages and column chunks that the filter turns down are
    counted all the same. *)
Theorem Sync_Next_row_numbers (rgs : list RowGroup) (column : nat)
        (opts : list Sync.SyncIteratorOpt) (n : nat) :
  Forall declaredOpt opts ->
  wellFormed column rgs ->
  readable column rgs ->
  (0 < Sync.readSize (Sync.NewSyncIterator rgs column opts))%nat ->
  map numbered (results Sync.Next n (Sync.NewSyncIterator rgs column opts))
  = map (numberedFor (Sync.selectAs (Sync.NewSyncIterator rgs column opts)))
        (firstn n (columnNumbered (Sync.filter (Sync.NewSyncIterator rgs column opts))
                     (Sync.maxDefinitionLevel (Sync.NewSyncIterator rgs column opts))
                     column (-1) rgs)).
Proof.
  intros Ho Hwf Hrd Hrs.
  destruct (NewSyncIterator_ready rgs column opts Ho Hrd Hrs) as (Hre & _).
  rewrite <- (NewSyncIterator_rows rgs column opts Ho Hwf).
  apply (Sync_results_rows n EmptyRowNumber).
  - apply NewSyncIterator_inv; assumption.
  - exact Hre.
Qed.

Lemma Sync_Next_row_numbers_witness :
  map numbered
      (results Sync.Next 3
         (Sync.NewSyncIterator twoRowGroups 0
            [Sync.SyncIteratorOptSelectAs "x";
             Sync.SyncIteratorOptPredicate (Some (equalsPredicate "c"))]))
  = [(mkRN 2 (-1) (-1) (-1) (-1) (-1) (-1) (-1), [("x", bytesValue "c")])]%string.
Proof.
  apply (Sync_Next_row_numbers twoRowGroups 0
           [Sync.SyncIteratorOptSelectAs "x"%string;
            Sync.SyncIteratorOptPredicate (Some (equalsPredicate "c"%string))] 3).
  - repeat constructor.
  - unfold wellFormed, rowGroupOK, chunkOK, readOK, pageOK, valueOK, twoRowGroups, MaxInt32.
    cbn. repeat split; repeat constructor; cbn; lia.
  - unfold readable, twoRowGroups. repeat constructor; eexists; (split; [reflexivity|]);
      repeat constructor.
  - cbn. lia.
Defined.

(* ------------------------------------------------------------------ *)
(** ** A filter only leaves results out *)

Lemma subseq_refl {A} (l : list A) : subseq l l.
Proof. induction l; constructor; assumption. Qed.

Lemma subseq_nil_l {A} (l : list A) : subseq [] l.
Proof. induction l; constructor; assumption. Qed.

Lemma subseq_app {A} (a b c d : list A) :
  subseq a b -> subseq c d -> subseq (a ++ c) (b ++ d).
Proof. intros Hab Hcd. induction Hab; cbn; try constructor; assumption. Qed.

Lemma subseq_filter {A} (p : A -> bool) (l : list A) : subseq (List.filter p l) l.
Proof.
  induction l as [|x l IH]; cbn; [constructor|].
  destruct (p x); constructor; assumption.
Qed.

Lemma subseq_firstn {A} (n : nat) (l : list A) : subseq (firstn n l) l.
Proof.
  revert n. induction l as [|x l IH]; intros [|n]; cbn; try constructor;
    auto using subseq_nil_l.
Qed.

Lemma subseq_trans {A} (l1 l2 l3 : list A) :
  subseq l1 l2 -> subseq l2 l3 -> subseq l1 l3.
Proof.
  intros H12 H23. revert l1 H12.
  induction H23 as [|x l2 l3 H23 IH|x l2 l3 H23 IH]; intros l1 H12.
  - exact H12.
  - inversion H12; subst; constructor; apply IH; assumption.
  - constructor. apply IH. exact H12.
Qed.

Lemma subseq_map {A B} (g : A -> B) (l1 l2 : list A) :
  subseq l1 l2 -> subseq (map g l1) (map g l2).
Proof. induction 1; cbn; constructor; assumption. Qed.

Lemma keptNumbered_None l : keptNumbered None l = l.
Proof.
  unfold keptNumbered. induction l as [|x l IH]; cbn; [reflexivity|]. f_equal. exact IH.
Qed.

Lemma chunkNumbered_subseq f m : forall cc row,
  subseq (chunkNumbered f m row cc) (chunkNumbered None m row cc).
Proof.
  induction cc as [|[p|err] cc IH]; intros row; cbn [chunkNumbered]; [constructor| |apply IH].
  apply subseq_app; [|apply IH].
  unfold pageNumbered. cbn [keepsPage]. rewrite keptNumbered_None.
  destruct (keepsPage f p); [apply subseq_filter|apply subseq_nil_l].
Qed.

Lemma columnNumbered_subseq f m column : forall rgs row,
  subseq (columnNumbered f m column row rgs) (columnNumbered None m column row rgs).
Proof.
  induction rgs as [|rg rgs IH]; intros row; cbn [columnNumbered]; [constructor|].
  apply subseq_app; [|apply IH].
  destruct (nth_error (rg_ColumnChunks rg) column) as [cc|]; [|constructor].
  cbn [keepsChunk].
  destruct (keepsChunk f cc); [apply chunkNumbered_subseq|apply subseq_nil_l].
Qed.

Lemma numberFrom_length m : forall vs t,
  (List.length (numberFrom m t vs) <= List.length vs)%nat.
Proof.
  induction vs as [|v vs IH]; intros t; cbn [numberFrom List.length]; [lia|].
  destruct (RowNumber_Next t (RepetitionLevel v) (DefinitionLevel v) m) as [t'|];
    cbn [List.length]; [specialize (IH t')|]; lia.
Qed.

Lemma filter_None (l : list Value) : List.filter (keepsValue None) l = l.
Proof. induction l as [|x l IH]; cbn; [reflexivity|]. f_equal. exact IH. Qed.

Lemma chunkNumbered_length m : forall cc row,
  (List.length (chunkNumbered None m row cc) <= List.length (chunkKept None cc))%nat.
Proof.
  induction cc as [|[p|err] cc IH]; intros row; cbn [chunkNumbered chunkKept]; [cbn; lia| |apply IH].
  rewrite !length_app. unfold pageNumbered, pageKept. cbn [keepsPage].
  rewrite keptNumbered_None, filter_None.
  pose proof (numberFrom_length m (page_values p) (mkRN row (-1) (-1) (-1) (-1) (-1) (-1) (-1))).
  specialize (IH (row + page_NumRows p)). lia.
Qed.

Lemma columnNumbered_length m column : forall rgs row,
  (List.length (columnNumbered None m column row rgs)
   <= List.length (columnKept None column rgs))%nat.
Proof.
  induction rgs as [|rg rgs IH]; intros row; [cbn; lia|].
  cbn [columnNumbered]. unfold columnKept. cbn [map List.concat].
  fold (columnKept None column rgs). rewrite !length_app. unfold rowGroupKept.
  specialize (IH (row + rg_NumRows rg)).
  destruct (nth_error (rg_ColumnChunks rg) column) as [cc|]; cbn [keepsChunk List.length]; [|lia].
  pose proof (chunkNumbered_length m cc row). lia.
Qed.

(** X30. A filter only leaves results out: under the conditions of X21
    for both, the results of an iterator with a filter, each with its row
    number and its entries, are results of the iterator without filter
    over the same row groups and column, with the same name selected and
    the same maximum definition level, in the same order.  [n] is any
    number of calls of [Next] on the first; the second is read to its
    end. *)
Theorem Sync_filter_leaves_out (rgs : list RowGroup) (column : nat)
        (opts opts0 : list Sync.SyncIteratorOpt) (n : nat) :
  Forall declaredOpt opts ->
  Forall declaredOpt opts0 ->
  wellFormed column rgs ->
  readable column rgs ->
  (0 < Sync.readSize (Sync.NewSyncIterator rgs column opts))%nat ->
  (0 < Sync.readSize (Sync.NewSyncIterator rgs column opts0))%nat ->
  Sync.filter (Sync.NewSyncIterator rgs column opts0) = None ->
  Sync.selectAs (Sync.NewSyncIterator rgs column opts)
  = Sync.selectAs (Sync.NewSyncIterator rgs column opts0) ->
  Sync.maxDefinitionLevel (Sync.NewSyncIterator rgs column opts)
  = Sync.maxDefinitionLevel (Sync.NewSyncIterator rgs column opts0) ->
  subseq (map numbered (results Sync.Next n (Sync.NewSyncIterator rgs column opts)))
         (map numbered (results Sync.Next (List.length (columnKept None column rgs))
                          (Sync.NewSyncIterator rgs column opts0))).
Proof.
  intros Ho Ho0 Hwf Hrd Hrs Hrs0 Hf Hsel Hmax.
  destruct (NewSyncIterator_ready rgs column opts Ho Hrd Hrs) as (Hre & _).
  destruct (NewSyncIterator_ready rgs column opts0 Ho0 Hrd Hrs0) as (Hre0 & _).
  rewrite (Sync_results_rows n EmptyRowNumber _
             (NewSyncIterator_inv rgs column opts Ho Hwf) Hre).
  rewrite (Sync_results_rows _ EmptyRowNumber _
             (NewSyncIterator_inv rgs column opts0 Ho0 Hwf) Hre0).
  rewrite (NewSyncIterator_rows rgs column opts Ho Hwf).
  rewrite (NewSyncIterator_rows rgs column opts0 Ho0 Hwf).
  rewrite Hf, <- Hsel, <- Hmax.
  rewrite (firstn_all2 (n := List.length (columnKept None column rgs)))
    by apply columnNumbered_length.
  apply subseq_map.
  eapply subseq_trans; [apply subseq_firstn|apply columnNumbered_subseq].
Qed.

Lemma Sync_filter_leaves_out_witness :
  subseq (map numbered
            (results Sync.Next 3
               (Sync.NewSyncIterator twoRowGroups 0
                  [Sync.SyncIteratorOptSelectAs "x";
                   Sync.SyncIteratorOptPredicate (Some (equalsPredicate "c"))])))
         (map numbered
            (results Sync.Next 3
               (Sync.NewSyncIterator twoRowGroups 0 [Sync.SyncIteratorOptSelectAs "x"])))%string.
Proof.
  apply (Sync_filter_leaves_out twoRowGroups 0
           [Sync.SyncIteratorOptSelectAs "x"%string;
            Sync.SyncIteratorOptPredicate (Some (equalsPredicate "c"%string))]
           [Sync.SyncIteratorOptSelectAs "x"%string] 3).
  - repeat constructor.
  - repeat constructor.
  - unfold wellFormed, rowGroupOK, chunkOK, readOK, pageOK, valueOK, twoRowGroups, MaxInt32.
    cbn. repeat split; repeat constructor; cbn; lia.
  - unfold readable, twoRowGroups. repeat constructor; eexists; (split; [reflexivity|]);
      repeat constructor.
  - cbn. lia.
  - cbn. lia.
  - reflexivity.
  - reflexivity.
  - reflexivity.
Defined.
